(** * webmcp-extend: crawling, DOM extraction, proposal parsing, session
    recording, and the generation of tool code and manifests

  A shallow embedding of the TypeScript sources

    - [src/analysis/crawl.ts]         (module [Crawl])
    - [src/analysis/extract-dom.ts]   (module [ExtractDom])
    - [src/analysis/propose-tools.ts] (module [ProposeTools])
    - [src/session/session.ts]        (module [Session])
    - [src/session/convert.ts]        (module [Convert])
    - [src/generator/generate-tools.ts]    (module [GenerateTools])
    - [src/generator/generate-manifest.ts] (module [GenerateManifest])

  together with the platform facilities they lean on: ECMAScript
  regular expressions (module [Regex]), [JSON.parse] /
  [JSON.stringify] (module [Json]) and plain objects used as records
  (module [Obj]).  The browser is an argument of the functions that
  drive one: what it shows and what it throws is given by a record of
  the environment.

  Text is carried by [string]; a character stands for one code unit.
  The platform functions are modelled exactly on ASCII text: case
  mapping touches the letters a-z / A-Z only and white space is the
  ASCII white space. *)

From Stdlib Require Import Bool Arith Lia List Ascii String NArith ZArith Permutation.
Import ListNotations.
Local Open Scope list_scope.
Local Open Scope string_scope.
Local Open Scope nat_scope.

Set Implicit Arguments.
Set Warnings "-register-all".

(** ** Strings as the platform sees them *)

Module Str.

Definition chr (n : nat) : ascii := ascii_of_nat n.
Definition code (c : ascii) : nat := nat_of_ascii c.

Definition LF : ascii := chr 10.
Definition CR : ascii := chr 13.
Definition TAB : ascii := chr 9.
Definition VT : ascii := chr 11.
Definition FF : ascii := chr 12.
Definition BS : ascii := chr 8.
Definition DQ : ascii := chr 34.      (* the double quote *)
Definition BSL : ascii := chr 92.     (* the backslash *)
Definition nl : string := String LF EmptyString.
Definition q : string := String DQ EmptyString.     (* a one-quote text *)
Definition bsl : string := String BSL EmptyString.

Definition between (lo hi : nat) (c : ascii) : bool :=
  (lo <=? code c) && (code c <=? hi).

Definition is_upper (c : ascii) : bool := between 65 90 c.
Definition is_lower (c : ascii) : bool := between 97 122 c.
Definition is_digit (c : ascii) : bool := between 48 57 c.

(** [\w] *)
Definition is_word (c : ascii) : bool :=
  is_upper c || is_lower c || is_digit c || (code c =? 95).

(** [\s], and the characters [String.prototype.trim] strips. *)
Definition is_space (c : ascii) : bool :=
  between 9 13 c || (code c =? 32).

(** Line terminators, which [.] does not match. *)
Definition is_line_terminator (c : ascii) : bool :=
  (code c =? 10) || (code c =? 13).

Definition upper_char (c : ascii) : ascii :=
  if is_lower c then chr (code c - 32) else c.
Definition lower_char (c : ascii) : ascii :=
  if is_upper c then chr (code c + 32) else c.

Fixpoint map_chars (f : ascii -> ascii) (s : string) : string :=
  match s with
  | EmptyString => EmptyString
  | String c s' => String (f c) (map_chars f s')
  end.

Definition toUpperCase : string -> string := map_chars upper_char.
Definition toLowerCase : string -> string := map_chars lower_char.

Fixpoint rev_acc (s acc : string) : string :=
  match s with
  | EmptyString => acc
  | String c s' => rev_acc s' (String c acc)
  end.
Definition rev (s : string) : string := rev_acc s EmptyString.

Fixpoint trimStart (s : string) : string :=
  match s with
  | EmptyString => EmptyString
  | String c s' => if is_space c then trimStart s' else s
  end.

Definition trimEnd (s : string) : string := rev (trimStart (rev s)).

(** [s.trim()] *)
Definition trim (s : string) : string := trimEnd (trimStart s).

(** [s.slice(0, n)] for a non-negative [n]. *)
Fixpoint take (n : nat) (s : string) : string :=
  match n, s with
  | O, _ => EmptyString
  | _, EmptyString => EmptyString
  | S n', String c s' => String c (take n' s')
  end.

Fixpoint drop (n : nat) (s : string) : string :=
  match n, s with
  | O, _ => s
  | _, EmptyString => EmptyString
  | S n', String _ s' => drop n' s'
  end.

(** [parts.join(sep)] *)
Fixpoint join (sep : string) (parts : list string) : string :=
  match parts with
  | [] => EmptyString
  | [p] => p
  | p :: rest => p ++ sep ++ join sep rest
  end.

(** Truthiness of a string value: the empty string is falsy. *)
Definition nonempty (s : string) : bool :=
  match s with EmptyString => false | _ => true end.

(** Truthiness of an optional string: [undefined] and [""] are falsy. *)
Definition truthy (o : option string) : bool :=
  match o with Some s => nonempty s | None => false end.

(** [o ?? d] *)
Definition orElse (o : option string) (d : string) : string :=
  match o with Some s => s | None => d end.

(** A template literal's rendering of an optional string. *)
Definition show (o : option string) : string := orElse o "undefined".

Fixpoint starts_with (p s : string) : bool :=
  match p, s with
  | EmptyString, _ => true
  | String a p', String b s' => Ascii.eqb a b && starts_with p' s'
  | _, _ => false
  end.

Fixpoint contains (p s : string) : bool :=
  starts_with p s ||
  match s with
  | EmptyString => false
  | String _ s' => contains p s'
  end.

Fixpoint last_char (s : string) : option ascii :=
  match s with
  | EmptyString => None
  | String c EmptyString => Some c
  | String _ s' => last_char s'
  end.

(** A run of word characters, and the split of a text after its leading
    run of them. *)
Fixpoint all_word (s : string) : bool :=
  match s with
  | EmptyString => true
  | String c s' => is_word c && all_word s'
  end.

Fixpoint word_split (s : string) : string * string :=
  match s with
  | EmptyString => (EmptyString, EmptyString)
  | String c s' =>
      if is_word c then let (w, r) := word_split s' in (String c w, r)
      else (EmptyString, s)
  end.

Definition string_in (s : string) (l : list string) : bool :=
  existsb (String.eqb s) l.

(** Decimal rendering of a natural number, as [`${i}`] gives for an
    array index. *)
Fixpoint nat_digits (fuel n : nat) (acc : string) : string :=
  match fuel with
  | O => acc
  | S fuel' =>
      let acc' := String (chr (48 + n mod 10)) acc in
      if n / 10 =? 0 then acc' else nat_digits fuel' (n / 10) acc'
  end.
Definition of_nat (n : nat) : string := nat_digits (S n) n EmptyString.

End Str.

(** ** ECMAScript regular expressions (backtracking semantics) *)

Module Regex.
Import Str.

(** Character classes. *)
Inductive cclass : Type :=
| CChar (c : ascii)              (* a literal character *)
| CRange (lo hi : ascii)         (* [lo-hi] *)
| CWord                          (* \w *)
| CSpace                         (* \s *)
| CAll                           (* [\s\S] *)
| CDot                           (* .  *)
| COneOf (cs : list cclass)      (* [...] *)
| CNoneOf (cs : list cclass).    (* [^...] *)

Inductive regex : Type :=
| REmpty
| RSet (k : cclass)
| RSeq (a b : regex)
| RAlt (a b : regex)
| RStar (greedy : bool) (r : regex)
| RGroup (n : nat) (r : regex)   (* the n-th capturing group *)
| RBackref (n : nat)             (* \n *)
| RNotAhead (r : regex)          (* (?!r) *)
| RWordBoundary                  (* \b *)
| RStart.                        (* ^ *)

(** Surface syntax helpers. *)
Fixpoint lit (s : string) : regex :=
  match s with
  | EmptyString => REmpty
  | String c EmptyString => RSet (CChar c)
  | String c s' => RSeq (RSet (CChar c)) (lit s')
  end.
Definition opt (r : regex) : regex := RAlt r REmpty.          (* r? *)
Definition star (r : regex) : regex := RStar true r.           (* r* *)
Definition lazy_star (r : regex) : regex := RStar false r.     (* r*? *)
Definition plus (r : regex) : regex := RSeq r (RStar true r).  (* r+ *)
Fixpoint seq (rs : list regex) : regex :=
  match rs with
  | [] => REmpty
  | [r] => r
  | r :: rest => RSeq r (seq rest)
  end.
Definition ch (c : string) : cclass :=
  match c with String a _ => CChar a | EmptyString => CChar zero end.

(** Flags: only [i] changes what a single match is. *)
Definition canon (ci : bool) (c : ascii) : ascii :=
  if ci then upper_char c else c.

Fixpoint class_matches (ci : bool) (k : cclass) (c : ascii) : bool :=
  match k with
  | CChar a => Ascii.eqb (canon ci a) (canon ci c)
  | CRange lo hi =>
      between (code lo) (code hi) c
      || (ci && (between (code lo) (code hi) (upper_char c)
                 || between (code lo) (code hi) (lower_char c)))
  | CWord => is_word c
  | CSpace => is_space c
  | CAll => true
  | CDot => negb (is_line_terminator c)
  | COneOf cs => existsb (fun k' => class_matches ci k' c) cs
  | CNoneOf cs => negb (existsb (fun k' => class_matches ci k' c) cs)
  end.

Definition captures := list (nat * string).

Fixpoint capture (n : nat) (caps : captures) : option string :=
  match caps with
  | [] => None
  | (m, s) :: rest => if n =? m then Some s else capture n rest
  end.

(** [strip_prefix ci p s]: [s] without its prefix [p], compared under
    the flag's canonicalisation. *)
Fixpoint strip_prefix (ci : bool) (p s : string) : option string :=
  match p, s with
  | EmptyString, _ => Some s
  | String a p', String b s' =>
      if Ascii.eqb (canon ci a) (canon ci b) then strip_prefix ci p' s' else None
  | _, _ => None
  end.

Definition or_else {A} (x : option A) (y : option A) : option A :=
  match x with Some _ => x | None => y end.

Definition is_word_opt (o : option ascii) : bool :=
  match o with Some c => is_word c | None => false end.
Definition head (s : string) : option ascii :=
  match s with String c _ => Some c | EmptyString => None end.

(** The backtracking matcher, in continuation-passing style.  A position
    is the character before it ([prev], for [\b] and [^]) and the text
    after it.  A star makes at most one iteration per remaining character,
    since an iteration that consumes nothing is rejected; the counter of
    its loop starts at the length of the remaining text and is therefore
    never the reason a match is missed.  No pattern of the sources puts a
    capturing group under a star. *)
Definition cont (R : Type) := option ascii -> string -> captures -> option R.

Fixpoint m (ci : bool) (R : Type) (r : regex) (prev : option ascii) (s : string)
         (caps : captures) (k : cont R) {struct r} : option R :=
  match r with
  | REmpty => k prev s caps
  | RSet cl =>
      match s with
      | String c s' => if class_matches ci cl c then k (Some c) s' caps else None
      | EmptyString => None
      end
  | RSeq a b => m ci a prev s caps (fun p1 s1 c1 => m ci b p1 s1 c1 k)
  | RAlt a b => or_else (m ci a prev s caps k) (m ci b prev s caps k)
  | RStar greedy body =>
      (fix loop (fuel : nat) (prev : option ascii) (s : string)
                (caps : captures) {struct fuel} : option R :=
         match fuel with
         | O => k prev s caps
         | S fuel' =>
             let again :=
               m ci body prev s caps
                 (fun p1 s1 c1 =>
                    if String.length s1 <? String.length s
                    then loop fuel' p1 s1 c1 else None) in
             if greedy then or_else again (k prev s caps)
             else or_else (k prev s caps) again
         end) (String.length s) prev s caps
  | RGroup n body =>
      m ci body prev s caps
        (fun p1 s1 c1 =>
           k p1 s1 ((n, take (String.length s - String.length s1) s) :: c1))
  | RBackref n =>
      match capture n caps with
      | None => k prev s caps
      | Some t =>
          match strip_prefix ci t s with
          | Some s' =>
              k (match last_char (take (String.length t) s) with
                 | Some c => Some c
                 | None => prev
                 end) s' caps
          | None => None
          end
      end
  | RNotAhead body =>
      match m ci body prev s caps (fun _ _ _ => Some tt) with
      | Some _ => None
      | None => k prev s caps
      end
  | RWordBoundary =>
      if xorb (is_word_opt prev) (is_word_opt (head s)) then k prev s caps else None
  | RStart =>
      match prev with None => k prev s caps | Some _ => None end
  end.

(** The result of one successful match. *)
Record match_result : Type := MatchResult {
  m_index : nat;          (* where the match starts *)
  m_text : string;        (* match[0] *)
  m_caps : captures;      (* the groups that took part *)
  m_rest : string         (* the text after the match *)
}.

(** [match[n]] for [n >= 1]; [None] is [undefined]. *)
Definition group (n : nat) (r : match_result) : option string :=
  capture n (m_caps r).

Definition match_here (ci : bool) (re : regex) (prev : option ascii) (s : string)
  : option (string * captures * string) :=
  m ci re prev s []
    (fun _ s1 c1 => Some (take (String.length s - String.length s1) s, c1, s1)).

(** Leftmost match at or after the current position. *)
Fixpoint search (ci : bool) (re : regex) (idx : nat) (prev : option ascii)
         (s : string) : option match_result :=
  match match_here ci re prev s with
  | Some (t, c, rest) => Some (MatchResult idx t c rest)
  | None =>
      match s with
      | EmptyString => None
      | String a s' => search ci re (S idx) (Some a) s'
      end
  end.

(** [re.exec(s)] on a fresh regex, and [s.match(re)] without the [g] flag. *)
Definition exec (ci : bool) (re : regex) (s : string) : option match_result :=
  search ci re 0 None s.

(** All matches of a [g] regex, left to right, each search resuming where
    the previous match ended (after an empty match, one character on). *)
Fixpoint all_from (ci : bool) (re : regex) (fuel idx : nat) (prev : option ascii)
         (s : string) : list match_result :=
  match fuel with
  | O => []
  | S fuel' =>
      match search ci re idx prev s with
      | None => []
      | Some r =>
          let stop := m_index r + String.length (m_text r) in
          match m_text r, m_rest r with
          | EmptyString, EmptyString => [r]
          | EmptyString, String a rest' =>
              r :: all_from ci re fuel' (S stop) (Some a) rest'
          | _, rest' =>
              r :: all_from ci re fuel' stop (last_char (m_text r)) rest'
          end
      end
  end.

Definition exec_all (ci : bool) (re : regex) (s : string) : list match_result :=
  all_from ci re (S (String.length s)) 0 None s.

(** [s.replace(re, f)] for a [g] regex: the text between the matches is
    kept, each match is replaced by what [f] makes of it. *)
Fixpoint splice (f : match_result -> string) (pos : nat) (s : string)
         (ms : list match_result) : string :=
  match ms with
  | [] => s
  | r :: rest =>
      let gap := m_index r - pos in
      let len := String.length (m_text r) in
      take gap s ++ f r ++ splice f (m_index r + len) (drop (gap + len) s) rest
  end.

Definition replace_all (ci : bool) (re : regex) (f : match_result -> string)
           (s : string) : string :=
  splice f 0 s (exec_all ci re s).

(** [s.replace(re, f)] without the [g] flag: the first match only. *)
Definition replace_first (ci : bool) (re : regex) (f : match_result -> string)
           (s : string) : string :=
  match exec ci re s with
  | None => s
  | Some r => splice f 0 s [r]
  end.

(** Two syntactic classes of patterns: those that can only consume word
    characters and capture nothing, and those without the capturing group
    [n]. *)
Fixpoint word_only (r : regex) : bool :=
  match r with
  | REmpty => true
  | RSet CWord => true
  | RSeq a b | RAlt a b => word_only a && word_only b
  | RStar _ a => word_only a
  | _ => false
  end.

Fixpoint without_group (n : nat) (r : regex) : bool :=
  match r with
  | RGroup g a => negb (n =? g) && without_group n a
  | RSeq a b | RAlt a b => without_group n a && without_group n b
  | RStar _ a => without_group n a
  | _ => true
  end.

End Regex.

(** ** JSON: [JSON.stringify] on strings and [JSON.parse] *)

Module Json.
Import Str.

Definition hex_digit (n : nat) : ascii :=
  if n <? 10 then chr (48 + n) else chr (87 + n).

(** [QuoteJSONString], one code unit at a time. *)
Definition quote_char (c : ascii) : string :=
  let n := code c in
  if n =? 8 then bsl ++ "b"
  else if n =? 9 then bsl ++ "t"
  else if n =? 10 then bsl ++ "n"
  else if n =? 12 then bsl ++ "f"
  else if n =? 13 then bsl ++ "r"
  else if n =? 34 then bsl ++ q
  else if n =? 92 then bsl ++ bsl
  else if n <? 32 then
    bsl ++ "u00" ++ String (hex_digit (n / 16)) (String (hex_digit (n mod 16)) EmptyString)
  else String c EmptyString.

Fixpoint quote_chars (s : string) : string :=
  match s with
  | EmptyString => EmptyString
  | String c s' => quote_char c ++ quote_chars s'
  end.

(** [JSON.stringify(s)] for a string [s]. *)
Definition stringify (s : string) : string := q ++ quote_chars s ++ q.

(** Decoded JSON text is a sequence of code units: a [\uXXXX] escape can
    name any of them. *)
Definition units := list N.

Definition unit_of (c : ascii) : N := N.of_nat (code c).

Fixpoint units_of (s : string) : units :=
  match s with
  | EmptyString => []
  | String c s' => unit_of c :: units_of s'
  end.

Definition units_eqb (a b : units) : bool :=
  if list_eq_dec N.eq_dec a b then true else false.

(** The code unit that four hexadecimal digits name. *)
Definition hex4 (a b c d : nat) : N :=
  (((N.of_nat a * 16 + N.of_nat b) * 16 + N.of_nat c) * 16 + N.of_nat d)%N.

(** JSON values.  A number keeps its lexeme; an object keeps its members
    in source order, duplicates included. *)
Inductive json : Type :=
| JNull
| JBool (b : bool)
| JNumber (lexeme : string)
| JString (s : units)
| JArray (items : list json)
| JObject (members : list (units * json)).

Definition is_json_ws (c : ascii) : bool :=
  let n := code c in (n =? 32) || (n =? 9) || (n =? 10) || (n =? 13).

Fixpoint skip_ws (s : string) : string :=
  match s with
  | String c s' => if is_json_ws c then skip_ws s' else s
  | EmptyString => EmptyString
  end.

Definition hex_value (c : ascii) : option nat :=
  let n := code c in
  if is_digit c then Some (n - 48)
  else if between 97 102 c then Some (n - 87)
  else if between 65 70 c then Some (n - 55)
  else None.

(** The characters of a string literal after its opening quote. *)
Fixpoint parse_string_body (s : string) (acc : units) : option (units * string) :=
  match s with
  | EmptyString => None
  | String c s' =>
      let n := code c in
      if n =? 34 then Some (List.rev acc, s')
      else if n =? 92 then
        match s' with
        | String e s2 =>
            let en := code e in
            if en =? 34 then parse_string_body s2 (34%N :: acc)
            else if en =? 92 then parse_string_body s2 (92%N :: acc)
            else if en =? 47 then parse_string_body s2 (47%N :: acc)
            else if en =? 98 then parse_string_body s2 (8%N :: acc)
            else if en =? 102 then parse_string_body s2 (12%N :: acc)
            else if en =? 110 then parse_string_body s2 (10%N :: acc)
            else if en =? 114 then parse_string_body s2 (13%N :: acc)
            else if en =? 116 then parse_string_body s2 (9%N :: acc)
            else if en =? 117 then
              match s2 with
              | String h1 (String h2 (String h3 (String h4 s3))) =>
                  match hex_value h1, hex_value h2, hex_value h3, hex_value h4 with
                  | Some a, Some b, Some c', Some d =>
                      parse_string_body s3 (hex4 a b c' d :: acc)
                  | _, _, _, _ => None
                  end
              | _ => None
              end
            else None
        | EmptyString => None
        end
      else if n <? 32 then None
      else parse_string_body s' (unit_of c :: acc)
  end.

Fixpoint take_digits (s : string) : string * string :=
  match s with
  | String c s' =>
      if is_digit c then let (d, r) := take_digits s' in (String c d, r)
      else (EmptyString, s)
  | EmptyString => (EmptyString, EmptyString)
  end.

(** A number: an optional minus sign, an integer part without a leading
    zero, an optional fraction and an optional exponent. *)
Definition parse_number (s : string) : option (string * string) :=
  let (sign, s1) :=
    match s with
    | String c s' => if code c =? 45 then ("-", s') else ("", s)
    | EmptyString => ("", s)
    end in
  let (int, s2) := take_digits s1 in
  match int with
  | EmptyString => None
  | String d rest =>
      if (code d =? 48) && nonempty rest then None
      else
        let frac :=
          match s2 with
          | String c s3 =>
              if code c =? 46 then
                let (f, s4) := take_digits s3 in
                if nonempty f then Some ("." ++ f, s4) else None
              else Some ("", s2)
          | EmptyString => Some ("", s2)
          end in
        match frac with
        | None => None
        | Some (f, s5) =>
            let exp :=
              match s5 with
              | String c s6 =>
                  if (code c =? 101) || (code c =? 69) then
                    let (sg, s7) :=
                      match s6 with
                      | String g s8 =>
                          if (code g =? 43) || (code g =? 45)
                          then (String g EmptyString, s8) else ("", s6)
                      | EmptyString => ("", s6)
                      end in
                    let (e, s9) := take_digits s7 in
                    if nonempty e then Some (String c sg ++ e, s9) else None
                  else Some ("", s5)
              | EmptyString => Some ("", s5)
              end in
            match exp with
            | None => None
            | Some (e, s10) => Some (sign ++ int ++ f ++ e, s10)
            end
        end
  end.

(** One value, then the items of an array after its opening bracket and the
    members of an object after its opening brace.  The counter bounds the
    nesting and the number of items, both below the length of the text. *)
Fixpoint parse_value (fuel : nat) (s : string) : option (json * string) :=
  match fuel with
  | O => None
  | S fuel' =>
      let items :=
        fix items (n : nat) (s : string) (acc : list json) : option (json * string) :=
          match n with
          | O => None
          | S n' =>
              match parse_value fuel' (skip_ws s) with
              | None => None
              | Some (v, r) =>
                  match skip_ws r with
                  | String c r' =>
                      if code c =? 44 then items n' r' (v :: acc)
                      else if code c =? 93 then Some (JArray (List.rev (v :: acc)), r')
                      else None
                  | EmptyString => None
                  end
              end
          end in
      let members :=
        fix members (n : nat) (s : string) (acc : list (units * json))
          : option (json * string) :=
          match n with
          | O => None
          | S n' =>
              match skip_ws s with
              | String c0 s0 =>
                  if code c0 =? 34 then
                    match parse_string_body s0 [] with
                    | None => None
                    | Some (key, r0) =>
                        match skip_ws r0 with
                        | String c1 r1 =>
                            if code c1 =? 58 then
                              match parse_value fuel' (skip_ws r1) with
                              | None => None
                              | Some (v, r) =>
                                  match skip_ws r with
                                  | String c r' =>
                                      if code c =? 44 then members n' r' ((key, v) :: acc)
                                      else if code c =? 125
                                      then Some (JObject (List.rev ((key, v) :: acc)), r')
                                      else None
                                  | EmptyString => None
                                  end
                              end
                            else None
                        | EmptyString => None
                        end
                    end
                  else None
              | EmptyString => None
              end
          end in
      match s with
      | EmptyString => None
      | String c s' =>
          let n := code c in
          if n =? 34 then
            match parse_string_body s' [] with
            | Some (u, r) => Some (JString u, r)
            | None => None
            end
          else if n =? 91 then
            match skip_ws s' with
            | String c1 r1 =>
                if code c1 =? 93 then Some (JArray [], r1)
                else items (String.length s) s' []
            | EmptyString => None
            end
          else if n =? 123 then
            match skip_ws s' with
            | String c1 r1 =>
                if code c1 =? 125 then Some (JObject [], r1)
                else members (String.length s) s' []
            | EmptyString => None
            end
          else if starts_with "true" s then Some (JBool true, drop 4 s)
          else if starts_with "false" s then Some (JBool false, drop 5 s)
          else if starts_with "null" s then Some (JNull, drop 4 s)
          else
            match parse_number s with
            | Some (lexeme, r) => Some (JNumber lexeme, r)
            | None => None
            end
      end
  end.

(** [JSON.parse(text)]; [None] stands for the [SyntaxError] it throws. *)
Definition parse (text : string) : option json :=
  match parse_value (S (String.length text)) (skip_ws text) with
  | Some (v, r) =>
      match skip_ws r with
      | EmptyString => Some v
      | _ => None
      end
  | None => None
  end.

(** Reading the property [key] of a parsed object: the last member of
    that name is the one the object holds. *)
Fixpoint get (key : units) (members : list (units * json)) : option json :=
  match members with
  | [] => None
  | (k, v) :: rest =>
      match get key rest with
      | Some v' => Some v'
      | None => if units_eqb k key then Some v else None
      end
  end.

End Json.

(** ** String literals of the generated language *)

Module JsSyntax.
Import Str Json.

(** The code units of a code point: itself, or a surrogate pair. *)
Definition surrogates (cp : N) : units :=
if (cp <? 65536)%N then [cp]
else [(55296 + (cp - 65536) / 1024)%N; (56320 + (cp - 65536) mod 1024)%N].

(** [lex_chars s acc]: the characters of a double-quoted string literal
    after its opening quote, in strict code.  The result is the string value
    the literal denotes, as code units, and the text after its closing quote;
    [None] when the text is no string literal (it is not closed before the
    end of its line, or holds a malformed escape). *)
Fixpoint lex_chars (s : string) (acc : units) : option (units * string) :=
match s with
| EmptyString => None
| String c s' =>
    let n := code c in
    if n =? 34 then Some (List.rev acc, s')
    else if is_line_terminator c then None
    else if n =? 92 then
      match s' with
      | EmptyString => None
      | String e s2 =>
          let en := code e in
          if en =? 98 then lex_chars s2 (8%N :: acc)
          else if en =? 116 then lex_chars s2 (9%N :: acc)
          else if en =? 110 then lex_chars s2 (10%N :: acc)
          else if en =? 118 then lex_chars s2 (11%N :: acc)
          else if en =? 102 then lex_chars s2 (12%N :: acc)
          else if en =? 114 then lex_chars s2 (13%N :: acc)
          else if en =? 48 then
            match s2 with
            | String d _ => if is_digit d then None else lex_chars s2 (0%N :: acc)
            | EmptyString => None
            end
          else if is_digit e then None
          else if en =? 120 then
            match s2 with
            | String h1 (String h2 s3) =>
                match hex_value h1, hex_value h2 with
                | Some a, Some b => lex_chars s3 (hex4 0 0 a b :: acc)
                | _, _ => None
                end
            | _ => None
            end
          else if en =? 117 then
            match s2 with
            | String h1 s3 =>
                if code h1 =? 123 then
                  (fix digits (t : string) (cp : N) (count : nat) {struct t}
                     : option (units * string) :=
                     match t with
                     | EmptyString => None
                     | String h t' =>
                         if code h =? 125 then
                           if (0 <? count) && (cp <? 1114112)%N
                           then lex_chars t' (List.rev (surrogates cp) ++ acc)%list
                           else None
                         else
                           match hex_value h with
                           | Some v =>
                               if (cp <? 1114112)%N
                               then digits t' (cp * 16 + N.of_nat v)%N (S count)
                               else None
                           | None => None
                           end
                     end) s3 0%N 0
                else
                  match s3 with
                  | String h2 (String h3 (String h4 s4)) =>
                      match hex_value h1, hex_value h2, hex_value h3, hex_value h4 with
                      | Some a, Some b, Some c', Some d =>
                          lex_chars s4 (hex4 a b c' d :: acc)
                      | _, _, _, _ => None
                      end
                  | _ => None
                  end
            | EmptyString => None
            end
          else if en =? 10 then lex_chars s2 acc
          else if en =? 13 then
            match s2 with
            | String l s3 => if code l =? 10 then lex_chars s3 acc else lex_chars s2 acc
            | EmptyString => None
            end
          else lex_chars s2 (unit_of e :: acc)
      end
    else lex_chars s' (unit_of c :: acc)
end.

(** A text that starts with a double-quoted string literal: the value of
    the literal and the text that follows it. *)
Definition string_literal (text : string) : option (units * string) :=
match text with
| String c rest => if code c =? 34 then lex_chars rest [] else None
| EmptyString => None
end.

(** [text] without the given beginning. *)
Fixpoint after (beginning text : string) : option string :=
match beginning, text with
| EmptyString, _ => Some text
| String a b', String c t' => if Ascii.eqb a c then after b' t' else None
| _, _ => None
end.

End JsSyntax.

(** ** Plain objects used as string-keyed records *)

Module Obj.
Import Str.

(** A [Record<string, V>]: its own properties in enumeration order,
    which is what [Object.entries] and [Object.keys] walk.  Keys that are
    array indices come first, in ascending order; the other keys follow in
    the order they were first set. *)
Definition t (V : Type) := list (string * V).

Fixpoint all_digits (s : string) : bool :=
  match s with
  | EmptyString => true
  | String c s' => is_digit c && all_digits s'
  end.

Fixpoint digits_value (s : string) (acc : N) : N :=
  match s with
  | EmptyString => acc
  | String c s' => digits_value s' (acc * 10 + N.of_nat (code c - 48))%N
  end.

(** An array index: a canonical decimal numeral below 2^32 - 1. *)
Definition array_index (k : string) : option N :=
  match k with
  | EmptyString => None
  | String c rest =>
      if all_digits k && negb ((code c =? 48) && nonempty rest)
         && (String.length k <=? 10)
      then
        let v := digits_value k 0%N in
        if (v <? 4294967295)%N then Some v else None
      else None
  end.

Fixpoint has {V} (k : string) (o : t V) : bool :=
  match o with
  | [] => false
  | (k', _) :: rest => String.eqb k k' || has k rest
  end.

Fixpoint get {V} (k : string) (o : t V) : option V :=
  match o with
  | [] => None
  | (k', v) :: rest => if String.eqb k k' then Some v else get k rest
  end.

Fixpoint replace {V} (k : string) (v : V) (o : t V) : t V :=
  match o with
  | [] => []
  | (k', v') :: rest =>
      if String.eqb k k' then (k', v) :: rest else (k', v') :: replace k v rest
  end.

(** Where a new index key goes: before the first key that is not an index
    or is a larger one. *)
Fixpoint insert_index {V} (i : N) (k : string) (v : V) (o : t V) : t V :=
  match o with
  | [] => [(k, v)]
  | (k', v') :: rest =>
      match array_index k' with
      | Some j => if (j <? i)%N then (k', v') :: insert_index i k v rest
                  else (k, v) :: o
      | None => (k, v) :: o
      end
  end.

(** [o[k] = v].  Assigning to the key [__proto__] creates no own
    property. *)
Definition set {V} (k : string) (v : V) (o : t V) : t V :=
  if String.eqb k "__proto__" then o
  else if has k o then replace k v o
  else match array_index k with
       | Some i => insert_index i k v o
       | None => (o ++ [(k, v)])%list
       end.

Definition keys {V} (o : t V) : list string := map fst o.

End Obj.

(** ** [src/analysis/extract-dom.ts] *)

Module ExtractDom.
Import Str Regex.

(** *** Types ([src/analysis/types.ts]) *)

(** The fields of an accessibility node that extraction reads. *)
Inductive AccessibilityNode : Type :=
| Node (role : string) (name : option string) (value : option string)
       (children : list AccessibilityNode).

Record PageSnapshot : Type := {
  url : string;
  title : string;
  bodyHTML : string;
  accessibilityTree : option AccessibilityNode;
  timestamp : Z;
  stepIndex : Z
}.

Inductive RegionType : Type :=
| nav | main | sidebar | modal | form | footer | header | dialog | section | unknown.

Inductive ActionHint : Type :=
| navigation | submission | toggle | input | selection | trigger | destructive.

Record InteractiveElement : Type := {
  tag : string;
  type : option string;
  selector : string;
  ariaLabel : option string;
  text : option string;
  el_name : option string;
  id : option string;
  placeholder : option string;
  href : option string;
  el_role : option string;
  dataAttributes : option (Obj.t string);
  actionHint : option ActionHint
}.

Record Region : Type := {
  r_type : RegionType;
  r_selector : string;
  label : option string;
  interactiveElements : list InteractiveElement
}.

Record DOMAnalysis : Type := {
  a_url : string;
  regions : list Region;
  totalInteractiveElements : nat
}.

Definition RegionType_eqb (a b : RegionType) : bool :=
  match a, b with
  | nav, nav | main, main | sidebar, sidebar | modal, modal | form, form
  | footer, footer | header, header | dialog, dialog | section, section
  | unknown, unknown => true
  | _, _ => false
  end.

(** *** Accessibility tree parsing *)

Record FlatA11yElement : Type := {
  f_role : string;
  f_name : option string;
  f_value : option string;
  parentRole : option string;
  parentName : option string;
  depth : nat
}.

Definition interactiveRoles : list string :=
  ["button"; "link"; "textbox"; "checkbox"; "radio"; "combobox"; "listbox";
   "menuitem"; "menuitemcheckbox"; "menuitemradio"; "option"; "searchbox";
   "slider"; "spinbutton"; "switch"; "tab"; "treeitem"].

Definition landmarkRoles : list string :=
  ["banner"; "navigation"; "main"; "contentinfo"; "complementary"; "form";
   "region"; "dialog"; "alertdialog"].

Fixpoint flattenAccessibilityTree (node : AccessibilityNode)
         (parentRole parentName : option string) (depth : nat)
  : list FlatA11yElement :=
  match node with
  | Node role name value children =>
      let own :=
        if string_in role interactiveRoles
        then [ {| f_role := role; f_name := name; f_value := value;
                  parentRole := parentRole; parentName := parentName;
                  depth := depth |} ]
        else [] in
      let nextParentRole :=
        if string_in role landmarkRoles then Some role else parentRole in
      let nextParentName :=
        if string_in role landmarkRoles then name else parentName in
      (own ++
       (fix each (cs : list AccessibilityNode) : list FlatA11yElement :=
          match cs with
          | [] => []
          | child :: rest =>
              flattenAccessibilityTree child nextParentRole nextParentName (S depth)
              ++ each rest
          end) children)%list
  end.

(** Lookup in a literal table, with the [??] default. *)
Fixpoint table {V} (rows : list (string * V)) (key : string) (default : V) : V :=
  match rows with
  | [] => default
  | (k, v) :: rest => if String.eqb key k then v else table rest key default
  end.

Definition mapRoleToRegionType (role : string) : RegionType :=
  table [("banner", header); ("navigation", nav); ("main", main);
         ("contentinfo", footer); ("complementary", sidebar); ("form", form);
         ("region", section); ("dialog", dialog); ("alertdialog", dialog)]
        role unknown.

Definition roleToTag (role : string) : string :=
  table [("banner", "header"); ("navigation", "nav"); ("main", "main");
         ("contentinfo", "footer"); ("complementary", "aside"); ("form", "form");
         ("dialog", "dialog")]
        role "section".

Definition buildRegionSelector (role : string) (label : option string) : string :=
  if truthy label
  then "[role=" ++ q ++ role ++ q ++ "][aria-label=" ++ q ++ show label ++ q ++ "], "
       ++ roleToTag role
  else "[role=" ++ q ++ role ++ q ++ "], " ++ roleToTag role.

Definition roleToHTMLTag (role : string) : string :=
  table [("button", "button"); ("link", "a"); ("textbox", "input");
         ("checkbox", "input"); ("radio", "input"); ("combobox", "select");
         ("listbox", "select"); ("searchbox", "input"); ("slider", "input");
         ("spinbutton", "input"); ("switch", "input"); ("tab", "button");
         ("menuitem", "button")]
        role "div".

Definition buildElementSelector (el : FlatA11yElement) : string :=
  let tag := roleToHTMLTag (f_role el) in
  if truthy (f_name el)
  then tag ++ "[aria-label=" ++ q ++ show (f_name el) ++ q ++ "], "
       ++ tag ++ ":has-text(" ++ q ++ show (f_name el) ++ q ++ ")"
  else tag ++ "[role=" ++ q ++ f_role el ++ q ++ "]".

Definition inferActionHint (role : string) : ActionHint :=
  table [("button", trigger); ("link", navigation); ("textbox", input);
         ("checkbox", toggle); ("radio", selection); ("combobox", selection);
         ("listbox", selection); ("searchbox", input); ("slider", input);
         ("spinbutton", input); ("switch", toggle); ("tab", navigation);
         ("menuitem", trigger)]
        role trigger.

Definition a11yToInteractiveElement (el : FlatA11yElement) : InteractiveElement :=
  {| tag := roleToHTMLTag (f_role el);
     type := None;
     selector := buildElementSelector el;
     ariaLabel := f_name el;
     text := f_name el;
     el_name := None;
     id := None;
     placeholder := None;
     href := None;
     el_role := Some (f_role el);
     dataAttributes := None;
     actionHint := Some (inferActionHint (f_role el)) |}.

Definition push_element (e : InteractiveElement) (r : Region) : Region :=
  {| r_type := r_type r; r_selector := r_selector r; label := label r;
     interactiveElements := (interactiveElements r ++ [e])%list |}.

(** The region map: keys in insertion order, each with its region. *)
Fixpoint push_into (key : string) (e : InteractiveElement)
         (regionMap : list (string * Region)) : list (string * Region) :=
  match regionMap with
  | [] => []
  | (k, r) :: rest =>
      if String.eqb key k then (k, push_element e r) :: rest
      else (k, r) :: push_into key e rest
  end.

Definition groupByRegion (elements : list FlatA11yElement) : list Region :=
  let regionMap :=
    fold_left
      (fun regionMap el =>
         let regionKey := orElse (parentRole el) "unknown" in
         let regionLabel := parentName el in
         let regionMap1 :=
           if Obj.has regionKey regionMap then regionMap
           else (regionMap ++
                 [(regionKey,
                   {| r_type := mapRoleToRegionType regionKey;
                      r_selector := buildRegionSelector regionKey regionLabel;
                      label := regionLabel;
                      interactiveElements := [] |})])%list in
         push_into regionKey (a11yToInteractiveElement el) regionMap1)
      elements [] in
  map snd regionMap.

(** *** HTML parsing *)

Definition not_gt : regex := RSet (CNoneOf [ch ">"]).         (* [^>] *)
Definition not_dq : regex := RSet (CNoneOf [CChar DQ]).       (* any but the quote *)
Definition any : regex := RSet CAll.                          (* [\s\S] *)

Inductive PatternTag : Type :=
| fixed (tag : string)
| dynamic.

(** The six element patterns, all with the flags [g] and [i]: buttons,
    input elements, select elements, textareas, links with onclick or a
    meaningful href, and elements with onclick handlers. *)
Definition button_pattern : regex :=
  seq [lit "<button"; RWordBoundary; RGroup 1 (star not_gt); lit ">";
       RGroup 2 (lazy_star any); lit "</button>"].

Definition input_pattern : regex :=
  seq [lit "<input"; RWordBoundary; RGroup 1 (star not_gt); opt (lit "/");
       star (RSet CSpace); lit ">"].

Definition select_pattern : regex :=
  seq [lit "<select"; RWordBoundary; RGroup 1 (star not_gt); lit ">";
       lazy_star any; lit "</select>"].

Definition textarea_pattern : regex :=
  seq [lit "<textarea"; RWordBoundary; RGroup 1 (star not_gt); lit ">";
       lazy_star any; lit "</textarea>"].

Definition link_pattern : regex :=
  seq [lit "<a"; RWordBoundary;
       RGroup 1 (seq [star not_gt;
                      RAlt (lit "onclick")
                           (seq [lit ("href=" ++ q);
                                 RNotAhead (RAlt (lit "#") (lit "javascript:void"))]);
                      star not_gt]);
       lit ">"; RGroup 2 (lazy_star any); lit "</a>"].

Definition handler_pattern : regex :=
  seq [lit "<"; RGroup 1 (plus (RSet CWord)); RWordBoundary;
       RGroup 2 (seq [star not_gt; lit ("onclick=" ++ q); star not_dq; lit q;
                      star not_gt]);
       lit ">"; RGroup 3 (lazy_star any); lit "</"; RBackref 1; lit ">"].

Definition patterns : list (regex * PatternTag) :=
  [ (button_pattern, fixed "button");
    (input_pattern, fixed "input");
    (select_pattern, fixed "select");
    (textarea_pattern, fixed "textarea");
    (link_pattern, fixed "a");
    (handler_pattern, dynamic) ].

(** [text.replace(/<[^>]*>/g, "")] *)
Definition strip_tags (t : string) : string :=
  replace_all false (seq [lit "<"; star not_gt; lit ">"]) (fun _ => "") t.

(** [getAttr(name)]: the first [name="..."] in the attribute text,
    compared without regard to case. *)
Definition getAttr (attrsStr name : string) : option string :=
  match exec true (seq [lit name; lit ("=" ++ q); RGroup 1 (star not_dq); lit q])
             attrsStr with
  | Some mt => group 1 mt
  | None => None
  end.

Definition inferTagActionHint (tag : string) (type : option string) : ActionHint :=
  let type_is t := match type with Some ty => String.eqb ty t | None => false end in
  if String.eqb tag "a" then navigation
  else if String.eqb tag "button" then
    if type_is "submit" then submission else trigger
  else if String.eqb tag "input" then
    if type_is "checkbox" || type_is "radio" then toggle
    else if type_is "submit" then submission
    else input
  else if String.eqb tag "select" || String.eqb tag "listbox" then selection
  else if String.eqb tag "textarea" then input
  else trigger.

(** The [data-*] attributes, collected into an object. *)
Definition dataAttrs_of (attrsStr : string) : Obj.t string :=
  fold_left
    (fun dataAttrs dataMatch =>
       match group 1 dataMatch, group 2 dataMatch with
       | Some k, Some v => Obj.set k v dataAttrs
       | _, _ => dataAttrs
       end)
    (exec_all true
       (seq [lit "data-"; RGroup 1 (plus (RSet (COneOf [CWord; ch "-"])));
             lit ("=" ++ q); RGroup 2 (star not_dq); lit q])
       attrsStr)
    [].

(** The selector, preferring id, then name, then the other attributes. *)
Definition build_selector (tag : string)
           (id name ariaLabel placeholder textContent : option string)
  : option string :=
  if truthy id then Some ("#" ++ show id)
  else if truthy name then Some (tag ++ "[name=" ++ q ++ show name ++ q ++ "]")
  else if truthy ariaLabel
  then Some (tag ++ "[aria-label=" ++ q ++ show ariaLabel ++ q ++ "]")
  else if truthy placeholder
  then Some (tag ++ "[placeholder=" ++ q ++ show placeholder ++ q ++ "]")
  else if truthy textContent
  then Some (tag ++ ":has-text(" ++ q ++ take 50 (show textContent) ++ q ++ ")")
  else None.

Definition parseHTMLAttributes (tag attrsStr : string) (textContent : option string)
  : option InteractiveElement :=
  let id := getAttr attrsStr "id" in
  let name := getAttr attrsStr "name" in
  let type := getAttr attrsStr "type" in
  let ariaLabel := getAttr attrsStr "aria-label" in
  let placeholder := getAttr attrsStr "placeholder" in
  let href := getAttr attrsStr "href" in
  let role := getAttr attrsStr "role" in
  match build_selector tag id name ariaLabel placeholder textContent with
  | None => None     (* no reliable selector can be built *)
  | Some selector =>
      let dataAttrs := dataAttrs_of attrsStr in
      Some {| tag := tag;
              type := type;
              selector := selector;
              ariaLabel := ariaLabel;
              text := textContent;
              el_name := name;
              id := id;
              placeholder := placeholder;
              href := href;
              el_role := role;
              dataAttributes :=
                if 0 <? List.length (Obj.keys dataAttrs) then Some dataAttrs else None;
              actionHint := Some (inferTagActionHint tag type) |}
  end.

(** What one match of a pattern contributes. *)
Definition element_of_match (ptag : PatternTag) (mt : match_result)
  : option InteractiveElement :=
  let attrs := orElse (group 1 mt) "" in
  let textContent := option_map (fun t => trim (strip_tags t)) (group 2 mt) in
  parseHTMLAttributes
    (match ptag with
     | dynamic => orElse (group 1 mt) "div"
     | fixed tag => tag
     end)
    attrs textContent.

Definition extractFromHTML (bodyHTML : string) : list InteractiveElement :=
  flat_map
    (fun pattern : regex * PatternTag =>
       flat_map
         (fun mt => match element_of_match (snd pattern) mt with
                    | Some element => [element]
                    | None => []
                    end)
         (exec_all true (fst pattern) bodyHTML))
    patterns.

(** *** Merging the two passes *)

Definition existing_selectors (regions : list Region) : list string :=
  flat_map (fun region => map selector (interactiveElements region)) regions.

Fixpoint find_unknown (regions : list Region) (i : nat) : option nat :=
  match regions with
  | [] => None
  | r :: rest =>
      if RegionType_eqb (r_type r) unknown then Some i else find_unknown rest (S i)
  end.

Fixpoint push_at (i : nat) (e : InteractiveElement) (regions : list Region)
  : list Region :=
  match regions, i with
  | [], _ => []
  | r :: rest, O => push_element e r :: rest
  | r :: rest, S i' => r :: push_at i' e rest
  end.

(** The state of the merge loop: the region array, the position in it of
    the region that [unknownRegion] refers to (if any yet), and the set of
    selectors seen. *)
Record merge_state : Type := {
  ms_regions : list Region;
  ms_unknown : option nat;
  ms_existing : list string
}.

Definition merge_step (st : merge_state) (el : InteractiveElement) : merge_state :=
  if string_in (selector el) (ms_existing st) then st
  else
    let '(regions1, i) :=
      match ms_unknown st with
      | Some i => (ms_regions st, i)
      | None =>
          ((ms_regions st ++
            [ {| r_type := unknown; r_selector := "body"; label := None;
                 interactiveElements := [] |} ])%list,
           List.length (ms_regions st))
      end in
    {| ms_regions := push_at i el regions1;
       ms_unknown := Some i;
       ms_existing := selector el :: ms_existing st |}.

(** [mergeHTMLElements(regions, htmlElements)]: the region array as the
    call leaves it. *)
Definition mergeHTMLElements (regions : list Region)
           (htmlElements : list InteractiveElement) : list Region :=
  ms_regions
    (fold_left merge_step htmlElements
       {| ms_regions := regions;
          ms_unknown := find_unknown regions 0;
          ms_existing := existing_selectors regions |}).

Definition extractDOM (snapshot : PageSnapshot) : DOMAnalysis :=
  let regions0 :=
    match accessibilityTree snapshot with
    | Some tree => groupByRegion (flattenAccessibilityTree tree None None 0)
    | None => []
    end in
  let htmlElements := extractFromHTML (bodyHTML snapshot) in
  let regions := mergeHTMLElements regions0 htmlElements in
  {| a_url := url snapshot;
     regions := regions;
     totalInteractiveElements :=
       fold_left (fun sum region => sum + List.length (interactiveElements region))
                 regions 0 |}.

End ExtractDom.

(** ** The merge of the two passes, as the specification words it *)

Module ExtractDomSpec.
Import Str ExtractDom.

(** The markup elements that the merge adds: those whose selector is not
    among the selectors seen so far, which start as the selectors of the
    tree pass and grow with every element added. *)
Fixpoint fresh (existing : list string) (htmlElements : list InteractiveElement)
  : list InteractiveElement :=
  match htmlElements with
  | [] => []
  | el :: rest =>
      if string_in (selector el) existing then fresh existing rest
      else el :: fresh (selector el :: existing) rest
  end.

Definition extend_region (added : list InteractiveElement) (r : Region) : Region :=
  {| r_type := r_type r; r_selector := r_selector r; label := label r;
     interactiveElements := (interactiveElements r ++ added)%list |}.

Fixpoint extend_at (i : nat) (added : list InteractiveElement) (regions : list Region)
  : list Region :=
  match regions, i with
  | [], _ => []
  | r :: rest, O => extend_region added r :: rest
  | r :: rest, S i' => r :: extend_at i' added rest
  end.

(** Where the added elements go: the first region of type unknown, or a
    new such region after the others. *)
Definition add_to_unknown (unknownAt : option nat) (regions : list Region)
           (added : list InteractiveElement) : list Region :=
  match added with
  | [] => regions
  | _ =>
      match unknownAt with
      | Some i => extend_at i added regions
      | None =>
          (regions ++ [ {| r_type := unknown; r_selector := "body"; label := None;
                          interactiveElements := added |} ])%list
      end
  end.

(** What follows the tag in the pattern of elements with an onclick
    handler. *)
Definition handler_tail : Regex.regex :=
  Regex.seq
    [Regex.RWordBoundary;
     Regex.RGroup 2 (Regex.seq [Regex.star not_gt; Regex.lit ("onclick=" ++ q);
                                Regex.star not_dq; Regex.lit q; Regex.star not_gt]);
     Regex.lit ">"; Regex.RGroup 3 (Regex.lazy_star any); Regex.lit "</";
     Regex.RBackref 1; Regex.lit ">"].

Definition elements_of (regions : list Region) : list InteractiveElement :=
  flat_map interactiveElements regions.

End ExtractDomSpec.

(** ** [src/session/session.ts] and [src/session/types.ts] *)

Module Session.
Import Str Regex.

(** *** Types *)

Inductive ActionKind : Type :=
| click | fill | select | hover | scroll | wait | navigate.

Definition ActionKind_eqb (a b : ActionKind) : bool :=
  match a, b with
  | click, click | fill, fill | select, select | hover, hover
  | scroll, scroll | wait, wait | navigate, navigate => true
  | _, _ => false
  end.

(** The text of an action, as a template literal renders it. *)
Definition action_text (a : ActionKind) : string :=
  match a with
  | click => "click" | fill => "fill" | select => "select" | hover => "hover"
  | scroll => "scroll" | wait => "wait" | navigate => "navigate"
  end.

Record SessionState : Type := {
  wsEndpoint : string;
  goal : option string;
  currentUrl : string;
  stepCount : nat;
  startedAt : Z;
  sessionDir : string
}.

Record ActionLogEntry : Type := {
  stepIndex : nat;
  action : ActionKind;
  selector : option string;
  value : option string;
  url : option string;
  toolName : option string;
  pageUrl : string;
  screenshotPath : string;
  timestamp : Z;
  success : bool;
  error : option string
}.

Record ToolActionStep : Type := {
  s_action : ActionKind;
  s_selector : string;
  inputProperty : option string;
  staticValue : option string;
  delay : option Z
}.

Record SchemaProperty : Type := {
  p_type : string;
  p_description : string
}.

Record InputSchema : Type := {
  properties : Obj.t SchemaProperty;
  required : list string
}.

Record ToolFromActions : Type := {
  name : string;
  steps : list ToolActionStep;
  inputSchema : InputSchema;
  urlPatterns : list string
}.

(** *** Grouping the log into tools *)

Definition quote_or_apostrophe : cclass := COneOf [CChar DQ; ch "'"].
Definition attr_value_char : cclass := CNoneOf [CChar DQ; ch "'"; ch "]"].

Definition toCamelCase (str : string) : string :=
  replace_first false (seq [RStart; RSet (CRange "A" "Z")])
    (fun mt => toLowerCase (m_text mt))
    (replace_all false
       (seq [plus (RSet (COneOf [ch "-"; ch "_"; CSpace])); opt (RGroup 1 (RSet CDot))])
       (fun mt => match group 1 mt with
                  | Some c => if nonempty c then toUpperCase c else ""
                  | None => ""
                  end)
       str).

(** The name attribute, the id and the placeholder of a selector. *)
Definition name_pattern : regex :=
  seq [lit "[name="; opt (RSet quote_or_apostrophe); RGroup 1 (plus (RSet attr_value_char))].

Definition id_pattern : regex :=
  seq [lit "#"; RGroup 1 (plus (RSet (COneOf [CWord; ch "-"])))].

Definition placeholder_pattern : regex :=
  seq [lit "[placeholder="; opt (RSet quote_or_apostrophe);
       RGroup 1 (plus (RSet attr_value_char))].

Definition inferPropertyName (selector : string) (action : ActionKind) : string :=
  match exec false name_pattern selector with
  | Some nameMatch => toCamelCase (orElse (group 1 nameMatch) "")
  | None =>
      match exec false id_pattern selector with
      | Some idMatch => toCamelCase (orElse (group 1 idMatch) "")
      | None =>
          match exec false placeholder_pattern selector with
          | Some attrMatch => toCamelCase (orElse (group 1 attrMatch) "")
          | None => action_text action ++ "Value"
          end
      end
  end.

(** The first loop: entries collected by tool name, names in the order of
    their first entry. *)
Fixpoint push_entry (key : string) (entry : ActionLogEntry)
         (toolMap : list (string * list ActionLogEntry))
  : list (string * list ActionLogEntry) :=
  match toolMap with
  | [] => [(key, [entry])]
  | (k, existing) :: rest =>
      if String.eqb key k then (k, (existing ++ [entry])%list) :: rest
      else (k, existing) :: push_entry key entry rest
  end.

Definition collect_step (toolMap : list (string * list ActionLogEntry))
           (entry : ActionLogEntry) : list (string * list ActionLogEntry) :=
  if negb (truthy (toolName entry)) || negb (success entry) then toolMap
  else push_entry (show (toolName entry)) entry toolMap.

(** The accumulators of the second loop's body. *)
Record tool_acc : Type := {
  acc_steps : list ToolActionStep;
  acc_properties : Obj.t SchemaProperty;
  acc_required : list string;
  acc_urlPatterns : list string
}.

Definition set_add (x : string) (l : list string) : list string :=
  if string_in x l then l else (l ++ [x])%list.

Definition tool_step (acc : tool_acc) (entry : ActionLogEntry) : tool_acc :=
  let urls := set_add (pageUrl entry) (acc_urlPatterns acc) in
  if ActionKind_eqb (action entry) wait || ActionKind_eqb (action entry) navigate
  then {| acc_steps := acc_steps acc; acc_properties := acc_properties acc;
          acc_required := acc_required acc; acc_urlPatterns := urls |}
  else
    if (ActionKind_eqb (action entry) fill || ActionKind_eqb (action entry) select)
       && truthy (value entry)
    then
      let propName := inferPropertyName (orElse (selector entry) "") (action entry) in
      {| acc_steps :=
           (acc_steps acc ++
            [ {| s_action := action entry; s_selector := orElse (selector entry) "";
                 inputProperty := Some propName; staticValue := None;
                 delay := None |} ])%list;
         acc_properties :=
           Obj.set propName
             {| p_type := "string";
                p_description := "Value for " ++ show (selector entry) |}
             (acc_properties acc);
         acc_required := (acc_required acc ++ [propName])%list;
         acc_urlPatterns := urls |}
    else
      {| acc_steps :=
           (acc_steps acc ++
            [ {| s_action := action entry; s_selector := orElse (selector entry) "";
                 inputProperty := None; staticValue := None; delay := None |} ])%list;
         acc_properties := acc_properties acc;
         acc_required := acc_required acc;
         acc_urlPatterns := urls |}.

Definition build_tool (name : string) (entries : list ActionLogEntry)
  : ToolFromActions :=
  let acc :=
    fold_left tool_step entries
      {| acc_steps := []; acc_properties := []; acc_required := [];
         acc_urlPatterns := [] |} in
  {| name := name;
     steps := acc_steps acc;
     inputSchema := {| properties := acc_properties acc;
                       required := acc_required acc |};
     urlPatterns := acc_urlPatterns acc |}.

Definition groupActionsIntoTools (log : list ActionLogEntry) : list ToolFromActions :=
  let toolMap := fold_left collect_step log [] in
  map (fun kv : string * list ActionLogEntry => build_tool (fst kv) (snd kv)) toolMap.

(** *** The session directory and the operations on it

    Every operation is a separate invocation: it reads the files of the
    session directory, talks to the browser, and writes files back.  The
    browser and the clock are the operation's environment; what they
    answer is an argument of the model.  File writes themselves are taken
    to succeed. *)

Record Disk : Type := {
  session_json : option SessionState;
  action_log_json : option (list ActionLogEntry);
  tools_json : option (list ToolFromActions)
}.

Definition empty_disk : Disk :=
  {| session_json := None; action_log_json := None; tools_json := None |}.

Inductive result (A : Type) : Type :=
| Ok (a : A)
| Thrown (message : string).
Arguments Ok {A} a.
Arguments Thrown {A} message.

(** [path.join(dir, file)] for a normalised directory path. *)
Definition path_join (dir file : string) : string := dir ++ "/" ++ file.

Record SessionStartOptions : Type := {
  o_goal : option string;
  headful : option bool;
  viewportWidth : option Z;
  viewportHeight : option Z
}.

Record StartWorld : Type := {
  (* what creating the directory, launching, connecting, navigating or
     the first screenshot throws, if one of them does *)
  sw_failure : option string;
  sw_wsEndpoint : string;
  sw_pageUrl : string;
  sw_now : Z;
  sw_close_failure : option string
}.

Definition sessionStart (url dir : string) (options : SessionStartOptions)
           (w : StartWorld) (d : Disk) : Disk * result (string * string) :=
  match sw_failure w with
  | Some message => (d, Thrown message)
  | None =>
      let screenshotPath := path_join dir "screenshot-latest.png" in
      (* initialise the action log *)
      let d1 := {| session_json := session_json d;
                   action_log_json := Some [];
                   tools_json := tools_json d |} in
      (* save the session state *)
      let state := {| wsEndpoint := sw_wsEndpoint w;
                      goal := o_goal options;
                      currentUrl := sw_pageUrl w;
                      stepCount := 0;
                      startedAt := sw_now w;
                      sessionDir := dir |} in
      let d2 := {| session_json := Some state;
                   action_log_json := action_log_json d1;
                   tools_json := tools_json d1 |} in
      match sw_close_failure w with
      | Some message => (d2, Thrown message)
      | None => (d2, Ok (dir, screenshotPath))
      end
  end.

Record SessionStepOptions : Type := {
  so_action : ActionKind;
  so_selector : option string;
  so_value : option string;
  so_url : option string;
  so_toolName : option string
}.

Record StepWorld : Type := {
  connect_failure : option string;     (* connecting, or getting the page *)
  page_failure : option string;        (* what the page throws when asked to act *)
  settle_failure : option string;      (* what the settle delay throws *)
  screenshot_failure : option string;
  w_pageUrl : string;
  w_now : Z;
  close_failure : option string
}.

Definition readSessionState (dir : string) (d : Disk) : result SessionState :=
  match session_json d with
  | None => Thrown ("No active session found in " ++ dir ++ ". Run " ++ q
                    ++ "session start" ++ q ++ " first.")
  | Some state => Ok state
  end.

(** Whether [parseInt(text, 10)] is a number: after leading white space
    and an optional sign there is a digit. *)
Definition parseInt_is_number (text : string) : bool :=
  match trimStart text with
  | String c rest =>
      if (code c =? 43) || (code c =? 45)
      then match rest with String d _ => is_digit d | EmptyString => false end
      else is_digit c
  | EmptyString => false
  end.

(** [executeAction(page, opts)]: the message of what it throws, if it
    throws. *)
Definition executeAction (page_failure : option string) (opts : SessionStepOptions)
  : option string :=
  match so_action opts with
  | click =>
      if negb (truthy (so_selector opts)) then Some "Click requires a selector"
      else page_failure
  | fill =>
      if negb (truthy (so_selector opts)) then Some "Fill requires a selector"
      else page_failure
  | select =>
      if negb (truthy (so_selector opts)) then Some "Select requires a selector"
      else page_failure
  | hover =>
      if negb (truthy (so_selector opts)) then Some "Hover requires a selector"
      else page_failure
  | scroll => page_failure
  | wait =>
      if truthy (so_selector opts) then page_failure
      else if truthy (so_value opts) then
        if parseInt_is_number (show (so_value opts)) then page_failure else None
      else None
  | navigate =>
      if negb (truthy (so_url opts)) then Some "Navigate requires a url"
      else page_failure
  end.

Definition sessionStep (dir : string) (options : SessionStepOptions)
           (w : StepWorld) (d : Disk)
  : Disk * result (string * ActionLogEntry) :=
  match readSessionState dir d with
  | Thrown message => (d, Thrown message)
  | Ok state =>
      match connect_failure w with
      | Some message => (d, Thrown message)
      | None =>
          let error :=
            match executeAction (page_failure w) options with
            | Some message => Some message
            | None => settle_failure w
            end in
          let success := match error with Some _ => false | None => true end in
          (* capture the screenshot *)
          match screenshot_failure w with
          | Some message => (d, Thrown message)
          | None =>
              let screenshotPath := path_join dir "screenshot-latest.png" in
              (* build the log entry *)
              let entry := {| stepIndex := stepCount state;
                              action := so_action options;
                              selector := so_selector options;
                              value := so_value options;
                              url := so_url options;
                              toolName := so_toolName options;
                              pageUrl := w_pageUrl w;
                              screenshotPath := screenshotPath;
                              timestamp := w_now w;
                              success := success;
                              error := error |} in
              (* append to the action log *)
              match action_log_json d with
              | None => (d, Thrown "ENOENT: no such file or directory")
              | Some log =>
                  let d1 := {| session_json := session_json d;
                               action_log_json := Some (log ++ [entry])%list;
                               tools_json := tools_json d |} in
                  (* update the session state *)
                  let state1 := {| wsEndpoint := wsEndpoint state;
                                   goal := goal state;
                                   currentUrl := w_pageUrl w;
                                   stepCount := stepCount state + 1;
                                   startedAt := startedAt state;
                                   sessionDir := sessionDir state |} in
                  let d2 := {| session_json := Some state1;
                               action_log_json := action_log_json d1;
                               tools_json := tools_json d1 |} in
                  match close_failure w with
                  | Some message => (d2, Thrown message)
                  | None => (d2, Ok (screenshotPath, entry))
                  end
              end
          end
      end
  end.

Definition sessionScreenshot (dir : string) (w : StepWorld) (d : Disk)
  : Disk * result string :=
  match readSessionState dir d with
  | Thrown message => (d, Thrown message)
  | Ok state =>
      match connect_failure w, screenshot_failure w, close_failure w with
      | Some message, _, _ => (d, Thrown message)
      | None, Some message, _ => (d, Thrown message)
      | None, None, Some message => (d, Thrown message)
      | None, None, None => (d, Ok (path_join dir "screenshot-latest.png"))
      end
  end.

(** Closing tolerates a browser that is already gone, so it has no
    environment to consult. *)
Definition sessionClose (dir : string) (d : Disk)
  : Disk * result (string * list ToolFromActions) :=
  match readSessionState dir d with
  | Thrown message => (d, Thrown message)
  | Ok state =>
      match action_log_json d with
      | None => (d, Thrown "ENOENT: no such file or directory")
      | Some log =>
          let tools := groupActionsIntoTools log in
          ({| session_json := session_json d;
              action_log_json := action_log_json d;
              tools_json := Some tools |},
           Ok (path_join dir "tools.json", tools))
      end
  end.

(** A driver's invocations on one session directory, one after the
    other. *)
Inductive invocation : Type :=
| Start (url : string) (options : SessionStartOptions) (w : StartWorld)
| Step (options : SessionStepOptions) (w : StepWorld)
| Screenshot (w : StepWorld)
| Close.

Definition invoke (dir : string) (d : Disk) (i : invocation) : Disk :=
  match i with
  | Start url options w => fst (sessionStart url dir options w d)
  | Step options w => fst (sessionStep dir options w d)
  | Screenshot w => fst (sessionScreenshot dir w d)
  | Close => fst (sessionClose dir d)
  end.

Definition run (dir : string) (d : Disk) (calls : list invocation) : Disk :=
  fold_left (invoke dir) calls d.

End Session.

(** ** Tool derivation, as the specification words it *)

Module SessionSpec.
Import Str Session.

(** A successful, tool-tagged entry, and its tag. *)
Definition kept (entry : ActionLogEntry) : bool :=
  truthy (toolName entry) && success entry.

Definition tag (entry : ActionLogEntry) : string := show (toolName entry).

(** The distinct texts of a list, in the order of their first
    appearance. *)
Fixpoint distinct (l : list string) : list string :=
  match l with
  | [] => []
  | x :: rest => x :: filter (fun y => negb (String.eqb x y)) (distinct rest)
  end.

Definition tags (log : list ActionLogEntry) : list string :=
  distinct (map tag (filter kept log)).

(** The group of a tag: its kept entries, in log order. *)
Definition group (t : string) (log : list ActionLogEntry) : list ActionLogEntry :=
  filter (fun entry => kept entry && String.eqb (tag entry) t) log.

(** A fill or select step that carried a concrete value. *)
Definition carries_value (entry : ActionLogEntry) : bool :=
  (ActionKind_eqb (action entry) fill || ActionKind_eqb (action entry) select)
  && truthy (value entry).

(** Session-only scaffolding. *)
Definition scaffolding (entry : ActionLogEntry) : bool :=
  ActionKind_eqb (action entry) wait || ActionKind_eqb (action entry) navigate.

Definition property_name (entry : ActionLogEntry) : string :=
  inferPropertyName (orElse (selector entry) "") (action entry).

Definition property_of (entry : ActionLogEntry) : SchemaProperty :=
  {| p_type := "string"; p_description := "Value for " ++ show (selector entry) |}.

Definition step_of (entry : ActionLogEntry) : ToolActionStep :=
  {| s_action := action entry;
     s_selector := orElse (selector entry) "";
     inputProperty := if carries_value entry then Some (property_name entry) else None;
     staticValue := None;
     delay := None |}.

Definition derived_tool (t : string) (entries : list ActionLogEntry) : ToolFromActions :=
  let valued := filter carries_value entries in
  {| name := t;
     steps := map step_of (filter (fun entry => negb (scaffolding entry)) entries);
     inputSchema :=
       {| properties :=
            fold_left (fun o entry => Obj.set (property_name entry) (property_of entry) o)
                      valued [];
          required := map property_name valued |};
     urlPatterns := fold_left (fun urls entry => set_add (pageUrl entry) urls) entries [] |}.

Definition derive_tools (log : list ActionLogEntry) : list ToolFromActions :=
  map (fun t => derived_tool t (group t log)) (tags log).

(** The log and the counter agree: the entry at position [k] carries the
    index [k], and the counter is the number of entries. *)
Definition indexed (log : list ActionLogEntry) : Prop :=
  forall k entry, nth_error log k = Some entry -> stepIndex entry = k.

Definition synced (d : Disk) : Prop :=
  exists state log,
    session_json d = Some state
    /\ action_log_json d = Some log
    /\ stepCount state = List.length log
    /\ indexed log.

(** What a step does to the files: nothing, or one entry more and the
    counter one up. *)
Inductive step_effect (d d' : Disk) : Prop :=
| untouched : d' = d -> step_effect d d'
| appended (state state' : SessionState) (log : list ActionLogEntry)
           (entry : ActionLogEntry) :
    session_json d = Some state ->
    action_log_json d = Some log ->
    session_json d' = Some state' ->
    action_log_json d' = Some (log ++ [entry])%list ->
    tools_json d' = tools_json d ->
    stepIndex entry = stepCount state ->
    stepCount state' = stepCount state + 1 ->
    step_effect d d'.

(** The map of the first loop, as a function of the log. *)
Definition collected (log : list ActionLogEntry) : list (string * list ActionLogEntry) :=
map (fun t => (t, group t log)) (tags log).

End SessionSpec.

(** ** [src/analysis/propose-tools.ts]: decoding the agent's reply *)

Module ProposeTools.
Import Str Regex Json.

(** What a call does: it returns a value or throws an [Error] with a
    message. *)
Inductive outcome (A : Type) : Type :=
| Return (a : A)
| Throw (message : string).
Arguments Return {A} a.
Arguments Throw {A} message.

(** The wording of the engine's own errors is not fixed by the language:
    the [SyntaxError] of [JSON.parse] on a given text, and the [TypeError]
    of reading a named property of [null]. *)
Record Engine : Type := {
  syntaxErrorMessage : string -> string;
  nullPropertyMessage : string -> string
}.

(** A [ToolProposal[]] is a cast of whatever was decoded. *)
Definition proposals := list json.

(** The pattern of a fenced block: three backticks, an optional [json]
    tag, white space, an optional line feed, the lazily captured body, and
    three backticks again. *)
Definition fence : regex :=
  seq [lit "```"; opt (lit "json"); star (RSet CSpace); opt (RSet (CChar LF));
       RGroup 1 (lazy_star (RSet CAll)); lit "```"].

Definition jsonStr (agentResponse : string) : string :=
  match exec false fence agentResponse with
  | Some fenceMatch => trim (orElse (group 1 fenceMatch) "")
  | None => trim agentResponse
  end.

Definition expected_array : string := "Expected an array of tool proposals".
Definition failed_prefix : string := "Failed to parse tool proposals: ".

Section WithEngine.
Variable E : Engine.

(** The [try] block: what it returns, or the message of what it throws. *)
Definition try_block (payload : string) : outcome proposals :=
  match Json.parse payload with
  | None => Throw (syntaxErrorMessage E payload)
  | Some parsed =>
      match parsed with
      | JArray items => Return items
      | JNull => Throw (nullPropertyMessage E "tools")
      | JObject members =>
          match Json.get (units_of "tools") members with
          | Some (JArray items) => Return items
          | _ => Throw expected_array
          end
      | _ => Throw expected_array
      end
  end.

Definition parseToolProposals (agentResponse : string) : outcome proposals :=
  match try_block (jsonStr agentResponse) with
  | Return tools => Return tools
  | Throw message => Throw (failed_prefix ++ message)
  end.
End WithEngine.

(** The two shapes a decoded reply may have. *)
Definition is_bare_list (parsed : json) : bool :=
  match parsed with JArray _ => true | _ => false end.

Definition is_named_list (parsed : json) : bool :=
  match parsed with
  | JObject members =>
      match Json.get (units_of "tools") members with
      | Some (JArray _) => true
      | _ => false
      end
  | _ => false
  end.

(** What the fault says of a decoded value of neither shape: the fixed text
    of the function's own error, or, for [null], what the engine says of
    reading [tools] of it. *)
Definition shape_message (E : Engine) (parsed : json) : string :=
  match parsed with
  | JNull => nullPropertyMessage E "tools"
  | _ => expected_array
  end.

(** An engine to run examples with. *)
Definition sampleEngine : Engine := {|
  syntaxErrorMessage := fun text => "Unexpected token in JSON: " ++ text;
  nullPropertyMessage := fun name =>
    "Cannot read properties of null (reading '" ++ name ++ "')"
|}.

End ProposeTools.

(** ** [src/generator/generate-tools.ts] *)

Module GenerateTools.
Import Str.

Local Infix "+++" := (@app string) (at level 60, right associativity).

(** *** Types ([src/analysis/types.ts]) *)

(** A number is used here only for what a template literal prints of it
    and for its truthiness; it is carried by the decimal text that
    [Number::toString] gives it. *)
Definition number := string.

(** Zero and NaN are falsy. *)
Definition number_truthy (n : number) : bool :=
  negb (String.eqb n "0" || String.eqb n "NaN").

Inductive ToolInputProperty : Type :=
| Property (type : string) (description : string) (enum : option (list string))
           (minimum maximum : option number) (items : option ToolInputProperty).

Definition p_type (p : ToolInputProperty) : string :=
  match p with Property t _ _ _ _ _ => t end.
Definition p_description (p : ToolInputProperty) : string :=
  match p with Property _ d _ _ _ _ => d end.

Record ToolInputSchema : Type := {
  properties : Obj.t ToolInputProperty;
  required : option (list string)
}.

Inductive ReturnType : Type :=
| rt_void | rt_string | rt_object | rt_array | rt_boolean | rt_number.

Record JSCallAction : Type := {
  functionPath : string;
  argMapping : list string;
  returnType : option ReturnType
}.

Inductive StepAction : Type :=
| click | fill | select | check | submit | scroll | read.

Definition action_text (a : StepAction) : string :=
  match a with
  | click => "click" | fill => "fill" | select => "select" | check => "check"
  | submit => "submit" | scroll => "scroll" | read => "read"
  end.

Record DOMActionStep : Type := {
  action : StepAction;
  selector : string;
  inputProperty : option string;
  staticValue : option string;
  delay : option number;
  readAttribute : option string;
  s_description : option string
}.

Record DOMAction : Type := {
  steps : list DOMActionStep
}.

Record ToolProposalAnnotations : Type := {
  readOnlyHint : option bool;
  destructiveHint : option bool;
  confirmationHint : option bool;
  openWorldHint : option bool
}.

(** [actionType] and [actionDetails] together: the tag says which shape
    the details have. *)
Inductive Action : Type :=
| js_call (details : JSCallAction)
| dom_action (details : DOMAction).

Record ToolProposal : Type := {
  name : string;
  description : string;
  inputSchema : ToolInputSchema;
  actionDetails : Action;
  annotations : option ToolProposalAnnotations;
  urlPattern : option string
}.

Definition actionType (p : ToolProposal) : string :=
  match actionDetails p with
  | js_call _ => "js-call"
  | dom_action _ => "dom-action"
  end.

Record GeneratedFile : Type := {
  path : string;
  content : string
}.

Definition bool_text (b : bool) : string := if b then "true" else "false".

(** *** Zod schema generation *)

Fixpoint generateZodType (prop : ToolInputProperty) : string :=
  match prop with
  | Property type _ enum minimum maximum items =>
      if String.eqb type "string" then
        match enum with
        | Some values => "z.enum([" ++ join ", " (map Json.stringify values) ++ "])"
        | None => "z.string()"
        end
      else if String.eqb type "number" then
        "z.number()"
        ++ match minimum with Some n => ".min(" ++ n ++ ")" | None => "" end
        ++ match maximum with Some n => ".max(" ++ n ++ ")" | None => "" end
      else if String.eqb type "boolean" then "z.boolean()"
      else if String.eqb type "array" then
        match items with
        | Some item => "z.array(" ++ generateZodType item ++ ")"
        | None => "z.array(z.unknown())"
        end
      else if String.eqb type "object" then "z.record(z.unknown())"
      else "z.unknown()"
  end.

Definition generateZodSchema (schema : ToolInputSchema) : string :=
  match properties schema with
  | [] => "z.object({})"
  | entries =>
      let required := match required schema with Some r => r | None => [] end in
      let props :=
        map (fun entry : string * ToolInputProperty =>
               let (name, prop) := entry in
               let zodType := generateZodType prop in
               let zodType1 :=
                 if negb (string_in name required) then zodType ++ ".optional()"
                 else zodType in
               let zodType2 :=
                 if nonempty (p_description prop)
                 then zodType1 ++ ".describe(" ++ Json.stringify (p_description prop) ++ ")"
                 else zodType1 in
               "  " ++ name ++ ": " ++ zodType2)
            entries in
      "z.object({" ++ nl ++ join ("," ++ nl) props ++ "," ++ nl ++ "})"
  end.

(** *** JS call body generation *)

Definition js_call_lines (action : JSCallAction) : list string :=
  let args := join ", " (map (fun a => "input." ++ a) (argMapping action)) in
  ([ "    try {";
     "      // Call the page's JS function directly";
     "      const fn = " ++ functionPath action ++ ";";
     "      if (typeof fn !== " ++ q ++ "function" ++ q ++ ") {";
     "        return textContent(" ++ q ++ "Error: " ++ functionPath action
       ++ " is not available on this page" ++ q ++ ");";
     "      }" ]
   +++ match returnType action with
      | Some rt_void =>
          [ "      fn(" ++ args ++ ");";
            "      return textContent(" ++ q ++ "Action completed successfully" ++ q ++ ");" ]
      | _ =>
          [ "      const result = fn(" ++ args ++ ");";
            "      return jsonContent(result);" ]
      end
   +++ [ "    } catch (error) {";
        "      return textContent(`Error calling " ++ functionPath action
          ++ ": ${error}`);";
        "    }" ]).

Definition generateJSCallBody (action : JSCallAction) : string :=
  join nl (js_call_lines action).

(** *** DOM action body generation *)

Definition query_line (elVar : string) (step : DOMActionStep) : string :=
  "      const " ++ elVar ++ " = document.querySelector("
  ++ Json.stringify (selector step) ++ ");".

Definition step_value (step : DOMActionStep) : string :=
  if truthy (inputProperty step) then "input." ++ show (inputProperty step)
  else Json.stringify (orElse (staticValue step) "").

Definition dom_step_lines (step : DOMActionStep) (index : nat) : list string :=
  let elVar := "el_" ++ of_nat index in
  match action step with
  | read =>
      let attr := orElse (readAttribute step) "textContent" in
      [ query_line elVar step;
        if String.eqb attr "textContent" || String.eqb attr "innerHTML"
           || String.eqb attr "outerHTML"
        then "      const result_" ++ of_nat index ++ " = " ++ elVar ++ "?." ++ attr ++ ";"
        else if String.eqb attr "value"
        then "      const result_" ++ of_nat index ++ " = (" ++ elVar
             ++ " as HTMLInputElement)?.value;"
        else "      const result_" ++ of_nat index ++ " = " ++ elVar
             ++ "?.getAttribute(" ++ Json.stringify attr ++ ");" ]
  | other =>
      ([ query_line elVar step;
         "      if (!" ++ elVar ++ ") throw new Error(" ++ q ++ "Element not found: "
           ++ selector step ++ q ++ ");" ]
       +++ match other with
          | click => [ "      (" ++ elVar ++ " as HTMLElement).click();" ]
          | fill =>
              [ "      (" ++ elVar ++ " as HTMLInputElement).value = "
                  ++ step_value step ++ ";";
                "      " ++ elVar ++ ".dispatchEvent(new Event(" ++ q ++ "input" ++ q
                  ++ ", { bubbles: true }));";
                "      " ++ elVar ++ ".dispatchEvent(new Event(" ++ q ++ "change" ++ q
                  ++ ", { bubbles: true }));" ]
          | select =>
              [ "      (" ++ elVar ++ " as HTMLSelectElement).value = "
                  ++ step_value step ++ ";";
                "      " ++ elVar ++ ".dispatchEvent(new Event(" ++ q ++ "change" ++ q
                  ++ ", { bubbles: true }));" ]
          | check =>
              [ "      (" ++ elVar ++ " as HTMLInputElement).checked = true;";
                "      " ++ elVar ++ ".dispatchEvent(new Event(" ++ q ++ "change" ++ q
                  ++ ", { bubbles: true }));" ]
          | submit => [ "      (" ++ elVar ++ " as HTMLFormElement).submit();" ]
          | scroll =>
              [ "      " ++ elVar ++ ".scrollIntoView({ behavior: " ++ q ++ "smooth" ++ q
                  ++ " });" ]
          | read => []
          end)
  end.

Definition generateDOMStep (step : DOMActionStep) (index : nat) : string :=
  join nl (dom_step_lines step index).

(** What the loop over the steps pushes for the step at position [i]. *)
Definition step_block (step : DOMActionStep) (i : nat) : list string :=
  ([ "      // Step " ++ of_nat (i + 1) ++ ": "
       ++ orElse (s_description step) (action_text (action step));
     generateDOMStep step i ]
   +++ match delay step with
      | Some d =>
          if number_truthy d
          then [ "      await new Promise(resolve => setTimeout(resolve, " ++ d ++ "));" ]
          else []
      | None => []
      end).

Fixpoint step_blocks (steps : list DOMActionStep) (i : nat) : list string :=
  match steps with
  | [] => []
  | step :: rest => step_block step i +++ step_blocks rest (S i)
  end.

Definition return_line (steps : list DOMActionStep) : string :=
  match last (map Some steps) None with
  | Some lastStep =>
      match action lastStep with
      | read =>
          "      return textContent(result_" ++ of_nat (List.length steps - 1)
          ++ " ?? " ++ q ++ "No content found" ++ q ++ ");"
      | _ => "      return textContent(" ++ q ++ "Action completed successfully" ++ q ++ ");"
      end
  | None => "      return textContent(" ++ q ++ "Action completed successfully" ++ q ++ ");"
  end.

Definition dom_action_lines (action : DOMAction) : list string :=
  ([ "    try {" ]
   +++ step_blocks (steps action) 0
   +++ [ return_line (steps action);
        "    } catch (error) {";
        "      return textContent(`Error: ${error}`);";
        "    }" ]).

Definition generateDOMActionBody (action : DOMAction) : string :=
  join nl (dom_action_lines action).

(** *** One tool file *)

Definition annotation_lines (annotations : option ToolProposalAnnotations)
  : list string :=
  match annotations with
  | None => []
  | Some a =>
      let entry (label : string) (hint : option bool) : list string :=
        match hint with
        | Some b => [ "    " ++ label ++ ": " ++ bool_text b ]
        | None => []
        end in
      let annotationEntries :=
        (entry "readOnlyHint" (readOnlyHint a)
         +++ entry "destructiveHint" (destructiveHint a)
         +++ entry "confirmationHint" (confirmationHint a)) in
      if 0 <? List.length annotationEntries
      then [ "  annotations: {"; join ("," ++ nl) annotationEntries; "  }," ]
      else []
  end.

Definition tool_file_lines (proposal : ToolProposal) : list string :=
  ([ "import { defineTool, textContent, jsonContent } from " ++ q ++ "webmcp-kit" ++ q ++ ";";
     "import { z } from " ++ q ++ "zod" ++ q ++ ";";
     "";
     "const inputSchema = " ++ generateZodSchema (inputSchema proposal) ++ ";";
     "";
     "export const " ++ name proposal ++ "Tool = defineTool({";
     "  name: " ++ q ++ name proposal ++ q ++ ",";
     "  description: " ++ Json.stringify (description proposal) ++ ",";
     "  inputSchema," ]
   +++ annotation_lines (annotations proposal)
   +++ [ "  execute: async (input) => {";
        match actionDetails proposal with
        | js_call details => generateJSCallBody details
        | dom_action details => generateDOMActionBody details
        end;
        "  },";
        "});";
        "";
        "// Register the tool when this module is loaded";
        name proposal ++ "Tool.register();";
        "" ]).

Definition generateToolFile (proposal : ToolProposal) : string :=
  join nl (tool_file_lines proposal).

Definition generateToolFiles (proposals : list ToolProposal) : list GeneratedFile :=
  map (fun proposal =>
         {| path := "tools/" ++ name proposal ++ ".ts";
            content := generateToolFile proposal |})
      proposals.

End GenerateTools.


(** ** The text of a generated file, line by line *)

Module GeneratedText.
Import Str.

(** The lines of a text: what stands between its line feeds. *)
Fixpoint split_lines (s : string) : list string :=
  match s with
  | EmptyString => [EmptyString]
  | String c s' =>
      if Ascii.eqb c LF then EmptyString :: split_lines s'
      else match split_lines s' with
           | line :: rest => String c line :: rest
           | [] => [String c EmptyString]
           end
  end.

End GeneratedText.

(** ** Concrete inputs *)

Module Samples.
Import Str.

(** A click on a link located by its [href] attribute, the value in double
    quotes. *)
Definition quotedSelector : string := "a[href=" ++ q ++ "/x" ++ q ++ "]".

Definition clickLink : GenerateTools.DOMActionStep :=
{| GenerateTools.action := GenerateTools.click;
   GenerateTools.selector := quotedSelector;
   GenerateTools.inputProperty := None;
   GenerateTools.staticValue := None;
   GenerateTools.delay := None;
   GenerateTools.readAttribute := None;
   GenerateTools.s_description := None |}.

Definition openLink : GenerateTools.ToolProposal :=
{| GenerateTools.name := "openLink";
   GenerateTools.description := "Open the link";
   GenerateTools.inputSchema :=
     {| GenerateTools.properties := []; GenerateTools.required := None |};
   GenerateTools.actionDetails :=
     GenerateTools.dom_action {| GenerateTools.steps := [clickLink] |};
   GenerateTools.annotations := None;
   GenerateTools.urlPattern := None |}.

(** Read the cart's panel. *)
Definition readCart : GenerateTools.DOMActionStep :=
{| GenerateTools.action := GenerateTools.read;
   GenerateTools.selector := ".cart-panel";
   GenerateTools.inputProperty := None;
   GenerateTools.staticValue := None;
   GenerateTools.delay := None;
   GenerateTools.readAttribute := Some "textContent";
   GenerateTools.s_description := None |}.

(** Open the link, then read the cart's panel. *)
Definition readAfterLink : GenerateTools.ToolProposal :=
{| GenerateTools.name := "readAfterLink";
   GenerateTools.description := "Open the link and read the panel";
   GenerateTools.inputSchema :=
     {| GenerateTools.properties := []; GenerateTools.required := None |};
   GenerateTools.actionDetails :=
     GenerateTools.dom_action {| GenerateTools.steps := [clickLink; readCart] |};
   GenerateTools.annotations := None;
   GenerateTools.urlPattern := None |}.

(** A page function reached by a bracketed name, the name in double
    quotes, that takes nothing and returns nothing. *)
Definition quotedPath : string := "window[" ++ q ++ "clear-cart" ++ q ++ "]".

Definition clearCartCall : GenerateTools.JSCallAction :=
{| GenerateTools.functionPath := quotedPath;
   GenerateTools.argMapping := [];
   GenerateTools.returnType := Some GenerateTools.rt_void |}.

Definition clearCart : GenerateTools.ToolProposal :=
{| GenerateTools.name := "clearCart";
   GenerateTools.description := "Remove all items from the cart";
   GenerateTools.inputSchema :=
     {| GenerateTools.properties := []; GenerateTools.required := None |};
   GenerateTools.actionDetails := GenerateTools.js_call clearCartCall;
   GenerateTools.annotations := None;
   GenerateTools.urlPattern := None |}.

(** Markup: an element with an id and an inline click handler, and one with
    a handler and nothing else. *)
Definition handlerDiv : string :=
"<div id=" ++ q ++ "x" ++ q ++ " onclick=" ++ q ++ "f()" ++ q ++ ">Go</div>".

Definition handlerDivAttributes : string :=
" id=" ++ q ++ "x" ++ q ++ " onclick=" ++ q ++ "f()" ++ q.

Definition bareHandlerSpan : string :=
"<span onclick=" ++ q ++ "f()" ++ q ++ "></span>".

(** The page of the repository's merge test: a Submit button that both the
    accessibility tree and the markup show, and a Cancel button that only
    the markup shows. *)
Definition submitTree : ExtractDom.AccessibilityNode :=
ExtractDom.Node "WebArea" None None
  [ ExtractDom.Node "main" None None
      [ ExtractDom.Node "button" (Some "Submit") None [] ] ].

Definition submitMarkup : string :=
"<body><main><button aria-label=" ++ q ++ "Submit" ++ q ++ ">Submit</button>"
++ "<button id=" ++ q ++ "cancel-btn" ++ q ++ ">Cancel</button></main></body>".

Definition submitSnapshot : ExtractDom.PageSnapshot :=
{| ExtractDom.url := "https://example.com";
   ExtractDom.title := "Test Page";
   ExtractDom.bodyHTML := submitMarkup;
   ExtractDom.accessibilityTree := Some submitTree;
   ExtractDom.timestamp := 0%Z;
   ExtractDom.stepIndex := (-1)%Z |}.

(** The session scenario: two fills tagged [fillForm], then an untagged
    wait. *)
Definition logged (index : nat) (kind : Session.ActionKind)
           (selector value toolName : option string) : Session.ActionLogEntry :=
{| Session.stepIndex := index;
   Session.action := kind;
   Session.selector := selector;
   Session.value := value;
   Session.url := None;
   Session.toolName := toolName;
   Session.pageUrl := "https://example.com/signup";
   Session.screenshotPath := "session/screenshot-latest.png";
   Session.timestamp := 0%Z;
   Session.success := true;
   Session.error := None |}.

Definition nameField : string := "input[name=" ++ q ++ "name" ++ q ++ "]".
Definition emailField : string := "input[name=" ++ q ++ "email" ++ q ++ "]".

Definition fillFormLog : list Session.ActionLogEntry :=
[ logged 0 Session.fill (Some nameField) (Some "Ann") (Some "fillForm");
  logged 1 Session.fill (Some emailField) (Some "a@b.com") (Some "fillForm");
  logged 2 Session.wait None (Some "500") None ].

(** A session: a start, a fill that works and a click whose element is
    missing. *)
Definition startWorld : Session.StartWorld :=
{| Session.sw_failure := None;
   Session.sw_wsEndpoint := "ws://127.0.0.1:9222/abc";
   Session.sw_pageUrl := "https://example.com/";
   Session.sw_now := 1000%Z;
   Session.sw_close_failure := None |}.

Definition startOptions : Session.SessionStartOptions :=
{| Session.o_goal := Some "sign up";
   Session.headful := None;
   Session.viewportWidth := None;
   Session.viewportHeight := None |}.

Definition calmWorld : Session.StepWorld :=
{| Session.connect_failure := None;
   Session.page_failure := None;
   Session.settle_failure := None;
   Session.screenshot_failure := None;
   Session.w_pageUrl := "https://example.com/signup";
   Session.w_now := 2000%Z;
   Session.close_failure := None |}.

Definition missingElementWorld : Session.StepWorld :=
{| Session.connect_failure := None;
   Session.page_failure := Some "Timeout 30000ms exceeded.";
   Session.settle_failure := None;
   Session.screenshot_failure := None;
   Session.w_pageUrl := "https://example.com/signup";
   Session.w_now := 3000%Z;
   Session.close_failure := None |}.

Definition fillName : Session.SessionStepOptions :=
{| Session.so_action := Session.fill;
   Session.so_selector := Some nameField;
   Session.so_value := Some "Ann";
   Session.so_url := None;
   Session.so_toolName := Some "fillForm" |}.

Definition clickMissing : Session.SessionStepOptions :=
{| Session.so_action := Session.click;
   Session.so_selector := Some "#nowhere";
   Session.so_value := None;
   Session.so_url := None;
   Session.so_toolName := None |}.

Definition sampleSession : list Session.invocation :=
[ Session.Start "https://example.com/" startOptions startWorld;
  Session.Step fillName calmWorld;
  Session.Step clickMissing missingElementWorld ].

(** Replies of the agent. *)
Definition fencedReply : string :=
"Sure, here: ```json" ++ nl ++ "[{" ++ q ++ "name" ++ q ++ ": " ++ q ++ "getMenu" ++ q
++ "}]" ++ nl ++ "``` and later ```[2]```".

Definition objectReply : string :=
"{" ++ q ++ "name" ++ q ++ ":" ++ q ++ "x" ++ q ++ "}".

Definition wrappedReply : string :=
"{" ++ q ++ "tools" ++ q ++ ": [ {" ++ q ++ "name" ++ q ++ ":" ++ q ++ "x" ++ q ++ "} ]}".

End Samples.

(** ** [src/generator/generate-manifest.ts] *)

Module GenerateManifest.
Import Str Regex GenerateTools.

Record ManifestOptions : Type := {
  o_extensionName : option string;
  o_version : option string;
  o_defaultPattern : option string
}.

(** [ToolManifest] ([src/analysis/types.ts]) *)
Record ToolManifest : Type := {
  patterns : Obj.t (list string);
  toolNames : list string;
  extensionName : string;
  version : string
}.

(** The names that every plain object inherits from [Object.prototype].
    Reading one of them from [patterns] gives the inherited member, which
    is truthy and has no [push]. *)
Definition prototype_keys : list string :=
  [ "constructor"; "__defineGetter__"; "__defineSetter__"; "hasOwnProperty";
    "__lookupGetter__"; "__lookupSetter__"; "isPrototypeOf"; "propertyIsEnumerable";
    "toString"; "valueOf"; "__proto__"; "toLocaleString" ].

(** The state of the loop: the pattern record and the names. *)
Definition manifest_state : Type := (Obj.t (list string) * list string)%type.

(** The body of the loop over the proposals; [None] stands for the
    [TypeError] of calling a [push] that is not there. *)
Definition manifest_step (defaultPattern : string) (st : manifest_state)
           (proposal : ToolProposal) : option manifest_state :=
  let (patterns, toolNames) := st in
  let pattern := orElse (urlPattern proposal) defaultPattern in
  let toolPath := "tools/" ++ name proposal ++ ".ts" in
  match Obj.get pattern patterns with
  | Some paths =>
      Some (Obj.replace pattern (paths ++ [toolPath])%list patterns,
            (toolNames ++ [name proposal])%list)
  | None =>
      if string_in pattern prototype_keys then None
      else
        Some (Obj.replace pattern [toolPath] (Obj.set pattern [] patterns),
              (toolNames ++ [name proposal])%list)
  end.

Fixpoint manifest_loop (defaultPattern : string) (proposals : list ToolProposal)
         (st : manifest_state) : option manifest_state :=
  match proposals with
  | [] => Some st
  | proposal :: rest =>
      match manifest_step defaultPattern st proposal with
      | Some st' => manifest_loop defaultPattern rest st'
      | None => None
      end
  end.

Definition generateToolManifest (proposals : list ToolProposal)
           (options : ManifestOptions) : option ToolManifest :=
  let extensionName := orElse (o_extensionName options) "webmcp-extend-tools" in
  let version := orElse (o_version options) "0.1.0" in
  let defaultPattern := orElse (o_defaultPattern options) "<all_urls>" in
  match manifest_loop defaultPattern proposals ([], []) with
  | Some (patterns, toolNames) =>
      Some {| patterns := patterns;
              toolNames := toolNames;
              extensionName := extensionName;
              version := version |}
  | None => None
  end.

(** The pattern of a text that starts with [http], [https] or a star,
    followed by the scheme separator. *)
Definition scheme_pattern : regex :=
  seq [RStart; RGroup 1 (RAlt (seq [lit "http"; opt (lit "s")]) (lit "*")); lit "://"].

(** [re.test(s)] for a regex without the [g] flag. *)
Definition test (re : regex) (s : string) : bool :=
  match exec false re s with Some _ => true | None => false end.

Definition toMatchPattern (urlPattern : string) : string :=
  if test scheme_pattern urlPattern then urlPattern
  else if String.eqb urlPattern "<all_urls>" then urlPattern
  else if negb (contains "://" urlPattern) then "*://" ++ urlPattern ++ "/*"
  else urlPattern.

End GenerateManifest.

(** ** The manifest, as a function of the proposals *)

Module GenerateManifestSpec.
Import Str GenerateTools GenerateManifest.

(** The pattern a proposal is filed under. *)
Definition pattern_of (options : ManifestOptions) (proposal : ToolProposal) : string :=
  orElse (urlPattern proposal) (orElse (o_defaultPattern options) "<all_urls>").

Definition tool_path (proposal : ToolProposal) : string :=
  "tools/" ++ name proposal ++ ".ts".

(** The proposals filed under a pattern, in order. *)
Definition filed_under (options : ManifestOptions) (pattern : string)
           (proposals : list ToolProposal) : list ToolProposal :=
  filter (fun proposal => String.eqb (pattern_of options proposal) pattern) proposals.

(** A proposal whose pattern is the name of an inherited member. *)
Definition shadowed (options : ManifestOptions) (proposal : ToolProposal) : bool :=
  string_in (pattern_of options proposal) prototype_keys.

(** What the loop has built after the proposals [done]. *)
Definition built (options : ManifestOptions) (done : list ToolProposal)
           (st : manifest_state) : Prop :=
  snd st = map name done
  /\ Permutation (flat_map snd (fst st)) (map tool_path done)
  /\ forall pattern,
       Obj.get pattern (fst st)
       = match filed_under options pattern done with
         | [] => None
         | filed => Some (map tool_path filed)
         end.

End GenerateManifestSpec.

(** ** [src/session/convert.ts] *)

Module Convert.
Import Str.

(** *** Types ([src/session/types.ts]), as they are declared *)

Inductive StepKind : Type :=
| click | fill | select | hover | scroll.

Record ToolActionStep : Type := {
  action : StepKind;
  selector : string;
  inputProperty : option string;
  staticValue : option string;
  delay : option GenerateTools.number
}.

Record ToolFromActions : Type := {
  name : string;
  steps : list ToolActionStep;
  inputSchema : Session.InputSchema;
  urlPatterns : list string
}.

(** [Object.fromEntries(entries)]: the entries are defined one after the
    other, each key as an own property; a later entry of a key replaces the
    value of an earlier one. *)
Definition define {V} (k : string) (v : V) (o : Obj.t V) : Obj.t V :=
  if Obj.has k o then Obj.replace k v o
  else match Obj.array_index k with
       | Some i => Obj.insert_index i k v o
       | None => (o ++ [(k, v)])%list
       end.

Definition fromEntries {V} (entries : list (string * V)) : Obj.t V :=
  fold_left (fun o entry => define (fst entry) (snd entry) o) entries [].

(** The action of a step as a [DOMActionStep] has it; a hover step has
    none and is filtered out before the cast. *)
Definition dom_action_of (kind : StepKind) : option GenerateTools.StepAction :=
  match kind with
  | click => Some GenerateTools.click
  | fill => Some GenerateTools.fill
  | select => Some GenerateTools.select
  | scroll => Some GenerateTools.scroll
  | hover => None
  end.

(** [tool.steps.filter(...).map(...)] *)
Definition domSteps (tool : ToolFromActions) : list GenerateTools.DOMActionStep :=
  flat_map
    (fun step =>
       match dom_action_of (action step) with
       | None => []     (* hover not supported in DOMActionStep *)
       | Some a =>
           [ {| GenerateTools.action := a;
                GenerateTools.selector := selector step;
                GenerateTools.inputProperty := inputProperty step;
                GenerateTools.staticValue := staticValue step;
                GenerateTools.delay := delay step;
                GenerateTools.readAttribute := None;
                GenerateTools.s_description := None |} ]
       end)
    (steps tool).

Definition property_of (val : Session.SchemaProperty) : GenerateTools.ToolInputProperty :=
  GenerateTools.Property (Session.p_type val) (Session.p_description val)
                         None None None None.

Definition convertSessionToolsToProposals (tools : list ToolFromActions)
  : list GenerateTools.ToolProposal :=
  map (fun tool =>
         {| GenerateTools.name := name tool;
            GenerateTools.description := "Tool discovered during interactive session";
            GenerateTools.inputSchema :=
              {| GenerateTools.properties :=
                   fromEntries
                     (map (fun entry : string * Session.SchemaProperty =>
                             (fst entry, property_of (snd entry)))
                          (Session.properties (inputSchema tool)));
                 GenerateTools.required := Some (Session.required (inputSchema tool)) |};
            GenerateTools.actionDetails :=
              GenerateTools.dom_action {| GenerateTools.steps := domSteps tool |};
            GenerateTools.annotations := None;
            GenerateTools.urlPattern := hd_error (urlPatterns tool) |})
      tools.

End Convert.

(** ** The converter's input, step by step *)

Module ConvertSpec.
Import Str.

Definition is_hover (step : Convert.ToolActionStep) : bool :=
  match Convert.action step with Convert.hover => true | _ => false end.

End ConvertSpec.

(** ** From the recorder's tools to the converter's input

    [sessionClose] writes the tools it derives to [tools.json]; the
    [generate] command reads that file back as [ToolFromActions[]] and hands
    it to the converter.  A step of the recorder keeps the action of its log
    entry and has no delay; it inhabits the declared step type when that
    action is one of the five the type admits. *)

Module SessionTools.
Import Str.

Definition declared_kind (a : Session.ActionKind) : option Convert.StepKind :=
  match a with
  | Session.click => Some Convert.click
  | Session.fill => Some Convert.fill
  | Session.select => Some Convert.select
  | Session.hover => Some Convert.hover
  | Session.scroll => Some Convert.scroll
  | Session.wait | Session.navigate => None
  end.

Definition declared_step (step : Session.ToolActionStep) : option Convert.ToolActionStep :=
  match declared_kind (Session.s_action step), Session.delay step with
  | Some kind, None =>
      Some {| Convert.action := kind;
              Convert.selector := Session.s_selector step;
              Convert.inputProperty := Session.inputProperty step;
              Convert.staticValue := Session.staticValue step;
              Convert.delay := None |}
  | _, _ => None
  end.

Fixpoint all_some {A} (l : list (option A)) : option (list A) :=
  match l with
  | [] => Some []
  | Some x :: rest =>
      match all_some rest with Some xs => Some (x :: xs) | None => None end
  | None :: _ => None
  end.

Definition declared_tool (tool : Session.ToolFromActions) : option Convert.ToolFromActions :=
  match all_some (map declared_step (Session.steps tool)) with
  | Some steps =>
      Some {| Convert.name := Session.name tool;
              Convert.steps := steps;
              Convert.inputSchema := Session.inputSchema tool;
              Convert.urlPatterns := Session.urlPatterns tool |}
  | None => None
  end.

Definition declared (tools : list Session.ToolFromActions)
  : option (list Convert.ToolFromActions) :=
  all_some (map declared_tool tools).

(** The step of the generated code that a kept entry of the log ends up
    as, if it does. *)
Definition dom_step_of (entry : Session.ActionLogEntry)
  : list GenerateTools.DOMActionStep :=
  let step (a : GenerateTools.StepAction) :=
    [ {| GenerateTools.action := a;
         GenerateTools.selector := orElse (Session.selector entry) "";
         GenerateTools.inputProperty :=
           if SessionSpec.carries_value entry
           then Some (SessionSpec.property_name entry) else None;
         GenerateTools.staticValue := None;
         GenerateTools.delay := None;
         GenerateTools.readAttribute := None;
         GenerateTools.s_description := None |} ] in
  match Session.action entry with
  | Session.click => step GenerateTools.click
  | Session.fill => step GenerateTools.fill
  | Session.select => step GenerateTools.select
  | Session.scroll => step GenerateTools.scroll
  | Session.hover | Session.wait | Session.navigate => []
  end.

(** The proposal that the entries of a tag end up as. *)
Definition proposal_of (t : string) (entries : list Session.ActionLogEntry)
  : GenerateTools.ToolProposal :=
  let tool := SessionSpec.derived_tool t entries in
  {| GenerateTools.name := t;
     GenerateTools.description := "Tool discovered during interactive session";
     GenerateTools.inputSchema :=
       {| GenerateTools.properties :=
            map (fun entry : string * Session.SchemaProperty =>
                   (fst entry, Convert.property_of (snd entry)))
                (Session.properties (Session.inputSchema tool));
          GenerateTools.required := Some (Session.required (Session.inputSchema tool)) |};
     GenerateTools.actionDetails :=
       GenerateTools.dom_action {| GenerateTools.steps := flat_map dom_step_of entries |};
     GenerateTools.annotations := None;
     GenerateTools.urlPattern := option_map Session.pageUrl (hd_error entries) |}.

End SessionTools.

(** ** The enumeration order of a record's keys *)

Module ObjOrder.
Import Str.

(** Array indices first, in ascending order from [least] on; then the
    other keys. *)
Fixpoint in_order (least : N) (keys : list string) : Prop :=
  match keys with
  | [] => True
  | k :: rest =>
      match Obj.array_index k with
      | Some i => (least <= i)%N /\ in_order (N.succ i) rest
      | None => Forall (fun k' => Obj.array_index k' = None) rest
      end
  end.

(** What a record is when it has been built by assignments: no key twice,
    and the keys in enumeration order. *)
Definition well_formed {V} (o : Obj.t V) : Prop :=
  NoDup (Obj.keys o) /\ in_order 0 (Obj.keys o).

End ObjOrder.

(** ** [src/analysis/crawl.ts]

    The browser is the crawler's environment: what the page shows after
    each step, and what launching, acting, waiting, capturing and closing
    throw, are arguments of the model.  The screenshot of a snapshot, which
    no analysis reads, is left out. *)

Module Crawl.
Import Str.

(** [ScenarioStep]; the steps are read from JSON, so the action is the
    text that stands there. *)
Record ScenarioStep : Type := {
  action : string;
  selector : option string;
  value : option string;
  url : option string;
  waitFor : option string;
  description : option string
}.

(** What a page shows at one moment. *)
Record PageView : Type := {
  v_url : string;
  v_title : string;
  v_bodyHTML : string;                 (* document.body?.outerHTML ?? "" *)
  v_ariaSnapshot : option string;      (* None: ariaSnapshot() throws *)
  v_now : Z
}.

Record CrawlWorld : Type := {
  launch_failure : option string;      (* launching the browser *)
  open_failure : option string;        (* context, page, first navigation *)
  views : nat -> PageView;             (* the page after so many steps *)
  step_failure : nat -> option string; (* what the page throws at a step's action *)
  wait_failure : nat -> option string; (* ... at a step's wait condition *)
  capture_failure : nat -> option string;
  close_failure : option string
}.

(** [executeStep(page, step)]: the message of what it throws, if it
    throws. *)
Definition executeStep (page_failure wait_failure : option string) (step : ScenarioStep)
  : option string :=
  let acted :=
    if String.eqb (action step) "navigate" then
      if negb (truthy (url step)) then Some "Navigate step requires a url"
      else page_failure
    else if String.eqb (action step) "click" then
      if negb (truthy (selector step)) then Some "Click step requires a selector"
      else page_failure
    else if String.eqb (action step) "fill" then
      if negb (truthy (selector step)) then Some "Fill step requires a selector"
      else page_failure
    else if String.eqb (action step) "select" then
      if negb (truthy (selector step)) then Some "Select step requires a selector"
      else page_failure
    else if String.eqb (action step) "hover" then
      if negb (truthy (selector step)) then Some "Hover step requires a selector"
      else page_failure
    else if String.eqb (action step) "wait" then
      if truthy (selector step) then page_failure
      else if truthy (value step) then
        if Session.parseInt_is_number (show (value step)) then page_failure else None
      else None
    else Some ("Unknown scenario step action: " ++ action step) in
  match acted with
  | Some message => Some message
  | None =>
      (* post-action wait condition *)
      if truthy (waitFor step) then wait_failure else None
  end.

(** [captureAccessibilityTree(page)]: the snapshot text wrapped into one
    node, or [null]. *)
Definition captureAccessibilityTree (page : PageView)
  : option ExtractDom.AccessibilityNode :=
  match v_ariaSnapshot page with
  | Some ariaYaml =>
      Some (ExtractDom.Node "RootWebArea" (Some (v_title page)) (Some ariaYaml) [])
  | None => None
  end.

Definition captureSnapshot (page : PageView) (stepIndex : Z) : ExtractDom.PageSnapshot :=
  {| ExtractDom.url := v_url page;
     ExtractDom.title := v_title page;
     ExtractDom.bodyHTML := v_bodyHTML page;
     ExtractDom.accessibilityTree := captureAccessibilityTree page;
     ExtractDom.timestamp := v_now page;
     ExtractDom.stepIndex := stepIndex |}.

(** The loop over the scenario steps, from step [i] on. *)
Fixpoint crawl_steps (w : CrawlWorld) (steps : list ScenarioStep) (i : nat)
         (snapshots : list ExtractDom.PageSnapshot)
  : Session.result (list ExtractDom.PageSnapshot) :=
  match steps with
  | [] => Session.Ok snapshots
  | step :: rest =>
      match executeStep (step_failure w i) (wait_failure w i) step with
      | Some message => Session.Thrown message
      | None =>
          match capture_failure w (S i) with
          | Some message => Session.Thrown message
          | None =>
              crawl_steps w rest (S i)
                (snapshots ++ [captureSnapshot (views w (S i)) (Z.of_nat i)])%list
          end
      end
  end.

Definition crawlSite (url : string) (steps : list ScenarioStep) (w : CrawlWorld)
  : Session.result (list ExtractDom.PageSnapshot) :=
  match launch_failure w with
  | Some message => Session.Thrown message      (* no browser to close *)
  | None =>
      let body :=
        match open_failure w with
        | Some message => Session.Thrown message
        | None =>
            match capture_failure w 0 with
            | Some message => Session.Thrown message
            | None => crawl_steps w steps 0 [captureSnapshot (views w 0) (-1)%Z]
            end
        end in
      (* finally: close the browser *)
      match close_failure w with
      | Some message => Session.Thrown message
      | None => body
      end
  end.

(** The actions the crawler knows. *)
Definition known_actions : list string :=
  ["navigate"; "click"; "fill"; "select"; "hover"; "wait"].

End Crawl.

(** What the statements about the crawler are phrased with: a crawl in
    which nothing throws, the snapshots such a crawl takes, and a scenario
    step handed to the session recorder. *)

Module CrawlSpec.
Import Str Crawl.

Definition quiet (w : CrawlWorld) (steps : list ScenarioStep) : Prop :=
  launch_failure w = None
  /\ open_failure w = None
  /\ close_failure w = None
  /\ (forall i, i <= List.length steps -> capture_failure w i = None)
  /\ (forall i step,
        nth_error steps i = Some step ->
        executeStep (step_failure w i) (wait_failure w i) step = None).

Definition snapshots_of (w : CrawlWorld) (steps : list ScenarioStep)
  : list ExtractDom.PageSnapshot :=
  captureSnapshot (views w 0) (-1)%Z
  :: map (fun k => captureSnapshot (views w (S k)) (Z.of_nat k))
         (List.seq 0 (List.length steps)).

(** The recorder's name for an action of the crawler. *)
Definition as_session_action (a : string) : option Session.ActionKind :=
  if String.eqb a "navigate" then Some Session.navigate
  else if String.eqb a "click" then Some Session.click
  else if String.eqb a "fill" then Some Session.fill
  else if String.eqb a "select" then Some Session.select
  else if String.eqb a "hover" then Some Session.hover
  else if String.eqb a "wait" then Some Session.wait
  else None.

Definition as_options (kind : Session.ActionKind) (step : ScenarioStep)
  : Session.SessionStepOptions :=
  {| Session.so_action := kind;
     Session.so_selector := selector step;
     Session.so_value := value step;
     Session.so_url := url step;
     Session.so_toolName := None |}.

End CrawlSpec.

(** ** Concrete proposals and logs *)

Module PipelineSamples.
Import Str.

Definition pizzaPattern : string := "https://pizza.example.com/*".

(** Two proposals of the repository's generator tests: a call of a page
    function, filed under a pattern of its own, and a click, filed under the
    default one. *)
Definition getMenu : GenerateTools.ToolProposal :=
{| GenerateTools.name := "getMenu";
   GenerateTools.description := "Get the pizza menu";
   GenerateTools.inputSchema :=
     {| GenerateTools.properties := []; GenerateTools.required := Some [] |};
   GenerateTools.actionDetails :=
     GenerateTools.js_call
       {| GenerateTools.functionPath := "window.getMenu";
          GenerateTools.argMapping := [];
          GenerateTools.returnType := Some GenerateTools.rt_object |};
   GenerateTools.annotations :=
     Some {| GenerateTools.readOnlyHint := Some true;
             GenerateTools.destructiveHint := None;
             GenerateTools.confirmationHint := None;
             GenerateTools.openWorldHint := None |};
   GenerateTools.urlPattern := Some pizzaPattern |}.

Definition clickAdd : GenerateTools.DOMActionStep :=
{| GenerateTools.action := GenerateTools.click;
   GenerateTools.selector := ".add-btn";
   GenerateTools.inputProperty := None;
   GenerateTools.staticValue := None;
   GenerateTools.delay := None;
   GenerateTools.readAttribute := None;
   GenerateTools.s_description := None |}.

Definition addToCart : GenerateTools.ToolProposal :=
{| GenerateTools.name := "addToCart";
   GenerateTools.description := "Add a pizza to the cart";
   GenerateTools.inputSchema :=
     {| GenerateTools.properties :=
          [ ("id", GenerateTools.Property "string" "Pizza ID" None None None None) ];
        GenerateTools.required := Some ["id"] |};
   GenerateTools.actionDetails :=
     GenerateTools.dom_action {| GenerateTools.steps := [clickAdd] |};
   GenerateTools.annotations := None;
   GenerateTools.urlPattern := None |}.

Definition pizzaOptions : GenerateManifest.ManifestOptions :=
{| GenerateManifest.o_extensionName := Some "test-extension";
   GenerateManifest.o_version := None;
   GenerateManifest.o_defaultPattern := Some "*://pizza.example.com/*" |}.

Definition pizzaManifest : GenerateManifest.ToolManifest :=
{| GenerateManifest.patterns :=
     [ (pizzaPattern, ["tools/getMenu.ts"]);
       ("*://pizza.example.com/*", ["tools/addToCart.ts"]) ];
   GenerateManifest.toolNames := ["getMenu"; "addToCart"];
   GenerateManifest.extensionName := "test-extension";
   GenerateManifest.version := "0.1.0" |}.

Definition pizzaPage : Crawl.PageView :=
{| Crawl.v_url := "https://pizza.example.com/";
   Crawl.v_title := "Pizza Shop";
   Crawl.v_bodyHTML := Samples.submitMarkup;
   Crawl.v_ariaSnapshot := Some ("- main:" ++ nl ++ "  - button " ++ q ++ "Submit" ++ q);
   Crawl.v_now := 1000%Z |}.

Definition calmCrawl : Crawl.CrawlWorld :=
{| Crawl.launch_failure := None;
   Crawl.open_failure := None;
   Crawl.views := fun _ => pizzaPage;
   Crawl.step_failure := fun _ => None;
   Crawl.wait_failure := fun _ => None;
   Crawl.capture_failure := fun _ => None;
   Crawl.close_failure := None |}.

Definition clickSubmit : Crawl.ScenarioStep :=
{| Crawl.action := "click";
   Crawl.selector := Some "button";
   Crawl.value := None;
   Crawl.url := None;
   Crawl.waitFor := Some "networkidle";
   Crawl.description := None |}.

Definition waitABit : Crawl.ScenarioStep :=
{| Crawl.action := "wait";
   Crawl.selector := None;
   Crawl.value := Some "250";
   Crawl.url := None;
   Crawl.waitFor := None;
   Crawl.description := None |}.

(** A recorded search: the page is opened, the query typed, a hint
    hovered, the button clicked; a last click fails. *)
Definition shopHome : string := "https://shop.example.com/".
Definition shopSearch : string := "https://shop.example.com/search".

Definition recorded (index : nat) (kind : Session.ActionKind)
           (selector value url : option string) (page : string) (ok : bool)
  : Session.ActionLogEntry :=
{| Session.stepIndex := index;
   Session.action := kind;
   Session.selector := selector;
   Session.value := value;
   Session.url := url;
   Session.toolName := Some "search";
   Session.pageUrl := page;
   Session.screenshotPath := "session/screenshot-latest.png";
   Session.timestamp := 0%Z;
   Session.success := ok;
   Session.error := if ok then None else Some "Timeout 30000ms exceeded." |}.

Definition searchLog : list Session.ActionLogEntry :=
[ recorded 0 Session.navigate None None (Some shopSearch) shopHome true;
  recorded 1 Session.fill (Some "#query-box") (Some "pizza") None shopSearch true;
  recorded 2 Session.hover (Some ".hint") None None shopSearch true;
  recorded 3 Session.click (Some "#go") None None shopSearch true;
  recorded 4 Session.click (Some "#missing") None None shopSearch false ].

Definition searchTool : Session.ToolFromActions :=
{| Session.name := "search";
   Session.steps :=
     [ {| Session.s_action := Session.fill; Session.s_selector := "#query-box";
          Session.inputProperty := Some "queryBox"; Session.staticValue := None;
          Session.delay := None |};
       {| Session.s_action := Session.hover; Session.s_selector := ".hint";
          Session.inputProperty := None; Session.staticValue := None;
          Session.delay := None |};
       {| Session.s_action := Session.click; Session.s_selector := "#go";
          Session.inputProperty := None; Session.staticValue := None;
          Session.delay := None |} ];
   Session.inputSchema :=
     {| Session.properties :=
          [ ("queryBox", {| Session.p_type := "string";
                            Session.p_description := "Value for #query-box" |}) ];
        Session.required := ["queryBox"] |};
   Session.urlPatterns := [shopHome; shopSearch] |}.

(** The files of a session after a start and a fill. *)
Definition afterFill : Session.Disk :=
  Session.run "session" Session.empty_disk
    [ Session.Start "https://example.com/" Samples.startOptions Samples.startWorld;
      Session.Step Samples.fillName Samples.calmWorld ].

End PipelineSamples.

(** ** The tree pass, by region *)

Module TreePassSpec.
Import Str ExtractDom.

(** The key of the region that an element of the tree pass goes to: the
    role of its landmark, or [unknown]. *)
Definition region_key (el : FlatA11yElement) : string :=
  orElse (parentRole el) "unknown".

Definition members (key : string) (elements : list FlatA11yElement)
  : list FlatA11yElement :=
  filter (fun el => String.eqb (region_key el) key) elements.

(** The region of a key: labelled after the first of its elements, and
    holding all of them in order. *)
Definition region_of (key : string) (elements : list FlatA11yElement) : Region :=
  let regionLabel :=
    match members key elements with
    | first :: _ => parentName first
    | [] => None
    end in
  {| r_type := mapRoleToRegionType key;
     r_selector := buildRegionSelector key regionLabel;
     label := regionLabel;
     interactiveElements := map a11yToInteractiveElement (members key elements) |}.

Definition region_keys (elements : list FlatA11yElement) : list string :=
  SessionSpec.distinct (map region_key elements).

(** What the tree pass of a snapshot starts from. *)
Definition tree_elements (snapshot : PageSnapshot) : list FlatA11yElement :=
  match accessibilityTree snapshot with
  | Some tree => flattenAccessibilityTree tree None None 0
  | None => []
  end.

(** The number of nodes of a tree that have an interactive role. *)
Fixpoint interactive_nodes (node : AccessibilityNode) : nat :=
  match node with
  | Node role _ _ children =>
      (if string_in role interactiveRoles then 1 else 0)
      + (fix each (cs : list AccessibilityNode) : nat :=
           match cs with
           | [] => 0
           | child :: rest => interactive_nodes child + each rest
           end) children
  end.

Definition is_unknown (r : Region) : bool := RegionType_eqb (r_type r) unknown.

End TreePassSpec.

(** ** The matcher on the patterns of the sources, in plain terms *)

Module MatcherSpec.
Import Str Regex.

(** The character before a position, once [consumed] has been read. *)
Definition moved (prev : option ascii) (consumed : string) : option ascii :=
  match last_char consumed with
  | Some c => Some c
  | None => prev
  end.

(** A starred class as a walk along the text: at each character of the
    class the greedy star goes on first and comes back to the continuation,
    the lazy star asks the continuation first. *)
Fixpoint walk (ci : bool) (R : Type) (cl : cclass) (greedy : bool) (k : cont R)
         (prev : option ascii) (s : string) (caps : captures) : option R :=
  match s with
  | EmptyString => k prev s caps
  | String c s' =>
      let again :=
        if class_matches ci cl c then walk ci cl greedy k (Some c) s' caps else None in
      if greedy then or_else again (k prev s caps)
      else or_else (k prev s caps) again
  end.

Fixpoint all_chars (p : ascii -> bool) (s : string) : bool :=
  match s with
  | EmptyString => true
  | String c s' => p c && all_chars p s'
  end.

(** The longest prefix of characters with a property, and the rest. *)
Fixpoint span (p : ascii -> bool) (s : string) : string * string :=
  match s with
  | EmptyString => (EmptyString, EmptyString)
  | String c s' =>
      if p c then let (v, r) := span p s' in (String c v, r)
      else (EmptyString, s)
  end.

End MatcherSpec.

(** ** Attribute texts and fenced replies *)

Module MarkupSpec.
Import Str Regex MatcherSpec.

Definition not_quote (c : ascii) : bool := negb (Ascii.eqb c DQ).
Definition quote_free : string -> bool := all_chars not_quote.

(** The text up to the next double quote, if there is one. *)
Definition until_quote (s : string) : option string :=
  match span not_quote s with
  | (v, String _ _) => Some v
  | (_, EmptyString) => None
  end.

(** The quoted text after the first place where [name], an equals sign and
    a double quote stand - the letters of [name] in either case - and a
    closing double quote follows. *)
Fixpoint first_quoted (name attrs : string) : option string :=
  let here :=
    match strip_prefix true (name ++ "=" ++ q) attrs with
    | Some rest => until_quote rest
    | None => None
    end in
  match here with
  | Some v => Some v
  | None =>
      match attrs with
      | EmptyString => None
      | String _ attrs' => first_quoted name attrs'
      end
  end.

End MarkupSpec.

(** Texts without a backtick, and white space. *)

Module ReplySpec.
Import Str MatcherSpec.

Definition tick : ascii := chr 96.
Definition not_tick (c : ascii) : bool := negb (Ascii.eqb c tick).
Definition tick_free : string -> bool := all_chars not_tick.
Definition all_space : string -> bool := all_chars is_space.

End ReplySpec.

(** ** The property name of a selector *)

Module NamingSpec.
Import Str Regex MatcherSpec.

(** The first pattern of [toCamelCase] and its replacement. *)
Definition sep_re : regex :=
  seq [plus (RSet (COneOf [ch "-"; ch "_"; CSpace])); opt (RGroup 1 (RSet CDot))].

Definition camel_f (mt : match_result) : string :=
  match group 1 mt with
  | Some c => if nonempty c then toUpperCase c else ""
  | None => ""
  end.

(** The characters that [toCamelCase] takes out. *)
Definition is_separator (c : ascii) : bool :=
  Ascii.eqb c "-" || Ascii.eqb c "_" || is_space c.

(** The text without its separators, a character that follows a run of
    them in upper case. *)
Fixpoint camel_from (up : bool) (s : string) : string :=
  match s with
  | EmptyString => EmptyString
  | String c s' =>
      if is_separator c then camel_from true s'
      else String (if up then upper_char c else c) (camel_from false s')
  end.

Definition no_separator (c : ascii) : bool := negb (is_separator c).

(** A text with its first letter in lower case. *)
Definition lower_first (s : string) : string :=
  match s with
  | String c s' => String (lower_char c) s'
  | EmptyString => EmptyString
  end.

Definition camel (s : string) : string := lower_first (camel_from false s).

Definition no_bracket (c : ascii) : bool := negb (Ascii.eqb c "[").

(** The characters of an id in a selector, and those of an attribute value. *)
Definition id_char (c : ascii) : bool := is_word c || Ascii.eqb c "-".
Definition value_char (c : ascii) : bool :=
  negb (Ascii.eqb c DQ || Ascii.eqb c "'" || Ascii.eqb c "]").

End NamingSpec.

(** ** Markup with no element, and with one *)

Module ElementSpec.
Import Str MatcherSpec.

Definition not_lt (c : ascii) : bool := negb (Ascii.eqb c "<").
Definition not_gt_char (c : ascii) : bool := negb (Ascii.eqb c ">").

(** Attribute text: it ends at the first closing angle bracket, and does
    not go on the tag's name. *)
Definition attribute_text (attrs : string) : bool :=
  all_chars (fun c => not_lt c && not_gt_char c) attrs
  && match attrs with
     | String c _ => negb (is_word c)
     | EmptyString => true
     end.

(** Text without an opening angle bracket: no markup. *)
Definition markup_free : string -> bool := all_chars not_lt.

End ElementSpec.

Module ElementSamples.
Import Str.

(** A page without a body, as the crawler captures it. *)
Definition blankPage : Crawl.PageView :=
{| Crawl.v_url := "about:blank";
   Crawl.v_title := "";
   Crawl.v_bodyHTML := "";
   Crawl.v_ariaSnapshot := Some "";
   Crawl.v_now := 0%Z |}.

Definition emailMarkup : string :=
  "Email: <input id=" ++ q ++ "email" ++ q ++ " type=" ++ q ++ "text" ++ q ++ "> (required)".

End ElementSamples.

(** * Properties *)

(** ** General facts about lists and strings *)

Module Facts.
Import Str.

Lemma starts_with_app (p s : string) : starts_with p (p ++ s) = true.
Proof.
  induction p as [|c p IH]; simpl.
  - reflexivity.
  - rewrite Ascii.eqb_refl. exact IH.
Qed.

Lemma append_assoc (a b c : string) : ((a ++ b) ++ c)%string = (a ++ (b ++ c))%string.
Proof. induction a as [|x a IH]; simpl; [reflexivity | now rewrite IH]. Qed.

Lemma append_inj_l (p a b : string) : (p ++ a)%string = (p ++ b)%string -> a = b.
Proof.
  induction p as [|c p IH]; simpl; intros H.
  - exact H.
  - injection H as H. now apply IH.
Qed.

Lemma last_char_snoc (s : string) (c : ascii) :
  last_char (s ++ String c EmptyString) = Some c.
Proof.
  induction s as [|x s IH]; simpl.
  - reflexivity.
  - rewrite IH. destruct (s ++ String c EmptyString)%string eqn:E.
    + destruct s; discriminate.
    + reflexivity.
Qed.

Lemma last_char_cons (x : ascii) (s : string) :
  last_char (String x s) = match last_char s with Some c => Some c | None => Some x end.
Proof.
  revert x. induction s as [|y s IH]; intros x; [reflexivity|].
  change (last_char (String x (String y s))) with (last_char (String y s)).
  rewrite (IH y). now destruct (last_char s).
Qed.

Lemma last_char_app (a b : string) :
  last_char (a ++ b) = match last_char b with Some c => Some c | None => last_char a end.
Proof.
  induction a as [|x a IH]; cbn [append].
  - now destruct (last_char b).
  - rewrite last_char_cons, IH, (last_char_cons x a).
    now destruct (last_char b), (last_char a).
Qed.

Lemma word_split_app (w : string) (c : ascii) (r : string) :
  all_word w = true -> is_word c = false ->
  word_split (w ++ String c r) = (w, String c r).
Proof.
  intros Hw Hc. induction w as [|x w IH]; simpl.
  - now rewrite Hc.
  - simpl in Hw. apply andb_true_iff in Hw. destruct Hw as [Hx Hw].
    now rewrite Hx, IH.
Qed.

Lemma string_in_In (x : string) (l : list string) : string_in x l = true <-> In x l.
Proof.
  unfold string_in. rewrite existsb_exists. split.
  - intros (y & Hy & E). apply String.eqb_eq in E. now subst.
  - intros H. exists x. split; [exact H | apply String.eqb_refl].
Qed.

Lemma string_in_false (x : string) (l : list string) : string_in x l = false <-> ~ In x l.
Proof.
  rewrite <- string_in_In. destruct (string_in x l); split; congruence.
Qed.

Lemma string_in_app (x : string) (a b : list string) :
  string_in x (a ++ b)%list = string_in x a || string_in x b.
Proof. unfold string_in. apply existsb_app. Qed.

Lemma fold_left_invariant {A B} (P : A -> Prop) (f : A -> B -> A) (l : list B) (a : A) :
  P a -> (forall a b, P a -> P (f a b)) -> P (fold_left f l a).
Proof.
  intros Ha Hf. revert a Ha. induction l as [|b l IH]; intros a Ha; simpl; auto.
Qed.

End Facts.

(** ** The matcher *)

Module RegexFacts.
Import Str Regex Facts.

Lemma all_word_app (a b : string) :
  all_word (a ++ b) = all_word a && all_word b.
Proof. induction a as [|c a IH]; simpl; [reflexivity | now rewrite IH, andb_assoc]. Qed.

Lemma length_append (a b : string) :
  String.length (a ++ b) = String.length a + String.length b.
Proof. induction a as [|c a IH]; simpl; [reflexivity | now rewrite IH]. Qed.

Lemma take_append (a b : string) :
  take (String.length (a ++ b) - String.length b) (a ++ b) = a.
Proof.
  rewrite length_append, Nat.add_sub.
  induction a as [|c a IH]; simpl; [now destruct b | now rewrite IH].
Qed.

(** A pattern that can only consume word characters calls its continuation
    after a run of word characters, with the captures it was given. *)
Lemma m_word_only (ci : bool) (R : Type) (r : regex) :
  word_only r = true ->
  forall prev s caps (k : cont R) res,
    m ci r prev s caps k = Some res ->
    exists w p' s', s = (w ++ s')%string /\ all_word w = true /\ k p' s' caps = Some res.
Proof.
  induction r as [|cl|a IHa b IHb|a IHa b IHb|g a IHa| | | | |];
    intros Hr prev s caps k res H; try discriminate.
  - exists EmptyString, prev, s. now repeat split.
  - destruct cl; try discriminate. cbn [m] in H.
    destruct s as [|c s]; [discriminate|]. cbn [class_matches] in H.
    destruct (is_word c) eqn:Ec; [|discriminate].
    exists (String c EmptyString), (Some c), s. repeat split; [|exact H].
    simpl. now rewrite Ec.
  - cbn [word_only] in Hr. apply andb_true_iff in Hr. destruct Hr as [Ha Hb].
    cbn [m] in H.
    destruct (IHa Ha _ _ _ _ _ H) as (w1 & p1 & s1 & -> & Hw1 & H1).
    destruct (IHb Hb _ _ _ _ _ H1) as (w2 & p2 & s2 & -> & Hw2 & H2).
    exists (w1 ++ w2)%string, p2, s2. repeat split.
    + now rewrite append_assoc.
    + now rewrite all_word_app, Hw1, Hw2.
    + exact H2.
  - cbn [word_only] in Hr. apply andb_true_iff in Hr. destruct Hr as [Ha Hb].
    cbn [m] in H. unfold or_else in H.
    destruct (m ci a prev s caps k) eqn:E.
    + injection H as <-. now apply (IHa Ha _ _ _ _ _ E).
    + now apply (IHb Hb _ _ _ _ _ H).
  - cbn [word_only] in Hr. cbn [m] in H.
    revert H. generalize (String.length s) at 1. intros fuel.
    revert prev s caps res.
    induction fuel as [|fuel IHf]; intros prev s caps res H.
    + exists EmptyString, prev, s. now repeat split.
    + assert (Hagain :
                forall res0,
                  m ci a prev s caps
                    (fun p1 s1 c1 =>
                       if String.length s1 <? String.length s
                       then (fix loop (fuel : nat) (prev : option ascii) (s : string)
                                      (caps : captures) {struct fuel} : option R :=
                               match fuel with
                               | O => k prev s caps
                               | S fuel' =>
                                   let again :=
                                     m ci a prev s caps
                                       (fun p1 s1 c1 =>
                                          if String.length s1 <? String.length s
                                          then loop fuel' p1 s1 c1 else None) in
                                   if g then or_else again (k prev s caps)
                                   else or_else (k prev s caps) again
                               end) fuel p1 s1 c1
                       else None) = Some res0 ->
                  exists w p' s', s = (w ++ s')%string /\ all_word w = true
                                  /\ k p' s' caps = Some res0).
      { intros res0 H0.
        destruct (IHa Hr _ _ _ _ _ H0) as (w1 & p1 & s1 & -> & Hw1 & H1).
        destruct (String.length s1 <? String.length (w1 ++ s1)); [|discriminate].
        destruct (IHf _ _ _ _ H1) as (w2 & p2 & s2 & -> & Hw2 & H2).
        exists (w1 ++ w2)%string, p2, s2. repeat split.
        - now rewrite append_assoc.
        - now rewrite all_word_app, Hw1, Hw2.
        - exact H2. }
      cbn zeta in H. unfold or_else in H.
      destruct g.
      * match type of H with
        | match ?x with _ => _ end = _ => destruct x eqn:E
        end.
        -- injection H as <-. now apply Hagain.
        -- exists EmptyString, prev, s. now repeat split.
      * destruct (k prev s caps) eqn:Ek.
        -- injection H as <-. exists EmptyString, prev, s. now repeat split.
        -- now apply Hagain.
Qed.

(** A pattern without the group [n] calls its continuation with captures in
    which the group [n] is what it was. *)
Lemma m_without_group (ci : bool) (R : Type) (n : nat) (r : regex) :
  without_group n r = true ->
  forall prev s caps (k : cont R) res,
    m ci r prev s caps k = Some res ->
    exists p' s' caps', k p' s' caps' = Some res /\ capture n caps' = capture n caps.
Proof.
  induction r as [|cl|a IHa b IHb|a IHa b IHb|g a IHa|g a IHa|g|a IHa| |];
    intros Hr prev s caps k res H; cbn [m] in H.
  - now exists prev, s, caps.
  - destruct s as [|c s]; [discriminate|].
    destruct (class_matches ci cl c); [|discriminate]. now exists (Some c), s, caps.
  - cbn [without_group] in Hr. apply andb_true_iff in Hr. destruct Hr as [Ha Hb].
    destruct (IHa Ha _ _ _ _ _ H) as (p1 & s1 & c1 & H1 & E1).
    destruct (IHb Hb _ _ _ _ _ H1) as (p2 & s2 & c2 & H2 & E2).
    exists p2, s2, c2. split; [exact H2 | congruence].
  - cbn [without_group] in Hr. apply andb_true_iff in Hr. destruct Hr as [Ha Hb].
    unfold or_else in H. destruct (m ci a prev s caps k) eqn:E.
    + injection H as <-. now apply (IHa Ha _ _ _ _ _ E).
    + now apply (IHb Hb _ _ _ _ _ H).
  - cbn [without_group] in Hr.
    revert H. generalize (String.length s) at 1. intros fuel.
    revert prev s caps res.
    induction fuel as [|fuel IHf]; intros prev s caps res H.
    + now exists prev, s, caps.
    + assert (Hagain :
                forall res0,
                  m ci a prev s caps
                    (fun p1 s1 c1 =>
                       if String.length s1 <? String.length s
                       then (fix loop (fuel : nat) (prev : option ascii) (s : string)
                                      (caps : captures) {struct fuel} : option R :=
                               match fuel with
                               | O => k prev s caps
                               | S fuel' =>
                                   let again :=
                                     m ci a prev s caps
                                       (fun p1 s1 c1 =>
                                          if String.length s1 <? String.length s
                                          then loop fuel' p1 s1 c1 else None) in
                                   if g then or_else again (k prev s caps)
                                   else or_else (k prev s caps) again
                               end) fuel p1 s1 c1
                       else None) = Some res0 ->
                  exists p' s' caps', k p' s' caps' = Some res0
                                      /\ capture n caps' = capture n caps).
      { intros res0 H0.
        destruct (IHa Hr _ _ _ _ _ H0) as (p1 & s1 & c1 & H1 & E1).
        destruct (String.length s1 <? String.length s); [|discriminate].
        destruct (IHf _ _ _ _ H1) as (p2 & s2 & c2 & H2 & E2).
        exists p2, s2, c2. split; [exact H2 | congruence]. }
      cbn zeta in H. unfold or_else in H.
      destruct g.
      * match type of H with
        | match ?x with _ => _ end = _ => destruct x eqn:E
        end.
        -- injection H as <-. now apply Hagain.
        -- now exists prev, s, caps.
      * destruct (k prev s caps) eqn:Ek.
        -- injection H as <-. now exists prev, s, caps.
        -- now apply Hagain.
  - cbn [without_group] in Hr. apply andb_true_iff in Hr. destruct Hr as [Hg Ha].
    destruct (IHa Ha _ _ _ _ _ H) as (p1 & s1 & c1 & H1 & E1).
    eexists p1, s1, _. split; [exact H1|].
    cbn [capture]. apply negb_true_iff in Hg. now rewrite Hg.
  - destruct (capture g caps) as [t|]; [|now exists prev, s, caps].
    destruct (strip_prefix ci t s) as [s'|]; [|discriminate].
    eexists _, s', caps. split; [exact H | reflexivity].
  - destruct (m ci a prev s caps (fun _ _ _ => Some tt)); [discriminate|].
    now exists prev, s, caps.
  - destruct (xorb _ _); [|discriminate]. now exists prev, s, caps.
  - destruct prev; [discriminate|]. now exists None, s, caps.
Qed.

(** Every match that a search or a scan reports is a match of the pattern
    at some position. *)
Lemma search_is_match (ci : bool) (re : regex) (s : string) (idx : nat)
      (prev : option ascii) (mt : match_result) :
  search ci re idx prev s = Some mt ->
  exists prev' s', match_here ci re prev' s' = Some (m_text mt, m_caps mt, m_rest mt).
Proof.
  revert idx prev. induction s as [|c s IH]; intros idx prev H; cbn [search] in H.
  - destruct (match_here ci re prev EmptyString) as [[[t c] rest]|] eqn:E; [|discriminate].
    injection H as <-. now exists prev, EmptyString.
  - destruct (match_here ci re prev (String c s)) as [[[t c0] rest]|] eqn:E.
    + injection H as <-. now exists prev, (String c s).
    + now apply IH in H.
Qed.

Lemma all_from_is_match (ci : bool) (re : regex) (fuel : nat) (idx : nat)
      (prev : option ascii) (s : string) (mt : match_result) :
  In mt (all_from ci re fuel idx prev s) ->
  exists prev' s', match_here ci re prev' s' = Some (m_text mt, m_caps mt, m_rest mt).
Proof.
  revert idx prev s. induction fuel as [|fuel IH]; intros idx prev s H; cbn [all_from] in H.
  - destruct H.
  - destruct (search ci re idx prev s) as [r|] eqn:E; [|destruct H].
    destruct (m_text r); [destruct (m_rest r)|];
      (destruct H as [<-|H]; [eapply search_is_match; exact E|]).
    + destruct H.
    + now apply IH in H.
    + now apply IH in H.
Qed.

Lemma exec_all_is_match (ci : bool) (re : regex) (s : string) (mt : match_result) :
  In mt (exec_all ci re s) ->
  exists prev' s', match_here ci re prev' s' = Some (m_text mt, m_caps mt, m_rest mt).
Proof. apply all_from_is_match. Qed.

End RegexFacts.

(** ** The tool code generator *)

Module GenerateToolsFacts.
Import Str GenerateTools GeneratedText Facts.

Local Infix "+++" := (@app string) (at level 60, right associativity).

Lemma generateToolFiles_nth (proposals : list ToolProposal) (i : nat) :
  nth_error (generateToolFiles proposals) i =
  option_map (fun p => {| path := "tools/" ++ name p ++ ".ts";
                          content := generateToolFile p |})
             (nth_error proposals i).
Proof. unfold generateToolFiles. apply nth_error_map. Qed.

(** C3.  [generateToolFiles] gives one file per proposal, in the proposals'
    order: the file at position [i] has the path [tools/<name>.ts] of the
    proposal at position [i] and the text [generateToolFile] makes of that
    proposal alone.  The output is a function of the input list: generating
    again from an equal list gives the same files, character for
    character. *)
Theorem generateToolFiles_one_file_per_proposal :
  forall proposals : list ToolProposal,
    List.length (generateToolFiles proposals) = List.length proposals
    /\ map path (generateToolFiles proposals)
       = map (fun p => "tools/" ++ name p ++ ".ts") proposals
    /\ map content (generateToolFiles proposals) = map generateToolFile proposals
    /\ (forall i p,
          nth_error proposals i = Some p ->
          nth_error (generateToolFiles proposals) i
          = Some {| path := "tools/" ++ name p ++ ".ts";
                    content := generateToolFile p |})
    /\ (forall again,
          again = proposals ->
          generateToolFiles again = generateToolFiles proposals).
Proof.
  intros proposals. repeat split.
  - unfold generateToolFiles. apply length_map.
  - unfold generateToolFiles. rewrite map_map. reflexivity.
  - unfold generateToolFiles. rewrite map_map. reflexivity.
  - intros i p H. rewrite generateToolFiles_nth, H. reflexivity.
  - intros again ->. reflexivity.
Qed.

(** *** The lines of a generated text *)

Lemma split_lines_holds (s : string) : split_lines s <> [].
Proof.
  destruct s as [|c s]; [discriminate|]. cbn [split_lines].
  destruct (Ascii.eqb c LF); [discriminate|]. destruct (split_lines s); discriminate.
Qed.

(** The lines of a text, joined by line feeds, are the text. *)
Lemma join_split_lines (s : string) : join nl (split_lines s) = s.
Proof.
  induction s as [|c s IH]; [reflexivity|]. cbn [split_lines].
  pose proof (split_lines_holds s) as Hne.
  destruct (Ascii.eqb c LF) eqn:E.
  - apply Ascii.eqb_eq in E. subst c.
    destruct (split_lines s) as [|l ls]; [now elim Hne|].
    change (join nl (EmptyString :: l :: ls)) with (nl ++ join nl (l :: ls))%string.
    rewrite IH. reflexivity.
  - destruct (split_lines s) as [|l ls]; [now elim Hne|].
    destruct ls as [|l' ls].
    + cbn [join] in *. now rewrite IH.
    + change (join nl (String c l :: l' :: ls))
        with (String c (l ++ nl ++ join nl (l' :: ls)))%string.
      change (join nl (l :: l' :: ls)) with (l ++ nl ++ join nl (l' :: ls))%string in IH.
      now rewrite IH.
Qed.

Lemma append_empty_r (s : string) : (s ++ "")%string = s.
Proof. induction s as [|c s IH]; [reflexivity | cbn [append]; now rewrite IH]. Qed.

(** A text that is joined into another stands in it. *)
Lemma join_holds (sep x : string) (l : list string) :
  In x l -> exists before after, join sep l = (before ++ x ++ after)%string.
Proof.
  induction l as [|x0 l IH]; intros H; [destruct H|].
  destruct l as [|x1 l].
  - destruct H as [<-|[]]. exists EmptyString, EmptyString.
    cbn [join append]. now rewrite append_empty_r.
  - change (join sep (x0 :: x1 :: l)) with (x0 ++ sep ++ join sep (x1 :: l))%string.
    destruct H as [<-|H].
    + exists EmptyString, (sep ++ join sep (x1 :: l))%string. reflexivity.
    + destruct (IH H) as (before & after & ->).
      exists (x0 ++ sep ++ before)%string, after. now rewrite !append_assoc.
Qed.

Lemma after_prefix (prefix s : string) : JsSyntax.after prefix (prefix ++ s) = Some s.
Proof.
  induction prefix as [|c prefix IH]; [reflexivity|].
  cbn [append JsSyntax.after]. now rewrite Ascii.eqb_refl.
Qed.

(** *** The body of a JS call *)

(** C7, at a page function that is reached as [window["clear-cart"]] and
    declared to return [void].  The emitted body does call [fn();] as a bare
    statement and does go on with
    [return textContent("Action completed successfully");], a statement whose
    argument is a string literal.  But the statement before them, which
    reports that the function is not available, has the function path pasted
    between two quotes as it is: its literal ends at the path's first quote,
    denotes only [Error: window[], and is followed by the rest of the path
    instead of the closing parenthesis.  That statement is not a statement of
    the generated language, so the body it stands in cannot be loaded: the
    function is not invoked and the success message is not returned.  The
    lines are read off the file [generateToolFiles] writes for the
    proposal. *)
Theorem void_call_by_quoted_path_cannot_run :
  returnType Samples.clearCartCall = Some rt_void
  /\ generateJSCallBody Samples.clearCartCall
     = join nl
         [ "    try {";
           "      // Call the page's JS function directly";
           "      const fn = window[" ++ q ++ "clear-cart" ++ q ++ "];";
           "      if (typeof fn !== " ++ q ++ "function" ++ q ++ ") {";
           "        return textContent(" ++ q ++ "Error: window[" ++ q ++ "clear-cart" ++ q
             ++ "] is not available on this page" ++ q ++ ");";
           "      }";
           "      fn();";
           "      return textContent(" ++ q ++ "Action completed successfully" ++ q ++ ");";
           "    } catch (error) {";
           "      return textContent(`Error calling window[" ++ q ++ "clear-cart" ++ q
             ++ "]: ${error}`);";
           "    }" ]
  /\ map (fun file =>
            (path file, firstn 8 (skipn 10 (split_lines (content file)))))
         (generateToolFiles [Samples.clearCart])
     = [ ("tools/clearCart.ts",
          [ "    try {";
            "      // Call the page's JS function directly";
            "      const fn = window[" ++ q ++ "clear-cart" ++ q ++ "];";
            "      if (typeof fn !== " ++ q ++ "function" ++ q ++ ") {";
            "        return textContent(" ++ q ++ "Error: window[" ++ q ++ "clear-cart" ++ q
              ++ "] is not available on this page" ++ q ++ ");";
            "      }";
            "      fn();";
            "      return textContent(" ++ q ++ "Action completed successfully" ++ q ++ ");" ]) ]
  /\ map (fun file =>
            option_map JsSyntax.string_literal
              (JsSyntax.after "        return textContent("
                 (nth 14 (split_lines (content file)) "")))
         (generateToolFiles [Samples.clearCart])
     = [ Some (Some (Json.units_of "Error: window[",
                     "clear-cart" ++ q ++ "] is not available on this page" ++ q ++ ");")) ]
  /\ map (fun file =>
            option_map JsSyntax.string_literal
              (JsSyntax.after "      return textContent("
                 (nth 17 (split_lines (content file)) "")))
         (generateToolFiles [Samples.clearCart])
     = [ Some (Some (Json.units_of "Action completed successfully", ");")) ].
Proof. repeat split; vm_compute; reflexivity. Qed.

(** *** The body of a DOM action *)

(** The text of a step is one of the lines pushed for the steps. *)
Lemma step_blocks_hold (steps : list DOMActionStep) :
  forall (first i : nat) (step : DOMActionStep),
    nth_error steps i = Some step ->
    In (generateDOMStep step (first + i)) (step_blocks steps first).
Proof.
  induction steps as [|s steps IH]; intros first i step H; [now destruct i|].
  cbn [step_blocks]. unfold step_block. destruct i as [|i].
  - injection H as <-. rewrite Nat.add_0_r. right. left. reflexivity.
  - cbn [nth_error] in H. apply in_or_app. right.
    rewrite Nat.add_succ_r. exact (IH (S first) i step H).
Qed.

(** Every step's text starts with the query of its element and goes on with
    a further line. *)
Lemma generateDOMStep_starts_with_query (step : DOMActionStep) (index : nat) :
  exists rest,
    generateDOMStep step index
    = ("      const el_" ++ of_nat index ++ " = document.querySelector("
       ++ Json.stringify (selector step) ++ ");" ++ nl ++ rest)%string.
Proof.
  unfold generateDOMStep, dom_step_lines, query_line.
  destruct (action step);
    (eexists;
     match goal with
     | |- join nl (?a :: ?b :: ?l) = _ =>
         change (join nl (a :: b :: l)) with (a ++ nl ++ join nl (b :: l))%string
     | |- join nl ((?a :: ?b :: ?l) +++ ?m) = _ =>
         change (join nl ((a :: b :: l) +++ m))
           with (a ++ nl ++ join nl (b :: (l +++ m)))%string
     end;
     rewrite !append_assoc; reflexivity).
Qed.

(** C6, at a tool that clicks the link [a[href="/x"]] and then reads the
    cart's panel.  The final step is a read of [textContent]: it queries its
    element, reads it by the optional access [el_1?.textContent] with no
    guard, and the try block of the emitted body ends with
    [return textContent(result_1 ?? "No content found");], a statement whose
    fallback is a string literal.  But the click before it emits a guard with
    the selector pasted between two quotes as it is: the guard's literal ends
    at the selector's first quote, denotes only [Element not found: a[href=],
    and is followed by the rest of the selector instead of the closing
    parenthesis.  The guard is not a statement of the generated language, so
    the body it stands in cannot be loaded: it returns neither the value the
    final step reads nor the fallback text.  The lines are read off the file
    [generateToolFiles] writes for the proposal. *)
Theorem read_after_quoted_click_cannot_return :
  map action [Samples.clickLink; Samples.readCart] = [click; read]
  /\ generateDOMActionBody {| steps := [Samples.clickLink; Samples.readCart] |}
     = join nl
         [ "    try {";
           "      // Step 1: click";
           "      const el_0 = document.querySelector(" ++ q ++ "a[href=" ++ bsl ++ q
             ++ "/x" ++ bsl ++ q ++ "]" ++ q ++ ");";
           "      if (!el_0) throw new Error(" ++ q ++ "Element not found: a[href=" ++ q
             ++ "/x" ++ q ++ "]" ++ q ++ ");";
           "      (el_0 as HTMLElement).click();";
           "      // Step 2: read";
           "      const el_1 = document.querySelector(" ++ q ++ ".cart-panel" ++ q ++ ");";
           "      const result_1 = el_1?.textContent;";
           "      return textContent(result_1 ?? " ++ q ++ "No content found" ++ q ++ ");";
           "    } catch (error) {";
           "      return textContent(`Error: ${error}`);";
           "    }" ]
  /\ map (fun file =>
            (path file, firstn 9 (skipn 10 (split_lines (content file)))))
         (generateToolFiles [Samples.readAfterLink])
     = [ ("tools/readAfterLink.ts",
          [ "    try {";
            "      // Step 1: click";
            "      const el_0 = document.querySelector(" ++ q ++ "a[href=" ++ bsl ++ q
              ++ "/x" ++ bsl ++ q ++ "]" ++ q ++ ");";
            "      if (!el_0) throw new Error(" ++ q ++ "Element not found: a[href=" ++ q
              ++ "/x" ++ q ++ "]" ++ q ++ ");";
            "      (el_0 as HTMLElement).click();";
            "      // Step 2: read";
            "      const el_1 = document.querySelector(" ++ q ++ ".cart-panel" ++ q ++ ");";
            "      const result_1 = el_1?.textContent;";
            "      return textContent(result_1 ?? " ++ q ++ "No content found" ++ q ++ ");" ]) ]
  /\ map (fun file =>
            option_map JsSyntax.string_literal
              (JsSyntax.after "      if (!el_0) throw new Error("
                 (nth 13 (split_lines (content file)) "")))
         (generateToolFiles [Samples.readAfterLink])
     = [ Some (Some (Json.units_of "Element not found: a[href=",
                     "/x" ++ q ++ "]" ++ q ++ ");")) ]
  /\ map (fun file =>
            option_map JsSyntax.string_literal
              (JsSyntax.after "      return textContent(result_1 ?? "
                 (nth 18 (split_lines (content file)) "")))
         (generateToolFiles [Samples.readAfterLink])
     = [ Some (Some (Json.units_of "No content found", ");")) ].
Proof. repeat split; vm_compute; reflexivity. Qed.

(** *** String literals in the emitted statements *)

Lemma lex_quote_char (c : ascii) (rest : string) (acc : Json.units) :
  JsSyntax.lex_chars (Json.quote_char c ++ rest) acc
  = JsSyntax.lex_chars rest (Json.unit_of c :: acc).
Proof.
  destruct c as [[] [] [] [] [] [] [] []]; reflexivity.
Qed.

Lemma lex_quote_chars (s rest : string) (acc : Json.units) :
  JsSyntax.lex_chars (Json.quote_chars s ++ q ++ rest) acc
  = Some ((List.rev acc ++ Json.units_of s)%list, rest).
Proof.
  revert acc. induction s as [|c s IH]; intros acc.
  - simpl. now rewrite app_nil_r.
  - cbn [Json.quote_chars Json.units_of]. rewrite append_assoc, lex_quote_char, IH.
    cbn [List.rev]. now rewrite <- app_assoc.
Qed.

(** What [JSON.stringify] makes of a string is a string literal of the
    generated language that denotes the same string, whatever follows it. *)
Lemma stringify_is_literal (s rest : string) :
  JsSyntax.string_literal (Json.stringify s ++ rest) = Some (Json.units_of s, rest).
Proof.
  unfold Json.stringify. rewrite !append_assoc. cbn [q append JsSyntax.string_literal].
  change (code DQ =? 34) with true. cbn iota.
  exact (lex_quote_chars s rest []).
Qed.

(** In the text of every step, and in the body of every DOM action at each
    of its steps, the argument of the element query is a string literal that
    denotes the step's selector, whatever the selector holds: the query is
    written with [JSON.stringify]. *)
Theorem generated_query_denotes_selector :
  forall (step : DOMActionStep) (index : nat),
    (exists argument rest,
        JsSyntax.after ("      const el_" ++ of_nat index ++ " = document.querySelector(")
                       (generateDOMStep step index) = Some argument
        /\ JsSyntax.string_literal argument
           = Some (Json.units_of (selector step), (");" ++ nl ++ rest)%string))
    /\ (forall action,
          nth_error (steps action) index = Some step ->
          exists before after,
            generateDOMActionBody action
            = (before ++ "      const el_" ++ of_nat index ++ " = document.querySelector("
               ++ Json.stringify (selector step) ++ ");" ++ after)%string
            /\ JsSyntax.string_literal (Json.stringify (selector step) ++ ");" ++ after)
               = Some (Json.units_of (selector step), (");" ++ after)%string)).
Proof.
  intros step index.
  destruct (generateDOMStep_starts_with_query step index) as [rest Hq].
  split.
  - exists (Json.stringify (selector step) ++ ");" ++ nl ++ rest)%string, rest. split.
    + rewrite Hq.
      set (p := ("      const el_" ++ of_nat index ++ " = document.querySelector(")%string).
      replace ("      const el_" ++ of_nat index ++ " = document.querySelector("
               ++ Json.stringify (selector step) ++ ");" ++ nl ++ rest)%string
        with (p ++ Json.stringify (selector step) ++ ");" ++ nl ++ rest)%string
        by (unfold p; now rewrite !append_assoc).
      apply after_prefix.
    + apply stringify_is_literal.
  - intros action Hn.
    assert (Hin : In (generateDOMStep step index) (dom_action_lines action)).
    { unfold dom_action_lines. apply in_or_app. right. apply in_or_app. left.
      exact (@step_blocks_hold (steps action) 0 index step Hn). }
    destruct (@join_holds nl _ _ Hin) as (before & after & Hj).
    exists before, (nl ++ rest ++ after)%string. split.
    + unfold generateDOMActionBody. rewrite Hj, Hq. now rewrite !append_assoc.
    + apply stringify_is_literal.
Qed.

(** An instance: the query of the link, whose selector holds two quotes, in
    the body that clicks it and then reads the panel. *)
Lemma generated_query_witness :
  nth_error (steps {| steps := [Samples.clickLink; Samples.readCart] |}) 0
  = Some Samples.clickLink
  /\ exists before after,
       generateDOMActionBody {| steps := [Samples.clickLink; Samples.readCart] |}
       = (before ++ "      const el_" ++ of_nat 0 ++ " = document.querySelector("
          ++ Json.stringify (selector Samples.clickLink) ++ ");" ++ after)%string
       /\ JsSyntax.string_literal
            (Json.stringify (selector Samples.clickLink) ++ ");" ++ after)
          = Some (Json.units_of (selector Samples.clickLink), (");" ++ after)%string).
Proof.
  split.
  - reflexivity.
  - exact (proj2 (generated_query_denotes_selector Samples.clickLink 0)
                 {| steps := [Samples.clickLink; Samples.readCart] |} eq_refl).
Defined.

(** C8, at the step that clicks [a[href="/x"]].  The step emits its query,
    its guard and the click.  The argument of the query is a string literal
    that denotes the selector.  The argument of the guard's [new Error] is
    not: the selector is pasted between two quotes as it is, so the literal
    ends at the selector's first quote, denotes only
    [Element not found: a[href=], and is followed by the rest of the
    selector instead of the closing parenthesis.  The statement that should
    raise the not-found error is not a statement of the generated language,
    and the body it stands in cannot be loaded, let alone return a text. *)
Theorem not_found_guard_breaks_on_quoted_selector :
  dom_step_lines Samples.clickLink 0 =
    [ "      const el_0 = document.querySelector(" ++ q ++ "a[href=" ++ bsl ++ q ++ "/x"
        ++ bsl ++ q ++ "]" ++ q ++ ");";
      "      if (!el_0) throw new Error(" ++ q ++ "Element not found: a[href=" ++ q
        ++ "/x" ++ q ++ "]" ++ q ++ ");";
      "      (el_0 as HTMLElement).click();" ]
  /\ option_map JsSyntax.string_literal
       (JsSyntax.after "      const el_0 = document.querySelector("
          (nth 0 (dom_step_lines Samples.clickLink 0) ""))
     = Some (Some (Json.units_of Samples.quotedSelector, ");"))
  /\ option_map JsSyntax.string_literal
       (JsSyntax.after "      if (!el_0) throw new Error("
          (nth 1 (dom_step_lines Samples.clickLink 0) ""))
     = Some (Some (Json.units_of "Element not found: a[href=",
                   "/x" ++ q ++ "]" ++ q ++ ");"))
  /\ In (generateDOMStep Samples.clickLink 0)
        (dom_action_lines {| steps := [Samples.clickLink] |}).
Proof.
  repeat split; try reflexivity.
  right. right. left. reflexivity.
Qed.

End GenerateToolsFacts.

(** ** The proposal parser *)

Module ProposeToolsFacts.
Import Str Regex Json ProposeTools Facts.

Lemma parse_failure_thrown (E : Engine) (agentResponse : string) :
  Json.parse (jsonStr agentResponse) = None ->
  parseToolProposals E agentResponse
  = Throw (failed_prefix ++ syntaxErrorMessage E (jsonStr agentResponse)).
Proof. intros H. unfold parseToolProposals, try_block. now rewrite H. Qed.

Lemma parse_array_returned (E : Engine) (agentResponse : string) (items : list json) :
  Json.parse (jsonStr agentResponse) = Some (JArray items) ->
  parseToolProposals E agentResponse = Return items.
Proof. intros H. unfold parseToolProposals, try_block. now rewrite H. Qed.

Lemma parse_wrapper_returned (E : Engine) (agentResponse : string)
      (members : list (units * json)) (items : list json) :
  Json.parse (jsonStr agentResponse) = Some (JObject members) ->
  Json.get (units_of "tools") members = Some (JArray items) ->
  parseToolProposals E agentResponse = Return items.
Proof. intros H G. unfold parseToolProposals, try_block. now rewrite H, G. Qed.

Lemma parse_other_thrown (E : Engine) (agentResponse : string) (parsed : json) :
  Json.parse (jsonStr agentResponse) = Some parsed ->
  is_bare_list parsed = false ->
  is_named_list parsed = false ->
  parseToolProposals E agentResponse = Throw (failed_prefix ++ shape_message E parsed).
Proof.
  intros H Hl Hw. unfold parseToolProposals, try_block. rewrite H.
  destruct parsed as [| | | | |members]; try reflexivity; try discriminate.
  unfold is_named_list in Hw. unfold shape_message.
  destruct (Json.get (units_of "tools") members) as [[]|]; try reflexivity; discriminate.
Qed.

(** C4.  The payload of a reply is the trimmed body of its first fenced
    block when it has one, and the trimmed reply otherwise.  A payload that
    is not JSON makes the call throw "Failed to parse tool proposals: "
    followed by the parser's own message.  A payload that decodes to a list
    is returned as it is; one that decodes to an object whose [tools] is a
    list gives that list.  Any other decoded value makes the call throw the
    same prefix followed by the fixed text "Expected an array of tool
    proposals" (for [null], by what the engine says of reading [tools] of
    it).  So ["not json"] throws the decode fault and [{"name":"x"}] the
    shape fault, and the two faults differ as soon as the parser never words
    a syntax error as the shape fault is worded. *)
Theorem parseToolProposals_returns_list_or_throws :
  forall (E : Engine) (agentResponse : string),
    let payload := jsonStr agentResponse in
    (forall fenceMatch,
       exec false fence agentResponse = Some fenceMatch ->
       payload = trim (orElse (group 1 fenceMatch) ""))
    /\ (exec false fence agentResponse = None -> payload = trim agentResponse)
    /\ jsonStr Samples.fencedReply
       = "[{" ++ q ++ "name" ++ q ++ ": " ++ q ++ "getMenu" ++ q ++ "}]"
    /\ (Json.parse payload = None ->
        parseToolProposals E agentResponse
        = Throw (failed_prefix ++ syntaxErrorMessage E payload))
    /\ (forall items,
          Json.parse payload = Some (JArray items) ->
          parseToolProposals E agentResponse = Return items)
    /\ (forall members items,
          Json.parse payload = Some (JObject members) ->
          Json.get (units_of "tools") members = Some (JArray items) ->
          parseToolProposals E agentResponse = Return items)
    /\ (forall parsed,
          Json.parse payload = Some parsed ->
          is_bare_list parsed = false ->
          is_named_list parsed = false ->
          parseToolProposals E agentResponse
          = Throw (failed_prefix ++ shape_message E parsed))
    /\ parseToolProposals E "not json"
       = Throw ("Failed to parse tool proposals: " ++ syntaxErrorMessage E "not json")
    /\ parseToolProposals E Samples.objectReply
       = Throw "Failed to parse tool proposals: Expected an array of tool proposals"
    /\ ((forall text, syntaxErrorMessage E text <> expected_array) ->
        parseToolProposals E "not json" <> parseToolProposals E Samples.objectReply).
Proof.
  intros E agentResponse payload. subst payload.
  split; [|split; [|split; [|split; [|split; [|split; [|split; [|split; [|split]]]]]]]].
  - intros fenceMatch H. unfold jsonStr. now rewrite H.
  - intros H. unfold jsonStr. now rewrite H.
  - reflexivity.
  - apply parse_failure_thrown.
  - intros items. apply parse_array_returned.
  - intros members items. apply parse_wrapper_returned.
  - intros parsed. apply parse_other_thrown.
  - reflexivity.
  - reflexivity.
  - intros Hwording Heq.
    change (parseToolProposals E "not json")
      with (@Throw proposals (failed_prefix ++ syntaxErrorMessage E "not json")) in Heq.
    change (parseToolProposals E Samples.objectReply)
      with (@Throw proposals (failed_prefix ++ expected_array)) in Heq.
    injection Heq as Heq. exact (Hwording _ Heq).
Qed.

(** C10.  The elements of a decoded list are not looked at: whenever the
    payload decodes to a JSON array, that array is the result, element for
    element and of the same length, whatever its elements are. *)
Theorem parseToolProposals_keeps_any_array :
  forall (E : Engine) (agentResponse : string) (items : list json),
    Json.parse (jsonStr agentResponse) = Some (JArray items) ->
    parseToolProposals E agentResponse = Return items
    /\ (forall tools,
          parseToolProposals E agentResponse = Return tools ->
          tools = items /\ List.length tools = List.length items).
Proof.
  intros E agentResponse items H. split.
  - now apply parse_array_returned.
  - intros tools Hr. rewrite (parse_array_returned E _ H) in Hr.
    injection Hr as <-. split; reflexivity.
Qed.

(** An instance of C10: a list of numbers is accepted as a list of three
    proposals. *)
Lemma parseToolProposals_keeps_numbers_witness :
  Json.parse (jsonStr "[1, 2, 3]") = Some (JArray [JNumber "1"; JNumber "2"; JNumber "3"])
  /\ parseToolProposals sampleEngine "[1, 2, 3]"
     = Return [JNumber "1"; JNumber "2"; JNumber "3"].
Proof.
  split.
  - reflexivity.
  - exact (proj1 (parseToolProposals_keeps_any_array sampleEngine "[1, 2, 3]"
                    (items := [JNumber "1"; JNumber "2"; JNumber "3"]) eq_refl)).
Defined.

End ProposeToolsFacts.

(** ** The session recorder *)

Module SessionFacts.
Import Str Session SessionSpec Facts.

(** *** The log and the step counter *)

Lemma indexed_nil : indexed [].
Proof. intros [|k] entry H; discriminate. Qed.

Lemma indexed_snoc (log : list ActionLogEntry) (entry : ActionLogEntry) :
  indexed log -> stepIndex entry = List.length log -> indexed (log ++ [entry])%list.
Proof.
  intros Hlog Hentry k e Hk.
  destruct (Nat.lt_ge_cases k (List.length log)) as [Hlt|Hge].
  - rewrite nth_error_app1 in Hk by exact Hlt. now apply Hlog.
  - rewrite nth_error_app2 in Hk by exact Hge.
    destruct (k - List.length log) as [|j] eqn:Ej.
    + injection Hk as <-. lia.
    + destruct j; discriminate.
Qed.

Lemma sessionStep_effect (dir : string) (options : SessionStepOptions)
      (w : StepWorld) (d : Disk) :
  step_effect d (fst (sessionStep dir options w d)).
Proof.
  unfold sessionStep, readSessionState.
  destruct (session_json d) as [state|] eqn:Es; [|now left].
  destruct (connect_failure w); [now left|].
  destruct (screenshot_failure w); [now left|].
  destruct (action_log_json d) as [log|] eqn:El; [|now left].
  eapply appended with (state := state) (log := log);
    destruct (close_failure w); simpl; try reflexivity; try eassumption.
Qed.

Lemma sessionStep_appends (dir : string) (options : SessionStepOptions)
      (w : StepWorld) (d : Disk) (state : SessionState) (log : list ActionLogEntry) :
  session_json d = Some state ->
  action_log_json d = Some log ->
  connect_failure w = None ->
  screenshot_failure w = None ->
  exists entry state',
    session_json (fst (sessionStep dir options w d)) = Some state'
    /\ action_log_json (fst (sessionStep dir options w d)) = Some (log ++ [entry])%list
    /\ stepIndex entry = stepCount state
    /\ action entry = so_action options
    /\ stepCount state' = stepCount state + 1.
Proof.
  intros Es El Ec Eh. unfold sessionStep, readSessionState.
  rewrite Es, Ec, Eh, El.
  eexists. eexists.
  destruct (close_failure w); simpl; repeat split; reflexivity.
Qed.

Lemma step_effect_synced (d d' : Disk) : step_effect d d' -> synced d -> synced d'.
Proof.
  intros [->|state state' log entry Es El Es' El' _ Hi Hc] Hs; [exact Hs|].
  destruct Hs as (state0 & log0 & Es0 & El0 & Hcount & Hidx).
  rewrite Es in Es0. injection Es0 as <-.
  rewrite El in El0. injection El0 as <-.
  exists state', (log ++ [entry])%list. repeat split; try assumption.
  - rewrite length_app. simpl. lia.
  - apply indexed_snoc; [exact Hidx | lia].
Qed.

Lemma sessionStart_synced (url dir : string) (options : SessionStartOptions)
      (w : StartWorld) (d : Disk) :
  synced d \/ sw_failure w = None -> synced (fst (sessionStart url dir options w d)).
Proof.
  intros H. unfold sessionStart.
  destruct (sw_failure w) eqn:Ef.
  - destruct H as [H|H]; [exact H | discriminate].
  - eexists. exists [].
    destruct (sw_close_failure w); simpl;
      (split; [reflexivity | split; [reflexivity | split; [reflexivity | apply indexed_nil]]]).
Qed.

Lemma invoke_synced (dir : string) (d : Disk) (call : invocation) :
  synced d -> synced (invoke dir d call).
Proof.
  intros Hs. destruct call as [url options w | options w | w |]; simpl.
  - apply sessionStart_synced. now left.
  - eapply step_effect_synced; [apply sessionStep_effect | exact Hs].
  - unfold sessionScreenshot.
    destruct (readSessionState dir d); [|exact Hs].
    destruct (connect_failure w), (screenshot_failure w), (close_failure w); exact Hs.
  - unfold sessionClose.
    destruct (readSessionState dir d); [|exact Hs].
    destruct (action_log_json d) eqn:El; [|exact Hs].
    destruct Hs as (state & log & Es & El' & Hc & Hi).
    exists state, log. simpl. repeat split; try assumption.
    now rewrite <- El'.
Qed.

Lemma run_synced (dir : string) (calls : list invocation) (d : Disk) :
  synced d -> synced (run dir d calls).
Proof.
  revert d. induction calls as [|call calls IH]; intros d Hs; simpl.
  - exact Hs.
  - apply IH. now apply invoke_synced.
Qed.

(** *** Grouping the log into tools *)

Lemma In_distinct (t : string) (l : list string) : In t (distinct l) <-> In t l.
Proof.
  induction l as [|x l IH]; simpl; [tauto|].
  rewrite filter_In, IH, negb_true_iff, String.eqb_neq.
  destruct (string_dec x t); intuition congruence.
Qed.

Lemma NoDup_distinct (l : list string) : NoDup (distinct l).
Proof.
  induction l as [|x l IH]; simpl; constructor.
  - rewrite filter_In, negb_true_iff, String.eqb_neq. tauto.
  - now apply NoDup_filter.
Qed.

Lemma distinct_snoc (l : list string) (t : string) :
  distinct (l ++ [t])%list = if string_in t l then distinct l else (distinct l ++ [t])%list.
Proof.
  induction l as [|x l IH]; [reflexivity|].
  cbn [List.app distinct]. rewrite IH.
  unfold string_in at 2. cbn [existsb]. fold (string_in t l).
  destruct (string_in t l) eqn:El.
  - now rewrite orb_true_r.
  - rewrite orb_false_r, filter_app. cbn [filter].
    rewrite (String.eqb_sym t x).
    destruct (String.eqb x t); cbn [negb]; [now rewrite app_nil_r | reflexivity].
Qed.

Lemma filter_none {A} (f : A -> bool) (l : list A) :
  (forall x, In x l -> f x = false) -> filter f l = [].
Proof.
  induction l as [|x l IH]; intros H; [reflexivity|]. simpl.
  rewrite (H x) by now left. apply IH. intros y Hy. apply H. now right.
Qed.

Lemma push_entry_fresh (g : string -> list ActionLogEntry) (ts : list string)
      (t : string) (e : ActionLogEntry) :
  ~ In t ts ->
  push_entry t e (map (fun t' => (t', g t')) ts)
  = (map (fun t' => (t', g t')) ts ++ [(t, [e])])%list.
Proof.
  induction ts as [|x ts IH]; intros Hn; [reflexivity|].
  cbn [map push_entry List.app].
  destruct (String.eqb t x) eqn:E.
  - apply String.eqb_eq in E. subst. elim Hn. now left.
  - rewrite IH; [reflexivity|]. intros H. apply Hn. now right.
Qed.

Lemma push_entry_known (g : string -> list ActionLogEntry) (ts : list string)
      (t : string) (e : ActionLogEntry) :
  NoDup ts -> In t ts ->
  push_entry t e (map (fun t' => (t', g t')) ts)
  = map (fun t' => (t', if String.eqb t t' then (g t' ++ [e])%list else g t')) ts.
Proof.
  induction ts as [|x ts IH]; intros Hd Hin; [destruct Hin|].
  cbn [map push_entry]. inversion Hd as [|? ? Hx Hd']; subst.
  destruct (String.eqb t x) eqn:E.
  - apply String.eqb_eq in E. subst x. f_equal.
    apply map_ext_in. intros t' Ht'.
    destruct (String.eqb t t') eqn:E'; [|reflexivity].
    apply String.eqb_eq in E'. subst. contradiction.
  - f_equal. apply IH; [exact Hd'|].
    destruct Hin as [->|Hin]; [|exact Hin]. now rewrite String.eqb_refl in E.
Qed.

Lemma group_snoc (t : string) (log : list ActionLogEntry) (e : ActionLogEntry) :
  group t (log ++ [e])%list
  = (group t log ++ if kept e && String.eqb (tag e) t then [e] else [])%list.
Proof. unfold group. rewrite filter_app. reflexivity. Qed.

Lemma group_unknown (t : string) (log : list ActionLogEntry) :
  ~ In t (tags log) -> group t log = [].
Proof.
  intros Hn. apply filter_none. intros x Hx.
  destruct (kept x) eqn:Ek; [|reflexivity].
  destruct (String.eqb (tag x) t) eqn:Et; [|reflexivity].
  apply String.eqb_eq in Et. elim Hn.
  unfold tags. apply In_distinct. rewrite <- Et. apply in_map.
  apply filter_In. now split.
Qed.

Lemma collected_snoc (log : list ActionLogEntry) (e : ActionLogEntry) :
  collected (log ++ [e])%list = collect_step (collected log) e.
Proof.
  unfold collect_step. rewrite <- negb_andb. fold (kept e).
  unfold collected, tags. rewrite filter_app. cbn [filter].
  destruct (kept e) eqn:Ek; cbn [negb].
  - rewrite map_app. cbn [map]. rewrite distinct_snoc. fold (tag e). fold (tags log).
    destruct (string_in (tag e) (map tag (filter kept log))) eqn:Ein.
    + apply string_in_In, In_distinct in Ein.
      rewrite push_entry_known by (apply NoDup_distinct || exact Ein).
      apply map_ext. intros t'. rewrite group_snoc, Ek. cbn [andb].
      destruct (String.eqb (tag e) t'); [reflexivity | now rewrite app_nil_r].
    + apply string_in_false in Ein.
      assert (Hn : ~ In (tag e) (tags log)) by (unfold tags; now rewrite In_distinct).
      rewrite push_entry_fresh by exact Hn.
      rewrite map_app. cbn [map]. f_equal.
      * apply map_ext_in. intros t' Ht'. rewrite group_snoc, Ek. cbn [andb].
        destruct (String.eqb (tag e) t') eqn:E; [|now rewrite app_nil_r].
        apply String.eqb_eq in E. subst. contradiction.
      * rewrite group_snoc, Ek, String.eqb_refl, group_unknown by exact Hn.
        reflexivity.
  - rewrite app_nil_r. apply map_ext. intros t'.
    rewrite group_snoc, Ek. cbn [andb]. now rewrite app_nil_r.
Qed.

Lemma collect_is_collected (log : list ActionLogEntry) :
  fold_left collect_step log [] = collected log.
Proof.
  induction log as [|e log IH] using rev_ind; [reflexivity|].
  rewrite fold_left_app. cbn [fold_left]. rewrite IH. symmetry. apply collected_snoc.
Qed.

Lemma scaffolding_carries_nothing (e : ActionLogEntry) :
  scaffolding e = true -> carries_value e = false.
Proof. unfold scaffolding, carries_value. now destruct (action e). Qed.

Lemma tool_step_cases (acc : tool_acc) (e : ActionLogEntry) :
  tool_step acc e =
  {| acc_steps :=
       if scaffolding e then acc_steps acc else (acc_steps acc ++ [step_of e])%list;
     acc_properties :=
       if carries_value e
       then Obj.set (property_name e) (property_of e) (acc_properties acc)
       else acc_properties acc;
     acc_required :=
       if carries_value e then (acc_required acc ++ [property_name e])%list
       else acc_required acc;
     acc_urlPatterns := set_add (pageUrl e) (acc_urlPatterns acc) |}.
Proof.
  unfold tool_step, step_of, scaffolding, carries_value, property_name, property_of.
  destruct (action e); cbn [ActionKind_eqb orb andb]; try reflexivity;
    destruct (truthy (value e)); reflexivity.
Qed.

Lemma tool_fold (entries : list ActionLogEntry) (acc : tool_acc) :
  fold_left tool_step entries acc =
  {| acc_steps :=
       (acc_steps acc
        ++ map step_of (filter (fun entry => negb (scaffolding entry)) entries))%list;
     acc_properties :=
       fold_left (fun o entry => Obj.set (property_name entry) (property_of entry) o)
                 (filter carries_value entries) (acc_properties acc);
     acc_required :=
       (acc_required acc ++ map property_name (filter carries_value entries))%list;
     acc_urlPatterns :=
       fold_left (fun urls entry => set_add (pageUrl entry) urls) entries
                 (acc_urlPatterns acc) |}.
Proof.
  revert acc. induction entries as [|e entries IH]; intros acc.
  - destruct acc. cbn. now rewrite !app_nil_r.
  - cbn [fold_left]. rewrite IH, tool_step_cases. clear IH.
    cbn [filter acc_steps acc_properties acc_required acc_urlPatterns].
    destruct (scaffolding e) eqn:Es.
    + rewrite (scaffolding_carries_nothing e Es). reflexivity.
    + cbn [negb map]. rewrite <- app_assoc. cbn [List.app].
      destruct (carries_value e); cbn [fold_left map]; rewrite <- ?app_assoc; reflexivity.
Qed.

Lemma build_tool_is_derived (t : string) (entries : list ActionLogEntry) :
  build_tool t entries = derived_tool t entries.
Proof. unfold build_tool, derived_tool. rewrite tool_fold. reflexivity. Qed.

Lemma groupActionsIntoTools_is_derive_tools (log : list ActionLogEntry) :
  groupActionsIntoTools log = derive_tools log.
Proof.
  unfold groupActionsIntoTools, derive_tools.
  rewrite collect_is_collected. unfold collected. rewrite map_map.
  apply map_ext. intros t. apply build_tool_is_derived.
Qed.

(** Setting a property keeps what holds of every value, and adds at most
    the key that is set. *)
Lemma Forall_replace {V} (P : V -> Prop) (k : string) (v : V) (o : Obj.t V) :
  P v -> Forall (fun kv => P (snd kv)) o -> Forall (fun kv => P (snd kv)) (Obj.replace k v o).
Proof.
  intros Hv Ho. induction Ho as [|[k' v'] o Hh Ho IH]; simpl; [constructor|].
  destruct (String.eqb k k'); constructor; assumption.
Qed.

Lemma Forall_insert_index {V} (P : V -> Prop) (i : N) (k : string) (v : V) (o : Obj.t V) :
  P v -> Forall (fun kv => P (snd kv)) o ->
  Forall (fun kv => P (snd kv)) (Obj.insert_index i k v o).
Proof.
  intros Hv Ho. induction Ho as [|[k' v'] o Hh Ho IH]; simpl.
  - constructor; [exact Hv | constructor].
  - destruct (Obj.array_index k') as [j|]; [destruct (j <? i)%N|];
      repeat (constructor; try assumption).
Qed.

Lemma Forall_set {V} (P : V -> Prop) (k : string) (v : V) (o : Obj.t V) :
  P v -> Forall (fun kv => P (snd kv)) o -> Forall (fun kv => P (snd kv)) (Obj.set k v o).
Proof.
  intros Hv Ho. unfold Obj.set.
  destruct (String.eqb k "__proto__"); [exact Ho|].
  destruct (Obj.has k o); [now apply Forall_replace|].
  destruct (Obj.array_index k).
  - now apply Forall_insert_index.
  - apply Forall_app. split; [exact Ho | constructor; [exact Hv | constructor]].
Qed.

Lemma has_replace {V} (k k' : string) (v : V) (o : Obj.t V) :
  Obj.has k (Obj.replace k' v o) = Obj.has k o.
Proof.
  induction o as [|[x y] o IH]; simpl; [reflexivity|].
  destruct (String.eqb k' x); simpl; [reflexivity | now rewrite IH].
Qed.

Lemma has_insert_index {V} (k : string) (i : N) (k' : string) (v : V) (o : Obj.t V) :
  Obj.has k (Obj.insert_index i k' v o) = String.eqb k k' || Obj.has k o.
Proof.
  induction o as [|[x y] o IH]; simpl; [reflexivity|].
  destruct (Obj.array_index x) as [j|]; [destruct (j <? i)%N|]; simpl; try reflexivity.
  rewrite IH. now destruct (String.eqb k x), (String.eqb k k').
Qed.

Lemma has_app {V} (k : string) (o o' : Obj.t V) :
  Obj.has k (o ++ o')%list = Obj.has k o || Obj.has k o'.
Proof.
  induction o as [|[x y] o IH]; simpl; [reflexivity|]. now rewrite IH, orb_assoc.
Qed.

Lemma has_set {V} (k k' : string) (v : V) (o : Obj.t V) :
  Obj.has k (Obj.set k' v o) = true -> k = k' \/ Obj.has k o = true.
Proof.
  unfold Obj.set.
  destruct (String.eqb k' "__proto__"); [now right|].
  destruct (Obj.has k' o) eqn:E.
  - rewrite has_replace. now right.
  - destruct (Obj.array_index k').
    + rewrite has_insert_index. intros H. apply orb_true_iff in H.
      destruct H as [H|H]; [left; now apply String.eqb_eq | now right].
    + rewrite has_app. simpl. rewrite orb_false_r. intros H. apply orb_true_iff in H.
      destruct H as [H|H]; [now right | left; now apply String.eqb_eq].
Qed.

Lemma has_set_kept {V} (k k' : string) (v : V) (o : Obj.t V) :
  Obj.has k o = true -> Obj.has k (Obj.set k' v o) = true.
Proof.
  intros H. unfold Obj.set.
  destruct (String.eqb k' "__proto__"); [exact H|].
  destruct (Obj.has k' o).
  - now rewrite has_replace.
  - destruct (Obj.array_index k').
    + rewrite has_insert_index, H. apply orb_true_r.
    + rewrite has_app, H. reflexivity.
Qed.

Lemma has_set_new {V} (k : string) (v : V) (o : Obj.t V) :
  k <> "__proto__" -> Obj.has k (Obj.set k v o) = true.
Proof.
  intros H. unfold Obj.set. apply String.eqb_neq in H. rewrite H.
  destruct (Obj.has k o) eqn:E.
  - now rewrite has_replace.
  - destruct (Obj.array_index k).
    + rewrite has_insert_index, String.eqb_refl. reflexivity.
    + rewrite has_app. simpl. rewrite String.eqb_refl. apply orb_true_r.
Qed.

Lemma derived_properties_cover (entries : list ActionLogEntry)
      (o : Obj.t SchemaProperty) (k : string) :
  k <> "__proto__" ->
  Obj.has k o = true \/ In k (map property_name entries) ->
  Obj.has k (fold_left (fun o entry => Obj.set (property_name entry) (property_of entry) o)
                       entries o) = true.
Proof.
  intros Hk. revert o. induction entries as [|e entries IH]; intros o H; simpl.
  - destruct H as [H|[]]. exact H.
  - apply IH. destruct H as [H|[H|H]].
    + left. now apply has_set_kept.
    + left. rewrite H. now apply has_set_new.
    + now right.
Qed.

Lemma derived_properties (entries : list ActionLogEntry) (o : Obj.t SchemaProperty) :
  let o' := fold_left (fun o entry => Obj.set (property_name entry) (property_of entry) o)
                      entries o in
  (Forall (fun kv => p_type (snd kv) = "string") o ->
   Forall (fun kv => p_type (snd kv) = "string") o')
  /\ (forall k, Obj.has k o' = true ->
                Obj.has k o = true \/ In k (map property_name entries)).
Proof.
  revert o. induction entries as [|e entries IH]; intros o; simpl.
  - split; [tauto | now left].
  - destruct (IH (Obj.set (property_name e) (property_of e) o)) as [IH1 IH2]. split.
    + intros Ho. apply IH1.
      apply (Forall_set (fun v => p_type v = "string")); [reflexivity | exact Ho].
    + intros k Hk. destruct (IH2 k Hk) as [H|H].
      * apply has_set in H. destruct H as [->|H]; [right; now left | now left].
      * right. now right.
Qed.

Lemma derived_steps_are_actions (entries : list ActionLogEntry) :
  Forall (fun step => s_action step <> wait /\ s_action step <> navigate)
         (map step_of (filter (fun entry => negb (scaffolding entry)) entries)).
Proof.
  apply Forall_forall. intros step Hin. apply in_map_iff in Hin.
  destruct Hin as (e & <- & He). apply filter_In in He. destruct He as [_ He].
  unfold scaffolding in He. simpl. destruct (action e); split; discriminate.
Qed.

(** C2.  Deriving tools from a log is the derivation the specification
    words: keep the successful, tool-tagged entries; one tool per distinct
    tag, in the order the tags first appear; a tool's entries are its tag's
    kept entries in log order.  Its steps are those entries without the wait
    and navigate ones; its required names are the inferred names of the fill
    and select entries that carried a value, in order; every property is of
    type "string", every property is required, and every required name has
    its property, [__proto__] apart, which an assignment does not create.
    The name is inferred from the selector's name attribute, else its id,
    else its placeholder, all turned to camelCase, else it is the action
    followed by "Value".  The
    scenario log - two fills tagged fillForm, then an untagged wait - gives
    exactly one tool, [fillForm], with two steps and the two required
    properties [name] and [email]. *)
Theorem groupActionsIntoTools_groups_by_tag :
  forall log : list ActionLogEntry,
    groupActionsIntoTools log = derive_tools log
    /\ map name (groupActionsIntoTools log) = tags log
    /\ NoDup (tags log)
    /\ (forall t, In t (tags log) <-> exists entry, In entry log /\ kept entry = true
                                                    /\ tag entry = t)
    /\ (forall tool,
          In tool (groupActionsIntoTools log) ->
          let entries := group (name tool) log in
          steps tool = map step_of (filter (fun entry => negb (scaffolding entry)) entries)
          /\ required (inputSchema tool) = map property_name (filter carries_value entries)
          /\ Forall (fun kv => p_type (snd kv) = "string") (properties (inputSchema tool))
          /\ (forall k, Obj.has k (properties (inputSchema tool)) = true ->
                        In k (required (inputSchema tool)))
          /\ (forall k, In k (required (inputSchema tool)) -> k <> "__proto__" ->
                        Obj.has k (properties (inputSchema tool)) = true)
          /\ Forall (fun step => s_action step <> wait /\ s_action step <> navigate)
                    (steps tool))
    /\ (forall selector action,
          inferPropertyName selector action =
          match Regex.exec false name_pattern selector,
                Regex.exec false id_pattern selector,
                Regex.exec false placeholder_pattern selector with
          | Some nameMatch, _, _ => toCamelCase (orElse (Regex.group 1 nameMatch) "")
          | None, Some idMatch, _ => toCamelCase (orElse (Regex.group 1 idMatch) "")
          | None, None, Some attrMatch => toCamelCase (orElse (Regex.group 1 attrMatch) "")
          | None, None, None => action_text action ++ "Value"
          end)
    /\ map (fun selector => inferPropertyName selector fill)
           [ "input[name=" ++ q ++ "first-name" ++ q ++ "]";
             "#email-input";
             "[placeholder='Your name']";
             "form#signup input[name='email']";
             "#user_id[placeholder='x']";
             "input.big" ]
       = [ "firstName"; "emailInput"; "yourName"; "email"; "userId"; "fillValue" ]
    /\ groupActionsIntoTools Samples.fillFormLog =
       [ {| name := "fillForm";
            steps :=
              [ {| s_action := fill; s_selector := Samples.nameField;
                   inputProperty := Some "name"; staticValue := None; delay := None |};
                {| s_action := fill; s_selector := Samples.emailField;
                   inputProperty := Some "email"; staticValue := None; delay := None |} ];
            inputSchema :=
              {| properties :=
                   [ ("name", {| p_type := "string";
                                 p_description := "Value for " ++ Samples.nameField |});
                     ("email", {| p_type := "string";
                                  p_description := "Value for " ++ Samples.emailField |}) ];
                 required := [ "name"; "email" ] |};
            urlPatterns := [ "https://example.com/signup" ] |} ].
Proof.
  intros log.
  split; [|split; [|split; [|split; [|split; [|split; [|split]]]]]].
  - apply groupActionsIntoTools_is_derive_tools.
  - rewrite groupActionsIntoTools_is_derive_tools. unfold derive_tools.
    rewrite map_map. cbn [name derived_tool]. apply map_id.
  - apply NoDup_distinct.
  - intros t. unfold tags. rewrite In_distinct, in_map_iff. split.
    + intros (e & Ht & He). apply filter_In in He. exists e. tauto.
    + intros (e & He & Hk & Ht). exists e. split; [exact Ht|]. apply filter_In. tauto.
  - intros tool Hin entries.
    rewrite groupActionsIntoTools_is_derive_tools in Hin.
    unfold derive_tools in Hin. apply in_map_iff in Hin.
    destruct Hin as (t & <- & _). subst entries. cbn [name derived_tool steps inputSchema
      properties required].
    split; [reflexivity|]. split; [reflexivity|].
    pose proof (derived_properties (filter carries_value (group t log)) []) as [H1 H2].
    split; [apply H1; constructor|]. split; [|split].
    + intros k Hk. destruct (H2 k Hk) as [H|H]; [discriminate | exact H].
    + intros k Hin Hk. apply derived_properties_cover; [exact Hk | now right].
    + apply derived_steps_are_actions.
  - intros selector action. unfold inferPropertyName.
    destruct (Regex.exec false name_pattern selector); [reflexivity|].
    destruct (Regex.exec false id_pattern selector); [reflexivity|].
    destruct (Regex.exec false placeholder_pattern selector); reflexivity.
  - vm_compute. reflexivity.
  - vm_compute. reflexivity.
Qed.

(** C9.  A start that gets to write leaves an empty action log and a step
    counter of 0.  A step either leaves the files as they are (it threw
    before writing) or appends exactly one entry, whose [stepIndex] is the
    counter the step read, and puts the counter one up; it does the latter
    whenever the session files are there and the browser could be reached
    and photographed, also when the action itself failed.  Hence after a
    start and any further invocations the entry at position [k] of the log
    has index [k] and the counter equals the length of the log. *)
Theorem session_log_and_counter_agree :
  forall (url dir : string) (options : SessionStartOptions) (w : StartWorld) (d : Disk),
    let started := fst (sessionStart url dir options w d) in
    (sw_failure w = None ->
       action_log_json started = Some []
       /\ exists state, session_json started = Some state /\ stepCount state = 0)
    /\ (forall stepOptions stepWorld d0,
          step_effect d0 (fst (sessionStep dir stepOptions stepWorld d0)))
    /\ (forall stepOptions stepWorld d0 state log,
          session_json d0 = Some state ->
          action_log_json d0 = Some log ->
          connect_failure stepWorld = None ->
          screenshot_failure stepWorld = None ->
          exists entry state',
            session_json (fst (sessionStep dir stepOptions stepWorld d0)) = Some state'
            /\ action_log_json (fst (sessionStep dir stepOptions stepWorld d0))
               = Some (log ++ [entry])%list
            /\ stepIndex entry = stepCount state
            /\ action entry = so_action stepOptions
            /\ stepCount state' = stepCount state + 1)
    /\ (sw_failure w = None ->
        forall calls,
        exists state log,
          session_json (run dir started calls) = Some state
          /\ action_log_json (run dir started calls) = Some log
          /\ stepCount state = List.length log
          /\ forall k entry, nth_error log k = Some entry -> stepIndex entry = k)
    /\ option_map (map stepIndex) (action_log_json (run "session" empty_disk Samples.sampleSession))
       = Some [0; 1]
    /\ option_map (map success) (action_log_json (run "session" empty_disk Samples.sampleSession))
       = Some [true; false]
    /\ option_map stepCount (session_json (run "session" empty_disk Samples.sampleSession))
       = Some 2.
Proof.
  intros url dir options w d started. subst started.
  split; [|split; [|split; [|split; [|split; [|split]]]]].
  - intros Hok. unfold sessionStart. rewrite Hok.
    destruct (sw_close_failure w); simpl; (split; [reflexivity|]); eexists; split; reflexivity.
  - intros. apply sessionStep_effect.
  - intros. now apply sessionStep_appends.
  - intros Hok calls.
    apply (run_synced dir calls). apply sessionStart_synced. now right.
  - reflexivity.
  - reflexivity.
  - reflexivity.
Qed.

End SessionFacts.

(** ** The DOM extractor *)

Module ExtractDomFacts.
Import Str Regex ExtractDom ExtractDomSpec Facts RegexFacts.

(** *** The selector of a markup element *)

(** [parseHTMLAttributes] prefers the id, then the name, the aria-label,
    the placeholder and the text, and gives nothing when all are missing. *)
Lemma parseHTMLAttributes_selector (tag attrsStr : string) (textContent : option string) :
  option_map selector (parseHTMLAttributes tag attrsStr textContent)
  = build_selector tag (getAttr attrsStr "id") (getAttr attrsStr "name")
      (getAttr attrsStr "aria-label") (getAttr attrsStr "placeholder") textContent.
Proof.
  unfold parseHTMLAttributes. now destruct (build_selector _ _ _ _ _ _).
Qed.

Lemma build_selector_order (tag : string) (id name ariaLabel placeholder text : option string) :
  (forall v, id = Some v -> nonempty v = true ->
     build_selector tag id name ariaLabel placeholder text = Some ("#" ++ v))
  /\ (forall v, truthy id = false -> name = Some v -> nonempty v = true ->
        build_selector tag id name ariaLabel placeholder text
        = Some (tag ++ "[name=" ++ q ++ v ++ q ++ "]"))
  /\ (forall v, truthy id = false -> truthy name = false ->
        ariaLabel = Some v -> nonempty v = true ->
        build_selector tag id name ariaLabel placeholder text
        = Some (tag ++ "[aria-label=" ++ q ++ v ++ q ++ "]"))
  /\ (forall v, truthy id = false -> truthy name = false -> truthy ariaLabel = false ->
        placeholder = Some v -> nonempty v = true ->
        build_selector tag id name ariaLabel placeholder text
        = Some (tag ++ "[placeholder=" ++ q ++ v ++ q ++ "]"))
  /\ (forall v, truthy id = false -> truthy name = false -> truthy ariaLabel = false ->
        truthy placeholder = false -> text = Some v -> nonempty v = true ->
        build_selector tag id name ariaLabel placeholder text
        = Some (tag ++ ":has-text(" ++ q ++ take 50 v ++ q ++ ")"))
  /\ (truthy id = false -> truthy name = false -> truthy ariaLabel = false ->
      truthy placeholder = false -> truthy text = false ->
      build_selector tag id name ariaLabel placeholder text = None).
Proof.
  unfold build_selector. repeat split; intros; subst; simpl in *;
    repeat match goal with H : _ = _ |- _ => rewrite H end; reflexivity.
Qed.

(** *** The selectors of the two passes *)

Lemma roleToHTMLTag_values (role : string) :
  In (roleToHTMLTag role) ["button"; "a"; "input"; "select"; "div"].
Proof.
  unfold roleToHTMLTag, table.
  repeat (destruct (String.eqb role _); [simpl; tauto|]). simpl; tauto.
Qed.

(** A selector of the tree pass is a tag, an opening bracket, and either an
    aria-label test that ends in a has-text test or a role test. *)
Lemma tree_selector_split (el : FlatA11yElement) :
  exists tg rest,
    buildElementSelector el = (tg ++ String "[" rest)%string
    /\ all_word tg = true
    /\ nonempty tg = true
    /\ ((starts_with "aria-label=" rest = true /\ last_char rest = Some ")"%char)
        \/ starts_with "role=" rest = true).
Proof.
  unfold buildElementSelector.
  pose proof (roleToHTMLTag_values (f_role el)) as Htg.
  set (tg := roleToHTMLTag (f_role el)) in *.
  assert (Hw : all_word tg = true /\ nonempty tg = true).
  { destruct Htg as [<-|[<-|[<-|[<-|[<-|[]]]]]]; split; reflexivity. }
  destruct Hw as [Hw Hn].
  destruct (truthy (f_name el)).
  - exists tg. eexists. split; [reflexivity|]. split; [exact Hw|]. split; [exact Hn|].
    left. split; [reflexivity|].
    rewrite !last_char_cons, !last_char_app. reflexivity.
  - exists tg. eexists. split; [reflexivity|]. split; [exact Hw|]. split; [exact Hn|].
    right. reflexivity.
Qed.

(** The two passes never build the same selector: whatever the
    accessibility element and whatever attributes and text the markup pass
    parses under a tag name, the selector of the one is not the selector of
    the other. *)
Lemma selectors_of_the_passes_differ (el : FlatA11yElement) (tag attrsStr : string)
      (textContent : option string) (e : InteractiveElement) :
  all_word tag = true ->
  parseHTMLAttributes tag attrsStr textContent = Some e ->
  selector e <> buildElementSelector el.
Proof.
  intros Hword Hparse Heq.
  pose proof (parseHTMLAttributes_selector tag attrsStr textContent) as Hsel.
  rewrite Hparse in Hsel. cbn [option_map] in Hsel. rewrite Heq in Hsel.
  destruct (tree_selector_split el) as (tg & rest & Htree & Hw & Hn & Hrest).
  rewrite Htree in Hsel. clear Heq Hparse Htree.
  unfold build_selector in Hsel.
  assert (Hsplit : word_split (tg ++ String "[" rest) = (tg, String "[" rest))
    by (apply word_split_app; [exact Hw | reflexivity]).
  destruct (truthy (getAttr attrsStr "id")).
  { injection Hsel as Hsel. rewrite Hsel in Hsplit. cbn in Hsplit.
    injection Hsplit as Ht _. subst tg. discriminate. }
  assert (Hform : forall c x,
            is_word c = false ->
            Some (tg ++ String "[" rest)%string = Some (tag ++ String c x)%string ->
            c = "["%char /\ x = rest).
  { intros c x Hc H. injection H as H. rewrite H in Hsplit.
    rewrite word_split_app in Hsplit by assumption.
    inversion Hsplit. now split. }
  destruct (truthy (getAttr attrsStr "name")).
  { apply Hform in Hsel; [|reflexivity]. destruct Hsel as [_ <-].
    destruct Hrest as [[H _]|H]; discriminate. }
  destruct (truthy (getAttr attrsStr "aria-label")).
  { apply Hform in Hsel; [|reflexivity]. destruct Hsel as [_ <-].
    destruct Hrest as [[_ H]|H]; [|discriminate].
    rewrite !last_char_cons, !last_char_app in H. discriminate. }
  destruct (truthy (getAttr attrsStr "placeholder")).
  { apply Hform in Hsel; [|reflexivity]. destruct Hsel as [_ <-].
    destruct Hrest as [[H _]|H]; discriminate. }
  destruct (truthy textContent); [|discriminate].
  apply Hform in Hsel; [|reflexivity]. destruct Hsel as [H _]. discriminate.
Qed.

(** *** The merge *)

Lemma push_element_extend (e : InteractiveElement) (r : Region) :
  push_element e r = extend_region [e] r.
Proof. reflexivity. Qed.

Lemma extend_region_twice (a b : list InteractiveElement) (r : Region) :
  extend_region b (extend_region a r) = extend_region (a ++ b) r.
Proof. unfold extend_region. simpl. now rewrite app_assoc. Qed.

Lemma extend_at_push_at (i : nat) (e : InteractiveElement)
      (added : list InteractiveElement) (regions : list Region) :
  extend_at i added (push_at i e regions) = extend_at i (e :: added) regions.
Proof.
  revert i. induction regions as [|r regions IH]; intros [|i]; simpl; try reflexivity.
  - now rewrite push_element_extend, extend_region_twice.
  - now rewrite IH.
Qed.

Lemma push_at_is_extend_at (i : nat) (e : InteractiveElement) (regions : list Region) :
  push_at i e regions = extend_at i [e] regions.
Proof.
  revert i. induction regions as [|r regions IH]; intros [|i]; simpl; try reflexivity.
  now rewrite IH.
Qed.

Lemma push_at_end (e : InteractiveElement) (regions : list Region) (r : Region) :
  push_at (List.length regions) e (regions ++ [r]) = (regions ++ [push_element e r])%list.
Proof. induction regions as [|x regions IH]; simpl; [reflexivity | now rewrite IH]. Qed.

Lemma extend_at_end (added : list InteractiveElement) (regions : list Region) (r : Region) :
  extend_at (List.length regions) added (regions ++ [r])
  = (regions ++ [extend_region added r])%list.
Proof. induction regions as [|x regions IH]; simpl; [reflexivity | now rewrite IH]. Qed.

Lemma merge_fold (htmlElements : list InteractiveElement) (st : merge_state) :
  ms_regions (fold_left merge_step htmlElements st)
  = add_to_unknown (ms_unknown st) (ms_regions st) (fresh (ms_existing st) htmlElements).
Proof.
  revert st. induction htmlElements as [|el rest IH]; intros st; cbn [fold_left fresh].
  - reflexivity.
  - unfold merge_step at 2.
    destruct (string_in (selector el) (ms_existing st)) eqn:Ein; [apply IH|].
    rewrite IH. clear IH.
    destruct (ms_unknown st) as [i|]; cbn [ms_regions ms_unknown ms_existing].
    + unfold add_to_unknown.
      destruct (fresh (selector el :: ms_existing st) rest) as [|x added].
      * apply push_at_is_extend_at.
      * apply extend_at_push_at.
    + unfold add_to_unknown. rewrite push_at_end.
      destruct (fresh (selector el :: ms_existing st) rest) as [|x added];
        [reflexivity|].
      now rewrite extend_at_end.
Qed.

(** [mergeHTMLElements] leaves the regions of the tree pass as they are and
    adds, to the catch-all region, the markup elements whose selector was
    not seen before. *)
Lemma mergeHTMLElements_adds_fresh (regions : list Region)
      (htmlElements : list InteractiveElement) :
  mergeHTMLElements regions htmlElements
  = add_to_unknown (find_unknown regions 0) regions
      (fresh (existing_selectors regions) htmlElements).
Proof. unfold mergeHTMLElements. now rewrite merge_fold. Qed.

Lemma fresh_sound (existing : list string) (htmlElements : list InteractiveElement) :
  (forall e, In e (fresh existing htmlElements) ->
             In e htmlElements /\ ~ In (selector e) existing)
  /\ NoDup (map selector (fresh existing htmlElements))
  /\ (forall e, In e htmlElements ->
                In (selector e) existing
                \/ In (selector e) (map selector (fresh existing htmlElements))).
Proof.
  revert existing. induction htmlElements as [|el rest IH]; intros existing; cbn [fresh].
  - split; [intros e [] | split; [constructor | intros e []]].
  - destruct (string_in (selector el) existing) eqn:Ein.
    + destruct (IH existing) as (H1 & H2 & H3). split; [|split].
      * intros e He. destruct (H1 e He). split; [now right | assumption].
      * exact H2.
      * intros e [<-|He]; [left; now apply string_in_In | now apply H3].
    + destruct (IH (selector el :: existing)) as (H1 & H2 & H3).
      apply string_in_false in Ein. split; [|split].
      * intros e [<-|He]; [split; [now left | exact Ein]|].
        destruct (H1 e He) as [Hi Hn]. split; [now right|].
        intros Hx. apply Hn. now right.
      * cbn [map]. constructor; [|exact H2].
        intros Hin. apply in_map_iff in Hin. destruct Hin as (e & Hs & He).
        destruct (H1 e He) as [_ Hn]. apply Hn. left. now symmetry.
      * intros e [<-|He]; [right; now left|].
        destruct (H3 e He) as [[Hx|Hx]|Hx].
        -- right. left. exact Hx.
        -- now left.
        -- right. now right.
Qed.

Lemma elements_extend_at (i : nat) (added : list InteractiveElement)
      (regions : list Region) (e : InteractiveElement) :
  i < List.length regions ->
  (In e (elements_of (extend_at i added regions))
   <-> In e (elements_of regions) \/ In e added).
Proof.
  unfold elements_of. revert i.
  induction regions as [|r regions IH]; intros i Hi; [simpl in Hi; lia|].
  destruct i as [|i]; cbn [extend_at flat_map].
  - cbn [extend_region interactiveElements]. rewrite !in_app_iff. tauto.
  - rewrite !in_app_iff, IH by (simpl in Hi; lia). tauto.
Qed.

Lemma find_unknown_bound (regions : list Region) (k i : nat) :
  find_unknown regions k = Some i -> k <= i < k + List.length regions.
Proof.
  revert k. induction regions as [|r regions IH]; intros k H; [discriminate|].
  cbn [find_unknown] in H. destruct (RegionType_eqb (r_type r) unknown).
  - injection H as <-. simpl. lia.
  - apply IH in H. simpl. lia.
Qed.

(** The merged model holds what the tree pass found and what the markup
    pass added, and nothing else. *)
Lemma merged_elements (regions : list Region) (htmlElements : list InteractiveElement)
      (e : InteractiveElement) :
  In e (elements_of (mergeHTMLElements regions htmlElements))
  <-> In e (elements_of regions)
      \/ In e (fresh (existing_selectors regions) htmlElements).
Proof.
  rewrite mergeHTMLElements_adds_fresh. unfold add_to_unknown.
  destruct (fresh (existing_selectors regions) htmlElements) as [|x added] eqn:Ef.
  - simpl. tauto.
  - destruct (find_unknown regions 0) as [i|] eqn:Eu.
    + apply find_unknown_bound in Eu. apply elements_extend_at. lia.
    + unfold elements_of. rewrite flat_map_app, in_app_iff. cbn [flat_map interactiveElements].
      rewrite app_nil_r. tauto.
Qed.

(** What the tree pass puts into its regions are accessibility elements
    turned into interactive elements. *)
Lemma groupByRegion_elements (elements : list FlatA11yElement) (e : InteractiveElement) :
  In e (elements_of (groupByRegion elements)) ->
  exists el, e = a11yToInteractiveElement el.
Proof.
  unfold groupByRegion, elements_of. intros Hin.
  apply in_flat_map in Hin. destruct Hin as (r & Hr & He).
  apply in_map_iff in Hr. destruct Hr as ([k r'] & Hk & Hr). simpl in Hk. subst r'.
  revert k r Hr e He.
  apply (fold_left_invariant
           (fun regionMap : list (string * Region) =>
              forall k r, In (k, r) regionMap ->
              forall e, In e (interactiveElements r) ->
              exists el, e = a11yToInteractiveElement el)).
  - intros k r [].
  - intros regionMap el IH.
    assert (Hpush : forall key x (rm : list (string * Region)),
              (forall k r, In (k, r) rm -> forall e, In e (interactiveElements r) ->
                           exists el0, e = a11yToInteractiveElement el0) ->
              forall k r, In (k, r) (push_into key (a11yToInteractiveElement x) rm) ->
              forall e, In e (interactiveElements r) ->
              exists el0, e = a11yToInteractiveElement el0).
    { intros key x rm. induction rm as [|[k0 r0] rm IHrm]; intros Hrm k r Hin e He.
      - destruct Hin.
      - cbn [push_into] in Hin. destruct (String.eqb key k0).
        + destruct Hin as [Hin|Hin].
          * injection Hin as <- <-. cbn [push_element interactiveElements] in He.
            apply in_app_iff in He. destruct He as [He|[<-|[]]].
            -- apply (Hrm k0 r0); [now left | exact He].
            -- now exists x.
          * apply (Hrm k r); [now right | exact He].
        + destruct Hin as [Hin|Hin].
          * injection Hin as <- <-. apply (Hrm k0 r0); [now left | exact He].
          * apply IHrm with (k := k) (r := r); try assumption.
            intros k' r' H' e' He'. apply (Hrm k' r'); [now right | exact He']. }
    apply Hpush.
    destruct (Obj.has _ regionMap); [exact IH|].
    intros k r Hin e He. apply in_app_iff in Hin. destruct Hin as [Hin|[Hin|[]]].
    + now apply (IH k r).
    + injection Hin as <- <-. destruct He.
Qed.

Lemma fresh_ignores (existing extra : list string) (htmlElements : list InteractiveElement) :
  (forall e, In e htmlElements -> ~ In (selector e) existing) ->
  fresh (extra ++ existing) htmlElements = fresh extra htmlElements.
Proof.
  revert extra. induction htmlElements as [|el rest IH]; intros extra Hn; cbn [fresh].
  - reflexivity.
  - rewrite string_in_app.
    assert (E : string_in (selector el) existing = false)
      by (apply string_in_false, Hn; now left).
    rewrite E, orb_false_r.
    destruct (string_in (selector el) extra).
    + apply IH. intros e He. apply Hn. now right.
    + f_equal. apply (IH (selector el :: extra)). intros e He. apply Hn. now right.
Qed.

(** The tag that the pattern of elements with an onclick handler captures
    is a run of word characters. *)
Lemma handler_tag_is_word (prev : option ascii) (s t rest : string) (caps : captures) :
  match_here true handler_pattern prev s = Some (t, caps, rest) ->
  exists w, capture 1 caps = Some w /\ all_word w = true.
Proof.
  unfold match_here.
  change handler_pattern
    with (RSeq (lit "<") (RSeq (RGroup 1 (plus (RSet CWord))) handler_tail)).
  intros H.
  change (m true (RSeq (lit "<") (RSeq (RGroup 1 (plus (RSet CWord))) handler_tail))
            prev s [] ?k)
    with (m true (lit "<") prev s []
            (fun p1 s1 c1 =>
               m true (plus (RSet CWord)) p1 s1 c1
                 (fun p2 s2 c2 =>
                    m true handler_tail p2 s2
                      ((1, take (String.length s1 - String.length s2) s1) :: c2) k)))
    in H.
  apply (m_without_group true 1 (lit "<") eq_refl) in H.
  destruct H as (p1 & s1 & c1 & H & _).
  apply (m_word_only true (plus (RSet CWord)) eq_refl) in H.
  destruct H as (w & p2 & s2 & -> & Hw & H).
  rewrite take_append in H.
  apply (m_without_group true 1 handler_tail eq_refl) in H.
  destruct H as (p3 & s3 & c3 & H & Hc).
  injection H as _ <- _. exists w. split; [|exact Hw].
  rewrite Hc. reflexivity.
Qed.

(** Every element of the markup pass is what [parseHTMLAttributes] makes
    of some attributes and text under a tag that is a run of word
    characters. *)
Lemma extractFromHTML_parsed (bodyHTML : string) (e : InteractiveElement) :
  In e (extractFromHTML bodyHTML) ->
  exists tag attrsStr textContent,
    all_word tag = true /\ parseHTMLAttributes tag attrsStr textContent = Some e.
Proof.
  unfold extractFromHTML. intros H. apply in_flat_map in H.
  destruct H as ([re ptag] & Hp & H). apply in_flat_map in H.
  destruct H as (mt & Hmt & H). cbn [fst snd] in *.
  destruct (element_of_match ptag mt) as [e'|] eqn:Ee; [|destruct H].
  destruct H as [<-|[]]. unfold element_of_match in Ee.
  unfold patterns in Hp.
  destruct Hp as [Hp|[Hp|[Hp|[Hp|[Hp|[Hp|[]]]]]]]; injection Hp as <- <-;
    try (eexists _, _, _; split; [|exact Ee]; reflexivity).
  apply exec_all_is_match in Hmt. destruct Hmt as (prev & s & Hmt).
  apply handler_tag_is_word in Hmt. destruct Hmt as (w & Hc & Hw).
  unfold group in Ee. rewrite Hc in Ee. cbn [orElse] in Ee.
  eexists _, _, _. split; [|exact Ee]. exact Hw.
Qed.

(** The tree pass never keeps a markup element out: whatever the
    accessibility elements, the markup elements that the merge adds are
    those that are new among the markup elements themselves. *)
Lemma tree_pass_never_suppresses (elements : list FlatA11yElement)
      (htmlElements : list InteractiveElement) :
  (forall e, In e htmlElements ->
             exists tag attrsStr textContent,
               all_word tag = true
               /\ parseHTMLAttributes tag attrsStr textContent = Some e) ->
  mergeHTMLElements (groupByRegion elements) htmlElements
  = add_to_unknown (find_unknown (groupByRegion elements) 0) (groupByRegion elements)
      (fresh [] htmlElements).
Proof.
  intros Hparsed. rewrite mergeHTMLElements_adds_fresh. f_equal.
  apply (fresh_ignores (existing_selectors (groupByRegion elements)) []).
  intros e He Hin.
  unfold existing_selectors in Hin. apply in_flat_map in Hin.
  destruct Hin as (r & Hr & Hs). apply in_map_iff in Hs. destruct Hs as (t & Hs & Ht).
  assert (Hel : In t (elements_of (groupByRegion elements)))
    by (apply in_flat_map; now exists r).
  apply groupByRegion_elements in Hel. destruct Hel as (el & ->).
  destruct (Hparsed e He) as (tag & attrsStr & textContent & Hw & Hp).
  apply (selectors_of_the_passes_differ el _ _ _ Hw Hp). now symmetry.
Qed.

(** For every snapshot, the regions that [extractDOM] returns are those of
    the tree pass with every element of the markup pass added, once per
    locator text of the markup pass: no element of the markup pass is held
    back because of an element of the tree pass. *)
Lemma extractDOM_adds_every_markup_locator (snapshot : PageSnapshot) :
  let treeRegions :=
    match accessibilityTree snapshot with
    | Some tree => groupByRegion (flattenAccessibilityTree tree None None 0)
    | None => []
    end in
  regions (extractDOM snapshot)
  = add_to_unknown (find_unknown treeRegions 0) treeRegions
      (fresh [] (extractFromHTML (bodyHTML snapshot))).
Proof.
  unfold extractDOM. cbn [regions].
  destruct (accessibilityTree snapshot) as [tree|].
  - apply tree_pass_never_suppresses. intros e. apply extractFromHTML_parsed.
  - apply (tree_pass_never_suppresses []). intros e. apply extractFromHTML_parsed.
Qed.

(** C5, at an element with an id and an inline click handler, and at one
    with a handler and nothing else.  The last pattern of the markup pass
    captures the tag, the attributes and the content as its groups 1, 2 and
    3, and the pass hands group 1 on as the attributes and group 2 as the
    text, as it does for the patterns with a fixed tag.  The element
    [<div id="x" onclick="f()">Go</div>] is therefore given a locator by
    text made of its attribute list, not [#x], which is what the
    attribute parser answers on the element's own attributes; and an element
    that has none of id, name, aria-label, placeholder and text is included
    with such a locator where the attribute parser would omit it. *)
Theorem handler_element_locator_is_its_attribute_text :
  option_map (fun mt => (group 1 mt, group 2 mt, group 3 mt))
             (exec true handler_pattern Samples.handlerDiv)
  = Some (Some "div", Some Samples.handlerDivAttributes, Some "Go")
  /\ map (fun e => (tag e, selector e, id e, text e)) (extractFromHTML Samples.handlerDiv)
     = [ ("div",
          "div:has-text(" ++ q ++ "id=" ++ q ++ "x" ++ q ++ " onclick=" ++ q ++ "f()" ++ q
            ++ q ++ ")",
          None,
          Some ("id=" ++ q ++ "x" ++ q ++ " onclick=" ++ q ++ "f()" ++ q)) ]
  /\ option_map selector
       (parseHTMLAttributes "div" Samples.handlerDivAttributes (Some "Go"))
     = Some "#x"
  /\ map selector (extractFromHTML Samples.bareHandlerSpan)
     = [ "span:has-text(" ++ q ++ "onclick=" ++ q ++ "f()" ++ q ++ q ++ ")" ]
  /\ parseHTMLAttributes "span" (" onclick=" ++ q ++ "f()" ++ q) (Some "") = None.
Proof. repeat split; vm_compute; reflexivity. Qed.

(** C1, at the page of the repository's own merge test.  The Submit button
    is found by both passes.  The tree pass locates it by
    [button[aria-label="Submit"], button:has-text("Submit")], the markup
    pass by [button[aria-label="Submit"]]; the two texts differ, so the
    merge keeps both: the merged model holds the button twice, once in the
    main region and once in the catch-all region, and counts three
    elements for a page with two buttons. *)
Theorem submit_button_is_listed_twice :
  map (fun region => (r_type region, map selector (interactiveElements region)))
      (regions (extractDOM Samples.submitSnapshot))
  = [ (main, [ "button[aria-label=" ++ q ++ "Submit" ++ q ++ "], button:has-text(" ++ q
                 ++ "Submit" ++ q ++ ")" ]);
      (unknown, [ "button[aria-label=" ++ q ++ "Submit" ++ q ++ "]"; "#cancel-btn" ]) ]
  /\ List.length
       (filter (fun e => match ariaLabel e with
                         | Some l => String.eqb l "Submit"
                         | None => false
                         end)
               (flat_map interactiveElements (regions (extractDOM Samples.submitSnapshot))))
     = 2
  /\ totalInteractiveElements (extractDOM Samples.submitSnapshot) = 3.
Proof. repeat split; vm_compute; reflexivity. Qed.

End ExtractDomFacts.

(** ** The tree pass and the merged model *)

Module TreePassFacts.
Import Str ExtractDom ExtractDomSpec TreePassSpec Facts ExtractDomFacts.

(** *** Flattening the tree *)

Lemma flatten_elements (node : AccessibilityNode) :
  forall (parentRole0 parentName0 : option string) (depth0 : nat),
    List.length (flattenAccessibilityTree node parentRole0 parentName0 depth0)
    = interactive_nodes node
    /\ Forall (fun el =>
                 In (f_role el) interactiveRoles
                 /\ depth0 <= depth el
                 /\ ((parentRole el = parentRole0 /\ parentName el = parentName0)
                     \/ exists r, parentRole el = Some r /\ In r landmarkRoles))
              (flattenAccessibilityTree node parentRole0 parentName0 depth0).
Proof.
  revert node. fix IH 1. intros [role name value children] parentRole0 parentName0 depth0.
  cbn [flattenAccessibilityTree interactive_nodes].
  set (nextRole := if string_in role landmarkRoles then Some role else parentRole0).
  set (nextName := if string_in role landmarkRoles then name else parentName0).
  assert (Hnext : forall el : FlatA11yElement,
             (parentRole el = nextRole /\ parentName el = nextName)
             \/ (exists r, parentRole el = Some r /\ In r landmarkRoles) ->
             (parentRole el = parentRole0 /\ parentName el = parentName0)
             \/ (exists r, parentRole el = Some r /\ In r landmarkRoles)).
  { intros el [[Hr Hn]|H]; [|now right]. subst nextRole nextName.
    destruct (string_in role landmarkRoles) eqn:E.
    - right. exists role. split; [exact Hr | now apply string_in_In].
    - left. now split. }
  rewrite length_app, Forall_app. 
  assert (Hchildren :
            List.length
              ((fix each (cs : list AccessibilityNode) : list FlatA11yElement :=
                  match cs with
                  | [] => []
                  | child :: rest =>
                      (flattenAccessibilityTree child nextRole nextName (S depth0)
                       ++ each rest)%list
                  end) children)
            = (fix each (cs : list AccessibilityNode) : nat :=
                 match cs with
                 | [] => 0
                 | child :: rest => interactive_nodes child + each rest
                 end) children
            /\ Forall (fun el =>
                         In (f_role el) interactiveRoles
                         /\ depth0 <= depth el
                         /\ ((parentRole el = parentRole0 /\ parentName el = parentName0)
                             \/ exists r, parentRole el = Some r /\ In r landmarkRoles))
                 ((fix each (cs : list AccessibilityNode) : list FlatA11yElement :=
                     match cs with
                     | [] => []
                     | child :: rest =>
                         (flattenAccessibilityTree child nextRole nextName (S depth0)
                          ++ each rest)%list
                     end) children)).
  { induction children as [|child rest IHc].
    - split; [reflexivity | constructor].
    - destruct IHc as [Hlen Hall].
      destruct (IH child nextRole nextName (S depth0)) as [Hl Ha].
      split.
      + rewrite length_app, Hl, Hlen. reflexivity.
      + apply Forall_app. split; [|exact Hall].
        eapply Forall_impl; [|exact Ha].
        intros el (H1 & H2 & H3). split; [exact H1|]. split; [lia|]. now apply Hnext. }
  destruct Hchildren as [Hlen Hall].
  split.
  - rewrite Hlen. now destruct (string_in role interactiveRoles).
  - split; [|exact Hall].
    destruct (string_in role interactiveRoles) eqn:E; constructor; [|constructor].
    cbn [f_role depth parentRole parentName]. split; [now apply string_in_In|].
    split; [lia|]. left. now split.
Qed.

(** *** Grouping by region *)

Lemma has_map_keys {V} (f : string -> V) (key : string) (ks : list string) :
  Obj.has key (map (fun k => (k, f k)) ks) = string_in key ks.
Proof.
  induction ks as [|k ks IH]; simpl; [reflexivity | now rewrite IH].
Qed.

Lemma push_into_known (f : string -> Region) (key : string) (e : InteractiveElement)
      (ks : list string) :
  NoDup ks -> In key ks ->
  push_into key e (map (fun k => (k, f k)) ks)
  = map (fun k => (k, if String.eqb key k then push_element e (f k) else f k)) ks.
Proof.
  induction ks as [|k ks IH]; intros Hnd Hin; [destruct Hin|].
  inversion Hnd as [|? ? Hk Hks]; subst. cbn [map push_into].
  destruct (String.eqb key k) eqn:E.
  - apply String.eqb_eq in E. subst k. f_equal.
    apply map_ext_in. intros k' Hk'.
    destruct (String.eqb key k') eqn:E'; [|reflexivity].
    apply String.eqb_eq in E'. subst k'. contradiction.
  - f_equal. apply IH; [exact Hks|].
    destruct Hin as [->|Hin]; [|exact Hin]. rewrite String.eqb_refl in E. discriminate.
Qed.

Lemma push_into_last (f : string -> Region) (key : string) (e : InteractiveElement)
      (ks : list string) (r : Region) :
  ~ In key ks ->
  push_into key e (map (fun k => (k, f k)) ks ++ [(key, r)])%list
  = (map (fun k => (k, f k)) ks ++ [(key, push_element e r)])%list.
Proof.
  induction ks as [|k ks IH]; intros Hn; cbn [map push_into List.app].
  - now rewrite String.eqb_refl.
  - destruct (String.eqb key k) eqn:E.
    + apply String.eqb_eq in E. subst k. exfalso. apply Hn. now left.
    + f_equal. apply IH. intros H. apply Hn. now right.
Qed.

Lemma members_snoc (key : string) (elements : list FlatA11yElement) (el : FlatA11yElement) :
  members key (elements ++ [el])%list
  = (members key elements ++ if String.eqb (region_key el) key then [el] else [])%list.
Proof. unfold members. now rewrite filter_app. Qed.

Lemma members_none (key : string) (elements : list FlatA11yElement) :
  ~ In key (map region_key elements) -> members key elements = [].
Proof.
  intros Hn. unfold members. apply SessionFacts.filter_none. intros el Hel.
  apply String.eqb_neq. intros E. apply Hn. apply in_map_iff. now exists el.
Qed.

Lemma members_some (key : string) (elements : list FlatA11yElement) :
  In key (map region_key elements) -> members key elements <> [].
Proof.
  intros Hin. apply in_map_iff in Hin. destruct Hin as (el & Hk & Hel).
  assert (H : In el (members key elements)).
  { unfold members. apply filter_In. split; [exact Hel | now apply String.eqb_eq]. }
  intros E. rewrite E in H. destruct H.
Qed.

(** The region map of [groupByRegion], as a function of the elements read
    so far. *)
Lemma region_map_grouped (elements : list FlatA11yElement) :
  fold_left
    (fun regionMap el =>
       let regionKey := orElse (parentRole el) "unknown" in
       let regionLabel := parentName el in
       let regionMap1 :=
         if Obj.has regionKey regionMap then regionMap
         else (regionMap ++
               [(regionKey,
                 {| r_type := mapRoleToRegionType regionKey;
                    r_selector := buildRegionSelector regionKey regionLabel;
                    label := regionLabel;
                    interactiveElements := [] |})])%list in
       push_into regionKey (a11yToInteractiveElement el) regionMap1)
    elements []
  = map (fun key => (key, region_of key elements)) (region_keys elements).
Proof.
  match goal with |- fold_left ?f _ _ = _ => set (step := f) end.
  induction elements as [|el elements IH] using rev_ind; [reflexivity|].
  rewrite fold_left_app. cbn [fold_left]. rewrite IH. clear IH.
  unfold step. cbv beta zeta.
  fold (region_key el). set (key := region_key el).
  rewrite has_map_keys.
  unfold region_keys. rewrite map_app. cbn [map]. fold key.
  rewrite SessionFacts.distinct_snoc.
  destruct (string_in key (SessionSpec.distinct (map region_key elements))) eqn:Ein.
  - assert (Hin : In key (map region_key elements))
      by (apply SessionFacts.In_distinct; now apply string_in_In).
    assert (Ein' : string_in key (map region_key elements) = true)
      by now apply string_in_In.
    rewrite Ein'.
    rewrite push_into_known
      by (try apply SessionFacts.NoDup_distinct; now apply string_in_In).
    apply map_ext_in. intros k Hk. f_equal.
    unfold region_of. rewrite members_snoc. fold key.
    destruct (String.eqb key k) eqn:E.
    + apply String.eqb_eq in E. subst k.
      pose proof (members_some key elements Hin) as Hne.
      destruct (members key elements) as [|first others]; [contradiction|].
      unfold push_element. cbn [List.app r_type r_selector label interactiveElements].
      f_equal. cbn [map]. now rewrite map_app.
    + now rewrite app_nil_r.
  - assert (Hn : ~ In key (map region_key elements)).
    { intros H. apply SessionFacts.In_distinct in H. apply string_in_In in H.
      rewrite H in Ein. discriminate. }
    assert (Ein' : string_in key (map region_key elements) = false)
      by now apply string_in_false.
    rewrite Ein'.
    rewrite push_into_last
      by (intros H; apply string_in_In in H; rewrite H in Ein; discriminate).
    rewrite map_app. cbn [map]. f_equal.
    + apply map_ext_in. intros k Hk. f_equal.
      unfold region_of. rewrite members_snoc. fold key.
      destruct (String.eqb key k) eqn:E; [|now rewrite app_nil_r].
      apply String.eqb_eq in E. subst k. apply string_in_In in Hk.
      rewrite Hk in Ein. discriminate.
    + do 2 f_equal. unfold region_of. rewrite members_snoc. fold key.
      rewrite String.eqb_refl, (members_none key elements Hn). reflexivity.
Qed.

Lemma groupByRegion_grouped (elements : list FlatA11yElement) :
  groupByRegion elements = map (fun key => region_of key elements) (region_keys elements).
Proof.
  pose proof (region_map_grouped elements) as H.
  apply (f_equal (map snd)) in H. rewrite map_map in H. exact H.
Qed.

Lemma region_keys_of_tree (node : AccessibilityNode) (key : string) :
  In key (region_keys (flattenAccessibilityTree node None None 0)) ->
  key = "unknown" \/ In key landmarkRoles.
Proof.
  intros Hin. unfold region_keys in Hin. rewrite SessionFacts.In_distinct in Hin.
  apply in_map_iff in Hin. destruct Hin as (el & <- & Hel).
  destruct (flatten_elements node None None 0) as [_ Hall].
  rewrite Forall_forall in Hall. destruct (Hall el Hel) as (_ & _ & [[Hr _]|(r & Hr & Hl)]);
    unfold region_key; rewrite Hr; [now left | now right].
Qed.

Lemma region_keys_bound (node : AccessibilityNode) :
  List.length (region_keys (flattenAccessibilityTree node None None 0)) <= 10.
Proof.
  change 10 with (List.length ("unknown" :: landmarkRoles)).
  apply NoDup_incl_length; [apply SessionFacts.NoDup_distinct|].
  intros key Hin. destruct (region_keys_of_tree node key Hin) as [->|H];
    [now left | now right].
Qed.

(** *** Counting *)

Lemma push_into_count (key : string) (e : InteractiveElement)
      (regionMap : list (string * Region)) :
  Obj.has key regionMap = true ->
  List.length (elements_of (map snd (push_into key e regionMap)))
  = S (List.length (elements_of (map snd regionMap))).
Proof.
  unfold elements_of.
  induction regionMap as [|[k r] regionMap IH]; intros H; [discriminate|].
  cbn [Obj.has] in H. cbn [push_into].
  destruct (String.eqb key k).
  - cbn [map snd flat_map push_element interactiveElements].
    rewrite !length_app. cbn [List.length]. lia.
  - cbn [map snd flat_map]. rewrite !length_app, IH by exact H. lia.
Qed.

Lemma groupByRegion_count (elements : list FlatA11yElement) :
  List.length (elements_of (groupByRegion elements)) = List.length elements.
Proof.
  unfold groupByRegion. cbv zeta.
  match goal with |- context [fold_left ?f _ _] => set (step := f) end.
  enough (H : forall regionMap : list (string * Region),
             List.length (elements_of (map snd (fold_left step elements regionMap)))
             = List.length (elements_of (map snd regionMap)) + List.length elements)
    by (rewrite H; reflexivity).
  induction elements as [|el elements IH]; intros regionMap; cbn [fold_left List.length].
  - lia.
  - rewrite IH. unfold step. cbv beta zeta.
    rewrite push_into_count.
    + destruct (Obj.has _ regionMap); [lia|].
      unfold elements_of. rewrite map_app, flat_map_app, length_app. simpl. lia.
    + destruct (Obj.has _ regionMap) eqn:E; [exact E|].
      rewrite SessionFacts.has_app. simpl. rewrite String.eqb_refl. apply orb_true_r.
Qed.

Lemma extend_at_count (i : nat) (added : list InteractiveElement) (regions : list Region) :
  i < List.length regions ->
  List.length (elements_of (extend_at i added regions))
  = List.length (elements_of regions) + List.length added.
Proof.
  unfold elements_of. revert i.
  induction regions as [|r regions IH]; intros i Hi; [simpl in Hi; lia|].
  destruct i as [|i]; cbn [extend_at flat_map].
  - cbn [extend_region interactiveElements]. rewrite !length_app. lia.
  - rewrite !length_app, IH by (simpl in Hi; lia). lia.
Qed.

Lemma extend_at_length (i : nat) (added : list InteractiveElement) (regions : list Region) :
  List.length (extend_at i added regions) = List.length regions.
Proof.
  revert i. induction regions as [|r regions IH]; intros [|i]; simpl; try reflexivity.
  now rewrite IH.
Qed.

Lemma add_to_unknown_count (regions : list Region) (added : list InteractiveElement) :
  List.length (elements_of (add_to_unknown (find_unknown regions 0) regions added))
  = List.length (elements_of regions) + List.length added.
Proof.
  unfold add_to_unknown. destruct added as [|x added]; [simpl; lia|].
  destruct (find_unknown regions 0) as [i|] eqn:Eu.
  - apply find_unknown_bound in Eu. apply extend_at_count. lia.
  - unfold elements_of. rewrite flat_map_app, length_app.
    cbn [flat_map interactiveElements]. now rewrite app_nil_r.
Qed.

Lemma total_is_count (regions : list Region) (n : nat) :
  fold_left (fun sum region => sum + List.length (interactiveElements region)) regions n
  = n + List.length (elements_of regions).
Proof.
  unfold elements_of. revert n.
  induction regions as [|r regions IH]; intros n; cbn [fold_left flat_map].
  - simpl. lia.
  - rewrite IH, length_app. lia.
Qed.

Lemma find_unknown_none (regions : list Region) (i : nat) :
  find_unknown regions i = None <-> forall r, In r regions -> is_unknown r = false.
Proof.
  revert i. induction regions as [|r regions IH]; intros i; cbn [find_unknown].
  - split; [intros _ r [] | reflexivity].
  - fold (is_unknown r). destruct (is_unknown r) eqn:E.
    + split; [discriminate|]. intros H. rewrite (H r) in E by now left. discriminate.
    + rewrite IH. split.
      * intros H x [<-|Hx]; [exact E | now apply H].
      * intros H x Hx. apply H. now right.
Qed.

Lemma landmark_is_not_unknown (key : string) :
  In key landmarkRoles -> RegionType_eqb (mapRoleToRegionType key) unknown = false.
Proof.
  intros H. repeat (destruct H as [<-|H]; [reflexivity|]). destruct H.
Qed.

(** The regions of a tree without a region of type unknown are keyed by
    landmark roles only, so there are nine at most. *)
Lemma tree_regions_without_unknown (node : AccessibilityNode) :
  let elements := flattenAccessibilityTree node None None 0 in
  find_unknown (groupByRegion elements) 0 = None ->
  List.length (groupByRegion elements) <= 9.
Proof.
  intros elements Hnone. rewrite find_unknown_none in Hnone.
  rewrite groupByRegion_grouped in *. rewrite length_map.
  change 9 with (List.length landmarkRoles).
  apply NoDup_incl_length; [apply SessionFacts.NoDup_distinct|].
  intros key Hin. destruct (region_keys_of_tree node key Hin) as [->|H]; [|exact H].
  exfalso.
  assert (Hu : is_unknown (region_of "unknown" elements) = false).
  { apply Hnone. apply in_map_iff. now exists "unknown". }
  discriminate.
Qed.

Lemma extend_at_unknowns (i : nat) (added : list InteractiveElement)
      (regions : list Region) :
  List.length (filter is_unknown (extend_at i added regions))
  = List.length (filter is_unknown regions).
Proof.
  revert i. induction regions as [|r regions IH]; intros [|i]; cbn [extend_at filter];
    try reflexivity.
  - change (is_unknown (extend_region added r)) with (is_unknown r).
    now destruct (is_unknown r).
  - destruct (is_unknown r); cbn [List.length]; now rewrite IH.
Qed.

Lemma no_unknown_among_landmarks (elements : list FlatA11yElement) (keys : list string) :
  (forall key, In key keys -> In key landmarkRoles) ->
  filter is_unknown (map (fun key => region_of key elements) keys) = [].
Proof.
  intros H. apply SessionFacts.filter_none. intros r Hr.
  apply in_map_iff in Hr. destruct Hr as (key & <- & Hk).
  apply landmark_is_not_unknown. now apply H.
Qed.

Lemma one_unknown_at_most (elements : list FlatA11yElement) (keys : list string) :
  NoDup keys ->
  (forall key, In key keys -> key = "unknown" \/ In key landmarkRoles) ->
  List.length (filter is_unknown (map (fun key => region_of key elements) keys)) <= 1.
Proof.
  induction keys as [|k keys IH]; intros Hnd Hk; [simpl; lia|].
  inversion Hnd as [|? ? Hnk Hnd']; subst. cbn [map filter].
  destruct (is_unknown (region_of k elements)) eqn:E.
  - rewrite no_unknown_among_landmarks; [simpl; lia|].
    intros key Hin. destruct (Hk key (or_intror Hin)) as [->|H]; [|exact H].
    destruct (Hk k (or_introl eq_refl)) as [->|H]; [contradiction|].
    apply landmark_is_not_unknown in H. unfold is_unknown in E. cbn [region_of r_type] in E.
    rewrite H in E. discriminate.
  - apply IH; [exact Hnd'|]. intros key Hin. apply Hk. now right.
Qed.

(** *** The accessibility tree, flattened *)

(** Flattening a tree gives one element for each of its nodes with an
    interactive role, and nothing else: every element carries such a role,
    lies no higher than where the walk started, and is filed either under
    the landmark the walk started in or under a landmark role. *)
Theorem flattenAccessibilityTree_keeps_interactive_nodes :
  forall (tree : AccessibilityNode) (parentRole0 parentName0 : option string)
         (depth0 : nat),
    let elements := flattenAccessibilityTree tree parentRole0 parentName0 depth0 in
    List.length elements = interactive_nodes tree
    /\ Forall (fun el =>
                 In (f_role el) interactiveRoles
                 /\ depth0 <= depth el
                 /\ ((parentRole el = parentRole0 /\ parentName el = parentName0)
                     \/ exists r, parentRole el = Some r /\ In r landmarkRoles))
              elements.
Proof. intros tree parentRole0 parentName0 depth0. apply flatten_elements. Qed.

(** The regions of the tree pass are one per landmark role that holds an
    interactive element, in the order in which the roles are first met, plus
    one keyed [unknown] for the elements outside every landmark.  A region
    holds the elements of its key in tree order; it is labelled, and its
    selector built, after the first of them, so two landmarks of the same
    role share one region under the name of the first.  There are ten
    regions at most. *)
Theorem tree_regions_are_keyed_by_landmark_role :
  forall tree : AccessibilityNode,
    let elements := flattenAccessibilityTree tree None None 0 in
    groupByRegion elements = map (fun key => region_of key elements) (region_keys elements)
    /\ NoDup (region_keys elements)
    /\ (forall key, In key (region_keys elements) <->
                    exists el, In el elements /\ region_key el = key)
    /\ (forall key, In key (region_keys elements) ->
                    key = "unknown" \/ In key landmarkRoles)
    /\ List.length (groupByRegion elements) <= 10.
Proof.
  intros tree elements. split; [apply groupByRegion_grouped|].
  split; [apply SessionFacts.NoDup_distinct|]. split; [|split].
  - intros key. unfold region_keys. rewrite SessionFacts.In_distinct, in_map_iff.
    split; intros (el & H1 & H2); exists el; tauto.
  - apply region_keys_of_tree.
  - rewrite groupByRegion_grouped, length_map. apply region_keys_bound.
Qed.

(** *** The merged model *)

(** The count that [extractDOM] reports is the number of elements its
    regions list, and that number is the number of interactive nodes of the
    tree plus the number of distinct selectors of the markup pass: an element
    that both passes find is counted, and listed, once for each. *)
Theorem extractDOM_total_counts_both_passes :
  forall snapshot : PageSnapshot,
    let analysis := extractDOM snapshot in
    totalInteractiveElements analysis = List.length (elements_of (regions analysis))
    /\ totalInteractiveElements analysis
       = List.length (tree_elements snapshot)
         + List.length (fresh [] (extractFromHTML (bodyHTML snapshot)))
    /\ a_url analysis = url snapshot.
Proof.
  intros snapshot analysis. subst analysis. unfold extractDOM.
  cbn [totalInteractiveElements regions a_url]. rewrite total_is_count. cbn [Nat.add].
  split; [reflexivity|]. split; [|reflexivity].
  unfold tree_elements. destruct (accessibilityTree snapshot) as [tree|].
  - rewrite tree_pass_never_suppresses by (intros e; apply extractFromHTML_parsed).
    now rewrite add_to_unknown_count, groupByRegion_count.
  - rewrite (tree_pass_never_suppresses []) by (intros e; apply extractFromHTML_parsed).
    change (groupByRegion []) with (@nil Region).
    now rewrite add_to_unknown_count.
Qed.

(** Whatever the page, the model has ten regions at most, and at most one
    of them is of type unknown: the markup pass adds a catch-all region only
    when the tree pass left none. *)
Theorem extractDOM_has_one_catch_all_region_at_most :
  forall snapshot : PageSnapshot,
    List.length (regions (extractDOM snapshot)) <= 10
    /\ List.length (filter is_unknown (regions (extractDOM snapshot))) <= 1.
Proof.
  intros snapshot. unfold extractDOM. cbn [regions].
  rewrite mergeHTMLElements_adds_fresh.
  set (treeRegions := match accessibilityTree snapshot with
                      | Some tree => groupByRegion (flattenAccessibilityTree tree None None 0)
                      | None => []
                      end).
  set (added := fresh (existing_selectors treeRegions) (extractFromHTML (bodyHTML snapshot))).
  assert (Hten : List.length treeRegions <= 10).
  { subst treeRegions. destruct (accessibilityTree snapshot) as [tree|]; [|simpl; lia].
    rewrite groupByRegion_grouped, length_map. apply region_keys_bound. }
  assert (Hnine : find_unknown treeRegions 0 = None -> List.length treeRegions <= 9).
  { subst treeRegions. destruct (accessibilityTree snapshot) as [tree|]; [|simpl; lia].
    apply tree_regions_without_unknown. }
  assert (Hone : List.length (filter is_unknown treeRegions) <= 1).
  { subst treeRegions. destruct (accessibilityTree snapshot) as [tree|]; [|simpl; lia].
    rewrite groupByRegion_grouped.
    apply one_unknown_at_most; [apply SessionFacts.NoDup_distinct|].
    apply region_keys_of_tree. }
  unfold add_to_unknown. destruct added as [|x added]; [split; assumption|].
  destruct (find_unknown treeRegions 0) as [i|] eqn:Eu.
  - rewrite extend_at_length, extend_at_unknowns. split; assumption.
  - split.
    + rewrite length_app. specialize (Hnine eq_refl). simpl. lia.
    + rewrite filter_app.
      rewrite (SessionFacts.filter_none is_unknown treeRegions)
        by (now apply find_unknown_none with (i := 0)).
      simpl. lia.
Qed.

(** Merging keeps every element the regions held, and adds markup elements
    only: each added one has a selector that no element of the regions had,
    no two added ones share a selector, and every markup element's selector
    is in the merged model.  The regions come out in their order with at
    most one more at the end. *)
Theorem mergeHTMLElements_adds_each_new_selector_once :
  forall (treeRegions : list Region) (htmlElements : list InteractiveElement),
    let merged := mergeHTMLElements treeRegions htmlElements in
    let added := fresh (existing_selectors treeRegions) htmlElements in
    (forall e, In e (elements_of merged) <-> In e (elements_of treeRegions) \/ In e added)
    /\ (forall e, In e added ->
                  In e htmlElements /\ ~ In (selector e) (existing_selectors treeRegions))
    /\ NoDup (map selector added)
    /\ (forall e, In e htmlElements -> In (selector e) (map selector (elements_of merged)))
    /\ List.length (elements_of merged)
       = List.length (elements_of treeRegions) + List.length added
    /\ List.length treeRegions <= List.length merged <= List.length treeRegions + 1.
Proof.
  intros treeRegions htmlElements merged added.
  destruct (fresh_sound (existing_selectors treeRegions) htmlElements) as (H1 & H2 & H3).
  split; [apply merged_elements|]. split; [exact H1|]. split; [exact H2|]. split; [|split].
  - intros e He. apply in_map_iff.
    destruct (H3 e He) as [Hx|Hx].
    + unfold existing_selectors in Hx. apply in_flat_map in Hx.
      destruct Hx as (r & Hr & Hs). apply in_map_iff in Hs. destruct Hs as (e' & Hs & He').
      exists e'. split; [exact Hs|]. apply merged_elements. left.
      apply in_flat_map. now exists r.
    + apply in_map_iff in Hx. destruct Hx as (e' & Hs & He').
      exists e'. split; [exact Hs|]. apply merged_elements. now right.
  - subst merged. rewrite mergeHTMLElements_adds_fresh. apply add_to_unknown_count.
  - subst merged. rewrite mergeHTMLElements_adds_fresh. unfold add_to_unknown.
    fold added. destruct added as [|x rest]; [lia|].
    destruct (find_unknown treeRegions 0); [rewrite extend_at_length; lia|].
    rewrite length_app. simpl. lia.
Qed.

(** [parseHTMLAttributes] picks the selector by the first of id, name,
    aria-label, placeholder and text that is present and not empty - the id as
    [#id], the text cut to fifty characters - and gives no element when none
    is. *)
Theorem parseHTMLAttributes_prefers_id_then_name :
  forall (tag attrsStr : string) (textContent : option string),
    let id := getAttr attrsStr "id" in
    let name := getAttr attrsStr "name" in
    let ariaLabel := getAttr attrsStr "aria-label" in
    let placeholder := getAttr attrsStr "placeholder" in
    let chosen := option_map selector (parseHTMLAttributes tag attrsStr textContent) in
    (forall v, id = Some v -> nonempty v = true -> chosen = Some ("#" ++ v))
    /\ (forall v, truthy id = false -> name = Some v -> nonempty v = true ->
                  chosen = Some (tag ++ "[name=" ++ q ++ v ++ q ++ "]"))
    /\ (forall v, truthy id = false -> truthy name = false ->
                  ariaLabel = Some v -> nonempty v = true ->
                  chosen = Some (tag ++ "[aria-label=" ++ q ++ v ++ q ++ "]"))
    /\ (forall v, truthy id = false -> truthy name = false -> truthy ariaLabel = false ->
                  placeholder = Some v -> nonempty v = true ->
                  chosen = Some (tag ++ "[placeholder=" ++ q ++ v ++ q ++ "]"))
    /\ (forall v, truthy id = false -> truthy name = false -> truthy ariaLabel = false ->
                  truthy placeholder = false -> textContent = Some v -> nonempty v = true ->
                  chosen = Some (tag ++ ":has-text(" ++ q ++ take 50 v ++ q ++ ")"))
    /\ (parseHTMLAttributes tag attrsStr textContent = None <->
        truthy id = false /\ truthy name = false /\ truthy ariaLabel = false
        /\ truthy placeholder = false /\ truthy textContent = false)
    /\ (forall e, parseHTMLAttributes tag attrsStr textContent = Some e ->
                  ExtractDom.tag e = tag /\ text e = textContent /\ ExtractDom.id e = id
                  /\ el_name e = name).
Proof.
  intros tag attrsStr textContent id name ariaLabel placeholder chosen.
  subst chosen. rewrite parseHTMLAttributes_selector. fold id name ariaLabel placeholder.
  destruct (build_selector_order tag id name ariaLabel placeholder textContent)
    as (H1 & H2 & H3 & H4 & H5 & H6).
  repeat (split; [assumption|]). split.
  - unfold parseHTMLAttributes. fold id name ariaLabel placeholder.
    unfold build_selector.
    destruct (truthy id); [split; [discriminate | intros (H & _); discriminate]|].
    destruct (truthy name); [split; [discriminate | intros (_ & H & _); discriminate]|].
    destruct (truthy ariaLabel);
      [split; [discriminate | intros (_ & _ & H & _); discriminate]|].
    destruct (truthy placeholder);
      [split; [discriminate | intros (_ & _ & _ & H & _); discriminate]|].
    destruct (truthy textContent);
      [split; [discriminate | intros (_ & _ & _ & _ & H); discriminate]|].
    split; [now repeat split | reflexivity].
  - intros e He. unfold parseHTMLAttributes in He. fold id name ariaLabel placeholder in He.
    destruct (build_selector tag id name ariaLabel placeholder textContent); [|discriminate].
    injection He as <-. now repeat split.
Qed.

End TreePassFacts.

(** ** More on the session recorder *)

Module RecorderFacts.
Import Str Session SessionSpec Facts SessionFacts.

Lemma filter_filter {A} (f g : A -> bool) (l : list A) :
  filter f (filter g l) = filter (fun x => g x && f x) l.
Proof.
  induction l as [|x l IH]; [reflexivity|]. cbn [filter].
  destruct (g x); cbn [filter andb]; [destruct (f x)|]; now rewrite IH.
Qed.

Lemma group_of_kept (t : string) (log : list ActionLogEntry) :
  group t (filter kept log) = group t log.
Proof.
  unfold group. rewrite filter_filter. apply filter_ext. intros e.
  now destruct (kept e).
Qed.

Lemma tags_of_kept (log : list ActionLogEntry) : tags (filter kept log) = tags log.
Proof.
  unfold tags. rewrite filter_filter. do 2 f_equal. apply filter_ext. intros e.
  now destruct (kept e).
Qed.

Lemma string_in_distinct (x : string) (l : list string) :
  string_in x (distinct l) = string_in x l.
Proof.
  destruct (string_in x l) eqn:E.
  - apply string_in_In, In_distinct. now apply string_in_In.
  - apply string_in_false. rewrite In_distinct. now apply string_in_false.
Qed.

Lemma urls_are_distinct (entries : list ActionLogEntry) :
  fold_left (fun urls entry => set_add (pageUrl entry) urls) entries []
  = distinct (map pageUrl entries).
Proof.
  induction entries as [|e entries IH] using rev_ind; [reflexivity|].
  rewrite fold_left_app, map_app. cbn [fold_left map]. rewrite IH, distinct_snoc.
  unfold set_add. now rewrite string_in_distinct.
Qed.

Lemma group_of_tag (t : string) (log : list ActionLogEntry) :
  In t (tags log) -> exists first others, group t log = first :: others.
Proof.
  intros Hin. unfold tags in Hin. rewrite In_distinct in Hin. apply in_map_iff in Hin.
  destruct Hin as (e & Ht & He). apply filter_In in He. destruct He as [He Hk].
  assert (H : In e (group t log)).
  { unfold group. apply filter_In. split; [exact He|].
    rewrite Hk. now apply String.eqb_eq. }
  destruct (group t log) as [|first others]; [destruct H|]. now exists first, others.
Qed.

(** Only the successful, tool-tagged entries count: tools derived from a log
    are those derived from its kept entries, so an entry that failed or has
    no tool name can be added or taken away anywhere without changing a
    tool. *)
Theorem groupActionsIntoTools_reads_kept_entries_only :
  forall log : list ActionLogEntry,
    groupActionsIntoTools log = groupActionsIntoTools (filter kept log)
    /\ (forall before after entry,
          log = (before ++ entry :: after)%list ->
          success entry = false \/ truthy (toolName entry) = false ->
          groupActionsIntoTools log = groupActionsIntoTools (before ++ after)%list)
    /\ (filter kept log = [] -> groupActionsIntoTools log = []).
Proof.
  intros log.
  assert (Hk : forall l, groupActionsIntoTools l = groupActionsIntoTools (filter kept l)).
  { intros l. rewrite !groupActionsIntoTools_is_derive_tools. unfold derive_tools.
    rewrite tags_of_kept. apply map_ext. intros t. now rewrite group_of_kept. }
  split; [apply Hk|]. split.
  - intros before after entry -> Hentry.
    rewrite (Hk (before ++ entry :: after)%list), (Hk (before ++ after)%list).
    rewrite !filter_app. cbn [filter].
    assert (E : kept entry = false).
    { unfold kept. destruct Hentry as [-> | ->]; [apply andb_false_r | reflexivity]. }
    now rewrite E.
  - intros E. rewrite Hk, E. reflexivity.
Qed.

(** The URL patterns of a derived tool are the pages on which its entries
    were recorded - the wait and navigate entries too, which give no step -
    each page once, in the order of its first entry.  There is always at
    least one, and the first is the page of the tool's first entry. *)
Theorem tool_url_patterns_are_the_pages_of_its_entries :
  forall (log : list ActionLogEntry) (tool : ToolFromActions),
    In tool (groupActionsIntoTools log) ->
    let entries := group (name tool) log in
    urlPatterns tool = distinct (map pageUrl entries)
    /\ NoDup (urlPatterns tool)
    /\ (forall page, In page (urlPatterns tool) <->
                     exists entry, In entry entries /\ pageUrl entry = page)
    /\ hd_error (urlPatterns tool) = option_map pageUrl (hd_error entries)
    /\ urlPatterns tool <> [].
Proof.
  intros log tool Hin entries.
  rewrite groupActionsIntoTools_is_derive_tools in Hin. unfold derive_tools in Hin.
  apply in_map_iff in Hin. destruct Hin as (t & <- & Ht).
  subst entries. cbn [name derived_tool urlPatterns]. rewrite urls_are_distinct.
  split; [reflexivity|]. split; [apply NoDup_distinct|]. split; [|split].
  - intros page. rewrite In_distinct, in_map_iff.
    split; intros (e & H1 & H2); exists e; tauto.
  - destruct (group_of_tag t log Ht) as (first & others & ->). reflexivity.
  - destruct (group_of_tag t log Ht) as (first & others & ->). discriminate.
Qed.

(** The steps of a derived tool and its input schema fit together: a step
    names an input property only if it is a fill or a select, every name a
    step uses is listed as required and (the key [__proto__] apart) declared
    as a property, and every required name is used by a step. *)
Theorem tool_steps_use_declared_properties :
  forall (log : list ActionLogEntry) (tool : ToolFromActions),
    In tool (groupActionsIntoTools log) ->
    (forall step k,
        In step (steps tool) -> inputProperty step = Some k ->
        (s_action step = fill \/ s_action step = select)
        /\ In k (required (inputSchema tool))
        /\ (k <> "__proto__" -> Obj.has k (properties (inputSchema tool)) = true))
    /\ (forall k, In k (required (inputSchema tool)) ->
                  exists step, In step (steps tool) /\ inputProperty step = Some k)
    /\ (forall step, In step (steps tool) ->
                     staticValue step = None /\ delay step = None).
Proof.
  intros log tool Hin.
  rewrite groupActionsIntoTools_is_derive_tools in Hin. unfold derive_tools in Hin.
  apply in_map_iff in Hin. destruct Hin as (t & <- & Ht).
  cbn [derived_tool steps inputSchema required properties].
  set (entries := group t log). split; [|split].
  - intros step k Hstep Hk. apply in_map_iff in Hstep.
    destruct Hstep as (e & <- & He). apply filter_In in He. destruct He as [He Hs].
    cbn [step_of inputProperty s_action] in *.
    destruct (carries_value e) eqn:Ec; [|discriminate]. injection Hk as <-.
    assert (Hreq : In (property_name e) (map property_name (filter carries_value entries))).
    { apply in_map. apply filter_In. now split. }
    split; [|split; [exact Hreq|]].
    + unfold carries_value in Ec. apply andb_true_iff in Ec. destruct Ec as [Ec _].
      destruct (action e); simpl in Ec; try discriminate; [now left | now right].
    + intros Hp. apply derived_properties_cover; [exact Hp | now right].
  - intros k Hk. apply in_map_iff in Hk. destruct Hk as (e & <- & He).
    apply filter_In in He. destruct He as [He Hc].
    exists (step_of e). split.
    + apply in_map. apply filter_In. split; [exact He|].
      destruct (scaffolding e) eqn:Es; [|reflexivity].
      apply scaffolding_carries_nothing in Es. rewrite Es in Hc. discriminate.
    + cbn [step_of inputProperty]. now rewrite Hc.
  - intros step Hstep. apply in_map_iff in Hstep. destruct Hstep as (e & <- & _).
    now split.
Qed.

Lemma run_without_close (dir : string) (calls : list invocation) (d : Disk) :
  Forall (fun call => call <> Close) calls -> tools_json (run dir d calls) = tools_json d.
Proof.
  revert d. induction calls as [|call calls IH]; intros d H; [reflexivity|].
  inversion H as [|? ? Hcall Hcalls]; subst. unfold run. cbn [fold_left].
  fold (run dir (invoke dir d call) calls). rewrite IH by exact Hcalls.
  destruct call as [url options w|options w|w|]; cbn [invoke].
  - unfold sessionStart. destruct (sw_failure w); [reflexivity|].
    now destruct (sw_close_failure w).
  - unfold sessionStep, readSessionState.
    destruct (session_json d); [|reflexivity].
    destruct (connect_failure w); [reflexivity|].
    destruct (screenshot_failure w); [reflexivity|].
    destruct (action_log_json d); [|reflexivity].
    now destruct (close_failure w).
  - unfold sessionScreenshot, readSessionState.
    destruct (session_json d); [|reflexivity].
    now destruct (connect_failure w), (screenshot_failure w), (close_failure w).
  - contradiction.
Qed.

(** Closing a session writes [tools.json] - the tools derived from the
    action log - and touches nothing else: the session state and the log
    stay, so that closing again gives the same files.  Without a session
    state or a log it throws and writes nothing.  No other operation writes
    [tools.json]: a new start on the same directory leaves the tools of
    the session before in place. *)
Theorem sessionClose_writes_the_tools_and_nothing_else :
  forall (dir : string) (d : Disk),
    let closed := fst (sessionClose dir d) in
    session_json closed = session_json d
    /\ action_log_json closed = action_log_json d
    /\ (forall state log,
          session_json d = Some state -> action_log_json d = Some log ->
          sessionClose dir d
          = ({| session_json := Some state; action_log_json := Some log;
                tools_json := Some (groupActionsIntoTools log) |},
             Ok (path_join dir "tools.json", groupActionsIntoTools log)))
    /\ (session_json d = None ->
          sessionClose dir d
          = (d, Thrown ("No active session found in " ++ dir ++ ". Run " ++ q
                        ++ "session start" ++ q ++ " first.")))
    /\ (action_log_json d = None ->
          closed = d /\ exists message, snd (sessionClose dir d) = Thrown message)
    /\ fst (sessionClose dir closed) = closed
    /\ (forall calls,
          Forall (fun call => call <> Close) calls ->
          tools_json (run dir d calls) = tools_json d).
Proof.
  intros dir d closed. subst closed. unfold sessionClose, readSessionState.
  destruct (session_json d) as [state|] eqn:Es.
  - destruct (action_log_json d) as [log|] eqn:El.
    + cbn [fst snd session_json action_log_json tools_json].
      repeat split; try reflexivity; try discriminate.
      * intros state0 log0 H0 H1. now injection H0 as <-; injection H1 as <-.
      * intros calls. apply run_without_close.
    + cbn [fst snd]. rewrite Es, El.
      repeat split; try reflexivity; try discriminate.
      * eexists. reflexivity.
      * intros calls. apply run_without_close.
  - cbn [fst snd]. rewrite Es.
    repeat split; try reflexivity; try discriminate.
    + eexists. reflexivity.
    + intros calls. apply run_without_close.
Qed.

(** An action that fails does not make the step throw: the step answers
    with the screenshot and an entry that carries the failure's message and
    [success = false]; the entry is appended to the log under the next index,
    and the tools derived from the log are the same with and without it. *)
Theorem failed_action_is_logged_and_kept_out_of_tools :
  forall (dir : string) (options : SessionStepOptions) (w : StepWorld) (d : Disk)
         (state : SessionState) (log : list ActionLogEntry) (message : string),
    session_json d = Some state ->
    action_log_json d = Some log ->
    connect_failure w = None ->
    screenshot_failure w = None ->
    close_failure w = None ->
    executeAction (page_failure w) options = Some message ->
    exists entry,
      snd (sessionStep dir options w d)
      = Ok (path_join dir "screenshot-latest.png", entry)
      /\ success entry = false
      /\ error entry = Some message
      /\ stepIndex entry = stepCount state
      /\ action_log_json (fst (sessionStep dir options w d)) = Some (log ++ [entry])%list
      /\ groupActionsIntoTools (log ++ [entry])%list = groupActionsIntoTools log.
Proof.
  intros dir options w d state log message Es El Ec Eh Ecl Ea.
  unfold sessionStep, readSessionState. rewrite Es, Ec, Eh, El, Ecl, Ea.
  eexists. cbn [fst snd action_log_json].
  split; [reflexivity|]. repeat (split; [reflexivity|]).
  rewrite !groupActionsIntoTools_is_derive_tools. unfold derive_tools, tags.
  rewrite filter_app. cbn [filter]. unfold kept at 2. cbn [success].
  rewrite andb_false_r, app_nil_r. apply map_ext. intros t.
  rewrite group_snoc. unfold kept. cbn [success].
  now rewrite andb_false_r, app_nil_r.
Qed.

(** The tool of a recorded search, which opens on one page and goes on on
    another. *)
Lemma tool_url_patterns_witness :
  In PipelineSamples.searchTool (groupActionsIntoTools PipelineSamples.searchLog)
  /\ urlPatterns PipelineSamples.searchTool
     = distinct (map pageUrl (group "search" PipelineSamples.searchLog))
  /\ urlPatterns PipelineSamples.searchTool
     = [PipelineSamples.shopHome; PipelineSamples.shopSearch].
Proof.
  assert (H : In PipelineSamples.searchTool
                 (groupActionsIntoTools PipelineSamples.searchLog))
    by (left; reflexivity).
  split; [exact H|]. split; [|reflexivity].
  exact (proj1 (tool_url_patterns_are_the_pages_of_its_entries
                  PipelineSamples.searchLog PipelineSamples.searchTool H)).
Defined.

Lemma tool_steps_use_declared_properties_witness :
  In PipelineSamples.searchTool (groupActionsIntoTools PipelineSamples.searchLog)
  /\ forall k, In k (required (inputSchema PipelineSamples.searchTool)) ->
               exists step, In step (steps PipelineSamples.searchTool)
                            /\ inputProperty step = Some k.
Proof.
  assert (H : In PipelineSamples.searchTool
                 (groupActionsIntoTools PipelineSamples.searchLog))
    by (left; reflexivity).
  split; [exact H|].
  exact (proj1 (proj2 (tool_steps_use_declared_properties
                         PipelineSamples.searchLog PipelineSamples.searchTool H))).
Defined.

(** A click on an element that is not there, after a start and a fill. *)
Lemma failed_action_witness :
  executeAction (page_failure Samples.missingElementWorld) Samples.clickMissing
  = Some "Timeout 30000ms exceeded."
  /\ exists entry,
       snd (sessionStep "session" Samples.clickMissing Samples.missingElementWorld
                        PipelineSamples.afterFill)
       = Ok ("session/screenshot-latest.png", entry)
       /\ success entry = false
       /\ error entry = Some "Timeout 30000ms exceeded."
       /\ stepIndex entry = 1.
Proof.
  split; [reflexivity|].
  destruct (@failed_action_is_logged_and_kept_out_of_tools
              "session" Samples.clickMissing Samples.missingElementWorld
              PipelineSamples.afterFill _ _ "Timeout 30000ms exceeded."
              eq_refl eq_refl eq_refl eq_refl eq_refl eq_refl)
    as (entry & H1 & H2 & H3 & H4 & _).
  exists entry. repeat split; assumption.
Defined.

End RecorderFacts.

(** ** The manifest generator *)

Module GenerateManifestFacts.
Import Str Regex GenerateTools GenerateManifest GenerateManifestSpec Facts.

(** *** Reading and writing a record *)

Lemma get_has {V} (k : string) (o : Obj.t V) :
  Obj.has k o = match Obj.get k o with Some _ => true | None => false end.
Proof.
  induction o as [|[k0 v0] o IH]; [reflexivity|]. cbn [Obj.has Obj.get].
  destruct (String.eqb k k0); [reflexivity | exact IH].
Qed.

Lemma get_replace {V} (k k' : string) (v : V) (o : Obj.t V) :
  Obj.get k' (Obj.replace k v o)
  = if String.eqb k' k && Obj.has k o then Some v else Obj.get k' o.
Proof.
  induction o as [|[k0 v0] o IH]; cbn [Obj.replace Obj.get Obj.has].
  - now rewrite andb_false_r.
  - destruct (String.eqb k k0) eqn:E.
    + apply String.eqb_eq in E. subst k0. cbn [Obj.get orb].
      rewrite andb_true_r. now destruct (String.eqb k' k).
    + cbn [Obj.get orb]. rewrite IH.
      destruct (String.eqb k' k0) eqn:E'; [|reflexivity].
      apply String.eqb_eq in E'. subst k0.
      rewrite (String.eqb_sym k' k), E. reflexivity.
Qed.

Lemma get_insert_index {V} (i : N) (k k' : string) (v : V) (o : Obj.t V) :
  Obj.has k o = false ->
  Obj.get k' (Obj.insert_index i k v o) = if String.eqb k' k then Some v else Obj.get k' o.
Proof.
  induction o as [|[k0 v0] o IH]; intros H; cbn [Obj.insert_index Obj.get].
  - reflexivity.
  - cbn [Obj.has] in H. apply orb_false_iff in H. destruct H as [Hk Ho].
    destruct (Obj.array_index k0) as [j|]; [destruct (j <? i)%N|]; cbn [Obj.get];
      try reflexivity.
    rewrite IH by exact Ho.
    destruct (String.eqb k' k0) eqn:E; [|reflexivity].
    apply String.eqb_eq in E. subst k0. rewrite String.eqb_sym, Hk. reflexivity.
Qed.

Lemma get_app {V} (k : string) (o o' : Obj.t V) :
  Obj.get k (o ++ o')%list = match Obj.get k o with Some v => Some v | None => Obj.get k o' end.
Proof.
  induction o as [|[k0 v0] o IH]; [reflexivity|]. cbn [List.app Obj.get].
  destruct (String.eqb k k0); [reflexivity | exact IH].
Qed.

Lemma get_set {V} (k k' : string) (v : V) (o : Obj.t V) :
  k <> "__proto__" ->
  Obj.get k' (Obj.set k v o) = if String.eqb k' k then Some v else Obj.get k' o.
Proof.
  intros Hk. unfold Obj.set. apply String.eqb_neq in Hk. rewrite Hk.
  destruct (Obj.has k o) eqn:E.
  - rewrite get_replace, E, andb_true_r. reflexivity.
  - destruct (Obj.array_index k).
    + now apply get_insert_index.
    + rewrite get_app. cbn [Obj.get].
      destruct (String.eqb k' k) eqn:E'.
      * apply String.eqb_eq in E'. subst k'. rewrite get_has in E.
        now destruct (Obj.get k o).
      * now destruct (Obj.get k' o).
Qed.

Lemma paths_replace (k : string) (old : list string) (x : string)
      (o : Obj.t (list string)) :
  Obj.get k o = Some old ->
  Permutation (flat_map snd (Obj.replace k (old ++ [x])%list o))
              (flat_map snd o ++ [x])%list.
Proof.
  induction o as [|[k0 v0] o IH]; intros H; [discriminate|].
  cbn [Obj.get] in H. cbn [Obj.replace].
  destruct (String.eqb k k0).
  - injection H as <-. cbn [flat_map snd]. rewrite <- !app_assoc.
    apply Permutation_app_head. apply Permutation_app_comm.
  - cbn [flat_map snd]. rewrite <- app_assoc. apply Permutation_app_head. now apply IH.
Qed.

Lemma paths_insert_index (i : N) (k : string) (o : Obj.t (list string)) :
  flat_map snd (Obj.insert_index i k [] o) = flat_map snd o.
Proof.
  induction o as [|[k0 v0] o IH]; [reflexivity|]. cbn [Obj.insert_index].
  destruct (Obj.array_index k0) as [j|]; [destruct (j <? i)%N|]; cbn [flat_map snd];
    try reflexivity.
  now rewrite IH.
Qed.

Lemma paths_set (k : string) (o : Obj.t (list string)) :
  Obj.has k o = false -> flat_map snd (Obj.set k [] o) = flat_map snd o.
Proof.
  intros H. unfold Obj.set. destruct (String.eqb k "__proto__"); [reflexivity|].
  rewrite H. destruct (Obj.array_index k).
  - apply paths_insert_index.
  - rewrite flat_map_app. simpl. now rewrite app_nil_r.
Qed.

(** *** The loop *)

Lemma filed_under_snoc (options : ManifestOptions) (pattern : string)
      (done : list ToolProposal) (proposal : ToolProposal) :
  filed_under options pattern (done ++ [proposal])%list
  = (filed_under options pattern done
     ++ if String.eqb (pattern_of options proposal) pattern then [proposal] else [])%list.
Proof. unfold filed_under. now rewrite filter_app. Qed.

Lemma step_builds (options : ManifestOptions) (done : list ToolProposal)
      (st : manifest_state) (proposal : ToolProposal) :
  built options done st ->
  forallb (fun p => negb (shadowed options p)) done = true ->
  (shadowed options proposal = true ->
     manifest_step (orElse (o_defaultPattern options) "<all_urls>") st proposal = None)
  /\ (shadowed options proposal = false ->
        exists st',
          manifest_step (orElse (o_defaultPattern options) "<all_urls>") st proposal
          = Some st'
          /\ built options (done ++ [proposal])%list st').
Proof.
  destruct st as [patterns names]. intros (Hnames & Hperm & Hget) Hdone.
  cbn [fst snd] in *. unfold manifest_step.
  fold (pattern_of options proposal). fold (tool_path proposal).
  set (pattern := pattern_of options proposal).
  fold (shadowed options proposal).
  split.
  - intros Hs. rewrite Hget.
    assert (E : filed_under options pattern done = []).
    { apply SessionFacts.filter_none. intros p Hp.
      apply String.eqb_neq. intros Hpat.
      rewrite forallb_forall in Hdone. specialize (Hdone p Hp).
      unfold shadowed in Hdone, Hs. fold pattern in Hs. rewrite Hpat, Hs in Hdone.
      discriminate. }
    rewrite E. unfold shadowed in Hs. fold pattern in Hs. now rewrite Hs.
  - intros Hs. unfold shadowed in Hs. fold pattern in Hs.
    assert (Hproto : pattern <> "__proto__").
    { intros E. rewrite E in Hs. discriminate. }
    pose proof (Hget pattern) as Hp.
    destruct (filed_under options pattern done) as [|p0 filed] eqn:Ef.
    + rewrite Hp, Hs. eexists. split; [reflexivity|].
      assert (Hhas : Obj.has pattern patterns = false) by (rewrite get_has; now rewrite Hp).
      split; [|split]; cbn [fst snd].
      * rewrite Hnames, map_app. reflexivity.
      * rewrite map_app. cbn [map].
        etransitivity; [apply (@paths_replace pattern [] (tool_path proposal))|].
        -- rewrite get_set by exact Hproto. now rewrite String.eqb_refl.
        -- rewrite paths_set by exact Hhas. now apply Permutation_app_tail.
      * intros k. rewrite get_replace, get_set by exact Hproto.
        rewrite SessionFacts.has_set_new by exact Hproto. rewrite andb_true_r.
        rewrite filed_under_snoc. fold pattern. rewrite (String.eqb_sym pattern k).
        destruct (String.eqb k pattern) eqn:E.
        -- apply String.eqb_eq in E. subst k. rewrite Ef. reflexivity.
        -- rewrite app_nil_r. apply Hget.
    + rewrite Hp. eexists. split; [reflexivity|].
      assert (Hhas : Obj.has pattern patterns = true) by (rewrite get_has; now rewrite Hp).
      split; [|split]; cbn [fst snd].
      * rewrite Hnames, map_app. reflexivity.
      * rewrite map_app. cbn [map].
        etransitivity; [apply paths_replace; exact Hp|].
        now apply Permutation_app_tail.
      * intros k. rewrite get_replace, Hhas, andb_true_r.
        rewrite filed_under_snoc. fold pattern. rewrite (String.eqb_sym pattern k).
        destruct (String.eqb k pattern) eqn:E.
        -- apply String.eqb_eq in E. subst k. rewrite Ef. cbn [List.app map].
           now rewrite map_app.
        -- rewrite app_nil_r. apply Hget.
Qed.

Lemma loop_builds (options : ManifestOptions) (rest done : list ToolProposal)
      (st : manifest_state) :
  built options done st ->
  forallb (fun p => negb (shadowed options p)) done = true ->
  (existsb (shadowed options) rest = true ->
     manifest_loop (orElse (o_defaultPattern options) "<all_urls>") rest st = None)
  /\ (existsb (shadowed options) rest = false ->
        exists st',
          manifest_loop (orElse (o_defaultPattern options) "<all_urls>") rest st = Some st'
          /\ built options (done ++ rest)%list st').
Proof.
  revert done st. induction rest as [|proposal rest IH]; intros done st Hb Hdone.
  - split; [discriminate|]. intros _. exists st. rewrite app_nil_r. now split.
  - cbn [existsb manifest_loop].
    destruct (step_builds proposal Hb Hdone) as [Hbad Hgood].
    destruct (shadowed options proposal) eqn:Es.
    + split; [|discriminate]. intros _. now rewrite Hbad.
    + destruct (Hgood eq_refl) as (st1 & E1 & Hb1). rewrite E1. cbn [orb].
      assert (Hdone1 : forallb (fun p => negb (shadowed options p)) (done ++ [proposal])%list
                       = true).
      { rewrite forallb_app, Hdone. cbn [forallb]. now rewrite Es. }
      destruct (IH (done ++ [proposal])%list st1 Hb1 Hdone1) as [H1 H2].
      rewrite <- app_assoc in H2. exact (conj H1 H2).
Qed.

(** *** The manifest *)

(** The manifest lists the tool names in the order of the proposals and
    files each tool's path under its proposal's URL pattern, or under the
    default pattern when the proposal has none: the paths of a pattern are
    those of its proposals, in order, and a pattern without proposals has
    no entry.  A proposal whose pattern is the name of a member that every
    object inherits - [constructor], [toString], [__proto__] and the like -
    makes the generation throw. *)
Theorem generateToolManifest_files_each_tool_under_its_pattern :
  forall (proposals : list ToolProposal) (options : ManifestOptions),
    (existsb (shadowed options) proposals = true ->
       generateToolManifest proposals options = None)
    /\ (existsb (shadowed options) proposals = false ->
          exists manifest,
            generateToolManifest proposals options = Some manifest
            /\ toolNames manifest = map name proposals
            /\ (forall pattern,
                  Obj.get pattern (patterns manifest)
                  = match filed_under options pattern proposals with
                    | [] => None
                    | filed => Some (map tool_path filed)
                    end)
            /\ extensionName manifest
               = orElse (o_extensionName options) "webmcp-extend-tools"
            /\ version manifest = orElse (o_version options) "0.1.0").
Proof.
  intros proposals options.
  assert (Hstart : built options [] ([], [])).
  { split; [reflexivity|]. split; [constructor | reflexivity]. }
  destruct (loop_builds proposals Hstart eq_refl) as [Hbad Hgood].
  unfold generateToolManifest. split.
  - intros H. now rewrite (Hbad H).
  - intros H. destruct (Hgood H) as ([pats names] & E & Hn & _ & Hg).
    rewrite E. eexists. split; [reflexivity|]. cbn [fst snd] in *.
    cbn [toolNames patterns extensionName version]. now repeat split.
Qed.

(** A manifest that is generated names exactly the files that
    [generateToolFiles] writes for the same proposals: every file path is
    listed once for each proposal of that name, under that proposal's
    pattern, and nothing else is listed. *)
Theorem manifest_lists_the_generated_files :
  forall (proposals : list ToolProposal) (options : ManifestOptions)
         (manifest : ToolManifest),
    generateToolManifest proposals options = Some manifest ->
    Permutation (flat_map snd (patterns manifest)) (map path (generateToolFiles proposals))
    /\ List.length (toolNames manifest) = List.length (generateToolFiles proposals)
    /\ (forall proposal,
          In proposal proposals ->
          exists paths,
            Obj.get (pattern_of options proposal) (patterns manifest) = Some paths
            /\ In ("tools/" ++ name proposal ++ ".ts") paths).
Proof.
  intros proposals options manifest H.
  assert (Hstart : built options [] ([], [])).
  { split; [reflexivity|]. split; [constructor | reflexivity]. }
  destruct (loop_builds proposals Hstart eq_refl) as [Hbad Hgood].
  unfold generateToolManifest in H.
  destruct (existsb (shadowed options) proposals) eqn:Es.
  - rewrite (Hbad eq_refl) in H. discriminate.
  - destruct (Hgood eq_refl) as ([pats names] & E & Hn & Hp & Hg).
    rewrite E in H. injection H as <-. cbn [fst snd List.app] in *.
    cbn [toolNames patterns].
    assert (Hpaths : map path (generateToolFiles proposals) = map tool_path proposals).
    { unfold generateToolFiles. rewrite map_map. reflexivity. }
    split; [now rewrite Hpaths|]. split.
    + unfold generateToolFiles. now rewrite Hn, !length_map.
    + intros proposal Hin. rewrite Hg.
      assert (Hf : In proposal (filed_under options (pattern_of options proposal) proposals)).
      { apply filter_In. split; [exact Hin | apply String.eqb_refl]. }
      destruct (filed_under options (pattern_of options proposal) proposals)
        as [|p0 filed]; [destruct Hf|].
      eexists. split; [reflexivity|].
      change ("tools/" ++ name proposal ++ ".ts") with (tool_path proposal).
      now apply in_map.
Qed.

(** The manifest of two proposals of the generator tests. *)
Lemma manifest_lists_the_generated_files_witness :
  generateToolManifest [PipelineSamples.getMenu; PipelineSamples.addToCart]
                       PipelineSamples.pizzaOptions
  = Some PipelineSamples.pizzaManifest
  /\ Permutation
       (flat_map snd (patterns PipelineSamples.pizzaManifest))
       (map path (generateToolFiles [PipelineSamples.getMenu; PipelineSamples.addToCart])).
Proof.
  split; [reflexivity|].
  exact (proj1 (manifest_lists_the_generated_files
                  [PipelineSamples.getMenu; PipelineSamples.addToCart]
                  PipelineSamples.pizzaOptions eq_refl)).
Defined.

(** *** Match patterns *)

Lemma contains_unfold (p s : string) :
  contains p s = starts_with p s
                 || match s with EmptyString => false | String _ s' => contains p s' end.
Proof. destruct s; reflexivity. Qed.

Lemma contains_middle (a p b : string) : contains p (a ++ p ++ b) = true.
Proof.
  induction a as [|c a IH].
  - cbn [append]. rewrite contains_unfold, starts_with_app. reflexivity.
  - cbn [append]. rewrite contains_unfold, IH. apply orb_true_r.
Qed.

Lemma or_else_some {A} (x y : option A) (r : A) :
  or_else x y = Some r -> x = Some r \/ y = Some r.
Proof. destruct x; simpl; intros H; [now left | now right]. Qed.

(** A literal, compared with regard to case, matches itself only. *)
Lemma m_lit (R : Type) (t : string) :
  forall prev s caps (k : cont R) res,
    m false (lit t) prev s caps k = Some res ->
    exists s' prev', s = (t ++ s')%string /\ k prev' s' caps = Some res.
Proof.
  induction t as [|c t IH]; intros prev s caps k res H.
  - exists s, prev. now split.
  - assert (Hone : forall k' : cont R,
               m false (RSet (CChar c)) prev s caps k' = Some res ->
               exists s1, s = String c s1 /\ k' (Some c) s1 caps = Some res).
    { intros k' H'. cbn [m] in H'. destruct s as [|c' s1]; [discriminate|].
      cbn [class_matches canon] in H'.
      destruct (Ascii.eqb c c') eqn:E; [|discriminate].
      apply Ascii.eqb_eq in E. subst c'. now exists s1. }
    destruct t as [|c2 t].
    + cbn [lit] in H. destruct (Hone k H) as (s1 & -> & Hk).
      now exists s1, (Some c).
    + change (lit (String c (String c2 t)))
        with (RSeq (RSet (CChar c)) (lit (String c2 t))) in H.
      change (m false (RSeq (RSet (CChar c)) (lit (String c2 t))) prev s caps k)
        with (m false (RSet (CChar c)) prev s caps
                (fun p1 s1 c1 => m false (lit (String c2 t)) p1 s1 c1 k)) in H.
      destruct (Hone _ H) as (s1 & -> & Hk).
      destruct (IH _ _ _ _ _ Hk) as (s' & prev' & -> & Hk').
      now exists s', prev'.
Qed.

(** Where the scheme pattern matches, the text holds a scheme separator. *)
Lemma scheme_match_has_separator (prev : option ascii) (s : string)
      (r : string * captures * string) :
  match_here false scheme_pattern prev s = Some r -> contains "://" s = true.
Proof.
  unfold match_here, scheme_pattern. cbn [seq].
  set (k0 := fun (_ : option ascii) (s1 : string) (c1 : captures) =>
               Some (take (String.length s - String.length s1) s, c1, s1)).
  intros H.
  change (m false (RSeq RStart ?rest) prev s [] k0)
    with (match prev with
          | None => m false rest prev s [] k0
          | Some _ => None
          end) in H.
  destruct prev as [a|]; [discriminate|].
  set (k1 := fun (p1 : option ascii) (s1 : string) (c1 : captures) =>
               m false (lit "://") p1 s1
                 ((1, take (String.length s - String.length s1) s) :: c1) k0).
  change (or_else
            (m false (lit "http") None s []
               (fun p1 s1 c1 =>
                  or_else (m false (lit "s") p1 s1 c1 k1) (k1 p1 s1 c1)))
            (m false (lit "*") None s [] k1) = Some r) in H.
  apply or_else_some in H. destruct H as [H|H].
  - apply m_lit in H. destruct H as (s1 & p1 & -> & H).
    apply or_else_some in H. destruct H as [H|H].
    + apply m_lit in H. destruct H as (s2 & p2 & -> & H).
      unfold k1 in H. apply m_lit in H. destruct H as (s3 & p3 & -> & _).
      apply (contains_middle "https" "://" s3).
    + unfold k1 in H. apply m_lit in H. destruct H as (s3 & p3 & -> & _).
      apply (contains_middle "http" "://" s3).
  - apply m_lit in H. destruct H as (s1 & p1 & -> & H).
    unfold k1 in H. apply m_lit in H. destruct H as (s3 & p3 & -> & _).
    apply (contains_middle "*" "://" s3).
Qed.

Lemma search_scheme_has_separator (idx : nat) (prev : option ascii) (s : string)
      (mt : match_result) :
  search false scheme_pattern idx prev s = Some mt -> contains "://" s = true.
Proof.
  revert idx prev. induction s as [|a s IH]; intros idx prev H; cbn [search] in H.
  - destruct (match_here false scheme_pattern prev "") as [r|] eqn:E; [|discriminate].
    now apply scheme_match_has_separator in E.
  - destruct (match_here false scheme_pattern prev (String a s)) as [r|] eqn:E.
    + now apply scheme_match_has_separator in E.
    + rewrite contains_unfold, (IH _ _ H). apply orb_true_r.
Qed.

(** A pattern is wrapped as [*://pattern/*] exactly when it holds no scheme
    separator and is not [<all_urls>]; every other pattern comes back as it
    is, whatever its scheme.  So the result always holds a scheme separator
    or is [<all_urls>], and converting twice is converting once. *)
Theorem toMatchPattern_wraps_bare_patterns_only :
  forall urlPattern : string,
    toMatchPattern urlPattern
    = (if contains "://" urlPattern || String.eqb urlPattern "<all_urls>"
       then urlPattern
       else "*://" ++ urlPattern ++ "/*")
    /\ toMatchPattern (toMatchPattern urlPattern) = toMatchPattern urlPattern
    /\ (toMatchPattern urlPattern = "<all_urls>"
        \/ contains "://" (toMatchPattern urlPattern) = true).
Proof.
  assert (Hshape : forall p,
             toMatchPattern p
             = if contains "://" p || String.eqb p "<all_urls>" then p
               else "*://" ++ p ++ "/*").
  { intros p. unfold toMatchPattern, test.
    destruct (exec false scheme_pattern p) as [mt|] eqn:E.
    - unfold exec in E. apply search_scheme_has_separator in E. now rewrite E.
    - destruct (String.eqb p "<all_urls>"); [now rewrite orb_true_r|].
      rewrite orb_false_r. now destruct (contains "://" p). }
  intros urlPattern. split; [apply Hshape|].
  assert (Hwrapped : contains "://" ("*://" ++ urlPattern ++ "/*") = true)
    by apply (contains_middle "*" "://" (urlPattern ++ "/*")).
  split.
  - rewrite (Hshape urlPattern).
    destruct (contains "://" urlPattern || String.eqb urlPattern "<all_urls>") eqn:E.
    + now rewrite Hshape, E.
    + now rewrite Hshape, Hwrapped.
  - rewrite (Hshape urlPattern).
    destruct (contains "://" urlPattern) eqn:Ec; cbn [orb]; [now right|].
    destruct (String.eqb urlPattern "<all_urls>") eqn:Ea.
    + left. now apply String.eqb_eq.
    + right. exact Hwrapped.
Qed.

End GenerateManifestFacts.

(** ** Records in enumeration order *)

Module ObjFacts.
Import Str.

Local Open Scope N_scope.

(** *** Array indices are canonical numerals *)

Lemma digits_value_acc (s : string) (acc : N) :
  Obj.digits_value s acc = acc * 10 ^ N.of_nat (String.length s) + Obj.digits_value s 0.
Proof.
  revert acc. induction s as [|c s IH]; intros acc; cbn [Obj.digits_value String.length].
  - simpl. lia.
  - rewrite IH, (IH (0 * 10 + _)). rewrite Nat2N.inj_succ, N.pow_succ_r'. lia.
Qed.

Lemma digit_bound (c : ascii) : is_digit c = true -> N.of_nat (code c - 48) < 10.
Proof.
  unfold is_digit, between. intros H. apply andb_true_iff in H. destruct H as [H1 H2].
  apply Nat.leb_le in H1, H2. lia.
Qed.

Lemma digits_value_bound (s : string) :
  Obj.all_digits s = true -> Obj.digits_value s 0 < 10 ^ N.of_nat (String.length s).
Proof.
  induction s as [|c s IH]; intros H; cbn [Obj.digits_value String.length].
  - simpl. lia.
  - cbn [Obj.all_digits] in H. apply andb_true_iff in H. destruct H as [Hc Hs].
    rewrite digits_value_acc, Nat2N.inj_succ, N.pow_succ_r'.
    specialize (IH Hs). pose proof (@digit_bound c Hc). nia.
Qed.

Lemma digit_char (c c' : ascii) :
  is_digit c = true -> is_digit c' = true ->
  N.of_nat (code c - 48) = N.of_nat (code c' - 48) -> c = c'.
Proof.
  unfold is_digit, between. intros H H' E.
  apply andb_true_iff in H, H'. destruct H as [H1 H2], H' as [H1' H2'].
  apply Nat.leb_le in H1, H2, H1', H2'.
  assert (Hc : code c = code c') by lia.
  unfold code in Hc. rewrite <- (ascii_nat_embedding c), <- (ascii_nat_embedding c').
  now rewrite Hc.
Qed.

Lemma digits_value_inj (s s' : string) :
  Obj.all_digits s = true -> Obj.all_digits s' = true ->
  String.length s = String.length s' ->
  Obj.digits_value s 0 = Obj.digits_value s' 0 -> s = s'.
Proof.
  revert s'. induction s as [|c s IH]; intros [|c' s'] H H' Hl E; try discriminate.
  - reflexivity.
  - cbn [Obj.all_digits] in H, H'. apply andb_true_iff in H, H'.
    destruct H as [Hc Hs], H' as [Hc' Hs'].
    cbn [String.length] in Hl. injection Hl as Hl.
    cbn [Obj.digits_value] in E.
    rewrite (digits_value_acc s), (digits_value_acc s'), <- Hl in E.
    pose proof (@digits_value_bound s Hs) as Hb.
    pose proof (@digits_value_bound s' Hs') as Hb'. rewrite <- Hl in Hb'.
    set (p := 10 ^ N.of_nat (String.length s)) in *.
    assert (Hd : N.of_nat (code c - 48) = N.of_nat (code c' - 48)) by nia.
    assert (Hv : Obj.digits_value s 0 = Obj.digits_value s' 0) by nia.
    f_equal; [now apply digit_char | now apply IH].
Qed.

(** A numeral without a leading zero is at least the power of ten of its
    length. *)
Lemma digits_value_lower (c : ascii) (s : string) :
  is_digit c = true -> (code c =? 48)%nat = false ->
  10 ^ N.of_nat (String.length s) <= Obj.digits_value (String c s) 0.
Proof.
  intros Hc Hz. cbn [Obj.digits_value]. rewrite digits_value_acc.
  unfold is_digit, between in Hc. apply andb_true_iff in Hc. destruct Hc as [H1 H2].
  apply Nat.leb_le in H1, H2. apply Nat.eqb_neq in Hz.
  assert (1 <= 0 * 10 + N.of_nat (code c - 48)) by lia.
  nia.
Qed.

(** What makes a key an array index. *)
Lemma array_index_numeral (k : string) (v : N) :
  Obj.array_index k = Some v ->
  Obj.all_digits k = true
  /\ v = Obj.digits_value k 0
  /\ match k with
     | EmptyString => False
     | String c rest => (code c =? 48)%nat = true -> rest = EmptyString
     end.
Proof.
  unfold Obj.array_index. destruct k as [|c rest]; [discriminate|].
  destruct (Obj.all_digits (String c rest)) eqn:Ed; [|discriminate].
  destruct (code c =? 48)%nat eqn:Ez; cbn [andb negb].
  - destruct rest as [|c2 rest]; [|discriminate]. cbn [nonempty negb andb].
    destruct (String.length (String c "") <=? 10)%nat; [|discriminate].
    destruct (Obj.digits_value (String c "") 0 <? 4294967295); [|discriminate].
    intros H. injection H as <-. now repeat split.
  - destruct (String.length (String c rest) <=? 10)%nat; [|discriminate].
    destruct (Obj.digits_value (String c rest) 0 <? 4294967295); [|discriminate].
    intros H. injection H as <-. repeat split. discriminate.
Qed.

Lemma pow10_mono (a b : nat) : (a <= b)%nat -> 10 ^ N.of_nat a <= 10 ^ N.of_nat b.
Proof. intros H. apply N.pow_le_mono_r; lia. Qed.

Lemma numeral_length (k k' : string) (v : N) :
  Obj.array_index k = Some v -> Obj.array_index k' = Some v ->
  (String.length k <= String.length k')%nat.
Proof.
  intros H H'. apply array_index_numeral in H, H'.
  destruct H as (Hd & Hv & Hz), H' as (Hd' & Hv' & Hz').
  destruct (Nat.le_gt_cases (String.length k) (String.length k')) as [Hle|Hgt];
    [exact Hle|exfalso].
  (* the longer numeral, [k], has two digits at least and so no leading zero *)
  destruct k as [|c rest]; [destruct Hz|].
  cbn [String.length] in Hgt.
  assert (Hc : is_digit c = true).
  { cbn [Obj.all_digits] in Hd. now apply andb_true_iff in Hd. }
  destruct (code c =? 48)%nat eqn:Ez.
  - rewrite (Hz eq_refl) in Hgt. simpl in Hgt.
    destruct k' as [|c' rest']; [destruct Hz' | simpl in Hgt; lia].
  - pose proof (@digits_value_lower c rest Hc Ez) as Hlow.
    pose proof (@digits_value_bound k' Hd') as Hup.
    assert (Hp : 10 ^ N.of_nat (String.length k') <= 10 ^ N.of_nat (String.length rest))
      by (apply pow10_mono; lia).
    lia.
Qed.

(** Two keys that are the same array index are the same key. *)
Lemma array_index_inj (k k' : string) (v : N) :
  Obj.array_index k = Some v -> Obj.array_index k' = Some v -> k = k'.
Proof.
  intros H H'.
  pose proof (@numeral_length k k' v H H') as L1.
  pose proof (@numeral_length k' k v H' H) as L2.
  apply array_index_numeral in H, H'.
  destruct H as (Hd & Hv & _), H' as (Hd' & Hv' & _).
  apply digits_value_inj; [assumption | assumption | lia | congruence].
Qed.

(** *** Assignments keep the enumeration order *)

Import ObjOrder.
Local Close Scope N_scope.

Lemma keys_replace {V} (k : string) (v : V) (o : Obj.t V) :
  Obj.keys (Obj.replace k v o) = Obj.keys o.
Proof.
  unfold Obj.keys. induction o as [|[k0 v0] o IH]; [reflexivity|]. cbn [Obj.replace].
  destruct (String.eqb k k0); cbn [map fst]; [reflexivity | now rewrite IH].
Qed.

Lemma has_keys {V} (k : string) (o : Obj.t V) : Obj.has k o = string_in k (Obj.keys o).
Proof.
  unfold Obj.keys. induction o as [|[k0 v0] o IH]; [reflexivity|].
  cbn [Obj.has map fst string_in existsb]. now rewrite IH.
Qed.

Lemma in_order_snoc (least : N) (keys : list string) (k : string) :
  Obj.array_index k = None -> in_order least keys -> in_order least (keys ++ [k])%list.
Proof.
  intros Hk. revert least. induction keys as [|k0 keys IH]; intros least H.
  - cbn [List.app in_order]. rewrite Hk. constructor.
  - cbn [List.app in_order] in *. destruct (Obj.array_index k0).
    + destruct H as [H1 H2]. split; [exact H1 | now apply IH].
    + apply Forall_app. split; [exact H | now constructor].
Qed.

Lemma keys_insert_index {V} (i : N) (k : string) (v : V) (o : Obj.t V) (x : string) :
  In x (Obj.keys (Obj.insert_index i k v o)) <-> x = k \/ In x (Obj.keys o).
Proof.
  unfold Obj.keys. induction o as [|[k0 v0] o IH]; cbn [Obj.insert_index map fst].
  - simpl. intuition.
  - destruct (Obj.array_index k0) as [j|]; [destruct (j <? i)%N|]; cbn [map fst In];
      intuition.
Qed.

Lemma NoDup_insert_index {V} (i : N) (k : string) (v : V) (o : Obj.t V) :
  ~ In k (Obj.keys o) -> NoDup (Obj.keys o) -> NoDup (Obj.keys (Obj.insert_index i k v o)).
Proof.
  induction o as [|[k0 v0] o IH]; intros Hn Hnd; cbn [Obj.insert_index].
  - constructor; [intros [] | constructor].
  - assert (Hcons : NoDup (Obj.keys ((k, v) :: (k0, v0) :: o)))
      by (constructor; assumption).
    destruct (Obj.array_index k0) as [j|]; [destruct (j <? i)%N|]; try exact Hcons.
    unfold Obj.keys in *. cbn [map fst] in *. inversion Hnd as [|? ? H0 Hnd']; subst.
    constructor.
    + intros Hin. apply (keys_insert_index i k v o k0) in Hin.
      destruct Hin as [->|Hin]; [apply Hn; now left | contradiction].
    + apply IH; [|exact Hnd']. intros Hin. apply Hn. now right.
Qed.

Lemma in_order_insert_index {V} (i : N) (k : string) (v : V) (o : Obj.t V) (least : N) :
  Obj.array_index k = Some i ->
  ~ In k (Obj.keys o) ->
  (least <= i)%N ->
  in_order least (Obj.keys o) ->
  in_order least (Obj.keys (Obj.insert_index i k v o)).
Proof.
  intros Hk. revert least. unfold Obj.keys.
  induction o as [|[k0 v0] o IH]; intros least Hn Hl H; cbn [Obj.insert_index map fst].
  - cbn [in_order]. rewrite Hk. now split.
  - cbn [map fst in_order] in H.
    destruct (Obj.array_index k0) as [j|] eqn:E0.
    + destruct H as [H1 H2]. destruct (j <? i)%N eqn:Ej.
      * apply N.ltb_lt in Ej. cbn [map fst in_order]. rewrite E0. split; [exact H1|].
        apply IH; [|lia | exact H2]. intros Hin. apply Hn. now right.
      * apply N.ltb_ge in Ej.
        assert (Hne : j <> i).
        { intros ->. apply Hn. left. cbn [fst]. now apply (array_index_inj k0 k E0 Hk). }
        cbn [map fst in_order]. rewrite Hk, E0. split; [exact Hl|].
        split; [lia | exact H2].
    + cbn [map fst in_order]. rewrite Hk, E0. split; [exact Hl | exact H].
Qed.

(** A record built by assignments is well formed. *)
Lemma set_well_formed {V} (k : string) (v : V) (o : Obj.t V) :
  well_formed o -> well_formed (Obj.set k v o).
Proof.
  intros [Hnd Ho]. unfold Obj.set.
  destruct (String.eqb k "__proto__"); [now split|].
  destruct (Obj.has k o) eqn:Eh.
  - unfold well_formed. now rewrite keys_replace.
  - assert (Hn : ~ In k (Obj.keys o)).
    { rewrite has_keys in Eh. now apply Facts.string_in_false. }
    destruct (Obj.array_index k) as [i|] eqn:Ek.
    + split; [now apply NoDup_insert_index|].
      apply in_order_insert_index; try assumption. lia.
    + unfold well_formed, Obj.keys in *. rewrite map_app. cbn [map fst]. split.
      * apply NoDup_app; [exact Hnd | constructor; [intros [] | constructor] |].
        intros x Hx [<-|[]]. contradiction.
      * now apply in_order_snoc.
Qed.

(** *** Rebuilding a well-formed record entry by entry gives it back *)

Lemma in_order_before (least : N) (done rest : list string) (k : string) (i : N) :
  in_order least (done ++ k :: rest)%list ->
  Obj.array_index k = Some i ->
  (least <= i)%N
  /\ Forall (fun k' => exists j, Obj.array_index k' = Some j /\ (j < i)%N) done.
Proof.
  intros H Hk. revert least H. induction done as [|k0 done IH]; intros least H.
  - cbn [List.app in_order] in H. rewrite Hk in H. split; [tauto | constructor].
  - cbn [List.app in_order] in H. destruct (Obj.array_index k0) as [j|] eqn:E0.
    + destruct H as [H1 H2]. destruct (IH _ H2) as [H3 H4]. split; [lia|].
      constructor; [|exact H4]. exists j. split; [exact E0 | lia].
    + rewrite Forall_forall in H. rewrite (H k) in Hk; [discriminate|].
      apply in_or_app. right. now left.
Qed.

Lemma insert_index_at_end {V} (i : N) (k : string) (v : V) (o : Obj.t V) :
  Forall (fun k' => exists j, Obj.array_index k' = Some j /\ (j < i)%N) (Obj.keys o) ->
  Obj.insert_index i k v o = (o ++ [(k, v)])%list.
Proof.
  unfold Obj.keys. induction o as [|[k0 v0] o IH]; intros H; [reflexivity|].
  cbn [map fst] in H. inversion H as [|? ? (j & Ej & Hj) H']; subst.
  cbn [Obj.insert_index List.app]. rewrite Ej.
  apply N.ltb_lt in Hj. rewrite Hj. now rewrite IH.
Qed.

Lemma rebuild (V : Type) (todo done : Obj.t V) :
  NoDup (Obj.keys (done ++ todo)%list) ->
  in_order 0 (Obj.keys (done ++ todo)%list) ->
  fold_left (fun o entry => Convert.define (fst entry) (snd entry) o) todo done
  = (done ++ todo)%list.
Proof.
  revert done. induction todo as [|[k v] todo IH]; intros done Hnd Ho.
  - cbn [fold_left]. now rewrite app_nil_r.
  - cbn [fold_left fst snd].
    assert (Hdef : Convert.define k v done = (done ++ [(k, v)])%list).
    { unfold Convert.define, Obj.keys in *. rewrite map_app in Hnd, Ho. cbn [map fst] in *.
      assert (Hn : ~ In k (map fst done)).
      { apply NoDup_remove_2 in Hnd. intros Hin. apply Hnd. apply in_or_app. now left. }
      assert (Eh : Obj.has k done = false).
      { rewrite has_keys. now apply Facts.string_in_false. }
      rewrite Eh. destruct (Obj.array_index k) as [i|] eqn:Ek; [|reflexivity].
      apply insert_index_at_end.
      exact (proj2 (in_order_before 0 (map fst done) (map fst todo) k Ho Ek)). }
    rewrite Hdef. rewrite IH; rewrite <- app_assoc; [reflexivity | exact Hnd | exact Ho].
Qed.

Lemma fromEntries_well_formed (V W : Type) (f : V -> W) (o : Obj.t V) :
  well_formed o ->
  Convert.fromEntries (map (fun entry : string * V => (fst entry, f (snd entry))) o)
  = map (fun entry : string * V => (fst entry, f (snd entry))) o.
Proof.
  intros [Hnd Ho]. unfold Convert.fromEntries.
  assert (Hk : Obj.keys (map (fun entry : string * V => (fst entry, f (snd entry))) o)
               = Obj.keys o).
  { unfold Obj.keys. rewrite map_map. reflexivity. }
  apply rebuild; cbn [List.app]; rewrite Hk; assumption.
Qed.

End ObjFacts.

(** ** From a recorded session to an extension *)

Module ConvertFacts.
Import Str Facts.

Lemma scaffolding_gives_no_step (entry : Session.ActionLogEntry) :
  SessionSpec.scaffolding entry = true -> SessionTools.dom_step_of entry = [].
Proof.
  unfold SessionSpec.scaffolding, SessionTools.dom_step_of.
  now destruct (Session.action entry).
Qed.

Lemma flat_map_kept {A B} (f : A -> list B) (keep : A -> bool) (l : list A) :
  (forall x, keep x = false -> f x = []) ->
  flat_map f (filter keep l) = flat_map f l.
Proof.
  intros H. induction l as [|x l IH]; [reflexivity|]. cbn [filter flat_map].
  destruct (keep x) eqn:E; cbn [flat_map]; rewrite IH; [reflexivity|].
  now rewrite (H x E).
Qed.

(** The steps of a derived tool inhabit the declared step type, and the
    converter turns them into the steps of the entries. *)
Lemma declared_steps (entries : list Session.ActionLogEntry) :
  Forall (fun entry => SessionSpec.scaffolding entry = false) entries ->
  exists steps,
    SessionTools.all_some (map SessionTools.declared_step (map SessionSpec.step_of entries))
    = Some steps
    /\ forall name schema urls,
         Convert.domSteps {| Convert.name := name; Convert.steps := steps;
                             Convert.inputSchema := schema; Convert.urlPatterns := urls |}
         = flat_map SessionTools.dom_step_of entries.
Proof.
  induction entries as [|e entries IH]; intros H.
  - exists []. split; reflexivity.
  - inversion H as [|? ? He Hes]; subst. destruct (IH Hes) as (steps & Hs & Hd).
    cbn [map SessionTools.all_some].
    assert (Hstep : exists step,
               SessionTools.declared_step (SessionSpec.step_of e) = Some step
               /\ forall name schema urls,
                    Convert.domSteps
                      {| Convert.name := name; Convert.steps := [step];
                         Convert.inputSchema := schema; Convert.urlPatterns := urls |}
                    = SessionTools.dom_step_of e).
    { unfold SessionSpec.scaffolding in He.
      unfold SessionTools.declared_step, SessionSpec.step_of, SessionTools.dom_step_of.
      cbn [Session.s_action Session.delay].
      destruct (Session.action e); try discriminate;
        cbn [SessionTools.declared_kind]; eexists; (split; [reflexivity|]);
        intros name schema urls; reflexivity. }
    destruct Hstep as (step & Es & Ed). rewrite Es, Hs.
    exists (step :: steps). split; [reflexivity|].
    intros name schema urls. cbn [flat_map]. rewrite <- (Hd name schema urls).
    rewrite <- (Ed name schema urls).
    unfold Convert.domSteps. cbn [Convert.steps flat_map]. now rewrite app_nil_r.
Qed.

Lemma derived_properties_well_formed (entries : list Session.ActionLogEntry) :
  ObjOrder.well_formed
    (fold_left (fun o entry =>
                  Obj.set (SessionSpec.property_name entry)
                          (SessionSpec.property_of entry) o)
               entries []).
Proof.
  apply fold_left_invariant.
  - split; [constructor | exact I].
  - intros o entry H. now apply ObjFacts.set_well_formed.
Qed.

Lemma first_url (entries : list Session.ActionLogEntry) :
  hd_error (SessionSpec.distinct (map Session.pageUrl entries))
  = option_map Session.pageUrl (hd_error entries).
Proof. now destruct entries. Qed.

Lemma derived_tool_converts (t : string) (entries : list Session.ActionLogEntry) :
  exists tool,
    SessionTools.declared_tool (SessionSpec.derived_tool t entries) = Some tool
    /\ Convert.convertSessionToolsToProposals [tool]
       = [SessionTools.proposal_of t entries].
Proof.
  unfold SessionTools.declared_tool, SessionSpec.derived_tool.
  cbn [Session.steps Session.name Session.inputSchema Session.urlPatterns].
  destruct (@declared_steps
              (filter (fun entry => negb (SessionSpec.scaffolding entry)) entries))
    as (steps & Hs & Hd).
  { apply Forall_forall. intros e He. apply filter_In in He.
    now apply negb_true_iff. }
  rewrite Hs. eexists. split; [reflexivity|].
  unfold Convert.convertSessionToolsToProposals, SessionTools.proposal_of.
  cbn [map Convert.name Convert.inputSchema Convert.urlPatterns
       Session.properties Session.required].
  rewrite Hd.
  rewrite flat_map_kept
    by (intros e He; apply scaffolding_gives_no_step; now apply negb_false_iff).
  rewrite (ObjFacts.fromEntries_well_formed Convert.property_of
             (derived_properties_well_formed
                (filter SessionSpec.carries_value entries))).
  rewrite RecorderFacts.urls_are_distinct, first_url.
  reflexivity.
Qed.

Lemma derived_tools_convert (log : list Session.ActionLogEntry) (ts : list string) :
  exists tools,
    SessionTools.declared
      (map (fun t => SessionSpec.derived_tool t (SessionSpec.group t log)) ts)
    = Some tools
    /\ Convert.convertSessionToolsToProposals tools
       = map (fun t => SessionTools.proposal_of t (SessionSpec.group t log)) ts.
Proof.
  unfold SessionTools.declared. induction ts as [|t ts IH].
  - exists []. split; reflexivity.
  - destruct IH as (tools & Hs & Hc).
    destruct (derived_tool_converts t (SessionSpec.group t log)) as (tool & Ht & Hp).
    cbn [map SessionTools.all_some]. rewrite Ht, Hs.
    exists (tool :: tools). split; [reflexivity|].
    change (Convert.convertSessionToolsToProposals (tool :: tools))
      with (Convert.convertSessionToolsToProposals [tool]
            ++ Convert.convertSessionToolsToProposals tools)%list.
    now rewrite Hp, Hc.
Qed.

Lemma has_define {V} (k k' : string) (v : V) (o : Obj.t V) :
  Obj.has k (Convert.define k' v o) = String.eqb k k' || Obj.has k o.
Proof.
  unfold Convert.define. destruct (Obj.has k' o) eqn:E.
  - rewrite SessionFacts.has_replace.
    destruct (String.eqb k k') eqn:Ek; [|reflexivity].
    apply String.eqb_eq in Ek. subst k'. now rewrite E.
  - destruct (Obj.array_index k').
    + apply SessionFacts.has_insert_index.
    + rewrite SessionFacts.has_app. simpl. rewrite orb_false_r. apply orb_comm.
Qed.

Lemma has_fromEntries {V W} (f : V -> W) (k : string) (o : Obj.t V) :
  Obj.has k (Convert.fromEntries
               (map (fun entry : string * V => (fst entry, f (snd entry))) o))
  = Obj.has k o.
Proof.
  unfold Convert.fromEntries.
  enough (H : forall acc : Obj.t W,
             Obj.has k (fold_left (fun o entry => Convert.define (fst entry) (snd entry) o)
                                  (map (fun entry : string * V => (fst entry, f (snd entry))) o)
                                  acc)
             = Obj.has k acc || Obj.has k o)
    by (rewrite H; reflexivity).
  induction o as [|[k0 v0] o IH]; intros acc; cbn [map fold_left fst snd Obj.has].
  - now rewrite orb_false_r.
  - rewrite IH, has_define. now destruct (String.eqb k k0), (Obj.has k acc).
Qed.

Lemma domSteps_selectors (tool : Convert.ToolFromActions) :
  map GenerateTools.selector (Convert.domSteps tool)
  = map Convert.selector
        (filter (fun step => negb (ConvertSpec.is_hover step)) (Convert.steps tool))
  /\ Forall (fun step =>
               In (GenerateTools.action step)
                  [GenerateTools.click; GenerateTools.fill; GenerateTools.select;
                   GenerateTools.scroll]
               /\ GenerateTools.readAttribute step = None
               /\ GenerateTools.s_description step = None)
            (Convert.domSteps tool).
Proof.
  unfold Convert.domSteps. induction (Convert.steps tool) as [|step steps [IH1 IH2]].
  - split; [reflexivity | constructor].
  - cbn [flat_map filter]. unfold ConvertSpec.is_hover at 1.
    destruct (Convert.action step); cbn [Convert.dom_action_of negb List.app map];
      try (split; [now rewrite IH1 | constructor; [|exact IH2]];
           cbn [GenerateTools.action GenerateTools.readAttribute
                GenerateTools.s_description]; simpl; tauto).
    now split.
Qed.

(** The converter keeps the tools' names and order and makes each a
    DOM-action proposal without annotations.  A proposal's steps are the
    tool's steps without the hover ones, selector for selector; none of them
    reads, checks or submits.  Its schema declares the tool's property names
    and requires the tool's required names.  Of the tool's URL patterns it
    keeps the first and no other. *)
Theorem convertSessionToolsToProposals_keeps_names_and_drops_hover :
  forall tools : list Convert.ToolFromActions,
    let proposals := Convert.convertSessionToolsToProposals tools in
    map GenerateTools.name proposals = map Convert.name tools
    /\ (forall i tool,
          nth_error tools i = Some tool ->
          exists proposal,
            nth_error proposals i = Some proposal
            /\ GenerateTools.name proposal = Convert.name tool
            /\ GenerateTools.actionDetails proposal
               = GenerateTools.dom_action {| GenerateTools.steps := Convert.domSteps tool |}
            /\ map GenerateTools.selector (Convert.domSteps tool)
               = map Convert.selector
                     (filter (fun step => negb (ConvertSpec.is_hover step))
                             (Convert.steps tool))
            /\ Forall (fun step =>
                         In (GenerateTools.action step)
                            [GenerateTools.click; GenerateTools.fill;
                             GenerateTools.select; GenerateTools.scroll]
                         /\ GenerateTools.readAttribute step = None
                         /\ GenerateTools.s_description step = None)
                      (Convert.domSteps tool)
            /\ GenerateTools.annotations proposal = None
            /\ GenerateTools.urlPattern proposal = hd_error (Convert.urlPatterns tool)
            /\ GenerateTools.required (GenerateTools.inputSchema proposal)
               = Some (Session.required (Convert.inputSchema tool))
            /\ forall k,
                 Obj.has k (GenerateTools.properties (GenerateTools.inputSchema proposal))
                 = Obj.has k (Session.properties (Convert.inputSchema tool))).
Proof.
  intros tools proposals. subst proposals. unfold Convert.convertSessionToolsToProposals.
  split; [rewrite map_map; reflexivity|].
  intros i tool Hi. rewrite nth_error_map, Hi. cbn [option_map].
  eexists. split; [reflexivity|].
  cbn [GenerateTools.name GenerateTools.actionDetails GenerateTools.annotations
       GenerateTools.urlPattern GenerateTools.inputSchema GenerateTools.required
       GenerateTools.properties].
  destruct (domSteps_selectors tool) as [H1 H2].
  repeat (split; [first [reflexivity | assumption]|]).
  intros k. apply has_fromEntries.
Qed.

(** What a recorded session becomes on the way to an extension.  The tools
    the recorder derives from a log always inhabit the type the converter
    declares for its input, and the converter turns them into one DOM-action
    proposal per tag, in the order of the tags: the proposal of a tag has the
    tag as its name, the steps of the tag's click, fill, select and scroll
    entries - hover steps go, as wait and navigate entries went before -, the
    recorder's properties, all of type string and all required, and as its
    URL pattern the page of the tag's first entry.  The files generated from
    these proposals are one per tag. *)
Theorem recorded_session_converts_to_one_proposal_per_tag :
  forall log : list Session.ActionLogEntry,
    exists tools,
      SessionTools.declared (Session.groupActionsIntoTools log) = Some tools
      /\ Convert.convertSessionToolsToProposals tools
         = map (fun t => SessionTools.proposal_of t (SessionSpec.group t log))
               (SessionSpec.tags log)
      /\ map GenerateTools.path
             (GenerateTools.generateToolFiles
                (Convert.convertSessionToolsToProposals tools))
         = map (fun t => "tools/" ++ t ++ ".ts") (SessionSpec.tags log)
      /\ Forall (fun proposal =>
                   exists page, GenerateTools.urlPattern proposal = Some page)
                (Convert.convertSessionToolsToProposals tools).
Proof.
  intros log. rewrite SessionFacts.groupActionsIntoTools_is_derive_tools.
  unfold SessionSpec.derive_tools.
  destruct (derived_tools_convert log (SessionSpec.tags log)) as (tools & Hs & Hc).
  exists tools. split; [exact Hs|]. split; [exact Hc|]. rewrite Hc. split.
  - unfold GenerateTools.generateToolFiles. rewrite !map_map. reflexivity.
  - apply Forall_forall. intros proposal Hin. apply in_map_iff in Hin.
    destruct Hin as (t & <- & Ht).
    destruct (RecorderFacts.group_of_tag t log Ht) as (first & others & E).
    rewrite E. now exists (Session.pageUrl first).
Qed.

End ConvertFacts.

(** ** The crawler *)

Module CrawlFacts.
Import Str ExtractDom ExtractDomSpec TreePassSpec Crawl CrawlSpec Facts.

Lemma captured_tree_has_no_element (page : PageView) (stepIndex : Z) :
  tree_elements (captureSnapshot page stepIndex) = [].
Proof.
  unfold tree_elements, captureSnapshot, captureAccessibilityTree.
  cbn [accessibilityTree]. now destruct (v_ariaSnapshot page).
Qed.

(** A snapshot that the crawler captures carries, for an accessibility
    tree, one node without children whose role is not interactive.  The tree
    pass of [extractDOM] therefore finds nothing in it: the model of a crawled
    page holds the elements of the markup pass only, each distinct selector
    once, in one region of type unknown located by [body] - or no region at
    all when the markup pass finds nothing. *)
Theorem crawled_snapshot_yields_markup_elements_only :
  forall (page : PageView) (stepIndex : Z),
    let snapshot := captureSnapshot page stepIndex in
    let found := fresh [] (extractFromHTML (v_bodyHTML page)) in
    tree_elements snapshot = []
    /\ regions (extractDOM snapshot)
       = match found with
         | [] => []
         | _ => [ {| r_type := unknown; r_selector := "body"; label := None;
                     interactiveElements := found |} ]
         end
    /\ totalInteractiveElements (extractDOM snapshot) = List.length found.
Proof.
  intros page stepIndex snapshot found.
  assert (Htree : tree_elements snapshot = [])
    by apply captured_tree_has_no_element.
  assert (Hregions :
            match accessibilityTree snapshot with
            | Some tree => groupByRegion (flattenAccessibilityTree tree None None 0)
            | None => []
            end = []).
  { unfold tree_elements in Htree. destruct (accessibilityTree snapshot); [|reflexivity].
    now rewrite Htree. }
  assert (Hmerged : regions (extractDOM snapshot)
                    = match found with
                      | [] => []
                      | _ => [ {| r_type := unknown; r_selector := "body"; label := None;
                                  interactiveElements := found |} ]
                      end).
  { unfold extractDOM. cbn [regions]. rewrite Hregions.
    rewrite ExtractDomFacts.mergeHTMLElements_adds_fresh. reflexivity. }
  split; [exact Htree|]. split; [exact Hmerged|].
  unfold extractDOM in *. cbn [totalInteractiveElements regions] in *.
  rewrite Hmerged, TreePassFacts.total_is_count.
  destruct found; [reflexivity|]. unfold elements_of. cbn [flat_map interactiveElements].
  now rewrite app_nil_r.
Qed.

Lemma executeStep_known (page_failure wait_failure : option string)
      (step : ScenarioStep) :
  executeStep page_failure wait_failure step = None ->
  In (action step) known_actions.
Proof.
  intros Ee. unfold executeStep in Ee. unfold known_actions.
  destruct (String.eqb (action step) "navigate") eqn:E1;
    [apply String.eqb_eq in E1; rewrite E1; simpl; tauto|].
  destruct (String.eqb (action step) "click") eqn:E2;
    [apply String.eqb_eq in E2; rewrite E2; simpl; tauto|].
  destruct (String.eqb (action step) "fill") eqn:E3;
    [apply String.eqb_eq in E3; rewrite E3; simpl; tauto|].
  destruct (String.eqb (action step) "select") eqn:E4;
    [apply String.eqb_eq in E4; rewrite E4; simpl; tauto|].
  destruct (String.eqb (action step) "hover") eqn:E5;
    [apply String.eqb_eq in E5; rewrite E5; simpl; tauto|].
  destruct (String.eqb (action step) "wait") eqn:E6;
    [apply String.eqb_eq in E6; rewrite E6; simpl; tauto|].
  discriminate.
Qed.

(** The loop returns exactly when no step and no capture throws, and then
    with one more snapshot per step. *)
Lemma crawl_steps_snapshots (w : CrawlWorld) (steps : list ScenarioStep) :
  forall (i : nat) (taken result : list PageSnapshot),
    crawl_steps w steps i taken = Session.Ok result <->
    (forall j step,
        nth_error steps j = Some step ->
        executeStep (step_failure w (i + j)) (wait_failure w (i + j)) step = None
        /\ capture_failure w (S (i + j)) = None)
    /\ result = (taken
                 ++ map (fun k => captureSnapshot (views w (S k)) (Z.of_nat k))
                        (seq i (List.length steps)))%list.
Proof.
  induction steps as [|step steps IH]; intros i taken result; cbn [crawl_steps].
  - cbn [List.length seq map]. rewrite app_nil_r. split.
    + intros H. injection H as <-. split; [|reflexivity].
      intros j step Hj. now destruct j.
    + intros [_ ->]. reflexivity.
  - split.
    + intros H.
      destruct (executeStep (step_failure w i) (wait_failure w i) step) eqn:Ee;
        [discriminate|].
      destruct (capture_failure w (S i)) eqn:Ec; [discriminate|].
      apply IH in H. destruct H as [Hq ->]. split.
      * intros j step' Hj. destruct j as [|j].
        -- injection Hj as <-. now rewrite Nat.add_0_r.
        -- cbn [nth_error] in Hj. specialize (Hq j step' Hj).
           now rewrite Nat.add_succ_r.
      * cbn [List.length seq map]. now rewrite <- app_assoc.
    + intros [Hq ->].
      destruct (Hq 0 step eq_refl) as [Ee Ec]. rewrite Nat.add_0_r in Ee, Ec.
      rewrite Ee, Ec. apply IH. split.
      * intros j step' Hj. specialize (Hq (S j) step' Hj).
        now rewrite Nat.add_succ_r in Hq.
      * cbn [List.length seq map]. now rewrite <- app_assoc.
Qed.

(** A crawl returns exactly when nothing throws - not the launch, the
    first load, a step, its wait condition, a capture, or closing the
    browser.  It then gives one snapshot for the page as loaded and one
    after each step, indexed -1, 0, 1, ... in this order, and every step's
    action is one the crawler knows.  In every other case it throws, and
    the snapshots taken before the failure are lost. *)
Theorem crawlSite_returns_a_snapshot_per_step :
  forall (url : string) (steps : list ScenarioStep) (w : CrawlWorld)
         (snapshots : list PageSnapshot),
    crawlSite url steps w = Session.Ok snapshots ->
    quiet w steps
    /\ snapshots = snapshots_of w steps
    /\ List.length snapshots = S (List.length steps)
    /\ map stepIndex snapshots
       = (-1)%Z :: map Z.of_nat (seq 0 (List.length steps))
    /\ Forall (fun step => In (action step) known_actions) steps
    /\ Forall (fun snapshot => tree_elements snapshot = []) snapshots.
Proof.
  intros url steps w snapshots H. unfold crawlSite in H.
  destruct (launch_failure w) eqn:El; [discriminate|].
  destruct (close_failure w) eqn:Ecl; [discriminate|].
  destruct (open_failure w) eqn:Eo; [discriminate|].
  destruct (capture_failure w 0) eqn:Ec; [discriminate|].
  apply crawl_steps_snapshots in H. destruct H as [Hq ->]. cbn [List.app].
  assert (Hquiet : quiet w steps).
  { unfold quiet. rewrite El, Eo, Ecl. repeat split.
    - intros i Hi. destruct i as [|i]; [exact Ec|].
      destruct (nth_error steps i) as [step|] eqn:En.
      + exact (proj2 (Hq i step En)).
      + apply nth_error_None in En. lia.
    - intros i step Hi. exact (proj1 (Hq i step Hi)). }
  split; [exact Hquiet|]. split; [reflexivity|]. split; [|split; [|split]].
  - cbn [List.length]. now rewrite length_map, length_seq.
  - cbn [map captureSnapshot stepIndex]. f_equal. rewrite map_map.
    apply map_ext. intros k. reflexivity.
  - apply Forall_forall. intros step Hs. apply In_nth_error in Hs.
    destruct Hs as [i Hi].
    exact (executeStep_known _ _ _ (proj1 (Hq i step Hi))).
  - constructor.
    + apply captured_tree_has_no_element.
    + apply Forall_forall. intros s Hs. apply in_map_iff in Hs.
      destruct Hs as (k & <- & _). apply captured_tree_has_no_element.
Qed.

(** A crawl of one page with a click that waits for the network and a
    wait of a quarter of a second. *)
Lemma crawlSite_returns_a_snapshot_per_step_witness :
  crawlSite "https://pizza.example.com/"
            [PipelineSamples.clickSubmit; PipelineSamples.waitABit]
            PipelineSamples.calmCrawl
  = Session.Ok
      [ captureSnapshot PipelineSamples.pizzaPage (-1)%Z;
        captureSnapshot PipelineSamples.pizzaPage 0%Z;
        captureSnapshot PipelineSamples.pizzaPage 1%Z ]
  /\ List.length
       [ captureSnapshot PipelineSamples.pizzaPage (-1)%Z;
         captureSnapshot PipelineSamples.pizzaPage 0%Z;
         captureSnapshot PipelineSamples.pizzaPage 1%Z ] = 3.
Proof.
  split; [reflexivity|].
  exact (proj1 (proj2 (proj2 (crawlSite_returns_a_snapshot_per_step
                                "https://pizza.example.com/"
                                [PipelineSamples.clickSubmit; PipelineSamples.waitABit]
                                PipelineSamples.calmCrawl eq_refl)))).
Defined.

(** Where nothing throws the crawl returns, and in every other case it
    throws: with what closing the browser throws, if that fails, whatever
    else failed before, and otherwise with the first failure.  A crawl
    whose launch fails closes no browser. *)
Theorem crawlSite_throws_unless_nothing_fails :
  forall (url : string) (steps : list ScenarioStep) (w : CrawlWorld),
    (quiet w steps -> crawlSite url steps w = Session.Ok (snapshots_of w steps))
    /\ (~ quiet w steps -> exists message, crawlSite url steps w = Session.Thrown message)
    /\ (forall launch, launch_failure w = Some launch ->
                       crawlSite url steps w = Session.Thrown launch)
    /\ (forall closing, launch_failure w = None -> close_failure w = Some closing ->
                        crawlSite url steps w = Session.Thrown closing).
Proof.
  intros url steps w.
  assert (Hiff : quiet w steps
                 <-> crawlSite url steps w = Session.Ok (snapshots_of w steps)).
  { split.
    - intros (El & Eo & Ecl & Hc & Hs). unfold crawlSite.
      rewrite El, Ecl, Eo, (Hc 0 (Nat.le_0_l _)).
      apply crawl_steps_snapshots. split; [|reflexivity].
      intros j step Hj. cbn [Nat.add]. split; [exact (Hs j step Hj)|].
      apply Hc. apply Nat.le_succ_l. apply nth_error_Some. now rewrite Hj.
    - intros H. unfold crawlSite in H.
      destruct (launch_failure w) eqn:El; [discriminate|].
      destruct (close_failure w) eqn:Ecl; [discriminate|].
      destruct (open_failure w) eqn:Eo; [discriminate|].
      destruct (capture_failure w 0) eqn:Ec; [discriminate|].
      apply crawl_steps_snapshots in H. destruct H as [Hq _].
      unfold quiet. rewrite El, Eo, Ecl. repeat split.
      + intros i Hi. destruct i as [|i]; [exact Ec|].
        destruct (nth_error steps i) as [step|] eqn:En.
        * exact (proj2 (Hq i step En)).
        * apply nth_error_None in En. lia.
      + intros i step Hi. exact (proj1 (Hq i step Hi)). }
  split; [exact (proj1 Hiff)|]. split; [|split].
  - intros Hn. destruct (crawlSite url steps w) as [snapshots|message] eqn:E.
    + exfalso. apply Hn. apply Hiff. f_equal.
      unfold crawlSite in E.
      destruct (launch_failure w); [discriminate|].
      destruct (close_failure w); [discriminate|].
      destruct (open_failure w); [discriminate|].
      destruct (capture_failure w 0); [discriminate|].
      apply crawl_steps_snapshots in E. now destruct E as [_ ->].
    + now exists message.
  - intros launch El. unfold crawlSite. now rewrite El.
  - intros closing El Ecl. unfold crawlSite. now rewrite El, Ecl.
Qed.

(** The crawler and the recorder take the six actions both know alike: a
    step goes through in the crawler exactly when the same action, selector,
    value and address go through in the recorder and the step's wait
    condition, if it has one, is met.  The two differ on [scroll]: the
    recorder performs it, the crawler throws on it as on every action it does
    not know. *)
Theorem executeStep_acts_as_the_recorder_except_on_scroll :
  forall (step : ScenarioStep) (page_failure wait_failure : option string),
    (forall kind,
        as_session_action (action step) = Some kind ->
        (executeStep page_failure wait_failure step = None <->
         Session.executeAction page_failure (as_options kind step) = None
         /\ (truthy (waitFor step) = true -> wait_failure = None)))
    /\ (as_session_action (action step) = None ->
        executeStep page_failure wait_failure step
        = Some ("Unknown scenario step action: " ++ action step))
    /\ (action step = "scroll" ->
        executeStep page_failure wait_failure step
        = Some "Unknown scenario step action: scroll"
        /\ Session.executeAction page_failure (as_options Session.scroll step)
           = page_failure).
Proof.
  intros step page_failure wait_failure. split; [|split].
  - intros kind Hk. unfold as_session_action in Hk.
    unfold executeStep, Session.executeAction, as_options.
    cbn [Session.so_action Session.so_selector Session.so_value Session.so_url].
    assert (Hpost : forall acted : option string,
               match acted with
               | Some message => Some message
               | None => if truthy (waitFor step) then wait_failure else None
               end = None
               <-> acted = None /\ (truthy (waitFor step) = true -> wait_failure = None)).
    { intros [message|]; destruct (truthy (waitFor step)); split;
        try discriminate; try (intros [H _]; discriminate).
      - intros H. split; [reflexivity | now intros _].
      - intros [_ H]. now apply H.
      - intros _. split; [reflexivity | discriminate].
      - reflexivity. }
    assert (Hguard : forall (guard : bool) (here there : string),
               (if guard then Some here else page_failure) = None
               <-> (if guard then Some there else page_failure) = None).
    { intros [|] here there; [split; discriminate | reflexivity]. }
    destruct (String.eqb (action step) "navigate");
      [injection Hk as <-; rewrite Hpost, Hguard; reflexivity|].
    destruct (String.eqb (action step) "click");
      [injection Hk as <-; rewrite Hpost, Hguard; reflexivity|].
    destruct (String.eqb (action step) "fill");
      [injection Hk as <-; rewrite Hpost, Hguard; reflexivity|].
    destruct (String.eqb (action step) "select");
      [injection Hk as <-; rewrite Hpost, Hguard; reflexivity|].
    destruct (String.eqb (action step) "hover");
      [injection Hk as <-; rewrite Hpost, Hguard; reflexivity|].
    destruct (String.eqb (action step) "wait");
      [injection Hk as <-; apply Hpost|].
    discriminate.
  - intros Hk. unfold as_session_action in Hk. unfold executeStep.
    destruct (String.eqb (action step) "navigate"); [discriminate|].
    destruct (String.eqb (action step) "click"); [discriminate|].
    destruct (String.eqb (action step) "fill"); [discriminate|].
    destruct (String.eqb (action step) "select"); [discriminate|].
    destruct (String.eqb (action step) "hover"); [discriminate|].
    destruct (String.eqb (action step) "wait"); [discriminate|].
    reflexivity.
  - intros Hs. unfold executeStep. rewrite Hs. split; reflexivity.
Qed.


(** The calm crawl of the two steps returns its three snapshots. *)
Lemma crawlSite_throws_unless_nothing_fails_witness :
  crawlSite "https://pizza.example.com/"
            [PipelineSamples.clickSubmit; PipelineSamples.waitABit]
            PipelineSamples.calmCrawl
  = Session.Ok (snapshots_of PipelineSamples.calmCrawl
                  [PipelineSamples.clickSubmit; PipelineSamples.waitABit]).
Proof.
  apply (proj1 (crawlSite_throws_unless_nothing_fails
                  "https://pizza.example.com/"
                  [PipelineSamples.clickSubmit; PipelineSamples.waitABit]
                  PipelineSamples.calmCrawl)).
  unfold quiet. repeat split; try reflexivity.
  intros i step H. destruct i as [|[|i]]; cbn [nth_error] in H.
  - injection H as <-. reflexivity.
  - injection H as <-. reflexivity.
  - destruct i; discriminate.
Defined.

(** A click with a wait condition, in a page that does as asked. *)
Lemma executeStep_acts_as_the_recorder_witness :
  executeStep None None PipelineSamples.clickSubmit = None
  <-> Session.executeAction None (as_options Session.click PipelineSamples.clickSubmit)
      = None
      /\ (truthy (waitFor PipelineSamples.clickSubmit) = true -> @None string = None).
Proof.
  exact (proj1 (executeStep_acts_as_the_recorder_except_on_scroll
                  PipelineSamples.clickSubmit None None)
           Session.click eq_refl).
Defined.

End CrawlFacts.

(** ** The matcher, forwards

    What the matcher computes on literals and on starred classes, as
    equations; the facts about attribute texts, fenced replies and property
    names rest on them. *)

Module MatcherFacts.
Import Str Regex MatcherSpec Facts RegexFacts.

Lemma append_nil_r (s : string) : (s ++ "")%string = s.
Proof. induction s as [|c s IH]; [reflexivity | cbn [append]; now rewrite IH]. Qed.

Lemma or_else_none {A} (x : option A) : or_else x None = x.
Proof. now destruct x. Qed.

Lemma m_seq (ci : bool) (R : Type) (a b : regex) prev s caps (k : cont R) :
  m ci (RSeq a b) prev s caps k
  = m ci a prev s caps (fun p1 s1 c1 => m ci b p1 s1 c1 k).
Proof. reflexivity. Qed.

Lemma m_opt (ci : bool) (R : Type) (a : regex) prev s caps (k : cont R) :
  m ci (opt a) prev s caps k = or_else (m ci a prev s caps k) (k prev s caps).
Proof. reflexivity. Qed.

Lemma m_group (ci : bool) (R : Type) (n : nat) (a : regex) prev s caps (k : cont R) :
  m ci (RGroup n a) prev s caps k
  = m ci a prev s caps
      (fun p1 s1 c1 => k p1 s1 ((n, take (String.length s - String.length s1) s) :: c1)).
Proof. reflexivity. Qed.

(** A starred class is the walk [walk] along the text. *)
Lemma m_star_class (ci : bool) (R : Type) (cl : cclass) (greedy : bool) (k : cont R) :
  forall prev s caps,
    m ci (RStar greedy (RSet cl)) prev s caps k = walk ci cl greedy k prev s caps.
Proof.
  intros prev s caps. cbn [m].
  assert (Hfuel : String.length s <= String.length s) by lia.
  revert Hfuel. generalize (String.length s) at 2 3. intros fuel. revert prev s caps.
  induction fuel as [|fuel IH]; intros prev s caps Hfuel.
  - destruct s; [reflexivity | simpl in Hfuel; lia].
  - destruct s as [|c s'].
    + cbn [walk]. destruct greedy; cbn; [reflexivity | now rewrite or_else_none].
    + cbn [walk]. cbn zeta. cbn [m].
      assert (Hlt : (String.length s' <? String.length (String c s')) = true)
        by (apply Nat.ltb_lt; simpl; lia).
      rewrite Hlt. simpl in Hfuel.
      rewrite (IH (Some c) s' caps) by lia. reflexivity.
Qed.

Lemma moved_cons (prev : option ascii) (c : ascii) (v : string) :
  moved prev (String c v) = moved (Some c) v.
Proof.
  unfold moved. destruct v as [|a v]; [reflexivity|].
  change (last_char (String c (String a v))) with (last_char (String a v)).
  assert (H : exists x, last_char (String a v) = Some x).
  { clear. revert a. induction v as [|b v IH]; intros a; [now exists a|].
    destruct (IH b) as [x Hx]. exists x. exact Hx. }
  destruct H as [x ->]. reflexivity.
Qed.

Lemma strip_prefix_app (ci : bool) (a b s : string) :
  strip_prefix ci (a ++ b) s
  = match strip_prefix ci a s with
    | Some s' => strip_prefix ci b s'
    | None => None
    end.
Proof.
  revert s. induction a as [|c a IH]; intros s; [reflexivity|].
  destruct s as [|d s]; [reflexivity|]. cbn [append strip_prefix].
  destruct (Ascii.eqb (canon ci c) (canon ci d)); [apply IH | reflexivity].
Qed.

Lemma strip_prefix_refl (ci : bool) (t s : string) :
  strip_prefix ci t (t ++ s) = Some s.
Proof.
  induction t as [|c t IH]; [reflexivity|]. cbn [append strip_prefix].
  now rewrite Ascii.eqb_refl.
Qed.

(** What a prefix match leaves is shorter by the prefix. *)
Lemma strip_prefix_length (ci : bool) (t s s' : string) :
  strip_prefix ci t s = Some s' ->
  String.length s = String.length t + String.length s'.
Proof.
  revert s. induction t as [|c t IH]; intros s H.
  - injection H as <-. reflexivity.
  - destruct s as [|d s]; [discriminate|]. cbn [strip_prefix] in H.
    destruct (Ascii.eqb (canon ci c) (canon ci d)); [|discriminate].
    simpl. now rewrite (IH _ H).
Qed.

(** What a prefix match under the flag consumed has the length of the
    prefix. *)
Lemma strip_prefix_split (ci : bool) (t s r : string) :
  strip_prefix ci t s = Some r ->
  exists a, s = (a ++ r)%string /\ String.length a = String.length t.
Proof.
  revert s. induction t as [|c t IH]; intros s H.
  - injection H as <-. now exists EmptyString.
  - destruct s as [|d s]; [discriminate|]. cbn [strip_prefix] in H.
    destruct (Ascii.eqb (canon ci c) (canon ci d)); [|discriminate].
    destruct (IH _ H) as (a & -> & Ha). exists (String d a). split; [reflexivity|].
    simpl. now rewrite Ha.
Qed.

(** A literal consumes a prefix that equals it under the flag. *)
Lemma m_lit_prefix (ci : bool) (R : Type) (t : string) :
  forall prev s caps (k : cont R),
    m ci (lit t) prev s caps k
    = match strip_prefix ci t s with
      | Some s' => k (moved prev (take (String.length t) s)) s' caps
      | None => None
      end.
Proof.
  induction t as [|c t IH]; intros prev s caps k.
  - reflexivity.
  - assert (Hone : forall k' : cont R,
               m ci (RSet (CChar c)) prev s caps k'
               = match s with
                 | String d s1 =>
                     if Ascii.eqb (canon ci c) (canon ci d) then k' (Some d) s1 caps
                     else None
                 | EmptyString => None
                 end).
    { intros k'. cbn [m]. destruct s; reflexivity. }
    destruct t as [|c2 t].
    + cbn [lit]. rewrite Hone. destruct s as [|d s1]; [reflexivity|].
      cbn [strip_prefix String.length take].
      destruct (Ascii.eqb (canon ci c) (canon ci d)); reflexivity.
    + change (lit (String c (String c2 t)))
        with (RSeq (RSet (CChar c)) (lit (String c2 t))).
      change (m ci (RSeq (RSet (CChar c)) (lit (String c2 t))) prev s caps k)
        with (m ci (RSet (CChar c)) prev s caps
                (fun p1 s1 c1 => m ci (lit (String c2 t)) p1 s1 c1 k)).
      rewrite Hone. destruct s as [|d s1]; [reflexivity|].
      change (strip_prefix ci (String c (String c2 t)) (String d s1))
        with (if Ascii.eqb (canon ci c) (canon ci d)
              then strip_prefix ci (String c2 t) s1 else None).
      destruct (Ascii.eqb (canon ci c) (canon ci d)); [|reflexivity].
      rewrite IH.
      destruct (strip_prefix ci (String c2 t) s1) as [s'|] eqn:E; [|reflexivity].
      change (take (String.length (String c (String c2 t))) (String d s1))
        with (String d (take (String.length (String c2 t)) s1)).
      now rewrite moved_cons.
Qed.

Lemma all_chars_app (p : ascii -> bool) (a b : string) :
  all_chars p (a ++ b) = all_chars p a && all_chars p b.
Proof. induction a as [|c a IH]; simpl; [reflexivity | now rewrite IH, andb_assoc]. Qed.

Lemma span_ext (p p' : ascii -> bool) (s : string) :
  (forall c, p c = p' c) -> span p s = span p' s.
Proof.
  intros H. induction s as [|c s IH]; [reflexivity|].
  cbn [span]. now rewrite H, IH.
Qed.

Lemma span_app (p : ascii -> bool) (s : string) :
  (fst (span p s) ++ snd (span p s))%string = s.
Proof.
  induction s as [|c s IH]; [reflexivity|]. cbn [span].
  destruct (p c); [|reflexivity].
  destruct (span p s) as [v r]. cbn [fst snd] in *. cbn [append]. now rewrite IH.
Qed.

Lemma span_all (p : ascii -> bool) (s : string) : all_chars p (fst (span p s)) = true.
Proof.
  induction s as [|c s IH]; [reflexivity|]. cbn [span].
  destruct (p c) eqn:E; [|reflexivity].
  destruct (span p s) as [v r]. cbn [fst] in *. cbn [all_chars]. now rewrite E, IH.
Qed.

Lemma span_stops (p : ascii -> bool) (s : string) :
  match snd (span p s) with
  | String c _ => p c = false
  | EmptyString => True
  end.
Proof.
  induction s as [|c s IH]; [exact I|]. cbn [span].
  destruct (p c) eqn:E; [|exact E].
  destruct (span p s) as [v r]. exact IH.
Qed.

(** The split of a text whose head part has the property and whose rest
    does not go on with it. *)
Lemma span_split (p : ascii -> bool) (v r : string) :
  all_chars p v = true ->
  match r with String c _ => p c = false | EmptyString => True end ->
  span p (v ++ r) = (v, r).
Proof.
  intros Hv Hr. induction v as [|c v IH].
  - cbn [append]. destruct r as [|c r]; [reflexivity|]. cbn [span]. now rewrite Hr.
  - cbn [all_chars] in Hv. apply andb_true_iff in Hv. destruct Hv as [Hc Hv].
    cbn [append span]. now rewrite Hc, (IH Hv).
Qed.

(** A greedy starred class before a continuation that refuses to start at a
    character of the class: the star takes the whole run. *)
Lemma walk_greedy_whole (ci : bool) (R : Type) (cl : cclass) (k : cont R) :
  (forall p c s' caps, class_matches ci cl c = true -> k p (String c s') caps = None) ->
  forall s prev caps,
    walk ci cl true k prev s caps
    = k (moved prev (fst (span (class_matches ci cl) s)))
        (snd (span (class_matches ci cl) s)) caps.
Proof.
  intros Hk. induction s as [|c s IH]; intros prev caps; [reflexivity|].
  cbn [walk span]. destruct (class_matches ci cl c) eqn:E.
  - rewrite IH, (Hk prev c s caps E), or_else_none.
    destruct (span (class_matches ci cl) s) as [v r]. cbn [fst snd].
    now rewrite moved_cons.
  - reflexivity.
Qed.

(** A greedy starred class whose continuation succeeds after the whole run:
    that is the match. *)
Lemma walk_greedy_first (ci : bool) (R : Type) (cl : cclass) (k : cont R) :
  forall s prev caps res,
    k (moved prev (fst (span (class_matches ci cl) s)))
      (snd (span (class_matches ci cl) s)) caps = Some res ->
    walk ci cl true k prev s caps = Some res.
Proof.
  induction s as [|c s IH]; intros prev caps res H; [exact H|].
  cbn [walk]. cbn [span] in H. destruct (class_matches ci cl c) eqn:E.
  - destruct (span (class_matches ci cl) s) as [v r] eqn:Es. cbn [fst snd] in H.
    rewrite moved_cons in H.
    rewrite (IH (Some c) caps res); [reflexivity | exact H].
  - cbn [fst snd] in H. exact H.
Qed.

(** A lazy starred class stops where its continuation first succeeds. *)
Lemma walk_lazy_first (ci : bool) (R : Type) (cl : cclass) (k : cont R) :
  forall v r prev caps res,
    all_chars (class_matches ci cl) v = true ->
    (forall v1 c v2, v = (v1 ++ String c v2)%string ->
                     k (moved prev v1) (String c v2 ++ r)%string caps = None) ->
    k (moved prev v) r caps = Some res ->
    walk ci cl false k prev (v ++ r) caps = Some res.
Proof.
  induction v as [|c v IH]; intros r prev caps res Hv Hno Hk.
  - cbn [append]. destruct r as [|c r]; cbn [walk]; unfold moved in Hk; cbn in Hk.
    + exact Hk.
    + now rewrite Hk.
  - cbn [all_chars] in Hv. apply andb_true_iff in Hv. destruct Hv as [Hc Hv].
    cbn [append walk]. rewrite Hc.
    pose proof (Hno EmptyString c v eq_refl) as H0.
    change (k prev (String c (v ++ r)) caps = None) in H0. rewrite H0.
    cbn [or_else]. apply IH; [exact Hv| |].
    + intros v1 d v2 ->. rewrite <- moved_cons with (prev := prev).
      apply (Hno (String c v1) d v2). reflexivity.
    + now rewrite <- moved_cons with (prev := prev).
Qed.

(** A search in text none of whose positions can start a match finds
    nothing; after such text, it finds what a match at the next position
    gives. *)
Lemma search_none_by_head (ci : bool) (re : regex) (p : ascii -> bool) :
  (forall prev, match_here ci re prev EmptyString = None) ->
  (forall prev c s', p c = true -> match_here ci re prev (String c s') = None) ->
  forall s, all_chars p s = true ->
            forall idx prev, search ci re idx prev s = None.
Proof.
  intros Hnil Hhead. induction s as [|c s IH]; intros H idx prev; cbn [search].
  - now rewrite Hnil.
  - cbn [all_chars] in H. apply andb_true_iff in H. destruct H as [Hc H].
    rewrite (Hhead prev c s Hc). now apply IH.
Qed.

Lemma search_skips (ci : bool) (re : regex) (p : ascii -> bool) :
  (forall prev c s', p c = true -> match_here ci re prev (String c s') = None) ->
  forall (pre rest t : string) (caps : captures) (r : string),
    all_chars p pre = true ->
    (forall prev, match_here ci re prev rest = Some (t, caps, r)) ->
    forall idx prev,
      exists at_, search ci re idx prev (pre ++ rest) = Some (MatchResult at_ t caps r).
Proof.
  intros Hhead pre rest t caps r Hpre Hrest.
  induction pre as [|c pre IH]; intros idx prev.
  - exists idx. cbn [append]. destruct rest; cbn [search]; now rewrite Hrest.
  - cbn [all_chars] in Hpre. apply andb_true_iff in Hpre. destruct Hpre as [Hc Hpre].
    cbn [append search]. rewrite (Hhead prev c (pre ++ rest)%string Hc). now apply IH.
Qed.

(** A pattern that starts with a literal finds nothing in a text that does
    not hold the literal. *)
Lemma strip_prefix_starts (t s : string) :
  starts_with t s = false -> strip_prefix false t s = None.
Proof.
  revert s. induction t as [|c t IH]; intros s H; [discriminate|].
  destruct s as [|d s]; [reflexivity|]. cbn [starts_with strip_prefix canon] in *.
  destruct (Ascii.eqb c d); [now apply IH | reflexivity].
Qed.

Lemma search_lit_absent (t : string) (rest : regex) (s : string) :
  contains t s = false ->
  forall idx prev, search false (RSeq (lit t) rest) idx prev s = None.
Proof.
  assert (Hhere : forall prev s', starts_with t s' = false ->
                                  match_here false (RSeq (lit t) rest) prev s' = None).
  { intros prev s' H. unfold match_here. rewrite m_seq, m_lit_prefix.
    now rewrite (strip_prefix_starts _ _ H). }
  induction s as [|c s IH]; intros H idx prev; cbn [search contains] in *.
  - apply orb_false_iff in H. now rewrite (Hhere prev EmptyString (proj1 H)).
  - apply orb_false_iff in H. destruct H as [H1 H2].
    rewrite (Hhere prev (String c s) H1). now apply IH.
Qed.

End MatcherFacts.

(** ** Reading an attribute *)

Module MarkupFacts.
Import Str Regex MatcherSpec MarkupSpec ExtractDom Facts RegexFacts MatcherFacts.

Lemma canon_quote (ci : bool) (c : ascii) :
  Ascii.eqb (canon ci DQ) (canon ci c) = Ascii.eqb c DQ.
Proof.
  destruct ci; [|cbn [canon]; apply Ascii.eqb_sym].
  destruct c as [[] [] [] [] [] [] [] []]; reflexivity.
Qed.

Lemma not_dq_class (ci : bool) (c : ascii) :
  class_matches ci (CNoneOf [CChar DQ]) c = not_quote c.
Proof.
  cbn [class_matches existsb]. rewrite canon_quote, orb_false_r. reflexivity.
Qed.

(** One attempt of the attribute pattern at a position. *)
Lemma attribute_match_here (name s : string) (prev : option ascii) :
  option_map (fun r => capture 1 (snd (fst r)))
    (match_here true (seq [lit name; lit ("=" ++ q); RGroup 1 (star not_dq); lit q])
                prev s)
  = match strip_prefix true (name ++ "=" ++ q) s with
    | Some rest => option_map Some (until_quote rest)
    | None => None
    end.
Proof.
  unfold match_here. cbn [seq].
  set (k0 := fun (_ : option ascii) (s1 : string) (c1 : captures) =>
               Some (take (String.length s - String.length s1) s, c1, s1)).
  change (m true (RSeq (lit name) ?rest) prev s [] k0)
    with (m true (lit name) prev s [] (fun p1 s1 c1 => m true rest p1 s1 c1 k0)).
  rewrite m_lit_prefix, strip_prefix_app.
  destruct (strip_prefix true name s) as [s1|]; [|reflexivity].
  change (m true (RSeq (lit ("=" ++ q)) ?rest) ?p s1 [] k0)
    with (m true (lit ("=" ++ q)) p s1 [] (fun p1 s2 c1 => m true rest p1 s2 c1 k0)).
  rewrite m_lit_prefix.
  destruct (strip_prefix true ("=" ++ q) s1) as [s2|]; [|reflexivity].
  set (p2 := moved _ _).
  change (m true (RSeq (RGroup 1 (star not_dq)) (lit q)) p2 s2 [] k0)
    with (m true (RStar true (RSet (CNoneOf [CChar DQ]))) p2 s2 []
            (fun p1 s3 c1 =>
               m true (lit q) p1 s3
                 ((1, take (String.length s2 - String.length s3) s2) :: c1) k0)).
  rewrite m_star_class, walk_greedy_whole.
  - rewrite (span_ext _ not_quote s2 (not_dq_class true)).
    unfold until_quote.
    pose proof (span_app not_quote s2) as Happ.
    pose proof (span_stops not_quote s2) as Hstop.
    destruct (span not_quote s2) as [v r]. cbn [fst snd] in *.
    rewrite m_lit_prefix. subst s2.
    destruct r as [|c r].
    + reflexivity.
    + unfold not_quote in Hstop. apply negb_false_iff, Ascii.eqb_eq in Hstop. subst c.
      change (strip_prefix true q (String DQ r)) with (Some r).
      unfold k0. cbn [option_map fst snd capture Nat.eqb].
      now rewrite take_append.
  - intros p c s' caps Hc. rewrite m_lit_prefix.
    rewrite not_dq_class in Hc. unfold not_quote in Hc.
    apply negb_true_iff in Hc.
    change (strip_prefix true q (String c s'))
      with (if Ascii.eqb (canon true DQ) (canon true c) then Some s' else None).
    now rewrite canon_quote, Hc.
Qed.

Lemma search_first_quoted (name : string) :
  forall (s : string) (idx : nat) (prev : option ascii),
    match search true (seq [lit name; lit ("=" ++ q); RGroup 1 (star not_dq); lit q])
                 idx prev s with
    | Some mt => group 1 mt
    | None => None
    end = first_quoted name s.
Proof.
  assert (Hhere : forall s idx prev,
             match match_here true
                     (seq [lit name; lit ("=" ++ q); RGroup 1 (star not_dq); lit q])
                     prev s with
             | Some (t, c, rest) => Some (group 1 (MatchResult idx t c rest))
             | None => None
             end
             = match strip_prefix true (name ++ "=" ++ q) s with
               | Some rest => option_map Some (until_quote rest)
               | None => None
               end).
  { intros s idx prev. rewrite <- (attribute_match_here name s prev).
    destruct (match_here true _ prev s) as [[[t caps] rest]|]; reflexivity. }
  induction s as [|c s IH]; intros idx prev.
  - cbn [search first_quoted]. specialize (Hhere EmptyString idx prev).
    destruct (match_here true _ prev EmptyString) as [[[t caps] rest]|].
    + destruct (strip_prefix true (name ++ "=" ++ q) EmptyString) as [rest'|];
        [|discriminate].
      destruct (until_quote rest'); [|discriminate]. now injection Hhere.
    + destruct (strip_prefix true (name ++ "=" ++ q) EmptyString) as [rest'|];
        [|reflexivity].
      now destruct (until_quote rest').
  - cbn [search first_quoted]. specialize (Hhere (String c s) idx prev).
    destruct (match_here true _ prev (String c s)) as [[[t caps] rest]|].
    + destruct (strip_prefix true (name ++ "=" ++ q) (String c s)) as [rest'|];
        [|discriminate].
      destruct (until_quote rest'); [|discriminate]. now injection Hhere.
    + destruct (strip_prefix true (name ++ "=" ++ q) (String c s)) as [rest'|].
      * destruct (until_quote rest'); [discriminate|]. apply IH.
      * apply IH.
Qed.

(** [getAttr] reads the first quoted text that follows the name. *)
Lemma getAttr_first_quoted (attrsStr name : string) :
  getAttr attrsStr name = first_quoted name attrsStr.
Proof. unfold getAttr, exec. apply search_first_quoted. Qed.

Lemma strip_prefix_caseless (name written s : string) :
  toUpperCase written = toUpperCase name ->
  strip_prefix true name (written ++ s) = Some s.
Proof.
  revert written. induction name as [|c name IH]; intros written H.
  - destruct written; [reflexivity | discriminate].
  - destruct written as [|d written]; [discriminate|].
    unfold toUpperCase in H. cbn [map_chars] in H. injection H as Hc H.
    cbn [append strip_prefix canon]. rewrite Hc, Ascii.eqb_refl. now apply IH.
Qed.

Lemma toUpperCase_length (s : string) : String.length (toUpperCase s) = String.length s.
Proof.
  unfold toUpperCase. induction s as [|c s IH]; simpl; [reflexivity | now rewrite IH].
Qed.

(** A text that starts with a run of [p]-characters has, at every place
    within the run, a [p]-character. *)
Lemma inside_the_run (p : ascii -> bool) (a : string) (d : ascii) (r x y : string) :
  (a ++ String d r)%string = (x ++ y)%string ->
  String.length a < String.length x ->
  all_chars p x = true ->
  p d = true.
Proof.
  revert x. induction a as [|c a IH]; intros x H Hlen Hx.
  - destruct x as [|e x]; [simpl in Hlen; lia|].
    cbn [append] in H. injection H as <- _.
    cbn [all_chars] in Hx. now apply andb_true_iff in Hx.
  - destruct x as [|e x]; [simpl in Hlen; lia|].
    cbn [append] in H. injection H as _ H.
    cbn [all_chars] in Hx. apply andb_true_iff in Hx.
    apply (IH x H); [simpl in Hlen; lia | tauto].
Qed.

(** No match of the attribute pattern starts in quote-free text before the
    written name. *)
Lemma no_match_before (name written : string) (c : ascii) (pre tail : string) :
  String.length written = String.length name ->
  quote_free (String c pre) = true ->
  quote_free written = true ->
  strip_prefix true (name ++ "=" ++ q)
               (String c pre ++ written ++ "=" ++ q ++ tail) = None.
Proof.
  intros Hlen Hpre Hw.
  destruct (strip_prefix true (name ++ "=" ++ q) _) as [r|] eqn:E; [|reflexivity].
  exfalso.
  change (name ++ "=" ++ q)%string with (name ++ ("=" ++ q))%string in E.
  rewrite <- append_assoc, strip_prefix_app in E.
  destruct (strip_prefix true (name ++ "=") _) as [s1|] eqn:E1; [|discriminate].
  destruct (strip_prefix_split _ _ _ E1) as (a & Hs & Ha).
  destruct s1 as [|d s1]; [discriminate|].
  change (strip_prefix true q (String d s1))
    with (if Ascii.eqb (canon true DQ) (canon true d) then Some s1 else None) in E.
  rewrite canon_quote in E. destruct (Ascii.eqb d DQ) eqn:Ed; [|discriminate].
  assert (Hq : not_quote d = true).
  { apply (@inside_the_run not_quote a d s1
             (String c pre ++ written ++ "=") (q ++ tail)).
    - rewrite <- Hs. now rewrite !append_assoc.
    - rewrite Ha, !length_append. simpl. lia.
    - unfold quote_free in *. rewrite <- append_assoc, all_chars_app.
      rewrite all_chars_app, Hw. cbn [all_chars] in Hpre |- *.
      now rewrite Hpre. }
  unfold not_quote in Hq. now rewrite Ed in Hq.
Qed.

Lemma until_quote_closed (v post : string) :
  quote_free v = true -> until_quote (v ++ q ++ post) = Some v.
Proof.
  intros Hv. unfold until_quote.
  rewrite (@span_split not_quote v (q ++ post) Hv); reflexivity.
Qed.

Lemma first_quoted_here (name attrs v : string) :
  match strip_prefix true (name ++ "=" ++ q) attrs with
  | Some rest => until_quote rest
  | None => None
  end = Some v ->
  first_quoted name attrs = Some v.
Proof. destruct attrs; cbn [first_quoted]; intros ->; reflexivity. Qed.

Lemma first_quoted_written (name written pre v post : string) :
  toUpperCase written = toUpperCase name ->
  quote_free pre = true ->
  quote_free written = true ->
  quote_free v = true ->
  first_quoted name (pre ++ written ++ "=" ++ q ++ v ++ q ++ post) = Some v.
Proof.
  intros Hname Hpre Hw Hv.
  assert (Hlen : String.length written = String.length name).
  { now rewrite <- (toUpperCase_length written), Hname, toUpperCase_length. }
  induction pre as [|c pre IH].
  - change (first_quoted name (written ++ "=" ++ q ++ v ++ q ++ post) = Some v).
    assert (Hhere : strip_prefix true (name ++ "=" ++ q)
                                 (written ++ "=" ++ q ++ v ++ q ++ post)
                    = Some (v ++ q ++ post)%string).
    { rewrite strip_prefix_app, (strip_prefix_caseless _ _ _ Hname).
      apply (strip_prefix_refl true ("=" ++ q)). }
    apply first_quoted_here. now rewrite Hhere, (until_quote_closed _ _ Hv).
  - change ((String c pre ++ written ++ "=" ++ q ++ v ++ q ++ post)%string)
      with (String c (pre ++ written ++ "=" ++ q ++ v ++ q ++ post)).
    cbn [first_quoted].
    change (String c (pre ++ written ++ "=" ++ q ++ v ++ q ++ post))
      with ((String c pre ++ written ++ "=" ++ q ++ (v ++ q ++ post))%string).
    rewrite (no_match_before name written c pre (v ++ q ++ post) Hlen Hpre Hw).
    apply IH. unfold quote_free in *. cbn [all_chars] in Hpre.
    now apply andb_true_iff in Hpre.
Qed.

Lemma first_quoted_none (name attrs : string) :
  quote_free attrs = true -> first_quoted name attrs = None.
Proof.
  intros H. induction attrs as [|c s IH].
  - cbn [first_quoted].
    destruct (strip_prefix true (name ++ "=" ++ q) EmptyString) as [r|] eqn:E;
      [|reflexivity].
    apply strip_prefix_length in E. rewrite !length_append in E. simpl in E. lia.
  - cbn [first_quoted].
    assert (Hhere : match strip_prefix true (name ++ "=" ++ q) (String c s) with
                    | Some rest => until_quote rest
                    | None => None
                    end = None).
    { destruct (strip_prefix true (name ++ "=" ++ q) (String c s)) as [r|] eqn:E;
        [|reflexivity].
      exfalso.
      change (name ++ "=" ++ q)%string with (name ++ ("=" ++ q))%string in E.
      rewrite <- append_assoc, strip_prefix_app in E.
      destruct (strip_prefix true (name ++ "=") _) as [s1|] eqn:E1; [|discriminate].
      destruct (strip_prefix_split _ _ _ E1) as (a & Hs & Ha).
      destruct s1 as [|d s1]; [discriminate|].
      change (strip_prefix true q (String d s1))
        with (if Ascii.eqb (canon true DQ) (canon true d) then Some s1 else None) in E.
      rewrite canon_quote in E. destruct (Ascii.eqb d DQ) eqn:Ed; [|discriminate].
      unfold quote_free in H. rewrite Hs, all_chars_app in H.
      apply andb_true_iff in H. destruct H as [_ H]. cbn [all_chars] in H.
      unfold not_quote in H. rewrite Ed in H. discriminate. }
    rewrite Hhere. apply IH. unfold quote_free in *. cbn [all_chars] in H.
    now apply andb_true_iff in H.
Qed.

(** [getAttr] gives the text between the quotes at the first place where
    the name, an equals sign and a double quote stand and a closing quote
    follows.  The letters of the name are compared without regard to case,
    and nothing is asked of what stands before the name: in quote-free text
    the value of an attribute whose name only ends in the name asked for -
    [data-id] for [id] - is read as well, and an element with such an
    attribute is located by it.  Text without a double quote, so also an
    attribute in single quotes or without quotes, gives no value. *)
Theorem getAttr_reads_the_first_quoted_value :
  (forall attrsStr name, getAttr attrsStr name = first_quoted name attrsStr)
  /\ (forall name written pre v post,
        toUpperCase written = toUpperCase name ->
        quote_free pre = true -> quote_free written = true -> quote_free v = true ->
        getAttr (pre ++ written ++ "=" ++ q ++ v ++ q ++ post) name = Some v)
  /\ (forall attrsStr name, quote_free attrsStr = true -> getAttr attrsStr name = None)
  /\ (forall tag pre v post textContent,
        quote_free pre = true -> quote_free v = true -> nonempty v = true ->
        option_map selector
          (parseHTMLAttributes tag (pre ++ "id=" ++ q ++ v ++ q ++ post) textContent)
        = Some ("#" ++ v)).
Proof.
  split; [exact getAttr_first_quoted|]. split; [|split].
  - intros name written pre v post Hname Hpre Hw Hv.
    rewrite getAttr_first_quoted. now apply first_quoted_written.
  - intros attrsStr name H. rewrite getAttr_first_quoted. now apply first_quoted_none.
  - intros tag pre v post textContent Hpre Hv Hne.
    rewrite ExtractDomFacts.parseHTMLAttributes_selector.
    assert (Hid : getAttr (pre ++ "id=" ++ q ++ v ++ q ++ post) "id" = Some v).
    { rewrite getAttr_first_quoted.
      now apply (@first_quoted_written "id" "id" pre v post). }
    rewrite Hid. unfold build_selector. cbn [truthy]. now rewrite Hne.
Qed.

(** An attribute [data-ID] read for [id], and an attribute in single
    quotes not read at all. *)
Lemma getAttr_reads_the_first_quoted_value_witness :
  getAttr (" data-ID=" ++ q ++ "7" ++ q ++ " class=" ++ q ++ "x" ++ q) "id" = Some "7"
  /\ getAttr "id='7' name=x" "id" = None.
Proof.
  split.
  - exact (proj1 (proj2 getAttr_reads_the_first_quoted_value)
             "id" "ID" " data-" "7" (" class=" ++ q ++ "x" ++ q)
             eq_refl eq_refl eq_refl eq_refl).
  - exact (proj1 (proj2 (proj2 getAttr_reads_the_first_quoted_value))
             "id='7' name=x" "id" eq_refl).
Defined.

End MarkupFacts.

(** ** The fenced block of a reply *)

Module ReplyFacts.
Import Str Regex MatcherSpec ReplySpec ProposeTools Facts RegexFacts MatcherFacts.

Lemma space_is_no_j (c : ascii) : is_space c = true -> Ascii.eqb "j"%char c = false.
Proof. destruct c as [[] [] [] [] [] [] [] []]; try reflexivity; discriminate. Qed.

Lemma span_space_trimStart (s : string) : snd (span is_space s) = trimStart s.
Proof.
  induction s as [|c s IH]; [reflexivity|]. cbn [span trimStart].
  destruct (is_space c); [|reflexivity].
  destruct (span is_space s) as [v r]. exact IH.
Qed.

Lemma trimStart_idem (s : string) : trimStart (trimStart s) = trimStart s.
Proof.
  induction s as [|c s IH]; [reflexivity|]. cbn [trimStart].
  destruct (is_space c) eqn:E; [exact IH|]. cbn [trimStart]. now rewrite E.
Qed.

Lemma trimStart_head (s : string) :
  match trimStart s with String c _ => is_space c = false | EmptyString => True end.
Proof.
  induction s as [|c s IH]; [exact I|]. cbn [trimStart].
  destruct (is_space c) eqn:E; [exact IH | exact E].
Qed.

Lemma trimStart_tick_free (s : string) :
  tick_free s = true -> tick_free (trimStart s) = true.
Proof.
  unfold tick_free. induction s as [|c s IH]; [reflexivity|]. intros H.
  cbn [trimStart]. destruct (is_space c); [|exact H].
  cbn [all_chars] in H. apply andb_true_iff in H. now apply IH.
Qed.

(** The fence pattern starts with a backtick. *)
Lemma fence_needs_tick (prev : option ascii) (s : string) :
  match s with String c _ => not_tick c = true | EmptyString => True end ->
  match_here false fence prev s = None.
Proof.
  intros H. unfold match_here, fence. cbn [seq].
  match goal with
  | |- m false (RSeq (lit ?t) ?rest) prev s [] ?k = None =>
      change (m false (lit t) prev s [] (fun p1 s1 c1 => m false rest p1 s1 c1 k) = None)
  end.
  rewrite m_lit_prefix. destruct s as [|c s]; [reflexivity|].
  unfold not_tick in H. apply negb_true_iff in H.
  change (strip_prefix false "```" (String c s))
    with (if Ascii.eqb tick c then strip_prefix false "``" s else None).
  now rewrite Ascii.eqb_sym, H.
Qed.

Lemma search_no_fence (s : string) :
  tick_free s = true ->
  forall idx prev, search false fence idx prev s = None.
Proof.
  unfold tick_free. induction s as [|c s IH]; intros H idx prev; cbn [search].
  - now rewrite fence_needs_tick.
  - cbn [all_chars] in H. apply andb_true_iff in H. destruct H as [Hc H].
    rewrite (fence_needs_tick prev (String c s) Hc). now apply IH.
Qed.

Lemma nospace_is_no_LF (c : ascii) : is_space c = false -> Ascii.eqb LF c = false.
Proof. destruct c as [[] [] [] [] [] [] [] []]; try reflexivity; discriminate. Qed.

(** After the opening backticks and the tag: white space, the body up to
    the closing backticks, which has no leading white space left. *)
Lemma fence_tail (R : Type) (prev : option ascii) (ws body post : string)
      (caps : captures) (k : cont R) (res : R) :
  all_space ws = true ->
  tick_free body = true ->
  (forall p', k p' post ((1, trimStart body) :: caps) = Some res) ->
  m false (seq [star (RSet CSpace); opt (RSet (CChar LF));
                RGroup 1 (lazy_star (RSet CAll)); lit "```"])
    prev (ws ++ body ++ "```" ++ post) caps k
  = Some res.
Proof.
  intros Hws Hbody Hk. cbn [seq]. unfold star, lazy_star.
  rewrite m_seq, m_star_class. apply walk_greedy_first.
  rewrite (span_ext (class_matches false CSpace) is_space _ (fun c => eq_refl)).
  assert (Hsplit : span is_space (ws ++ body ++ "```" ++ post)
                   = ((ws ++ fst (span is_space body))%string,
                      (trimStart body ++ "```" ++ post)%string)).
  { assert (Heq : (ws ++ body ++ "```" ++ post)%string
                  = ((ws ++ fst (span is_space body))
                     ++ (trimStart body ++ "```" ++ post))%string).
    { rewrite append_assoc. f_equal.
      rewrite <- (append_assoc (fst (span is_space body))). f_equal.
      rewrite <- span_space_trimStart. symmetry. apply span_app. }
    rewrite Heq. apply span_split.
    - unfold all_space in Hws. rewrite (all_chars_app is_space), Hws. apply span_all.
    - pose proof (trimStart_head body) as Hh.
      destruct (trimStart body); [reflexivity | exact Hh]. }
  rewrite Hsplit. cbn [fst snd].
  set (p1 := moved prev _).
  pose proof (trimStart_head body) as Hhead.
  pose proof (trimStart_tick_free body Hbody) as Htick.
  set (b := trimStart body) in *.
  rewrite m_seq, m_opt.
  assert (HLF : forall K : cont R,
             m false (RSet (CChar LF)) p1 (b ++ "```" ++ post) caps K = None).
  { intros K. cbn [m]. destruct b as [|c b'].
    - reflexivity.
    - cbn [append class_matches canon]. now rewrite (nospace_is_no_LF c Hhead). }
  rewrite HLF. cbn [or_else].
  rewrite m_seq, m_group, m_star_class.
  apply walk_lazy_first.
  - clear. induction b as [|c b IH]; [reflexivity | exact IH].
  - intros v1 c v2 Hv. rewrite m_lit_prefix.
    assert (Hc : not_tick c = true).
    { unfold tick_free in Htick. rewrite Hv, (all_chars_app not_tick) in Htick.
      apply andb_true_iff in Htick. destruct Htick as [_ Htick].
      cbn [all_chars] in Htick. now apply andb_true_iff in Htick. }
    unfold not_tick in Hc. apply negb_true_iff in Hc.
    change (strip_prefix false "```" (String c v2 ++ "```" ++ post))
      with (if Ascii.eqb tick c then strip_prefix false "``" (v2 ++ "```" ++ post)
            else None).
    now rewrite Ascii.eqb_sym, Hc.
  - rewrite m_lit_prefix, (strip_prefix_refl false "```" post).
    rewrite take_append. apply Hk.
Qed.

(** The fence pattern at an opening fence. *)
Lemma fence_match (tag ws body post : string) :
  tag = "" \/ tag = "json" ->
  all_space ws = true ->
  nonempty ws = true ->
  tick_free body = true ->
  exists t,
    forall prev,
      match_here false fence prev ("```" ++ tag ++ ws ++ body ++ "```" ++ post)
      = Some (t, [(1, trimStart body)], post).
Proof.
  intros Htag Hws Hne Hbody. unfold match_here, fence.
  set (s := ("```" ++ tag ++ ws ++ body ++ "```" ++ post)%string).
  set (k0 := fun (_ : option ascii) (s1 : string) (c1 : captures) =>
               Some (take (String.length s - String.length s1) s, c1, s1)).
  exists (take (String.length s - String.length post) s). intros prev.
  change (seq [lit "```"; opt (lit "json"); star (RSet CSpace); opt (RSet (CChar LF));
               RGroup 1 (lazy_star (RSet CAll)); lit "```"])
    with (RSeq (lit "```")
               (RSeq (opt (lit "json"))
                     (seq [star (RSet CSpace); opt (RSet (CChar LF));
                           RGroup 1 (lazy_star (RSet CAll)); lit "```"]))).
  rewrite m_seq, m_lit_prefix. unfold s at 1.
  rewrite (strip_prefix_refl false "```").
  set (p := moved prev _). rewrite m_seq, m_opt.
  assert (Htail : forall p0,
             m false (seq [star (RSet CSpace); opt (RSet (CChar LF));
                           RGroup 1 (lazy_star (RSet CAll)); lit "```"])
               p0 (ws ++ body ++ "```" ++ post) [] k0
             = Some (take (String.length s - String.length post) s,
                     [(1, trimStart body)], post)).
  { intros p0. apply fence_tail; [exact Hws | exact Hbody | intros p'; reflexivity]. }
  destruct Htag as [-> | ->].
  - change (EmptyString ++ ws ++ body ++ "```" ++ post)%string
      with (ws ++ body ++ "```" ++ post)%string.
    rewrite m_lit_prefix.
    destruct ws as [|c ws']; [discriminate|].
    unfold all_space in Hws. cbn [all_chars] in Hws. apply andb_true_iff in Hws.
    change (strip_prefix false "json" (String c ws' ++ body ++ "```" ++ post))
      with (if Ascii.eqb "j"%char c
            then strip_prefix false "son" (ws' ++ body ++ "```" ++ post) else None).
    rewrite (space_is_no_j c (proj1 Hws)). cbn [or_else]. apply Htail.
  - rewrite m_lit_prefix, (strip_prefix_refl false "json"). now rewrite Htail.
Qed.

(** A search over text without a backtick goes on to what follows. *)
Lemma search_after (pre rest : string) (t : string) (caps : captures) (r : string) :
  tick_free pre = true ->
  (forall prev, match_here false fence prev rest = Some (t, caps, r)) ->
  forall idx prev,
    exists at_, search false fence idx prev (pre ++ rest)
                = Some (MatchResult at_ t caps r).
Proof.
  intros Hpre Hrest. unfold tick_free in Hpre.
  induction pre as [|c pre IH]; intros idx prev.
  - exists idx. cbn [append]. destruct rest; cbn [search]; now rewrite Hrest.
  - cbn [all_chars] in Hpre. apply andb_true_iff in Hpre. destruct Hpre as [Hc Hpre].
    cbn [append search].
    rewrite (fence_needs_tick prev (String c (pre ++ rest)) Hc). now apply IH.
Qed.

Lemma trim_trimStart (s : string) : trim (trimStart s) = trim s.
Proof. unfold trim. now rewrite trimStart_idem. Qed.

Lemma jsonStr_plain (reply : string) :
  tick_free reply = true -> jsonStr reply = trim reply.
Proof. intros H. unfold jsonStr, exec. now rewrite search_no_fence. Qed.

(** The reply is read for its first fenced block.  In a reply without a
    backtick there is none, and the whole reply is decoded.  Where a fence -
    three backticks, the tag [json] or none, white space - opens after text
    without a backtick and the body up to the closing fence holds none, the
    body alone is decoded: what stands before the fence and after it plays
    no part, and the reply is read as the body by itself would be. *)
Theorem parseToolProposals_reads_the_fenced_block :
  forall E : Engine,
    (forall reply, tick_free reply = true ->
                   jsonStr reply = trim reply)
    /\ (forall pre tag ws body post,
          tag = "" \/ tag = "json" ->
          tick_free pre = true ->
          all_space ws = true -> nonempty ws = true ->
          tick_free body = true ->
          jsonStr (pre ++ "```" ++ tag ++ ws ++ body ++ "```" ++ post) = trim body
          /\ parseToolProposals E (pre ++ "```" ++ tag ++ ws ++ body ++ "```" ++ post)
             = parseToolProposals E body).
Proof.
  intros E. split; [exact jsonStr_plain|].
  intros pre tag ws body post Htag Hpre Hws Hne Hbody.
  assert (Hjson : jsonStr (pre ++ "```" ++ tag ++ ws ++ body ++ "```" ++ post)
                  = trim body).
  { unfold jsonStr, exec.
    destruct (@fence_match tag ws body post Htag Hws Hne Hbody) as [t Hm].
    destruct (search_after pre _ Hpre Hm 0 None) as [at_ ->].
    unfold group. cbn [m_caps capture Nat.eqb orElse]. apply trim_trimStart. }
  split; [exact Hjson|].
  unfold parseToolProposals. now rewrite Hjson, (jsonStr_plain body Hbody).
Qed.

(** A reply with a sentence before the fence and one after it. *)
Lemma parseToolProposals_reads_the_fenced_block_witness :
  jsonStr ("Here are the tools:" ++ nl ++ "```json" ++ nl ++ "[]" ++ nl ++ "```"
           ++ nl ++ "Done.") = "[]"
  /\ parseToolProposals sampleEngine
       ("Here are the tools:" ++ nl ++ "```json" ++ nl ++ "[]" ++ nl ++ "```"
        ++ nl ++ "Done.")
     = Return [].
Proof.
  exact (proj2 (parseToolProposals_reads_the_fenced_block sampleEngine)
           ("Here are the tools:" ++ nl) "json" nl ("[]" ++ nl) (nl ++ "Done.")
           (or_intror eq_refl) eq_refl eq_refl eq_refl eq_refl).
Defined.

End ReplyFacts.

(** ** The property name of a recorded step *)

Module NamingFacts.
Import Str Regex MatcherSpec NamingSpec Session Facts RegexFacts MatcherFacts.

Lemma separator_class (c : ascii) :
  class_matches false (COneOf [ch "-"; ch "_"; CSpace]) c = is_separator c.
Proof.
  unfold is_separator. cbn [class_matches existsb ch canon].
  rewrite orb_false_r, orb_assoc.
  now rewrite (Ascii.eqb_sym "-"%char c), (Ascii.eqb_sym "_"%char c).
Qed.

Lemma no_separator_is_dot (c : ascii) :
  is_separator c = false -> class_matches false CDot c = true.
Proof. destruct c as [[] [] [] [] [] [] [] []]; try reflexivity; discriminate. Qed.

Lemma take_all (s : string) : take (String.length s) s = s.
Proof. induction s as [|x s IH]; [reflexivity|]. cbn [String.length take]. now rewrite IH. Qed.

(** One attempt of the separator pattern. *)
Lemma separator_match_here (prev : option ascii) (s : string) :
  match_here false sep_re prev s
  = match s with
    | EmptyString => None
    | String c s' =>
        if is_separator c then
          match snd (span is_separator s) with
          | EmptyString => Some (s, [], EmptyString)
          | String d r =>
              Some ((fst (span is_separator s) ++ String d EmptyString)%string,
                    [(1, String d EmptyString)], r)
          end
        else None
    end.
Proof.
  unfold match_here, sep_re. cbn [seq]. unfold plus. rewrite !m_seq.
  destruct s as [|c s']; [reflexivity|].
  change (m false (RSet ?cl) prev (String c s') [] ?k)
    with (if class_matches false cl c then k (Some c) s' [] else None).
  rewrite separator_class. destruct (is_separator c) eqn:Ec; [|reflexivity].
  cbv beta. rewrite m_star_class.
  pose proof (span_app is_separator s') as Happ.
  pose proof (span_stops is_separator s') as Hstop.
  assert (Hspan : span is_separator (String c s')
                  = (String c (fst (span is_separator s')), snd (span is_separator s'))).
  { cbn [span]. rewrite Ec. now destruct (span is_separator s'). }
  rewrite Hspan. cbn [fst snd].
  destruct (span is_separator s') as [v r] eqn:Es. cbn [fst snd] in *. subst s'.
  destruct r as [|d r].
  - apply walk_greedy_first.
    rewrite (span_ext _ is_separator _ separator_class), Es. cbn [fst snd].
    rewrite m_opt, m_group. cbn [m or_else String.length].
    rewrite Nat.sub_0_r.
    change (S (String.length (v ++ ""))) with (String.length (String c (v ++ ""))).
    now rewrite take_all.
  - apply walk_greedy_first.
    rewrite (span_ext _ is_separator _ separator_class), Es. cbn [fst snd].
    rewrite m_opt, m_group.
    change (m false (RSet CDot) ?p (String d r) [] ?k)
      with (if class_matches false CDot d then k (Some d) r [] else None).
    rewrite (no_separator_is_dot d Hstop). cbv beta. cbn [or_else].
    pose proof (take_append (String d EmptyString) r) as H1.
    change (String d EmptyString ++ r)%string with (String d r) in H1. rewrite H1.
    pose proof (take_append (String c v ++ String d EmptyString) r) as H2.
    rewrite append_assoc in H2.
    change (String c v ++ String d EmptyString ++ r)%string
      with (String c (v ++ String d r)) in H2.
    now rewrite H2.
Qed.

Lemma take_exact (u x : string) : take (String.length u) (u ++ x) = u.
Proof.
  induction u as [|c u IH]; [now destruct x|]. cbn [String.length append take].
  now rewrite IH.
Qed.

Lemma drop_exact (u x : string) : drop (String.length u) (u ++ x) = x.
Proof. induction u as [|c u IH]; [reflexivity | exact IH]. Qed.

(** The first match of the separator pattern lies after the text without
    separators. *)
Lemma separator_search (u t : string) :
  all_chars no_separator u = true ->
  forall idx prev,
    search false sep_re idx prev (u ++ t)
    = match match_here false sep_re None t with
      | Some (x, c, r) => Some (MatchResult (idx + String.length u) x c r)
      | None =>
          match t with
          | EmptyString => None
          | String a t' => search false sep_re (S (idx + String.length u)) (Some a) t'
          end
      end.
Proof.
  induction u as [|c u IH]; intros Hu idx prev.
  - cbn [append String.length]. rewrite Nat.add_0_r.
    destruct t as [|a t']; cbn [search];
      rewrite (separator_match_here prev), (separator_match_here None); reflexivity.
  - cbn [all_chars] in Hu. apply andb_true_iff in Hu. destruct Hu as [Hc Hu].
    cbn [append search]. rewrite separator_match_here.
    unfold no_separator in Hc. apply negb_true_iff in Hc. rewrite Hc.
    rewrite (IH Hu). cbn [String.length]. now rewrite Nat.add_succ_r.
Qed.

Lemma camel_from_kept (u t : string) :
  all_chars no_separator u = true ->
  camel_from false (u ++ t) = (u ++ camel_from false t)%string.
Proof.
  induction u as [|c u IH]; intros Hu; [reflexivity|].
  cbn [all_chars] in Hu. apply andb_true_iff in Hu. destruct Hu as [Hc Hu].
  unfold no_separator in Hc. apply negb_true_iff in Hc.
  cbn [append camel_from]. now rewrite Hc, (IH Hu).
Qed.

Lemma camel_from_run (up : bool) (v r : string) :
  all_chars is_separator v = true -> nonempty v = true ->
  camel_from up (v ++ r) = camel_from true r.
Proof.
  revert up. induction v as [|c v IH]; intros up Hv Hne; [discriminate|].
  cbn [all_chars] in Hv. apply andb_true_iff in Hv. destruct Hv as [Hc Hv].
  cbn [append camel_from]. rewrite Hc.
  destruct v as [|c' v']; [reflexivity|]. now apply IH.
Qed.

(** Replacing the matches of the separator pattern is [camel_from]. *)
Lemma separators_replaced (n : nat) :
  forall (s : string) (fuel idx : nat) (prev : option ascii),
    String.length s <= n ->
    String.length s < fuel ->
    splice camel_f idx s (all_from false sep_re fuel idx prev s) = camel_from false s.
Proof.
  induction n as [|n IH]; intros s fuel idx prev Hn Hfuel.
  - destruct s; [|simpl in Hn; lia]. destruct fuel; [lia|]. reflexivity.
  - destruct fuel as [|fuel]; [lia|]. cbn [all_from].
    pose proof (span_app no_separator s) as Happ.
    pose proof (span_all no_separator s) as Hall.
    pose proof (span_stops no_separator s) as Hstop.
    destruct (span no_separator s) as [u t]. cbn [fst snd] in *. subst s.
    rewrite (separator_search u t Hall).
    rewrite separator_match_here.
    destruct t as [|c t'].
    + cbn [splice]. now rewrite camel_from_kept by exact Hall.
    + unfold no_separator in Hstop. apply negb_false_iff in Hstop. rewrite Hstop.
      pose proof (span_app is_separator (String c t')) as Happ2.
      pose proof (span_all is_separator (String c t')) as Hall2.
      pose proof (span_stops is_separator (String c t')) as Hstop2.
      assert (Hne : nonempty (fst (span is_separator (String c t'))) = true).
      { cbn [span]. rewrite Hstop. now destruct (span is_separator t'). }
      destruct (span is_separator (String c t')) as [v r]. cbn [fst snd] in *.
      rewrite camel_from_kept by exact Hall.
      destruct r as [|d r']; cbv beta iota; rewrite <- Happ2 in *;
        clear Happ2 Hstop c t'.
      * rewrite append_nil_r in *.
        destruct v as [|c0 v0]; [discriminate|].
        cbn [m_text m_rest m_index].
        assert (Hrest : forall i p, all_from false sep_re fuel i p EmptyString = []).
        { intros i p. destruct fuel; reflexivity. }
        rewrite Hrest. cbn [splice m_index m_text].
        unfold camel_f, group. cbn [m_caps capture].
        replace (idx + String.length u - idx) with (String.length u) by lia.
        rewrite take_exact.
        rewrite <- (append_nil_r (String c0 v0)) at 3.
        rewrite (camel_from_run false (String c0 v0) EmptyString Hall2 Hne).
        cbn [camel_from append].
        replace (String.length u + String.length (String c0 v0))
          with (String.length (u ++ String c0 v0)) by apply length_append.
        rewrite <- (append_nil_r (u ++ String c0 v0)) at 2.
        rewrite drop_exact. reflexivity.
      * cbn [m_text m_rest m_index].
        destruct (v ++ String d EmptyString)%string as [|c0 t0] eqn:Et.
        { destruct v; discriminate. }
        rewrite <- Et. clear Et c0 t0.
        cbn [splice m_index m_text].
        unfold camel_f at 1, group. cbn [m_caps capture Nat.eqb nonempty].
        replace (idx + String.length u - idx) with (String.length u) by lia.
        rewrite take_exact.
        assert (Hs : (u ++ v ++ String d r')%string
                     = ((u ++ (v ++ String d EmptyString)) ++ r')%string).
        { now rewrite !append_assoc. }
        replace (String.length u + String.length (v ++ String d EmptyString))
          with (String.length (u ++ (v ++ String d EmptyString)))
          by apply length_append.
        rewrite Hs, drop_exact.
        rewrite IH.
        -- rewrite (camel_from_run false v _ Hall2 Hne).
           cbn [camel_from]. rewrite Hstop2. reflexivity.
        -- rewrite !length_append in Hn. simpl in Hn. lia.
        -- rewrite !length_append in Hfuel. simpl in Hfuel. lia.
Qed.

Lemma upper_range (c : ascii) :
  class_matches false (CRange "A" "Z") c = is_upper c.
Proof. cbn [class_matches andb]. now rewrite orb_false_r. Qed.

Lemma lower_char_fixed (c : ascii) : is_upper c = false -> lower_char c = c.
Proof. intros H. unfold lower_char. now rewrite H. Qed.

(** Replacing a capital at the start by its lower case. *)
Lemma first_capital_replaced (x : string) :
  replace_first false (seq [RStart; RSet (CRange "A" "Z")])
    (fun mt => toLowerCase (m_text mt)) x
  = lower_first x.
Proof.
  unfold replace_first, exec. destruct x as [|c w]; [reflexivity|].
  cbn [search]. unfold match_here. cbn [seq]. rewrite m_seq.
  change (m false RStart None (String c w) [] ?k) with (k None (String c w) []).
  cbv beta.
  change (m false (RSet (CRange "A" "Z")) None (String c w) [] ?k)
    with (if class_matches false (CRange "A" "Z") c then k (Some c) w [] else None).
  rewrite upper_range. destruct (is_upper c) eqn:Eu.
  - pose proof (take_append (String c EmptyString) w) as Ht.
    change (String c EmptyString ++ w)%string with (String c w) in Ht. rewrite Ht.
    reflexivity.
  - assert (Hlater : forall s idx a,
               search false (RSeq RStart (RSet (CRange "A" "Z"))) idx (Some a) s = None).
    { induction s as [|d s IH]; intros idx a; cbn [search]; [reflexivity|].
      unfold match_here. rewrite m_seq.
      change (m false RStart (Some a) (String d s) [] ?k)
        with (@None (string * captures * string)).
      apply IH. }
    rewrite Hlater. unfold lower_first. now rewrite (lower_char_fixed c Eu).
Qed.

Lemma toCamelCase_camel (s : string) : toCamelCase s = camel s.
Proof.
  unfold toCamelCase, camel. rewrite first_capital_replaced. f_equal.
  unfold replace_all, exec_all.
  apply (@separators_replaced (String.length s)); lia.
Qed.

Lemma id_class (c : ascii) :
  class_matches false (COneOf [CWord; ch "-"]) c = id_char c.
Proof.
  unfold id_char. cbn [class_matches existsb ch canon].
  now rewrite orb_false_r, (Ascii.eqb_sym "-"%char c).
Qed.

Lemma value_class (c : ascii) :
  class_matches false attr_value_char c = value_char c.
Proof.
  unfold value_char, attr_value_char. cbn [class_matches existsb ch canon].
  rewrite orb_false_r, orb_assoc.
  now rewrite (Ascii.eqb_sym DQ c), (Ascii.eqb_sym "'"%char c), (Ascii.eqb_sym "]"%char c).
Qed.

(** A captured run of one or more characters of a class, taken whole. *)
Lemma group_plus_class (R : Type) (n : nat) (cl : cclass) (p : ascii -> bool)
      (prev : option ascii) (s w r : string) (caps : captures) (k : cont R) (res : R) :
  (forall c, class_matches false cl c = p c) ->
  s = (w ++ r)%string ->
  nonempty w = true ->
  all_chars p w = true ->
  match r with String c _ => p c = false | EmptyString => True end ->
  (forall p', k p' r ((n, w) :: caps) = Some res) ->
  m false (RGroup n (plus (RSet cl))) prev s caps k = Some res.
Proof.
  intros Hcl -> Hne Hw Hr Hk. destruct w as [|c w]; [discriminate|].
  cbn [all_chars] in Hw. apply andb_true_iff in Hw. destruct Hw as [Hc Hw].
  rewrite m_group. unfold plus. rewrite m_seq.
  change (m false (RSet cl) prev (String c w ++ r) caps ?k')
    with (if class_matches false cl c then k' (Some c) (w ++ r)%string caps else None).
  rewrite Hcl, Hc. cbv beta. rewrite m_star_class. apply walk_greedy_first.
  rewrite (span_ext _ p _ Hcl), (span_split p w r Hw Hr). cbn [fst snd].
  rewrite (take_append (String c w) r). apply Hk.
Qed.

(** The first attribute of a kind in a selector: after text without a
    bracket, the attribute's name, an optional quote and the value. *)
Lemma attribute_exec (attr pre open_ w rest : string) :
  all_chars no_bracket pre = true ->
  In open_ [EmptyString; q; "'"] ->
  nonempty w = true ->
  all_chars value_char w = true ->
  match rest with String c _ => value_char c = false | EmptyString => True end ->
  exists at_ t,
    exec false (seq [lit (String "[" attr); opt (RSet quote_or_apostrophe);
                     RGroup 1 (plus (RSet attr_value_char))])
         (pre ++ String "[" attr ++ open_ ++ w ++ rest)
    = Some (MatchResult at_ t [(1, w)] rest).
Proof.
  intros Hpre Hopen Hne Hw Hrest.
  set (re := seq [lit (String "[" attr); opt (RSet quote_or_apostrophe);
                  RGroup 1 (plus (RSet attr_value_char))]).
  set (s := (String "[" attr ++ open_ ++ w ++ rest)%string).
  assert (Hhere : forall prev,
             match_here false re prev s
             = Some (take (String.length s - String.length rest) s, [(1, w)], rest)).
  { intros prev. unfold match_here, re. cbn [seq].
    rewrite m_seq, m_lit_prefix. unfold s at 1.
    rewrite (strip_prefix_refl false (String "[" attr)).
    rewrite m_seq, m_opt.
    assert (Hgroup : forall p0,
               m false (RGroup 1 (plus (RSet attr_value_char))) p0 (w ++ rest) []
                 (fun (_ : option ascii) (s1 : string) (c1 : captures) =>
                    Some (take (String.length s - String.length s1) s, c1, s1))
               = Some (take (String.length s - String.length rest) s, [(1, w)], rest)).
    { intros p0.
      apply (@group_plus_class _ 1 attr_value_char value_char p0 _ w rest);
        [exact value_class | reflexivity | exact Hne | exact Hw | exact Hrest
         | intros p'; reflexivity]. }
    clearbody s.
    destruct Hopen as [<- | [<- | [<- | []]]].
    - change (EmptyString ++ w ++ rest)%string with (w ++ rest)%string.
      destruct w as [|c w']; [discriminate|].
      cbn [all_chars] in Hw. apply andb_true_iff in Hw.
      change (m false (RSet quote_or_apostrophe) ?p (String c w' ++ rest) [] ?k)
        with (if class_matches false quote_or_apostrophe c
              then k (Some c) (w' ++ rest)%string [] else None).
      assert (Hc : class_matches false quote_or_apostrophe c = false).
      { destruct Hw as [Hc _]. unfold value_char in Hc. apply negb_true_iff in Hc.
        apply orb_false_iff in Hc. destruct Hc as [Hc _].
        apply orb_false_iff in Hc. destruct Hc as [H1 H2].
        unfold quote_or_apostrophe. cbn [class_matches existsb ch canon].
        now rewrite (Ascii.eqb_sym DQ c), (Ascii.eqb_sym "'"%char c), H1, H2. }
      rewrite Hc. cbn [or_else]. apply Hgroup.
    - change (m false (RSet quote_or_apostrophe) ?p (q ++ w ++ rest) [] ?k)
        with (k (Some DQ) (w ++ rest)%string []).
      cbv beta. now rewrite Hgroup.
    - change (m false (RSet quote_or_apostrophe) ?p ("'" ++ w ++ rest) [] ?k)
        with (k (Some "'"%char) (w ++ rest)%string []).
      cbv beta. now rewrite Hgroup. }
  destruct (@search_skips false re no_bracket) with
    (pre := pre) (rest := s) (t := take (String.length s - String.length rest) s)
    (caps := [(1, w)]) (r := rest) (idx := 0) (prev := @None ascii)
    as [at_ Hs]; [|exact Hpre|exact Hhere|].
  - intros prev c s' Hc. unfold match_here, re. cbn [seq].
    rewrite m_seq, m_lit_prefix.
    change (strip_prefix false (String "[" attr) (String c s'))
      with (if Ascii.eqb "["%char c then strip_prefix false attr s' else None).
    unfold no_bracket in Hc. apply negb_true_iff in Hc.
    now rewrite Ascii.eqb_sym, Hc.
  - exists at_, (take (String.length s - String.length rest) s). exact Hs.
Qed.

Lemma inferPropertyName_name (pre open_ w rest : string) (action : ActionKind) :
  all_chars no_bracket pre = true ->
  In open_ [EmptyString; q; "'"] ->
  nonempty w = true ->
  all_chars value_char w = true ->
  match rest with String c _ => value_char c = false | EmptyString => True end ->
  inferPropertyName (pre ++ "[name=" ++ open_ ++ w ++ rest) action = camel w.
Proof.
  intros Hpre Hopen Hne Hw Hrest. unfold inferPropertyName.
  destruct (@attribute_exec "name=" pre open_ w rest Hpre Hopen Hne Hw Hrest)
    as (at_ & t & Hs).
  change (seq [lit "[name="; opt (RSet quote_or_apostrophe);
               RGroup 1 (plus (RSet attr_value_char))]) with name_pattern in Hs.
  change (pre ++ "[name=" ++ open_ ++ w ++ rest)%string
    with (pre ++ "[name=" ++ open_ ++ w ++ rest)%string in Hs.
  rewrite Hs. unfold group. cbn [m_caps capture Nat.eqb orElse].
  apply toCamelCase_camel.
Qed.

Lemma inferPropertyName_placeholder (pre open_ w rest : string) (action : ActionKind) :
  contains "[name=" (pre ++ "[placeholder=" ++ open_ ++ w ++ rest) = false ->
  contains "#" (pre ++ "[placeholder=" ++ open_ ++ w ++ rest) = false ->
  all_chars no_bracket pre = true ->
  In open_ [EmptyString; q; "'"] ->
  nonempty w = true ->
  all_chars value_char w = true ->
  match rest with String c _ => value_char c = false | EmptyString => True end ->
  inferPropertyName (pre ++ "[placeholder=" ++ open_ ++ w ++ rest) action = camel w.
Proof.
  intros Hn Hi Hpre Hopen Hne Hw Hrest. unfold inferPropertyName.
  assert (Hn' : exec false name_pattern (pre ++ "[placeholder=" ++ open_ ++ w ++ rest)
                = None).
  { unfold exec, name_pattern. cbn [seq]. now apply search_lit_absent. }
  assert (Hi' : exec false id_pattern (pre ++ "[placeholder=" ++ open_ ++ w ++ rest)
                = None).
  { unfold exec, id_pattern. cbn [seq]. now apply search_lit_absent. }
  rewrite Hn', Hi'.
  destruct (@attribute_exec "placeholder=" pre open_ w rest Hpre Hopen Hne Hw Hrest)
    as (at_ & t & Hs).
  change (seq [lit "[placeholder="; opt (RSet quote_or_apostrophe);
               RGroup 1 (plus (RSet attr_value_char))]) with placeholder_pattern in Hs.
  rewrite Hs. unfold group. cbn [m_caps capture Nat.eqb orElse].
  apply toCamelCase_camel.
Qed.

Lemma inferPropertyName_id (w rest : string) (action : ActionKind) :
  contains "[name=" ("#" ++ w ++ rest) = false ->
  nonempty w = true ->
  all_chars id_char w = true ->
  match rest with String c _ => id_char c = false | EmptyString => True end ->
  inferPropertyName ("#" ++ w ++ rest) action = camel w.
Proof.
  intros Hname Hne Hw Hrest. unfold inferPropertyName.
  assert (Hn : exec false name_pattern ("#" ++ w ++ rest) = None).
  { unfold exec, name_pattern. cbn [seq]. now apply search_lit_absent. }
  rewrite Hn.
  assert (Hid : exists t, exec false id_pattern ("#" ++ w ++ rest)
                          = Some (MatchResult 0 t [(1, w)] rest)).
  { unfold exec, id_pattern. cbn [seq].
    change ("#" ++ w ++ rest)%string with (String "#" (w ++ rest)). cbn [search].
    unfold match_here. rewrite m_seq, m_lit_prefix.
    change (strip_prefix false "#" (String "#" (w ++ rest))) with (Some (w ++ rest)%string).
    eexists.
    rewrite (@group_plus_class _ 1 (COneOf [CWord; ch "-"]) id_char _ _ w rest [] _
               (take (String.length (String "#" (w ++ rest)) - String.length rest)
                     (String "#" (w ++ rest)), [(1, w)], rest));
      [reflexivity | exact id_class | reflexivity | exact Hne | exact Hw | exact Hrest
       | intros p'; reflexivity]. }
  destruct Hid as [t ->]. unfold group. cbn [m_caps capture Nat.eqb orElse].
  apply toCamelCase_camel.
Qed.

Lemma inferPropertyName_fallback (selector : string) (action : ActionKind) :
  contains "[name=" selector = false ->
  contains "#" selector = false ->
  contains "[placeholder=" selector = false ->
  inferPropertyName selector action = (action_text action ++ "Value")%string.
Proof.
  intros Hn Hi Hp. unfold inferPropertyName, exec.
  unfold name_pattern, id_pattern, placeholder_pattern. cbn [seq].
  now rewrite (search_lit_absent _ _ _ Hn), (search_lit_absent _ _ _ Hi),
    (search_lit_absent _ _ _ Hp).
Qed.

(** The property name of a recorded fill or select.  [toCamelCase] takes
    the hyphens, underscores and white space out of a text, puts the
    character after each run of them in upper case and the first character
    of the result in lower case.  Where the first bracket of a selector
    opens a name attribute, the property name is [toCamelCase] of its value
    - in double quotes, in single quotes or bare, as far as the next quote
    or closing bracket.  For a selector that starts with [#] and holds no
    name attribute it is [toCamelCase] of the id, as far as word characters
    and hyphens go; for one without name attribute and [#] whose first
    bracket opens a placeholder attribute, of that value.  A selector that
    holds neither a name attribute nor a [#] nor a placeholder attribute -
    by class, by label, by text - gives the name of the action followed by
    [Value], whatever the selector: all such fills of one tool share the
    property [fillValue]. *)
Theorem inferPropertyName_camel_cases_an_attribute_of_the_selector :
  (forall s, toCamelCase s = camel s)
  /\ (forall action pre open_ w rest,
        all_chars no_bracket pre = true ->
        In open_ [EmptyString; q; "'"] ->
        nonempty w = true ->
        all_chars value_char w = true ->
        match rest with String c _ => value_char c = false | EmptyString => True end ->
        inferPropertyName (pre ++ "[name=" ++ open_ ++ w ++ rest) action = camel w)
  /\ (forall action w rest,
        contains "[name=" ("#" ++ w ++ rest) = false ->
        nonempty w = true ->
        all_chars id_char w = true ->
        match rest with String c _ => id_char c = false | EmptyString => True end ->
        inferPropertyName ("#" ++ w ++ rest) action = camel w)
  /\ (forall action pre open_ w rest,
        contains "[name=" (pre ++ "[placeholder=" ++ open_ ++ w ++ rest) = false ->
        contains "#" (pre ++ "[placeholder=" ++ open_ ++ w ++ rest) = false ->
        all_chars no_bracket pre = true ->
        In open_ [EmptyString; q; "'"] ->
        nonempty w = true ->
        all_chars value_char w = true ->
        match rest with String c _ => value_char c = false | EmptyString => True end ->
        inferPropertyName (pre ++ "[placeholder=" ++ open_ ++ w ++ rest) action = camel w)
  /\ (forall action selector,
        contains "[name=" selector = false ->
        contains "#" selector = false ->
        contains "[placeholder=" selector = false ->
        inferPropertyName selector action = (action_text action ++ "Value")%string).
Proof.
  split; [exact toCamelCase_camel|]. split; [|split; [|split]].
  - intros action pre open_ w rest. apply inferPropertyName_name.
  - intros action w rest. apply inferPropertyName_id.
  - intros action pre open_ w rest. apply inferPropertyName_placeholder.
  - intros action selector. apply inferPropertyName_fallback.
Qed.

(** A selector by id, one by name, one by placeholder and one by class. *)
Lemma inferPropertyName_camel_cases_witness :
  inferPropertyName "#email-input" fill = "emailInput"
  /\ inferPropertyName ("input[name=" ++ q ++ "first_name" ++ q ++ "]") fill = "firstName"
  /\ inferPropertyName ("input[placeholder=" ++ q ++ "Your name" ++ q ++ "]") fill
     = "yourName"
  /\ inferPropertyName ".query" select = "selectValue".
Proof.
  split; [|split; [|split]].
  - exact (proj1 (proj2 (proj2 inferPropertyName_camel_cases_an_attribute_of_the_selector))
             fill "email-input" EmptyString eq_refl eq_refl eq_refl I).
  - exact (proj1 (proj2 inferPropertyName_camel_cases_an_attribute_of_the_selector)
             fill "input" q "first_name" (q ++ "]")
             eq_refl (or_intror (or_introl eq_refl)) eq_refl eq_refl eq_refl).
  - exact (proj1 (proj2 (proj2 (proj2
                    inferPropertyName_camel_cases_an_attribute_of_the_selector)))
             fill "input" q "Your name" (q ++ "]")
             eq_refl eq_refl eq_refl (or_intror (or_introl eq_refl))
             eq_refl eq_refl eq_refl).
  - exact (proj2 (proj2 (proj2 (proj2
                    inferPropertyName_camel_cases_an_attribute_of_the_selector)))
             select ".query" eq_refl eq_refl eq_refl).
Defined.

End NamingFacts.

(** ** The markup pass on simple pages *)

Module ElementFacts.
Import Str Regex MatcherSpec ElementSpec ExtractDom ExtractDomSpec TreePassSpec.
Import Facts RegexFacts MatcherFacts.

Lemma canon_lt (c : ascii) :
  Ascii.eqb (canon true "<") (canon true c) = Ascii.eqb c "<".
Proof. destruct c as [[] [] [] [] [] [] [] []]; reflexivity. Qed.

Lemma canon_gt (c : ascii) :
  Ascii.eqb (canon true ">") (canon true c) = Ascii.eqb c ">".
Proof. destruct c as [[] [] [] [] [] [] [] []]; reflexivity. Qed.

(** A pattern that starts with an opening angle bracket matches only at
    one. *)
Lemma starts_lt_fails (t : string) (rest : regex) (prev : option ascii) (s : string) :
  match s with String c _ => not_lt c = true | EmptyString => True end ->
  match_here true (RSeq (lit (String "<" t)) rest) prev s = None.
Proof.
  intros H. unfold match_here. rewrite m_seq, m_lit_prefix.
  destruct s as [|c s]; [reflexivity|].
  change (strip_prefix true (String "<" t) (String c s))
    with (if Ascii.eqb (canon true "<") (canon true c) then strip_prefix true t s
          else None).
  unfold not_lt in H. apply negb_true_iff in H. now rewrite canon_lt, H.
Qed.

Lemma search_markup_free (t : string) (rest : regex) (s : string) :
  markup_free s = true ->
  forall idx prev, search true (RSeq (lit (String "<" t)) rest) idx prev s = None.
Proof.
  intros H. apply (@search_none_by_head true _ not_lt); [| |exact H].
  - intros prev. now apply starts_lt_fails.
  - intros prev c s' Hc. now apply starts_lt_fails.
Qed.

Lemma exec_all_markup_free (t : string) (rest : regex) (s : string) :
  markup_free s = true ->
  exec_all true (RSeq (lit (String "<" t)) rest) s = [].
Proof.
  intros H. unfold exec_all. cbn [all_from]. now rewrite search_markup_free.
Qed.

Lemma extractFromHTML_markup_free (bodyHTML : string) :
  markup_free bodyHTML = true -> extractFromHTML bodyHTML = [].
Proof.
  intros H. unfold extractFromHTML, patterns. cbn [flat_map fst snd].
  unfold button_pattern, input_pattern, select_pattern, textarea_pattern,
    link_pattern, handler_pattern.
  cbn [seq].
  rewrite !(@exec_all_markup_free _ _ bodyHTML H). reflexivity.
Qed.

(** Whatever a pattern consumes, its continuation goes on at a suffix of
    the text. *)
Lemma m_suffix (ci : bool) (R : Type) (r : regex) :
  forall prev s caps (k : cont R) res,
    m ci r prev s caps k = Some res ->
    exists p' s' caps' x, k p' s' caps' = Some res /\ s = (x ++ s')%string.
Proof.
  induction r as [|cl|a IHa b IHb|a IHa b IHb|g a IHa|g a IHa|g|a IHa| |];
    intros prev s caps k res H; cbn [m] in H.
  - now exists prev, s, caps, EmptyString.
  - destruct s as [|c s]; [discriminate|].
    destruct (class_matches ci cl c); [|discriminate].
    now exists (Some c), s, caps, (String c EmptyString).
  - destruct (IHa _ _ _ _ _ H) as (p1 & s1 & c1 & x1 & H1 & ->).
    destruct (IHb _ _ _ _ _ H1) as (p2 & s2 & c2 & x2 & H2 & ->).
    exists p2, s2, c2, (x1 ++ x2)%string. split; [exact H2 | now rewrite append_assoc].
  - unfold or_else in H. destruct (m ci a prev s caps k) eqn:E.
    + injection H as <-. now apply (IHa _ _ _ _ _ E).
    + now apply (IHb _ _ _ _ _ H).
  - revert H. generalize (String.length s) at 1. intros fuel.
    revert prev s caps res.
    induction fuel as [|fuel IHf]; intros prev s caps res H.
    + now exists prev, s, caps, EmptyString.
    + assert (Hagain :
                forall res0,
                  m ci a prev s caps
                    (fun p1 s1 c1 =>
                       if String.length s1 <? String.length s
                       then (fix loop (fuel : nat) (prev : option ascii) (s : string)
                                      (caps : captures) {struct fuel} : option R :=
                               match fuel with
                               | O => k prev s caps
                               | S fuel' =>
                                   let again :=
                                     m ci a prev s caps
                                       (fun p1 s1 c1 =>
                                          if String.length s1 <? String.length s
                                          then loop fuel' p1 s1 c1 else None) in
                                   if g then or_else again (k prev s caps)
                                   else or_else (k prev s caps) again
                               end) fuel p1 s1 c1
                       else None) = Some res0 ->
                  exists p' s' caps' x, k p' s' caps' = Some res0 /\ s = (x ++ s')%string).
      { intros res0 H0.
        destruct (IHa _ _ _ _ _ H0) as (p1 & s1 & c1 & x1 & H1 & ->).
        destruct (String.length s1 <? String.length (x1 ++ s1)); [|discriminate].
        destruct (IHf _ _ _ _ H1) as (p2 & s2 & c2 & x2 & H2 & ->).
        exists p2, s2, c2, (x1 ++ x2)%string.
        split; [exact H2 | now rewrite append_assoc]. }
      cbn zeta in H. unfold or_else in H.
      destruct g.
      * match type of H with
        | match ?x with _ => _ end = _ => destruct x eqn:E
        end.
        -- injection H as <-. now apply Hagain.
        -- now exists prev, s, caps, EmptyString.
      * destruct (k prev s caps) eqn:Ek.
        -- injection H as <-. now exists prev, s, caps, EmptyString.
        -- now apply Hagain.
  - destruct (IHa _ _ _ _ _ H) as (p1 & s1 & c1 & x1 & H1 & ->).
    eexists p1, s1, _, x1. split; [exact H1 | reflexivity].
  - destruct (capture g caps) as [t|]; [|now exists prev, s, caps, EmptyString].
    destruct (strip_prefix ci t s) as [s'|] eqn:E; [|discriminate].
    destruct (strip_prefix_split _ _ _ E) as (x & -> & _).
    eexists _, s', caps, x. split; [exact H | reflexivity].
  - destruct (m ci a prev s caps (fun _ _ _ => Some tt)); [discriminate|].
    now exists prev, s, caps, EmptyString.
  - destruct (xorb _ _); [|discriminate]. now exists prev, s, caps, EmptyString.
  - destruct prev; [discriminate|]. now exists None, s, caps, EmptyString.
Qed.

Lemma m_seq_suffix (ci : bool) (R : Type) (a b : regex) :
  forall prev s caps (k : cont R) res,
    m ci (RSeq a b) prev s caps k = Some res ->
    exists p' s' caps' x, m ci b p' s' caps' k = Some res /\ s = (x ++ s')%string.
Proof. intros prev s caps k res H. rewrite m_seq in H. exact (m_suffix _ _ _ _ _ _ H). Qed.

Lemma markup_free_suffix (x s : string) :
  markup_free (x ++ s) = true -> markup_free s = true.
Proof.
  unfold markup_free. rewrite all_chars_app. intros H.
  now apply andb_true_iff in H.
Qed.

(** The pattern of elements with a handler needs a closing tag: it finds
    nothing where only one angle bracket opens. *)
Lemma handler_needs_closing_tag (prev : option ascii) (tail : string) :
  markup_free tail = true ->
  match_here true handler_pattern prev (String "<" tail) = None.
Proof.
  intros Htail. unfold match_here.
  destruct (m true handler_pattern prev (String "<" tail) [] _) as [res|] eqn:E;
    [|reflexivity].
  exfalso. unfold handler_pattern in E. cbn [seq] in E.
  rewrite m_seq, m_lit_prefix in E.
  change (strip_prefix true "<" (String "<" tail)) with (Some tail) in E.
  apply m_seq_suffix in E. destruct E as (p1 & s1 & c1 & x1 & E & ->).
  apply markup_free_suffix in Htail.
  apply m_seq_suffix in E. destruct E as (p2 & s2 & c2 & x2 & E & ->).
  apply markup_free_suffix in Htail.
  apply m_seq_suffix in E. destruct E as (p3 & s3 & c3 & x3 & E & ->).
  apply markup_free_suffix in Htail.
  apply m_seq_suffix in E. destruct E as (p4 & s4 & c4 & x4 & E & ->).
  apply markup_free_suffix in Htail.
  apply m_seq_suffix in E. destruct E as (p5 & s5 & c5 & x5 & E & ->).
  apply markup_free_suffix in Htail.
  rewrite m_seq, m_lit_prefix in E.
  destruct s5 as [|c s5]; [discriminate|].
  change (strip_prefix true "</" (String c s5))
    with (if Ascii.eqb (canon true "<") (canon true c) then strip_prefix true "/" s5
          else None) in E.
  unfold markup_free in Htail. cbn [all_chars] in Htail.
  apply andb_true_iff in Htail. destruct Htail as [Hc _].
  unfold not_lt in Hc. apply negb_true_iff in Hc.
  rewrite canon_lt, Hc in E. discriminate.
Qed.

(** A search in text with one opening angle bracket finds what a match at
    that bracket gives. *)
Lemma search_only_at (t : string) (rest : regex) (pre tail : string) :
  markup_free pre = true ->
  markup_free tail = true ->
  (forall prev, match_here true (RSeq (lit (String "<" t)) rest) prev (String "<" tail)
                = None) ->
  forall idx prev,
    search true (RSeq (lit (String "<" t)) rest) idx prev (pre ++ String "<" tail) = None.
Proof.
  intros Hpre Htail Hel. unfold markup_free in Hpre.
  induction pre as [|c pre IH]; intros idx prev.
  - cbn [append search]. rewrite Hel. now apply search_markup_free.
  - cbn [all_chars] in Hpre. apply andb_true_iff in Hpre. destruct Hpre as [Hc Hpre].
    cbn [append search]. rewrite starts_lt_fails by exact Hc. now apply IH.
Qed.

Lemma exec_all_only_at (t : string) (rest : regex) (pre tail : string) :
  markup_free pre = true ->
  markup_free tail = true ->
  (forall prev, match_here true (RSeq (lit (String "<" t)) rest) prev (String "<" tail)
                = None) ->
  exec_all true (RSeq (lit (String "<" t)) rest) (pre ++ String "<" tail) = [].
Proof.
  intros Hpre Htail Hel. unfold exec_all. cbn [all_from].
  now rewrite (@search_only_at t rest pre tail Hpre Htail Hel).
Qed.

Lemma not_gt_class (c : ascii) :
  class_matches true (CNoneOf [ch ">"]) c = not_gt_char c.
Proof.
  cbn [class_matches existsb ch]. rewrite canon_gt, orb_false_r. reflexivity.
Qed.

Lemma attribute_text_parts (attrs : string) :
  attribute_text attrs = true ->
  markup_free attrs = true
  /\ all_chars not_gt_char attrs = true
  /\ match attrs with String c _ => is_word c = false | EmptyString => True end.
Proof.
  unfold attribute_text. intros H. apply andb_true_iff in H. destruct H as [Hall Hhead].
  repeat split.
  - unfold markup_free. clear Hhead. induction attrs as [|c a IH]; [reflexivity|].
    cbn [all_chars] in *. apply andb_true_iff in Hall. destruct Hall as [Hc Hall].
    apply andb_true_iff in Hc. now rewrite (proj1 Hc), (IH Hall).
  - clear Hhead. induction attrs as [|c a IH]; [reflexivity|].
    cbn [all_chars] in *. apply andb_true_iff in Hall. destruct Hall as [Hc Hall].
    apply andb_true_iff in Hc. now rewrite (proj2 Hc), (IH Hall).
  - destruct attrs as [|c a]; [exact I|]. now apply negb_true_iff in Hhead.
Qed.

(** The input pattern at an input element. *)
Lemma input_match (prev : option ascii) (attrs post : string) :
  attribute_text attrs = true ->
  match_here true input_pattern prev ("<input" ++ attrs ++ ">" ++ post)
  = Some (("<input" ++ attrs ++ ">")%string, [(1, attrs)], post).
Proof.
  intros Hattrs. destruct (attribute_text_parts _ Hattrs) as (_ & Hgt & Hhead).
  unfold match_here, input_pattern. cbn [seq].
  set (s := ("<input" ++ attrs ++ ">" ++ post)%string).
  rewrite m_seq, m_lit_prefix. unfold s at 1.
  rewrite (strip_prefix_refl true "<input").
  assert (Hp : moved prev (take (String.length "<input") s) = Some "t"%char)
    by reflexivity.
  rewrite Hp. rewrite m_seq.
  change (m true RWordBoundary (Some "t"%char) (attrs ++ ">" ++ post) [] ?k)
    with (if xorb (is_word_opt (Some "t"%char))
                  (is_word_opt (head (attrs ++ ">" ++ post)))
          then k (Some "t"%char) (attrs ++ ">" ++ post)%string [] else None).
  assert (Hb : is_word_opt (head (attrs ++ ">" ++ post)) = false).
  { destruct attrs as [|c a]; [reflexivity | exact Hhead]. }
  rewrite Hb. cbn [is_word_opt xorb]. cbv beta.
  change (is_word "t") with true. cbv iota.
  rewrite m_seq, m_group. unfold star at 1, not_gt. rewrite m_star_class.
  apply walk_greedy_first.
  rewrite (span_ext _ not_gt_char _ not_gt_class).
  rewrite (@span_split not_gt_char attrs (">" ++ post) Hgt eq_refl). cbn [fst snd].
  rewrite m_seq, m_opt, m_lit_prefix.
  change (strip_prefix true "/" (">" ++ post)) with (@None string). cbn [or_else].
  rewrite m_seq. unfold star. rewrite m_star_class.
  change (walk true CSpace true ?k ?p (">" ++ post) ?c) with (k p (">" ++ post)%string c).
  cbv beta. rewrite m_lit_prefix, (strip_prefix_refl true ">" post).
  rewrite (take_append attrs (">" ++ post)).
  f_equal. f_equal. f_equal.
  pose proof (take_append ("<input" ++ attrs ++ ">") post) as Ht.
  rewrite !append_assoc in Ht. exact Ht.
Qed.

Lemma exec_all_input (pre attrs post : string) :
  markup_free pre = true ->
  attribute_text attrs = true ->
  markup_free post = true ->
  exists at_,
    exec_all true input_pattern (pre ++ "<input" ++ attrs ++ ">" ++ post)
    = [MatchResult at_ ("<input" ++ attrs ++ ">") [(1, attrs)] post].
Proof.
  intros Hpre Hattrs Hpost. unfold exec_all. cbn [all_from].
  assert (Hin : input_pattern
                = RSeq (lit "<input")
                       (seq [RWordBoundary; RGroup 1 (star not_gt); opt (lit "/");
                             star (RSet CSpace); lit ">"])) by reflexivity.
  destruct (@search_skips true input_pattern not_lt) with
    (pre := pre) (rest := ("<input" ++ attrs ++ ">" ++ post)%string)
    (t := ("<input" ++ attrs ++ ">")%string) (caps := [(1, attrs)]) (r := post)
    (idx := 0) (prev := @None ascii) as [at_ Hs].
  - intros prev c s' Hc. rewrite Hin. now apply starts_lt_fails.
  - exact Hpre.
  - intros prev. now apply input_match.
  - exists at_. rewrite Hs. cbn [m_text m_rest append].
    assert (Hrest : forall fuel i p, all_from true input_pattern fuel i p post = []).
    { intros fuel i p. destruct fuel; [reflexivity|]. cbn [all_from].
      rewrite Hin. now rewrite (@search_markup_free _ _ post Hpost). }
    now rewrite Hrest.
Qed.

(** Markup with a single element, an input, gives the element that
    [parseHTMLAttributes] makes of the input's attribute text. *)
Lemma extractFromHTML_lone_input (pre attrs post : string) :
  markup_free pre = true ->
  attribute_text attrs = true ->
  markup_free post = true ->
  extractFromHTML (pre ++ "<input" ++ attrs ++ ">" ++ post)
  = match parseHTMLAttributes "input" attrs None with
    | Some element => [element]
    | None => []
    end.
Proof.
  intros Hpre Hattrs Hpost.
  destruct (attribute_text_parts _ Hattrs) as (Hfree & _ & _).
  assert (Htail : markup_free ("input" ++ attrs ++ ">" ++ post) = true).
  { unfold markup_free in *. cbn [append all_chars]. rewrite all_chars_app.
    cbn [append all_chars]. now rewrite Hfree, Hpost. }
  destruct (exec_all_input pre attrs post Hpre Hattrs Hpost) as [at_ Hinput].
  unfold extractFromHTML, patterns. cbn [flat_map fst snd]. rewrite Hinput.
  change (pre ++ "<input" ++ attrs ++ ">" ++ post)%string
    with (pre ++ String "<" ("input" ++ attrs ++ ">" ++ post))%string.
  unfold button_pattern, select_pattern, textarea_pattern, link_pattern.
  cbn [seq].
  rewrite !(@exec_all_only_at _ _ pre _ Hpre Htail)
    by (intros prev; unfold match_here; rewrite m_seq, m_lit_prefix; reflexivity).
  assert (Hhandler : exec_all true handler_pattern
                       (pre ++ String "<" ("input" ++ attrs ++ ">" ++ post)) = []).
  { pose proof (@exec_all_only_at EmptyString
                  (seq [RGroup 1 (plus (RSet CWord)); RWordBoundary;
                        RGroup 2 (seq [star not_gt; lit ("onclick=" ++ q); star not_dq;
                                       lit q; star not_gt]);
                        lit ">"; RGroup 3 (lazy_star any); lit "</"; RBackref 1; lit ">"])
                  pre _ Hpre Htail) as H.
    apply H. intros prev. now apply handler_needs_closing_tag. }
  rewrite Hhandler. cbn [flat_map List.app].
  unfold element_of_match, group. cbn [m_caps capture Nat.eqb orElse option_map].
  now rewrite !app_nil_r.
Qed.

(** A page whose body holds no opening angle bracket - an empty body, plain
    text - has no markup element: the model is that of the tree pass alone,
    and without a tree it is empty. *)
Theorem extractDOM_of_a_page_without_markup :
  forall snapshot : PageSnapshot,
    markup_free (bodyHTML snapshot) = true ->
    extractFromHTML (bodyHTML snapshot) = []
    /\ regions (extractDOM snapshot)
       = match accessibilityTree snapshot with
         | Some tree => groupByRegion (flattenAccessibilityTree tree None None 0)
         | None => []
         end
    /\ totalInteractiveElements (extractDOM snapshot)
       = List.length (tree_elements snapshot).
Proof.
  intros snapshot H. split; [now apply extractFromHTML_markup_free|].
  unfold extractDOM. cbn [regions totalInteractiveElements].
  rewrite (extractFromHTML_markup_free _ H).
  change (mergeHTMLElements ?r []) with r.
  split; [reflexivity|].
  rewrite TreePassFacts.total_is_count. cbn [Nat.add]. unfold tree_elements.
  destruct (accessibilityTree snapshot) as [tree|]; [|reflexivity].
  apply TreePassFacts.groupByRegion_count.
Qed.

(** The blank page of a crawl: no region, no element. *)
Lemma extractDOM_of_a_page_without_markup_witness :
  regions (extractDOM (Crawl.captureSnapshot ElementSamples.blankPage (-1)%Z)) = []
  /\ totalInteractiveElements
       (extractDOM (Crawl.captureSnapshot ElementSamples.blankPage (-1)%Z)) = 0.
Proof.
  exact (proj2 (extractDOM_of_a_page_without_markup
                  (Crawl.captureSnapshot ElementSamples.blankPage (-1)%Z) eq_refl)).
Defined.

(** Markup that holds one element, an input, in text that holds no other:
    the markup pass gives the one element that [parseHTMLAttributes] makes
    of the input's whole attribute text - a closing slash included - and no
    text; the patterns of the other elements find nothing.  On a page
    without an accessibility tree the model is that element in the catch-all
    region. *)
Theorem extractFromHTML_finds_a_lone_input :
  forall pre attrs post : string,
    markup_free pre = true ->
    attribute_text attrs = true ->
    markup_free post = true ->
    let found :=
      match parseHTMLAttributes "input" attrs None with
      | Some element => [element]
      | None => []
      end in
    extractFromHTML (pre ++ "<input" ++ attrs ++ ">" ++ post) = found
    /\ forall snapshot,
         bodyHTML snapshot = (pre ++ "<input" ++ attrs ++ ">" ++ post)%string ->
         accessibilityTree snapshot = None ->
         regions (extractDOM snapshot)
         = match found with
           | [] => []
           | _ => [ {| r_type := unknown; r_selector := "body"; label := None;
                       interactiveElements := found |} ]
           end.
Proof.
  intros pre attrs post Hpre Hattrs Hpost found.
  pose proof (extractFromHTML_lone_input pre attrs post Hpre Hattrs Hpost) as H.
  split; [exact H|].
  intros snapshot Hbody Htree. unfold extractDOM. cbn [regions].
  rewrite Hbody, Htree, H. subst found.
  destruct (parseHTMLAttributes "input" attrs None); reflexivity.
Qed.

(** An input with an id, between two pieces of text. *)
Lemma extractFromHTML_finds_a_lone_input_witness :
  map selector (extractFromHTML ElementSamples.emailMarkup) = ["#email"].
Proof.
  exact (f_equal (map selector)
           (proj1 (extractFromHTML_finds_a_lone_input
                     "Email: "
                     (" id=" ++ q ++ "email" ++ q ++ " type=" ++ q ++ "text" ++ q)
                     " (required)" eq_refl eq_refl eq_refl))).
Defined.

End ElementFacts.
